(** * MidiTok: decode state machines, validity scoring and track splitting

    A shallow embedding of the parts of [miditok/tokenizations/midi_like.py],
    [structured.py] and [mmm.py] that encode and decode token sequences,
    together with the properties of these functions.

    Python exceptions are values of [exn]; a function that may raise returns
    a [result].  Dictionaries that the code only indexes are [gmap]s;
    dictionaries that the code iterates over keep their insertion order and
    are association lists ([odict]). *)

From Stdlib Require Import ZArith List Lia Bool String Ascii QArith Sorted.
From stdpp Require Import base option list gmap strings pretty.

Local Open Scope string_scope.
Local Open Scope list_scope.
Local Open Scope Z_scope.

(** ** Python primitives *)

Module Py.

Inductive exn :=
  ValueError | KeyError | IndexError | ZeroDivisionError | AttributeError
  | TypeError.

#[global] Instance exn_eq_dec : EqDecision exn.
Proof. solve_decision. Defined.

Inductive result (A : Type) :=
| Ok (a : A)
| Raise (e : exn).
Arguments Ok {A} a.
Arguments Raise {A} e.

Definition bind {A B} (r : result A) (k : A -> result B) : result B :=
  match r with
  | Ok a => k a
  | Raise e => Raise e
  end.

Definition of_option {A} (o : option A) (e : exn) : result A :=
  match o with
  | Some a => Ok a
  | None => Raise e
  end.

Definition is_ok {A} (r : result A) : bool :=
  match r with
  | Ok _ => true
  | Raise _ => false
  end.

(** [s.split(sep)] for a one-character separator. *)
Fixpoint split (sep : ascii) (s : string) : list string :=
  match s with
  | EmptyString => [EmptyString]
  | String c r =>
      if Ascii.eqb c sep then EmptyString :: split sep r
      else match split sep r with
           | h :: t => String c h :: t
           | [] => [String c EmptyString]
           end
  end.

Definition digit (c : ascii) : option Z :=
  let n := Z.of_N (N_of_ascii c) in
  if (48 <=? n) && (n <=? 57) then Some (n - 48) else None.

Fixpoint digits (acc : Z) (s : string) : option Z :=
  match s with
  | EmptyString => Some acc
  | String c r =>
      match digit c with
      | Some d => digits (10 * acc + d) r
      | None => None
      end
  end.

(** [int(s)] on a string: an optional sign followed by one or more ASCII
    decimal digits, which is the shape of every integer value of the
    vocabulary.  Any other string is a [ValueError]. *)
Definition int (s : string) : result Z :=
  let unsigned (u : string) :=
    match u with
    | EmptyString => Raise ValueError
    | _ => of_option (digits 0 u) ValueError
    end in
  match s with
  | String "-" r => bind (unsigned r) (fun z => Ok (- z))
  | String "+" r => unsigned r
  | _ => unsigned s
  end.

(** The digits of a fraction: numerator and number of digits. *)
Fixpoint frac_digits (num : Z) (k : nat) (s : string) : option (Z * nat) :=
  match s with
  | EmptyString => Some (num, k)
  | String c r =>
      match digit c with
      | Some d => frac_digits (10 * num + d) (S k) r
      | None => None
      end
  end.

(** [float(s)] on a decimal literal: an optional sign, digits, and an
    optional point followed by digits, at least one digit in all.  The
    value is kept exact.  Any other string is a [ValueError]. *)
Definition float (s : string) : result Q :=
  let unsigned (u : string) : result Q :=
    match split "." u with
    | [i] =>
        match i with
        | EmptyString => Raise ValueError
        | _ => bind (of_option (digits 0 i) ValueError)
                 (fun z => Ok (inject_Z z))
        end
    | [i; f] =>
        match i, f with
        | EmptyString, EmptyString => Raise ValueError
        | _, _ =>
            bind (of_option (digits 0 i) ValueError) (fun z =>
            bind (of_option (frac_digits 0 0 f) ValueError) (fun nk =>
              Ok (Qmake (z * 10 ^ Z.of_nat (snd nk) + fst nk)
                    (Z.to_pos (10 ^ Z.of_nat (snd nk))))))
        end
    | _ => Raise ValueError
    end in
  match s with
  | String "-" r => bind (unsigned r) (fun q => Ok (Qopp q))
  | String "+" r => unsigned r
  | _ => unsigned s
  end.

(** [l[start:stop]] for non-negative bounds; [None] is an omitted bound. *)
Definition slice {A} (l : list A) (start : nat) (stop : option nat) : list A :=
  match stop with
  | None => drop start l
  | Some e => take (e - start) (drop start l)
  end.

(** [l[i]] for a non-negative index. *)
Definition index {A} (l : list A) (i : nat) : result A :=
  of_option (l !! i) IndexError.

(** [l[i]] for any integer index: a negative index counts from the end. *)
Definition getitem {A} (l : list A) (i : Z) : result A :=
  let n := Z.of_nat (length l) in
  if (0 <=? i) && (i <? n) then of_option (l !! Z.to_nat i) IndexError
  else if (- n <=? i) && (i <? 0) then of_option (l !! Z.to_nat (n + i)) IndexError
  else Raise IndexError.

(** [try: body except e: pass], the state before the body being [st]. *)
Definition try_except_pass {A} (body : result A) (e : exn) (st : A) : result A :=
  match body with
  | Ok a => Ok a
  | Raise e' => if decide (e' = e) then Ok st else Raise e'
  end.

(** A [for] loop whose body may raise. *)
Fixpoint foldlM {A S} (body : S -> A -> result S) (l : list A) (st : S)
  : result S :=
  match l with
  | [] => Ok st
  | a :: r => bind (body st a) (foldlM body r)
  end.

(** [range(a, b)] *)
Definition range (a b : Z) : list Z :=
  map (fun i => a + Z.of_nat i) (seq 0 (Z.to_nat (b - a))).

(** [np.where(np.array(l) == x)[0].tolist()]: the positions of [x]. *)
Fixpoint where_eq (x : Z) (l : list Z) (i : nat) : list nat :=
  match l with
  | [] => []
  | y :: r => if Z.eqb y x then i :: where_eq x r (S i) else where_eq x r (S i)
  end.

End Py.

Import Py.

#[global] Instance result_bind : MBind result := fun A B k r => Py.bind r k.
#[global] Instance result_ret : MRet result := @Py.Ok.

(** A value that is either a Python [int] or a Python [str]. *)
Inductive pyval :=
| VInt (z : Z)
| VStr (s : string).

#[global] Instance pyval_eq_dec : EqDecision pyval.
Proof. solve_decision. Defined.

(** [str(v)] *)
Definition str (v : pyval) : string :=
  match v with
  | VInt z => pretty z
  | VStr s => s
  end.

(** [int(v)] *)
Definition int_of (v : pyval) : result Z :=
  match v with
  | VInt z => Ok z
  | VStr s => Py.int s
  end.

(** [v == z] for an [int] [z]: a [str] never equals an [int]. *)
Definition eq_int (v : pyval) (z : Z) : bool :=
  match v with
  | VInt z' => z' =? z
  | VStr _ => false
  end.

(** [Event] of [miditok/classes.py].  [desc] is kept as the integer it
    carries (the end tick of a note, or the tick count that a textual
    description prints). *)
Record Event := mkEvent {
  type_ : string;
  value : pyval;
  time : Z;
  desc : Z
}.

(** [str(event)]: the token ["Type_Value"]. *)
Definition token_of_event (e : Event) : string :=
  type_ e +:+ "_" +:+ str (value e).

(** The [Event] that [tokens_errors] builds from the two parts of a token;
    its time and description are not read. *)
Definition event_of_token (tok : string) : result Event :=
  match Py.split "_" tok with
  | [ty; val] => Ok (mkEvent ty (VStr val) 0 0)
  | _ => Raise ValueError
  end.

(** ** The multi-track wrapper ([mmm.py]) *)

Module MMM.

(** The views of a [TokSequence] that the wrapper reads and writes.  All
    views are cut at the same bounds by a slice and joined by [+]. *)
Record TokSequence := mkTokSequence {
  events : list Event;
  tokens : list string;
  ids : list Z;
  are_ids_encoded : bool
}.

Definition tokseq_slice (s : TokSequence) (start : nat) (stop : option nat)
  : TokSequence :=
  {| events := Py.slice (events s) start stop;
     tokens := Py.slice (tokens s) start stop;
     ids := Py.slice (ids s) start stop;
     are_ids_encoded := are_ids_encoded s |}.

Definition tokseq_add (a b : TokSequence) : TokSequence :=
  {| events := events a ++ events b;
     tokens := tokens a ++ tokens b;
     ids := ids a ++ ids b;
     are_ids_encoded := are_ids_encoded a |}.

(** What [_score_to_tokens] returns: one concatenated sequence, the integer
    [0] that [sum] gives on an empty list, or the list of track sequences. *)
Inductive ScoreTokens :=
| Concatenated (s : TokSequence)
| IntZero
| PerTrack (l : list TokSequence).

(** [sum(sequences)]: [0 + s] is [s]. *)
Definition tokseq_sum (l : list TokSequence) : ScoreTokens :=
  match l with
  | [] => IntZero
  | a :: r => Concatenated (fold_left tokseq_add r a)
  end.

Record Config := mkConfig {
  vocab : gmap string Z;
  encode_ids_split : string;
  concatenate_track_sequences : bool;
  (** [base_tokenizer._add_time_events] *)
  base_add_time_events : list Event -> Z -> result (list Event);
  (** [MusicTokenizer.encode_token_ids] of the parent class, as a function
      of the ids of one sequence. *)
  super_encode_token_ids : list Z -> list Z
}.

(** The vocabulary maps distinct tokens to distinct ids. *)
Definition vocab_injective (v : gmap string Z) : Prop :=
  ∀ t1 t2 i, v !! t1 = Some i → v !! t2 = Some i → t1 = t2.

(** The ids [out] are cut into one run per track, and the ids of each run
    expand to the ids of its track and to nothing else: no id of [out]
    covers base ids of two tracks. *)
Definition track_local (expand : Z -> list Z) (tracks : list (list Z))
  (out : list Z) : Prop :=
  ∃ runs, concat runs = out
          ∧ Forall2 (λ run tr, flat_map expand run = tr) runs tracks.

(** The local [track_events] of [_add_time_events]. *)
Definition track_events_of (cfg : Config) (evs : list Event)
  (time_division : Z) : result (list Event) :=
  if (length evs <? 2)%nat then Ok evs
  else base_add_time_events cfg evs time_division.

Definition _add_time_events (cfg : Config) (evs : list Event) (time_division : Z)
  : result (list Event) :=
  track_events ← track_events_of cfg evs time_division;
  let track_start_event := mkEvent "Track" (VStr "Start") 0 0 in
  last_event ← Py.of_option (last track_events) IndexError;
  let track_end_event := mkEvent "Track" (VStr "End") (time last_event + 1) 0 in
  Ok (track_start_event :: track_events ++ [track_end_event]).

(** [complete_sequence] on a sequence given by its events: the tokens are
    the printed events and the ids their entries in the vocabulary. *)
Definition complete_sequence (cfg : Config) (evs : list Event)
  : result TokSequence :=
  let toks := map token_of_event evs in
  ids_ ← mapM (fun t => Py.of_option (vocab cfg !! t) KeyError) toks;
  Ok {| events := evs; tokens := toks; ids := ids_; are_ids_encoded := false |}.

(** Modelled from the spec: the parent's [_score_to_tokens] with
    [one_token_stream] off, which is outside the embedded files: the base
    scheme runs per track, each track's events going through
    [_add_time_events] and then [complete_sequence].  The score is given by
    the event lists of its tracks. *)
Definition super_score_to_tokens (cfg : Config) (tracks : list (list Event))
  (time_division : Z) : result (list TokSequence) :=
  mapM (fun evs =>
          all_events ← _add_time_events cfg evs time_division;
          complete_sequence cfg all_events) tracks.

Definition _score_to_tokens (cfg : Config) (tracks : list (list Event))
  (time_division : Z) : result ScoreTokens :=
  sequences ← super_score_to_tokens cfg tracks time_division;
  if concatenate_track_sequences cfg
  then Ok (tokseq_sum sequences)
  else Ok (PerTrack sequences).

Fixpoint split_loop (tokseq : TokSequence) (keep_track_tokens : bool)
  (track_tokens_idx : list nat) : list TokSequence :=
  match track_tokens_idx with
  | [] => []
  | track_idx :: rest =>
      let idx_end :=
        match rest with
        | [] => None
        | next :: _ =>
            if keep_track_tokens then Some next else Some (next - 1)%nat
        end in
      let idx_start :=
        if keep_track_tokens then track_idx else (track_idx + 1)%nat in
      tokseq_slice tokseq idx_start idx_end
        :: split_loop tokseq keep_track_tokens rest
  end.

(** The slices of one view, as [split_loop] cuts them. *)
Fixpoint slices_of {A} (keep : bool) (l : list A) (idx : list nat)
  : list (list A) :=
  match idx with
  | [] => []
  | i :: rest =>
      Py.slice l (if keep then i else (i + 1)%nat)
        (match rest with
         | [] => None
         | next :: _ => if keep then Some next else Some (next - 1)%nat
         end)
        :: slices_of keep l rest
  end.

Definition split_tokseq_per_track (cfg : Config) (tokseq : TokSequence)
  (keep_track_tokens : bool) : result (list TokSequence) :=
  track_start ← Py.of_option (vocab cfg !! "Track_Start") KeyError;
  let track_tokens_idx := Py.where_eq track_start (ids tokseq) 0 in
  if (length track_tokens_idx =? 0)%nat then Ok [tokseq]
  else Ok (split_loop tokseq keep_track_tokens track_tokens_idx).

Definition set_encoded_ids (seq : TokSequence) (new_ids : list Z) : TokSequence :=
  {| events := events seq; tokens := tokens seq;
     ids := new_ids; are_ids_encoded := true |}.

(** [encode_token_ids] on one [TokSequence]; the result is the sequence as
    the in-place update leaves it. *)
Definition encode_token_ids (cfg : Config) (seq : TokSequence)
  : result TokSequence :=
  if String.eqb (encode_ids_split cfg) "no"
  then Ok (set_encoded_ids seq (super_encode_token_ids cfg (ids seq)))
  else
    seqs_split ← split_tokseq_per_track cfg seq true;
    let encoded := map (fun s => super_encode_token_ids cfg (ids s)) seqs_split in
    Ok (set_encoded_ids seq (concat encoded)).

(** [encode_token_ids] on a list of sequences. *)
Definition encode_token_ids_list (cfg : Config) (seqs : list TokSequence)
  : result (list TokSequence) :=
  if String.eqb (encode_ids_split cfg) "no"
  then Ok (map (fun s => set_encoded_ids s (super_encode_token_ids cfg (ids s))) seqs)
  else mapM (encode_token_ids cfg) seqs.

End MMM.

(** ** Insertion-ordered dictionaries with integer keys

    A Python [dict] that is iterated over: [set] replaces the value of a
    key in place and appends a new key at the end. *)

Module ODict.

Definition t (V : Type) := list (Z * V).

Fixpoint get {V} (d : t V) (k : Z) : option V :=
  match d with
  | [] => None
  | (k', v) :: r => if Z.eqb k' k then Some v else get r k
  end.

Fixpoint set {V} (d : t V) (k : Z) (v : V) : t V :=
  match d with
  | [] => [(k, v)]
  | (k', v') :: r =>
      if Z.eqb k' k then (k', v) :: r else (k', v') :: set r k v
  end.

Definition mem {V} (d : t V) (k : Z) : bool :=
  match get d k with Some _ => true | None => false end.

Definition values {V} (d : t V) : list V := map snd d.

(** [{k: f(k) for k in keys}] *)
Definition comprehension {V} (keys : list Z) (f : Z -> V) : t V :=
  fold_left (fun d k => set d k (f k)) keys [].

End ODict.

(** ** The score objects built by the decoders ([symusic]) *)

Record Note := mkNote {
  note_time : Z;
  note_duration : Z;
  note_pitch : Z;
  note_velocity : Z
}.

Definition note_end (n : Note) : Z := note_time n + note_duration n.

Record Pedal := mkPedal { pedal_time : Z; pedal_duration : Z }.

Record PitchBend := mkPitchBend { bend_time : Z; bend_value : Z }.

Record Track := mkTrack {
  program : Z;
  is_drum : bool;
  name : string;
  notes : list Note;
  pedals : list Pedal;
  pitch_bends : list PitchBend
}.

Definition track_add_note (t : Track) (n : Note) : Track :=
  {| program := program t; is_drum := is_drum t; name := name t;
     notes := notes t ++ [n]; pedals := pedals t;
     pitch_bends := pitch_bends t |}.

Definition track_add_pedal (t : Track) (p : Pedal) : Track :=
  {| program := program t; is_drum := is_drum t; name := name t;
     notes := notes t; pedals := pedals t ++ [p];
     pitch_bends := pitch_bends t |}.

Definition track_add_pitch_bend (t : Track) (b : PitchBend) : Track :=
  {| program := program t; is_drum := is_drum t; name := name t;
     notes := notes t; pedals := pedals t;
     pitch_bends := pitch_bends t ++ [b] |}.

(** [Track(program=..., is_drum=..., name=...)] of [symusic], which holds
    the program of a track as an unsigned 8-bit integer: the constructor
    raises [TypeError] on a program outside 0..255, and gives a track
    without notes, pedals or pitch bends otherwise. *)
Definition Track_new (program_ : Z) (is_drum_ : bool) (name_ : string)
  : result Track :=
  if (0 <=? program_) && (program_ <? 256)
  then Ok (mkTrack program_ is_drum_ name_ [] [] [])
  else Raise TypeError.

(** [Track(program=0 if prog == -1 else prog, is_drum=prog == -1,
    name="Drums" if prog == -1 else MIDI_INSTRUMENTS[prog]["name"])];
    [MIDI_INSTRUMENTS] is given by the list of its names.  The name is
    looked up before the constructor is called. *)
Definition new_inst_track (MIDI_INSTRUMENTS : list string) (prog : Z)
  : result Track :=
  name_ ← (if prog =? -1 then Ok "Drums"
           else Py.getitem MIDI_INSTRUMENTS prog);
  Track_new (if prog =? -1 then 0 else prog) (prog =? -1) name_.

(** The closure [check_inst] of both decoders. *)
Definition check_inst (MIDI_INSTRUMENTS : list string)
  (tracks : ODict.t Track) (prog : Z) : result (ODict.t Track) :=
  if ODict.mem tracks prog then Ok tracks
  else t ← new_inst_track MIDI_INSTRUMENTS prog;
       Ok (ODict.set tracks prog t).

(** [Track(program=current_program, is_drum=is_drum, name=...)] at the start
    of a sequence when the tracks are decoded separately: the program is
    passed as it is, so that the program -1 of the drums, which gets the
    name ["Drums"], makes the constructor raise [TypeError]. *)
Definition new_seq_track (MIDI_INSTRUMENTS : list string)
  (current_program : Z) (is_drum_ : bool) : result Track :=
  name_ ← (if current_program =? -1 then Ok "Drums"
           else Py.getitem MIDI_INSTRUMENTS current_program);
  Track_new current_program is_drum_ name_.

(** [token.split("_")[0]] *)
Definition token_type (token : string) : string :=
  hd "" (Py.split "_" token).

(** [token.split("_")[1]] *)
Definition token_value (token : string) : result string :=
  Py.index (Py.split "_" token) 1.

(** [tok_type, tok_val = token.split("_")] *)
Definition split_token (token : string) : result (string * string) :=
  match Py.split "_" token with
  | [ty; val] => Ok (ty, val)
  | _ => Raise ValueError
  end.

(** ** The fixed-pattern scheme ([structured.py]) *)

Module Structured.

Record Config := mkConfig {
  one_token_stream : bool;
  use_programs : bool;
  time_division : Z;
  (** [self._tpb_ticks_to_tokens]: ticks per beat, then ticks, to the
      ["beat.pos.res"] value of a token. *)
  _tpb_ticks_to_tokens : gmap Z (gmap Z string);
  (** [self._tpb_tokens_to_ticks]: the table in the other direction. *)
  _tpb_tokens_to_ticks : gmap Z (gmap string Z);
  MIDI_INSTRUMENTS : list string
}.

(** [self._tpb_ticks_to_tokens[tpb][ticks]] *)
Definition ticks_to_token (cfg : Config) (tpb ticks : Z) : result string :=
  table ← Py.of_option (_tpb_ticks_to_tokens cfg !! tpb) KeyError;
  Py.of_option (table !! ticks) KeyError.

(** [self._tpb_tokens_to_ticks[tpb][token_val]] *)
Definition token_to_ticks (cfg : Config) (tpb : Z) (val : string) : result Z :=
  table ← Py.of_option (_tpb_tokens_to_ticks cfg !! tpb) KeyError;
  Py.of_option (table !! val) KeyError.

(** The events of one note in [_create_track_events]. *)
Definition note_events (cfg : Config) (program_ : Z) (previous_tick : Z)
  (note : Note) : result (list Event) :=
  shift ←
    (if one_token_stream cfg then Ok []
     else
       let time_shift_ticks := note_time note - previous_tick in
       time_shift ←
         (if negb (time_shift_ticks =? 0)
          then ticks_to_token cfg (time_division cfg) time_shift_ticks
          else Ok "0.0.1");
       Ok [mkEvent "TimeShift" (VStr time_shift) (note_time note) time_shift_ticks]);
  let prog :=
    if use_programs cfg
    then [mkEvent "Program" (VInt program_) (note_time note) (note_end note)]
    else [] in
  dur ← ticks_to_token cfg (time_division cfg) (note_duration note);
  Ok (shift ++ prog
        ++ [mkEvent "Pitch" (VInt (note_pitch note)) (note_time note)
              (note_end note);
            mkEvent "Velocity" (VInt (note_velocity note)) (note_time note)
              (note_velocity note);
            mkEvent "Duration" (VStr dur) (note_time note) (note_duration note)]).

Fixpoint create_loop (cfg : Config) (program_ : Z) (track_notes : list Note)
  (previous_tick : Z) (evs : list Event) : result (list Event) :=
  match track_notes with
  | [] => Ok evs
  | note :: rest =>
      new ← note_events cfg program_ previous_tick note;
      create_loop cfg program_ rest (note_time note) (evs ++ new)
  end.

Definition _create_track_events (cfg : Config) (track : Track)
  : result (list Event) :=
  let program_ := if negb (is_drum track) then program track else -1 in
  create_loop cfg program_ (notes track) 0 [].

Fixpoint add_time_loop (cfg : Config) (token_type_to_check : string)
  (time_division_ : Z) (evs : list Event) (previous_tick : Z)
  (all_events : list Event) : result (list Event) :=
  match evs with
  | [] => Ok all_events
  | event :: rest =>
      if String.eqb (type_ event) token_type_to_check then
        let time_shift_ticks := time event - previous_tick in
        time_shift ←
          (if negb (time_shift_ticks =? 0)
           then ticks_to_token cfg time_division_ time_shift_ticks
           else Ok "0.0.1");
        add_time_loop cfg token_type_to_check time_division_ rest (time event)
          (all_events
             ++ [mkEvent "TimeShift" (VStr time_shift) (time event) time_shift_ticks]
             ++ [event])
      else
        add_time_loop cfg token_type_to_check time_division_ rest previous_tick
          (all_events ++ [event])
  end.

Definition _add_time_events (cfg : Config) (evs : list Event)
  (time_division_ : Z) : result (list Event) :=
  let token_type_to_check :=
    if one_token_stream cfg then "Program" else "Pitch" in
  add_time_loop cfg token_type_to_check time_division_ evs 0 [].

(** The variables of [_tokens_to_midi] that the loops update. *)
Record State := mkState {
  current_tick : Z;
  current_program : Z;
  instruments : ODict.t Track;
  current_instrument : option Track;
  midi_tracks : list Track
}.

Definition set_tick (st : State) (t : Z) : State :=
  mkState t (current_program st) (instruments st) (current_instrument st)
    (midi_tracks st).

Definition set_program (st : State) (p : Z) : State :=
  mkState (current_tick st) p (instruments st) (current_instrument st)
    (midi_tracks st).

(** Appending [new_note] to the track it belongs to. *)
Definition add_note (cfg : Config) (st : State) (new_note : Note)
  : result State :=
  if one_token_stream cfg then
    insts ← check_inst (MIDI_INSTRUMENTS cfg) (instruments st)
              (current_program st);
    tr ← Py.of_option (ODict.get insts (current_program st)) KeyError;
    Ok (mkState (current_tick st) (current_program st)
          (ODict.set insts (current_program st) (track_add_note tr new_note))
          (current_instrument st) (midi_tracks st))
  else
    tr ← Py.of_option (current_instrument st) AttributeError;
    Ok (mkState (current_tick st) (current_program st) (instruments st)
          (Some (track_add_note tr new_note)) (midi_tracks st)).

(** The body of the [try] of a [Pitch] token at position [ti]. *)
Definition pitch_body (cfg : Config) (seq : list string) (ti : nat)
  (st : State) : result State :=
  next1 ← Py.index seq (ti + 1);
  if String.eqb (token_type next1) "Velocity" then
    next2 ← Py.index seq (ti + 2);
    if String.eqb (token_type next2) "Duration" then
      tok ← Py.index seq ti;
      pitch_s ← token_value tok;
      pitch ← Py.int pitch_s;
      vel_s ← token_value next1;
      vel ← Py.int vel_s;
      dur_s ← token_value next2;
      duration ← token_to_ticks cfg (time_division cfg) dur_s;
      add_note cfg st (mkNote (current_tick st) duration pitch vel)
    else Ok st
  else Ok st.

(** One iteration of the token loop. *)
Definition decode_token (cfg : Config) (seq : list string) (ti : nat)
  (token : string) (st : State) : result State :=
  '(token_type, token_val) ← split_token token;
  if String.eqb token_type "TimeShift" && negb (String.eqb token_val "0.0.1")
  then
    ticks ← token_to_ticks cfg (time_division cfg) token_val;
    Ok (set_tick st (current_tick st + ticks))
  else if String.eqb token_type "Pitch" then
    Py.try_except_pass (pitch_body cfg seq ti st) IndexError st
  else if String.eqb token_type "Program" then
    p ← Py.int token_val;
    Ok (set_program st p)
  else Ok st.

Fixpoint decode_tokens (cfg : Config) (seq : list string) (rest : list string)
  (ti : nat) (st : State) : result State :=
  match rest with
  | [] => Ok st
  | token :: rest' =>
      st' ← decode_token cfg seq ti token st;
      decode_tokens cfg seq rest' (S ti) st'
  end.

(** One iteration of the loop over the sequences. *)
Definition decode_seq (cfg : Config) (programs : option (list (Z * bool)))
  (si : nat) (seq : list string) (st : State) : result State :=
  st1 ←
    (if negb (one_token_stream cfg) then
       '(prog, is_drum_) ←
         match programs with
         | Some ps => Py.index ps si
         | None => Ok (current_program st, false)
         end;
       tr ← new_seq_track (MIDI_INSTRUMENTS cfg) prog is_drum_;
       Ok (mkState 0 prog (instruments st) (Some tr) (midi_tracks st))
     else Ok st);
  st2 ← decode_tokens cfg seq seq 0 st1;
  if negb (one_token_stream cfg) then
    tr ← Py.of_option (current_instrument st2) AttributeError;
    Ok (mkState (current_tick st2) (current_program st2) (instruments st2)
          (current_instrument st2) (midi_tracks st2 ++ [tr]))
  else Ok st2.

Fixpoint decode_seqs (cfg : Config) (programs : option (list (Z * bool)))
  (tokens : list (list string)) (si : nat) (st : State) : result State :=
  match tokens with
  | [] => Ok st
  | seq :: rest =>
      st' ← decode_seq cfg programs si seq st;
      decode_seqs cfg programs rest (S si) st'
  end.

(** [_tokens_to_midi]: [tokens] is the list of token lists after the
    unsqueeze of the one-stream case; the result is [midi.tracks]. *)
Definition _tokens_to_midi (cfg : Config) (tokens : list (list string))
  (programs : option (list (Z * bool))) : result (list Track) :=
  st ← decode_seqs cfg programs tokens 0 (mkState 0 0 [] None []);
  if one_token_stream cfg then Ok (ODict.values (instruments st))
  else Ok (midi_tracks st).

End Structured.

(** ** The FIFO note-on/note-off scheme ([midi_like.py]) *)

Module MIDILike.

(** The argument of [_token_duration_to_ticks]: the value of a token or a
    tuple [(num_beats, num_frames, res_frames)]. *)
Inductive dur_arg :=
| DurVal (v : pyval)
| DurTuple (beat pos res : Z).

Record Tempo := mkTempo { tempo_time : Z; tempo_value : Q }.

Record TimeSignature := mkTimeSignature {
  ts_time : Z;
  ts_numerator : Z;
  ts_denominator : Z
}.

Record Config := mkConfig {
  one_token_stream : bool;
  use_programs : bool;
  use_rests : bool;
  sustain_pedal_duration : bool;
  remove_duplicated_notes : bool;
  programs : list Z;
  pitch_range : Z * Z;
  beat_res_values : list Z;
  time_division : Z;
  _min_rest : Z;
  (** [config.additional_params.get("max_duration", None)] *)
  max_duration : option (Z * Z * Z);
  tokens_types_graph : gmap string (list string);
  (** Methods of the parent class, outside the embedded files. *)
  _token_duration_to_ticks : dur_arg -> Z -> result Z;
  _ticks_to_duration_tokens : Z -> bool -> list (list Z * Z);
  _parse_token_time_signature : string -> result (Z * Z);
  MIDI_INSTRUMENTS : list string;
  (** [Note(time, duration, pitch, velocity)] of [symusic], outside the
      embedded files: whether the four integers fit the fields of a
      note.  The constructor raises [TypeError] when they do not. *)
  Note_fits : Z -> Z -> Z -> Z -> bool
}.

(** The variables of [_tokens_to_midi] that the loops update.  The tracks
    created for the sequences live in [store]; [current_instrument] and
    the entries of [midi_tracks] are references into it, so that a note
    appended to the current instrument is seen through [midi.tracks]. *)
Record State := mkState {
  current_tick : Z;
  current_program : Z;
  previous_pitch_onset : gmap Z Z;
  previous_pitch_chord : gmap Z Z;
  active_pedals : gmap Z Z;
  active_notes : ODict.t (ODict.t (list (Z * Z)));
  tracks : ODict.t Track;
  store : list Track;
  current_instrument : option nat;
  midi_tracks : list nat;
  tempo_changes : list Tempo;
  time_signature_changes : list TimeSignature
}.

Definition set_tick (st : State) (t : Z) : State :=
  mkState t (current_program st) (previous_pitch_onset st)
    (previous_pitch_chord st) (active_pedals st) (active_notes st) (tracks st)
    (store st) (current_instrument st) (midi_tracks st) (tempo_changes st)
    (time_signature_changes st).

Definition set_program (st : State) (p : Z) : State :=
  mkState (current_tick st) p (previous_pitch_onset st)
    (previous_pitch_chord st) (active_pedals st) (active_notes st) (tracks st)
    (store st) (current_instrument st) (midi_tracks st) (tempo_changes st)
    (time_signature_changes st).

Definition set_previous (st : State) (onset chord : gmap Z Z) : State :=
  mkState (current_tick st) (current_program st) onset chord
    (active_pedals st) (active_notes st) (tracks st)
    (store st) (current_instrument st) (midi_tracks st) (tempo_changes st)
    (time_signature_changes st).

Definition set_active_pedals (st : State) (ap : gmap Z Z) : State :=
  mkState (current_tick st) (current_program st) (previous_pitch_onset st)
    (previous_pitch_chord st) ap (active_notes st) (tracks st)
    (store st) (current_instrument st) (midi_tracks st) (tempo_changes st)
    (time_signature_changes st).

Definition set_active_notes (st : State)
  (an : ODict.t (ODict.t (list (Z * Z)))) : State :=
  mkState (current_tick st) (current_program st) (previous_pitch_onset st)
    (previous_pitch_chord st) (active_pedals st) an (tracks st)
    (store st) (current_instrument st) (midi_tracks st) (tempo_changes st)
    (time_signature_changes st).

Definition set_tracks (st : State) (tr : ODict.t Track) : State :=
  mkState (current_tick st) (current_program st) (previous_pitch_onset st)
    (previous_pitch_chord st) (active_pedals st) (active_notes st) tr
    (store st) (current_instrument st) (midi_tracks st) (tempo_changes st)
    (time_signature_changes st).

Definition set_store (st : State) (s : list Track) : State :=
  mkState (current_tick st) (current_program st) (previous_pitch_onset st)
    (previous_pitch_chord st) (active_pedals st) (active_notes st) (tracks st)
    s (current_instrument st) (midi_tracks st) (tempo_changes st)
    (time_signature_changes st).

Definition set_tempos (st : State) (t : list Tempo) : State :=
  mkState (current_tick st) (current_program st) (previous_pitch_onset st)
    (previous_pitch_chord st) (active_pedals st) (active_notes st) (tracks st)
    (store st) (current_instrument st) (midi_tracks st) t
    (time_signature_changes st).

Definition set_time_signatures (st : State) (t : list TimeSignature) : State :=
  mkState (current_tick st) (current_program st) (previous_pitch_onset st)
    (previous_pitch_chord st) (active_pedals st) (active_notes st) (tracks st)
    (store st) (current_instrument st) (midi_tracks st) (tempo_changes st) t.

(** [check_inst(prog); tracks[prog].<list>.append(x)] in one-stream mode,
    [current_instrument.<list>.append(x)] otherwise; [add] is the append. *)
Definition add_to_track (cfg : Config) (st : State) (prog : Z)
  (add : Track -> Track) : result State :=
  if one_token_stream cfg then
    trs ← check_inst (MIDI_INSTRUMENTS cfg) (tracks st) prog;
    tr ← Py.of_option (ODict.get trs prog) KeyError;
    Ok (set_tracks st (ODict.set trs prog (add tr)))
  else
    ref ← Py.of_option (current_instrument st) AttributeError;
    tr ← Py.of_option (store st !! ref) AttributeError;
    Ok (set_store st (<[ref := add tr]> (store st))).

(** [Note(time, duration, pitch, velocity)] *)
Definition new_note (cfg : Config) (time_ duration_ pitch_ velocity_ : Z)
  : result Note :=
  if Note_fits cfg time_ duration_ pitch_ velocity_
  then Ok (mkNote time_ duration_ pitch_ velocity_)
  else Raise TypeError.

(** The onsets that [clear_active_notes] walks in the queues of one
    program, in the order of the loops: pitch, onset tick and velocity. *)
Definition queued_onsets (active_notes_ : ODict.t (list (Z * Z)))
  : list (Z * Z * Z) :=
  flat_map (fun '(pitch_, note_ons) =>
              map (fun '(onset_tick, vel_) => (pitch_, onset_tick, vel_))
                note_ons)
    active_notes_.

(** The body of the loops of [clear_active_notes]:
    [check_inst(program); tracks[program].notes.append(Note(...))] in
    one-stream mode, [current_instrument.notes.append(Note(...))]
    otherwise.  The track is looked up before the note is built. *)
Definition flush_note (cfg : Config) (max_duration_ : Z) (program_ : Z)
  (st : State) (onset : Z * Z * Z) : result State :=
  let '(pitch_, onset_tick, vel_) := onset in
  if one_token_stream cfg then
    trs ← check_inst (MIDI_INSTRUMENTS cfg) (tracks st) program_;
    tr ← Py.of_option (ODict.get trs program_) KeyError;
    n ← new_note cfg onset_tick max_duration_ pitch_ vel_;
    Ok (set_tracks st (ODict.set trs program_ (track_add_note tr n)))
  else
    ref ← Py.of_option (current_instrument st) AttributeError;
    tr ← Py.of_option (store st !! ref) AttributeError;
    n ← new_note cfg onset_tick max_duration_ pitch_ vel_;
    Ok (set_store st (<[ref := track_add_note tr n]> (store st))).

(** The closure [clear_active_notes]; [max_duration_] is the local
    variable, in ticks. *)
Definition clear_active_notes (cfg : Config) (max_duration_ : option Z)
  (st : State) : result State :=
  match max_duration_ with
  | None => Ok st
  | Some md =>
      if one_token_stream cfg then
        Py.foldlM
          (fun st1 '(program_, active_notes_) =>
             Py.foldlM (flush_note cfg md program_)
               (queued_onsets active_notes_) st1)
          (active_notes st) st
      else
        ref ← Py.of_option (current_instrument st) AttributeError;
        tr ← Py.of_option (store st !! ref) AttributeError;
        active_notes_ ←
          Py.of_option (ODict.get (active_notes st) (program tr)) KeyError;
        Py.foldlM (flush_note cfg md (program tr))
          (queued_onsets active_notes_) st
  end.

(** [{pi: [] for pi in range(pitch_range[0], pitch_range[1] + 1)}] *)
Definition empty_queues (cfg : Config) : ODict.t (list (Z * Z)) :=
  ODict.comprehension
    (Py.range (fst (pitch_range cfg)) (snd (pitch_range cfg) + 1))
    (fun _ => []).

(** [active_notes[current_program][pitch]] *)
Definition get_queue (st : State) (prog pitch : Z) : result (list (Z * Z)) :=
  d ← Py.of_option (ODict.get (active_notes st) prog) KeyError;
  Py.of_option (ODict.get d pitch) KeyError.

(** Storing [q] as the queue of [(prog, pitch)], both keys being present. *)
Definition put_queue (st : State) (prog pitch : Z) (q : list (Z * Z))
  : result State :=
  d ← Py.of_option (ODict.get (active_notes st) prog) KeyError;
  Ok (set_active_notes st
        (ODict.set (active_notes st) prog (ODict.set d pitch q))).

(** The notes of the track that receives the notes closed under program
    [prog]: [tracks[prog]] in one-stream mode (none yet when the track does
    not exist), the current instrument otherwise. *)
Definition dest_notes (cfg : Config) (st : State) (prog : Z) : list Note :=
  if one_token_stream cfg then
    match ODict.get (tracks st) prog with
    | Some t => notes t
    | None => []
    end
  else
    match current_instrument st with
    | Some ref =>
        match store st !! ref with
        | Some t => notes t
        | None => []
        end
    | None => []
    end.

(** The track that receives the notes closed under [prog] exists or can be
    created. *)
Definition dest_available (cfg : Config) (st : State) (prog : Z) : Prop :=
  if one_token_stream cfg then
    ODict.mem (tracks st) prog = true
    ∨ ∃ t, new_inst_track (MIDI_INSTRUMENTS cfg) prog = Ok t
  else
    ∃ ref t, current_instrument st = Some ref ∧ store st !! ref = Some t.

(** [t in l] for a list of type names. *)
Definition in_types (t : string) (l : list string) : bool :=
  existsb (String.eqb t) l.

(** The pitch of a [NoteOn], [NoteOff], [PitchIntervalTime] or
    [PitchIntervalChord] token, with the update of the previous pitches. *)
Definition resolve_pitch (st : State) (tok_type tok_val : string)
  : result (Z * State) :=
  let cp := current_program st in
  if String.eqb tok_type "PitchIntervalTime" then
    prev ← Py.of_option (previous_pitch_onset st !! cp) KeyError;
    d ← Py.int tok_val;
    let pitch := prev + d in
    Ok (pitch, set_previous st (<[cp := pitch]> (previous_pitch_onset st))
                 (<[cp := pitch]> (previous_pitch_chord st)))
  else if String.eqb tok_type "PitchIntervalChord" then
    prev ← Py.of_option (previous_pitch_chord st !! cp) KeyError;
    d ← Py.int tok_val;
    let pitch := prev + d in
    Ok (pitch, set_previous st (previous_pitch_onset st)
                 (<[cp := pitch]> (previous_pitch_chord st)))
  else
    pitch ← Py.int tok_val;
    if String.eqb tok_type "NoteOn" then
      Ok (pitch, set_previous st (<[cp := pitch]> (previous_pitch_onset st))
                   (<[cp := pitch]> (previous_pitch_chord st)))
    else Ok (pitch, st).

(** The branch [if tok_type != "NoteOff"]: the onset is queued. *)
Definition note_on (seq : list string) (ti : nat) (pitch : Z) (st : State)
  : result State :=
  if (ti + 1 <? length seq)%nat then
    next ← Py.index seq (ti + 1);
    vel_s ← token_value next;
    vel ← Py.int vel_s;
    q ← get_queue st (current_program st) pitch;
    put_queue st (current_program st) pitch (q ++ [(current_tick st, vel)])
  else Ok st.

(** The branch of a [NoteOff]: the oldest onset is closed. *)
Definition note_off (cfg : Config) (max_duration_ : option Z) (pitch : Z)
  (st : State) : result State :=
  q ← get_queue st (current_program st) pitch;
  match q with
  | [] => Ok st
  | (note_onset_tick, vel) :: q' =>
      st1 ← put_queue st (current_program st) pitch q';
      let duration := current_tick st - note_onset_tick in
      let duration :=
        match max_duration_ with
        | Some md => if duration >? md then md else duration
        | None => duration
        end in
      new_note_ ← new_note cfg note_onset_tick duration pitch vel;
      add_to_track cfg st1 (current_program st)
        (fun t => track_add_note t new_note_)
  end.

Definition pedal_prog_of (cfg : Config) (st : State) (tok_val : string)
  : result Z :=
  if use_programs cfg then Py.int tok_val else Ok (current_program st).

(** One iteration of the token loop: [seq[ti]] is [token], in the sequence
    of index [si]. *)
Definition decode_token (cfg : Config) (max_duration_ : option Z)
  (time_division_ : Z) (seq : list string) (si ti : nat) (token : string)
  (st : State) : result State :=
  '(tok_type, tok_val) ← split_token token;
  if in_types tok_type ["TimeShift"; "Rest"] then
    ticks ← _token_duration_to_ticks cfg (DurVal (VStr tok_val)) time_division_;
    Ok (set_tick st (current_tick st + ticks))
  else if in_types tok_type
            ["NoteOn"; "NoteOff"; "PitchIntervalTime"; "PitchIntervalChord"]
  then
    '(pitch, st1) ← resolve_pitch st tok_type tok_val;
    if negb (String.eqb tok_type "NoteOff") then note_on seq ti pitch st1
    else note_off cfg max_duration_ pitch st1
  else if String.eqb tok_type "Program" then
    p ← Py.int tok_val;
    Ok (set_program st p)
  else if String.eqb tok_type "Tempo" && (si =? 0)%nat then
    v ← Py.float tok_val;
    Ok (set_tempos st (tempo_changes st ++ [mkTempo (current_tick st) v]))
  else if String.eqb tok_type "TimeSig" && (si =? 0)%nat then
    '(num, den) ← _parse_token_time_signature cfg tok_val;
    Ok (set_time_signatures st
          (time_signature_changes st
             ++ [mkTimeSignature (current_tick st) num den]))
  else if String.eqb tok_type "Pedal" then
    pedal_prog ← pedal_prog_of cfg st tok_val;
    if sustain_pedal_duration cfg && (ti + 1 <? length seq)%nat then
      next ← Py.index seq (ti + 1);
      if String.eqb (token_type next) "Duration" then
        dur_s ← token_value next;
        duration ←
          _token_duration_to_ticks cfg (DurVal (VStr dur_s)) time_division_;
        add_to_track cfg st pedal_prog
          (fun t => track_add_pedal t (mkPedal (current_tick st) duration))
      else Ok st
    else
      match active_pedals st !! pedal_prog with
      | None =>
          Ok (set_active_pedals st
                (<[pedal_prog := current_tick st]> (active_pedals st)))
      | Some _ => Ok st
      end
  else if String.eqb tok_type "PedalOff" then
    pedal_prog ← pedal_prog_of cfg st tok_val;
    match active_pedals st !! pedal_prog with
    | Some onset =>
        st1 ← add_to_track cfg st pedal_prog
                (fun t => track_add_pedal t
                            (mkPedal onset (current_tick st - onset)));
        Ok (set_active_pedals st1 (delete pedal_prog (active_pedals st1)))
    | None => Ok st
    end
  else if String.eqb tok_type "PitchBend" then
    v ← Py.int tok_val;
    add_to_track cfg st (current_program st)
      (fun t => track_add_pitch_bend t (mkPitchBend (current_tick st) v))
  else Ok st.

Fixpoint decode_tokens (cfg : Config) (max_duration_ : option Z)
  (time_division_ : Z) (seq : list string) (si : nat) (rest : list string)
  (ti : nat) (st : State) : result State :=
  match rest with
  | [] => Ok st
  | token :: rest' =>
      st' ← decode_token cfg max_duration_ time_division_ seq si ti token st;
      decode_tokens cfg max_duration_ time_division_ seq si rest' (S ti) st'
  end.

(** [{prog: -128 for prog in self.config.programs}] *)
Definition previous_pitch_init (cfg : Config) : gmap Z Z :=
  foldr (fun prog m => <[prog := -128]> m) ∅ (programs cfg).

(** One iteration of the loop over the sequences. *)
Definition decode_seq (cfg : Config) (max_duration_ : option Z)
  (time_division_ : Z) (programs_ : option (list (Z * bool))) (si : nat)
  (seq : list string) (st : State) : result State :=
  let st0 :=
    mkState 0 0 (previous_pitch_init cfg) (previous_pitch_init cfg) ∅
      (active_notes st) (tracks st) (store st) (current_instrument st)
      (midi_tracks st) (tempo_changes st) (time_signature_changes st) in
  st1 ←
    (if negb (one_token_stream cfg) then
       '(prog, is_drum_) ←
         match programs_ with
         | Some ps => Py.index ps si
         | None => Ok (0, false)
         end;
       tr ← new_seq_track (MIDI_INSTRUMENTS cfg) prog is_drum_;
       Ok (mkState 0 prog (previous_pitch_init cfg) (previous_pitch_init cfg)
             ∅ (active_notes st) (tracks st) (store st ++ [tr])
             (Some (length (store st))) (midi_tracks st) (tempo_changes st)
             (time_signature_changes st))
     else Ok st0);
  st2 ← decode_tokens cfg max_duration_ time_division_ seq si seq 0 st1;
  if negb (one_token_stream cfg) then
    ref ← Py.of_option (current_instrument st2) AttributeError;
    let st3 :=
      mkState (current_tick st2) (current_program st2)
        (previous_pitch_onset st2) (previous_pitch_chord st2)
        (active_pedals st2) (active_notes st2) (tracks st2) (store st2)
        (current_instrument st2) (midi_tracks st2 ++ [ref])
        (tempo_changes st2) (time_signature_changes st2) in
    st4 ← clear_active_notes cfg max_duration_ st3;
    tr ← Py.of_option (store st4 !! ref) AttributeError;
    Ok (set_active_notes st4
          (ODict.set (active_notes st4) (program tr) (empty_queues cfg)))
  else Ok st2.

Fixpoint decode_seqs (cfg : Config) (max_duration_ : option Z)
  (time_division_ : Z) (programs_ : option (list (Z * bool)))
  (tokens : list (list string)) (si : nat) (st : State) : result State :=
  match tokens with
  | [] => Ok st
  | seq :: rest =>
      st' ← decode_seq cfg max_duration_ time_division_ programs_ si seq st;
      decode_seqs cfg max_duration_ time_division_ programs_ rest (S si) st'
  end.

Record Score := mkScore {
  score_tracks : list Track;
  score_tempos : list Tempo;
  score_time_signatures : list TimeSignature
}.

(** [max(self.config.beat_res.values())] *)
Definition max_beat_res (cfg : Config) : result Z :=
  match beat_res_values cfg with
  | [] => Raise ValueError
  | x :: r => Ok (fold_left Z.max r x)
  end.

(** The local [max_duration], in ticks. *)
Definition max_duration_ticks (cfg : Config) (time_division_ : Z)
  : result (option Z) :=
  match max_duration cfg with
  | None => Ok None
  | Some (b, p, r) =>
      t ← _token_duration_to_ticks cfg (DurTuple b p r) time_division_;
      Ok (Some t)
  end.

Definition initial_state (cfg : Config) : State :=
  mkState 0 0 ∅ ∅ ∅
    (ODict.comprehension (programs cfg) (fun _ => empty_queues cfg))
    [] [] None [] [] [].

(** [_tokens_to_midi]: [tokens] is the list of token lists after the
    unsqueeze of the one-stream case. *)
Definition _tokens_to_midi (cfg : Config) (tokens : list (list string))
  (programs_ : option (list (Z * bool))) (time_division_arg : option Z)
  : result Score :=
  let time_division_ := default (time_division cfg) time_division_arg in
  m ← max_beat_res cfg;
  if m =? 0 then Raise ZeroDivisionError
  else if negb (time_division_ mod m =? 0) then Raise ValueError
  else
    max_duration_ ← max_duration_ticks cfg time_division_;
    st ← decode_seqs cfg max_duration_ time_division_ programs_ tokens 0
           (initial_state cfg);
    st' ← (if one_token_stream cfg then clear_active_notes cfg max_duration_ st
           else Ok st);
    trs ← (if one_token_stream cfg then Ok (ODict.values (tracks st'))
           else mapM (fun ref => Py.of_option (store st' !! ref) AttributeError)
                  (midi_tracks st'));
    Ok (mkScore trs (tempo_changes st') (time_signature_changes st')).

(** The configuration flags that [_create_token_types_graph] reads. *)
Record GraphFlags := mkGraphFlags {
  g_use_programs : bool;
  g_program_changes : bool;
  g_use_pitch_intervals : bool;
  g_use_chords : bool;
  g_use_rests : bool;
  g_use_tempos : bool;
  g_use_time_signatures : bool;
  g_use_sustain_pedals : bool;
  g_sustain_pedal_duration : bool;
  g_use_pitch_bends : bool
}.

(** One statement on the dictionary [dic]. *)
Definition graph_op := gmap string (list string) -> result (gmap string (list string)).

(** [dic[k] = v] *)
Definition assign (k : string) (v : list string) : graph_op :=
  fun dic => Ok (<[k := v]> dic).

(** [dic[k].append(x)] and [dic[k] += v] *)
Definition extend (k : string) (v : list string) : graph_op :=
  fun dic =>
    l ← Py.of_option (dic !! k) KeyError;
    Ok (<[k := l ++ v]> dic).

(** The statements of an [if]. *)
Definition when (b : bool) (ops : list graph_op) : list graph_op :=
  if b then ops else [].

(** The body of the last loop: [if token_type in dic: ...]. *)
Definition link_program (token_type : string) : graph_op :=
  fun dic =>
    match dic !! token_type with
    | Some _ =>
        dic1 ← extend "Program" [token_type] dic;
        extend token_type ["Program"] dic1
    | None => Ok dic
    end.

Definition _create_token_types_graph (f : GraphFlags)
  : result (gmap string (list string)) :=
  let first_note_token_type :=
    if g_use_programs f
    then (if g_program_changes f then "NoteOn" else "Program")
    else "NoteOn" in
  let intervals := ["PitchIntervalTime"; "PitchIntervalChord"] in
  let no_duration := negb (g_sustain_pedal_duration f) in
  Py.foldlM (fun dic (op : graph_op) => op dic)
    (when (g_use_programs f) [assign "Program" ["NoteOn"; "NoteOff"]]
     ++ [assign "Velocity" [first_note_token_type; "TimeShift"];
         assign "NoteOff" ["NoteOff"; first_note_token_type; "TimeShift"];
         assign "TimeShift" ["NoteOff"; first_note_token_type; "TimeShift"]]
     ++ when (g_use_pitch_intervals f)
          (flat_map
             (fun token_type =>
                [assign token_type ["Velocity"]]
                ++ (if g_use_programs f
                    then [extend "Program" [token_type]]
                    else [extend "Velocity" [token_type];
                          extend "NoteOff" [token_type];
                          extend "TimeShift" [token_type]]))
             intervals)
     ++ when (g_program_changes f)
          [extend "Velocity" ["Program"]; extend "NoteOff" ["Program"]]
     ++ when (g_use_chords f)
          ([assign "Chord" [first_note_token_type];
            extend "TimeShift" ["Chord"];
            extend "NoteOff" ["Chord"]]
           ++ when (g_use_programs f) [extend "Program" ["Chord"]]
           ++ when (g_use_pitch_intervals f) [extend "Chord" intervals])
     ++ when (g_use_tempos f)
          ([extend "TimeShift" ["Tempo"];
            assign "Tempo" [first_note_token_type; "TimeShift"]]
           ++ when (negb (g_use_programs f) || g_program_changes f)
                [extend "Tempo" ["NoteOff"]]
           ++ when (g_use_chords f) [extend "Tempo" ["Chord"]]
           ++ when (g_use_rests f) [extend "Tempo" ["Rest"]]
           ++ when (g_use_pitch_intervals f) [extend "Tempo" intervals])
     ++ when (g_use_time_signatures f)
          ([extend "TimeShift" ["TimeSig"];
            assign "TimeSig" [first_note_token_type; "TimeShift"]]
           ++ when (negb (g_use_programs f) || g_program_changes f)
                [extend "TimeSig" ["NoteOff"]]
           ++ when (g_use_chords f) [extend "TimeSig" ["Chord"]]
           ++ when (g_use_rests f) [extend "TimeSig" ["Rest"]]
           ++ when (g_use_tempos f) [extend "TimeSig" ["Tempo"]]
           ++ when (g_use_pitch_intervals f) [extend "TimeSig" intervals])
     ++ when (g_use_sustain_pedals f)
          ([extend "TimeShift" ["Pedal"]; extend "NoteOff" ["Pedal"]]
           ++ when no_duration [extend "NoteOff" ["PedalOff"]]
           ++ (if g_sustain_pedal_duration f
               then [assign "Pedal" ["Duration"];
                     assign "Duration"
                       [first_note_token_type; "NoteOff"; "TimeShift"; "Pedal"]]
                    ++ when (g_use_pitch_intervals f)
                         [extend "Duration" intervals]
               else [assign "PedalOff"
                       ["Pedal"; "PedalOff"; first_note_token_type; "NoteOff";
                        "TimeShift"];
                     assign "Pedal"
                       ["Pedal"; first_note_token_type; "NoteOff"; "TimeShift"];
                     extend "TimeShift" ["PedalOff"]])
           ++ when (g_use_chords f)
                ([extend "Pedal" ["Chord"]]
                 ++ when no_duration
                      [extend "PedalOff" ["Chord"]; extend "Chord" ["PedalOff"]])
           ++ when (g_use_rests f)
                ([extend "Pedal" ["Rest"]]
                 ++ when no_duration [extend "PedalOff" ["Rest"]])
           ++ when (g_use_tempos f)
                ([extend "Tempo" ["Pedal"]]
                 ++ when no_duration [extend "Tempo" ["PedalOff"]])
           ++ when (g_use_time_signatures f)
                ([extend "TimeSig" ["Pedal"]]
                 ++ when no_duration [extend "TimeSig" ["PedalOff"]]))
     ++ when (g_use_pitch_bends f)
          ([assign "PitchBend" [first_note_token_type; "NoteOff"; "TimeShift"]]
           ++ (if g_use_programs f && negb (g_program_changes f)
               then [extend "Program" ["PitchBend"]]
               else [extend "TimeShift" ["PitchBend"];
                     extend "NoteOff" ["PitchBend"]]
                    ++ when (g_use_tempos f) [extend "Tempo" ["PitchBend"]]
                    ++ when (g_use_time_signatures f)
                         [extend "TimeSig" ["PitchBend"]]
                    ++ when (g_use_sustain_pedals f)
                         ([extend "Pedal" ["PitchBend"]]
                          ++ (if g_sustain_pedal_duration f
                              then [extend "Duration" ["PitchBend"]]
                              else [extend "PedalOff" ["PitchBend"]])))
           ++ when (g_use_chords f) [extend "PitchBend" ["Chord"]]
           ++ when (g_use_rests f) [extend "PitchBend" ["Rest"]])
     ++ (if g_use_rests f
         then [assign "Rest" ["Rest"; first_note_token_type; "TimeShift"];
               extend "NoteOff" ["Rest"]]
              ++ when (g_use_chords f) [extend "Rest" ["Chord"]]
              ++ when (g_use_tempos f) [extend "Rest" ["Tempo"]]
              ++ when (g_use_time_signatures f) [extend "Rest" ["TimeSig"]]
              ++ when (g_use_sustain_pedals f)
                   ([extend "Rest" ["Pedal"]]
                    ++ (if g_sustain_pedal_duration f
                        then [extend "Duration" ["Rest"]]
                        else [extend "Rest" ["PedalOff"];
                              extend "PedalOff" ["Rest"]]))
              ++ when (g_use_pitch_bends f) [extend "Rest" ["PitchBend"]]
              ++ when (g_use_pitch_intervals f) [extend "Rest" intervals]
         else [extend "TimeShift" ["TimeShift"]])
     ++ when (g_program_changes f)
          (map link_program
             ["TimeShift"; "Rest"; "PitchBend"; "Pedal"; "PedalOff"; "Tempo";
              "TimeSig"; "Chord"]))
    {[ "NoteOn" := ["Velocity"] ]}.

(** The inner loops of [_add_time_events]: one event of type [ty] per
    pair of [_ticks_to_duration_tokens], [previous_tick] advancing. *)
Fixpoint emit_durations (ty : string) (desc_of : Z -> Z)
  (durs : list (list Z * Z)) (previous_tick : Z) (all_events : list Event)
  : list Event * Z :=
  match durs with
  | [] => (all_events, previous_tick)
  | (dur_value, dur_ticks) :: r =>
      emit_durations ty desc_of r (previous_tick + dur_ticks)
        (all_events
           ++ [mkEvent ty (VStr (String.concat "." (map pretty dur_value)))
                 previous_tick (desc_of previous_tick)])
  end.

Fixpoint add_time_loop (cfg : Config) (evs : list Event)
  (previous_tick previous_note_end : Z) (all_events : list Event)
  : list Event :=
  match evs with
  | [] => all_events
  | event :: rest =>
      let '(all_events1, previous_tick1) :=
        if negb (time event =? previous_tick) then
          let '(all_events2, previous_tick2) :=
            if use_rests cfg && (time event - previous_note_end >=? _min_rest cfg)
            then
              emit_durations "Rest" (fun pt => time event - pt)
                (_ticks_to_duration_tokens cfg
                   (time event - previous_note_end) true)
                previous_note_end all_events
            else (all_events, previous_tick) in
          let all_events3 :=
            if negb (time event =? previous_tick2) then
              let time_shift := time event - previous_tick2 in
              fst (emit_durations "TimeShift" (fun _ => time_shift)
                     (_ticks_to_duration_tokens cfg time_shift false)
                     previous_tick2 all_events2)
            else all_events2 in
          (all_events3, time event)
        else (all_events, previous_tick) in
      let previous_note_end1 :=
        if in_types (type_ event)
             ["NoteOn"; "PitchIntervalTime"; "PitchIntervalChord"]
        then Z.max previous_note_end (desc event)
        else if in_types (type_ event)
                  ["Program"; "Tempo"; "Pedal"; "PedalOff"; "PitchBend"; "Chord"]
        then Z.max previous_note_end (time event)
        else previous_note_end in
      add_time_loop cfg rest previous_tick1 previous_note_end1
        (all_events1 ++ [event])
  end.

Definition _add_time_events (cfg : Config) (evs : list Event) : list Event :=
  add_time_loop cfg evs 0 0 [].

(** The variables of [tokens_errors] that the loop updates. *)
Record ErrState := mkErrState {
  err : Z;
  e_current_program : Z;
  active_pitches : gmap Z (gmap Z Z);
  current_pitches_tick : gmap Z (list Z);
  e_previous_pitch_onset : gmap Z Z;
  e_previous_pitch_chord : gmap Z Z
}.

Definition add_err (st : ErrState) (n : Z) : ErrState :=
  mkErrState (err st + n) (e_current_program st) (active_pitches st)
    (current_pitches_tick st) (e_previous_pitch_onset st)
    (e_previous_pitch_chord st).

(** The scan [for j in range(i + 1, len(events))] after a note onset:
    [rest] is [events[i + 1:]]; the result is what the scan adds to
    [err]. *)
Fixpoint lookahead (cfg : Config) (max_duration_ : Z) (current_program_ : Z)
  (pitch_val : Z) (rest : list Event) (offset_sample : Z)
  (current_program_noff : pyval) : result Z :=
  match rest with
  | [] => Ok 0
  | ev :: rest' =>
      is_off ←
        (if String.eqb (type_ ev) "NoteOff" then
           v ← int_of (value ev); Ok (v =? pitch_val)
         else Ok false);
      if (is_off : bool) then
        if use_programs cfg && eq_int current_program_noff current_program_
        then Ok 0
        else Ok 0
      else
        '(offset_sample', current_program_noff') ←
          (if in_types (type_ ev) ["TimeShift"; "Rest"] then
             t ← _token_duration_to_ticks cfg (DurVal (value ev))
                   (time_division cfg);
             Ok (offset_sample + t, current_program_noff)
           else if String.eqb (type_ ev) "Program" then
             Ok (offset_sample, value ev)
           else Ok (offset_sample, current_program_noff));
        if offset_sample' >? max_duration_ then Ok 1
        else lookahead cfg max_duration_ current_program_ pitch_val rest'
               offset_sample' current_program_noff'
  end.

(** The configuration with [config.use_programs] set to [b]. *)
Definition set_use_programs (cfg : Config) (b : bool) : Config :=
  mkConfig (one_token_stream cfg) b (use_rests cfg)
    (sustain_pedal_duration cfg) (remove_duplicated_notes cfg) (programs cfg)
    (pitch_range cfg) (beat_res_values cfg) (time_division cfg)
    (_min_rest cfg) (max_duration cfg) (tokens_types_graph cfg)
    (_token_duration_to_ticks cfg) (_ticks_to_duration_tokens cfg)
    (_parse_token_time_signature cfg) (MIDI_INSTRUMENTS cfg) (Note_fits cfg).

(** Two events that differ at most by the value of a [Program] event. *)
Definition same_but_program (e e' : Event) : Prop :=
  type_ e = type_ e' ∧ (type_ e ≠ "Program" → value e = value e').

(** The pitch of a note onset in [tokens_errors], with the new previous
    pitches. *)
Definition onset_pitch (st : ErrState) (ev : Event)
  : result (Z * gmap Z Z * gmap Z Z) :=
  let cp := e_current_program st in
  if String.eqb (type_ ev) "NoteOn" then
    pitch_val ← int_of (value ev);
    Ok (pitch_val, <[cp := pitch_val]> (e_previous_pitch_onset st),
        <[cp := pitch_val]> (e_previous_pitch_chord st))
  else if String.eqb (type_ ev) "PitchIntervalTime" then
    prev ← Py.of_option (e_previous_pitch_onset st !! cp) KeyError;
    d ← int_of (value ev);
    Ok (prev + d, <[cp := prev + d]> (e_previous_pitch_onset st),
        <[cp := prev + d]> (e_previous_pitch_chord st))
  else
    prev ← Py.of_option (e_previous_pitch_chord st !! cp) KeyError;
    d ← int_of (value ev);
    Ok (prev + d, e_previous_pitch_onset st,
        <[cp := prev + d]> (e_previous_pitch_chord st)).

(** [active_pitches[prog][pitch]] *)
Definition get_active (st : ErrState) (prog pitch : Z) : result Z :=
  d ← Py.of_option (active_pitches st !! prog) KeyError;
  Py.of_option (d !! pitch) KeyError.

(** One iteration of the loop of [tokens_errors] on [events[i]]: [prev] is
    [events[i - 1]] when [i > 0], [rest] is [events[i + 1:]]. *)
Definition score_event (cfg : Config) (max_duration_ : option Z)
  (prev : option Event) (ev : Event) (rest : list Event) (st : ErrState)
  : result ErrState :=
  bad ←
    match prev with
    | None => Ok false
    | Some p =>
        succ ← Py.of_option (tokens_types_graph cfg !! type_ p) KeyError;
        Ok (negb (in_types (type_ ev) succ))
    end;
  let cp := e_current_program st in
  if (bad : bool) then Ok (add_err st 1)
  else if in_types (type_ ev)
            ["NoteOn"; "PitchIntervalTime"; "PitchIntervalChord"]
  then
    '(pitch_val, onset', chord') ← onset_pitch st ev;
    d ← Py.of_option (active_pitches st !! cp) KeyError;
    n ← Py.of_option (d !! pitch_val) KeyError;
    let active' := <[cp := <[pitch_val := n + 1]> d]> (active_pitches st) in
    dup ←
      (if remove_duplicated_notes cfg then
         l ← Py.of_option (current_pitches_tick st !! cp) KeyError;
         Ok (bool_decide (pitch_val ∈ (l : list Z)))
       else Ok false);
    if (dup : bool) then
      Ok (mkErrState (err st + 1) cp active' (current_pitches_tick st)
            onset' chord')
    else
      l ← Py.of_option (current_pitches_tick st !! cp) KeyError;
      let st' :=
        mkErrState (err st) cp active'
          (<[cp := l ++ [pitch_val]]> (current_pitches_tick st))
          onset' chord' in
      match max_duration_ with
      | None => Ok st'
      | Some md =>
          e ← lookahead cfg md cp pitch_val rest 0 (VInt cp);
          Ok (add_err st' e)
      end
  else if String.eqb (type_ ev) "NoteOff" then
    v ← int_of (value ev);
    n ← get_active st cp v;
    if n =? 0 then Ok (add_err st 1)
    else
      d ← Py.of_option (active_pitches st !! cp) KeyError;
      Ok (mkErrState (err st) cp (<[cp := <[v := n - 1]> d]> (active_pitches st))
            (current_pitches_tick st) (e_previous_pitch_onset st)
            (e_previous_pitch_chord st))
  else if String.eqb (type_ ev) "Program" && negb (bool_decide (rest = []))
  then
    p ← int_of (value ev);
    Ok (mkErrState (err st) p (active_pitches st) (current_pitches_tick st)
          (e_previous_pitch_onset st) (e_previous_pitch_chord st))
  else if in_types (type_ ev) ["TimeShift"; "Rest"] then
    Ok (mkErrState (err st) cp (active_pitches st)
          (foldr (fun p m => <[p := []]> m) ∅ (programs cfg))
          (e_previous_pitch_onset st) (e_previous_pitch_chord st))
  else Ok st.

Fixpoint errors_loop (cfg : Config) (max_duration_ : option Z)
  (prev : option Event) (evs : list Event) (st : ErrState)
  : result ErrState :=
  match evs with
  | [] => Ok st
  | ev :: rest =>
      st' ← score_event cfg max_duration_ prev ev rest st;
      errors_loop cfg max_duration_ (Some ev) rest st'
  end.

Definition initial_err_state (cfg : Config) : ErrState :=
  let pitches :=
    Py.range (fst (pitch_range cfg)) (snd (pitch_range cfg) + 1) in
  let zeros : gmap Z Z := foldr (fun pi m => <[pi := 0]> m) ∅ pitches in
  mkErrState 0 0
    (foldr (fun prog m => <[prog := zeros]> m) ∅ (programs cfg))
    (foldr (fun p m => <[p := []]> m) ∅ (programs cfg))
    (previous_pitch_init cfg) (previous_pitch_init cfg).

(** The error count that the loop reaches. *)
Definition count_errors (cfg : Config) (evs : list Event) : result Z :=
  max_duration_ ← max_duration_ticks cfg (time_division cfg);
  st ← errors_loop cfg max_duration_ None evs (initial_err_state cfg);
  Ok (err st).

(** [tokens_errors] on one sequence.  [nb_tok_predicted] is [len(tokens)]
    as measured on entry, [evs] the events of the sequence once
    [decode_bpe] and [complete_sequence] have run; the ratio of the two
    integers is kept exact. *)
Definition tokens_errors (cfg : Config) (nb_tok_predicted : nat)
  (evs : list Event) : result Q :=
  if (nb_tok_predicted =? 0)%nat then Ok (inject_Z 0)
  else
    e ← count_errors cfg evs;
    Ok (Qmake e (Pos.of_nat nb_tok_predicted)).

End MIDILike.

(** ** Sequences that the validity scoring of the FIFO scheme accepts *)

Module ScoreSpec.

Import MIDILike.

(** Modelled from the spec: the note events of a track before the time
    events are added, which the parent class builds outside the embedded
    files.  Following the single-note scenario of the spec, a note gives a
    [NoteOn] and a [Velocity] event at its onset and a [NoteOff] event at
    its end; the [NoteOn] carries the end tick in [desc].  The notes are
    taken one after the other ([sequential]), so that the order of the
    list is the order by time. *)
Definition note_on_event (n : Note) : Event :=
  mkEvent "NoteOn" (VInt (note_pitch n)) (note_time n) (note_end n).

Definition velocity_event (n : Note) : Event :=
  mkEvent "Velocity" (VInt (note_velocity n)) (note_time n) (note_end n).

Definition note_off_event (n : Note) : Event :=
  mkEvent "NoteOff" (VInt (note_pitch n)) (note_end n) (note_end n).

Definition note_on_off_events (track_notes : list Note) : list Event :=
  flat_map (fun n => [note_on_event n; velocity_event n; note_off_event n])
    track_notes.

(** Each note lasts at least one tick and starts at or after the end [t]
    of the one before. *)
Fixpoint sequential (t : Z) (track_notes : list Note) : Prop :=
  match track_notes with
  | [] => True
  | n :: r =>
      t <= note_time n ∧ 0 < note_duration n ∧ sequential (note_end n) r
  end.

(** [b] is a permitted successor of [a] in the graph of the tokenizer. *)
Definition allowed (cfg : Config) (a b : string) : bool :=
  match tokens_types_graph cfg !! a with
  | Some succ => in_types b succ
  | None => false
  end.

(** An event of type [ty] is permitted after the event [prev], or is the
    first one. *)
Definition prev_ok (cfg : Config) (prev : option Event) (ty : string) : Prop :=
  match prev with
  | None => True
  | Some p => allowed cfg (type_ p) ty = true
  end.

(** The successions that a stream of notes uses. *)
Definition note_grammar (cfg : Config) : bool :=
  forallb (fun '(a, b) => allowed cfg a b)
    [("NoteOn", "Velocity"); ("Velocity", "TimeShift");
     ("TimeShift", "TimeShift"); ("TimeShift", "NoteOff");
     ("TimeShift", "NoteOn"); ("NoteOff", "TimeShift");
     ("NoteOff", "NoteOn")].

(** A stream of notes: for each note some [TimeShift] events (none when
    the note starts where the one before ends), [NoteOn] and [Velocity],
    at least one [TimeShift], and the [NoteOff] of the same pitch, the
    pitch being in the range [lo]..[hi]. *)
Inductive note_stream (lo hi : Z) : list Event -> Prop :=
| note_stream_nil : note_stream lo hi []
| note_stream_note (gap dur tail : list Event) (on vel off : Event) (p : Z) :
    Forall (fun e => type_ e = "TimeShift") gap ->
    type_ on = "NoteOn" -> value on = VInt p ->
    type_ vel = "Velocity" ->
    Forall (fun e => type_ e = "TimeShift") dur -> dur <> [] ->
    type_ off = "NoteOff" -> value off = VInt p ->
    lo <= p <= hi ->
    note_stream lo hi tail ->
    note_stream lo hi (gap ++ on :: vel :: dur ++ off :: tail).

(** The state of [tokens_errors] between two notes of a stream: no error
    counted, program 0, every pitch of the range at a count of zero and no
    pitch yet at the current tick. *)
Definition at_rest (cfg : Config) (st : ErrState) : Prop :=
  err st = 0
  ∧ e_current_program st = 0
  ∧ current_pitches_tick st !! 0 = Some []
  ∧ ∃ d, active_pitches st !! 0 = Some d
         ∧ ∀ p, fst (pitch_range cfg) <= p <= snd (pitch_range cfg) →
                d !! p = Some 0.

(** The same state whatever the errors counted so far. *)
Definition between_notes (cfg : Config) (st : ErrState) : Prop :=
  e_current_program st = 0
  ∧ current_pitches_tick st !! 0 = Some []
  ∧ ∃ d, active_pitches st !! 0 = Some d
         ∧ ∀ p, fst (pitch_range cfg) <= p <= snd (pitch_range cfg) →
                d !! p = Some 0.

(** The scan after an onset reads [t] ticks, not negative, from the
    event [e]. *)
Definition shift_of (cfg : Config) (e : Event) (t : Z) : Prop :=
  _token_duration_to_ticks cfg (DurVal (value e)) (time_division cfg) = Ok t
  ∧ 0 <= t.

(** The time shift that the encoder lays out over [t] ticks is read back
    by the scan: each duration of [_ticks_to_duration_tokens] converts to
    its ticks, which are not negative, and they add up to [t]. *)
Definition shift_exact (cfg : Config) (t : Z) : bool :=
  forallb (fun d : list Z * Z =>
             match _token_duration_to_ticks cfg
                     (DurVal (VStr (String.concat "." (map pretty (fst d)))))
                     (time_division cfg) with
             | Ok x => (x =? snd d) && (0 <=? snd d)
             | Raise _ => false
             end)
    (_ticks_to_duration_tokens cfg t false)
  && (foldr Z.add 0 (map snd (_ticks_to_duration_tokens cfg t false)) =? t).

(** The notes that last more than [md] ticks. *)
Definition long_notes (md : Z) (track_notes : list Note) : list Note :=
  List.filter (fun n => md <? note_duration n) track_notes.

(** A stream of notes with, for each note, the ticks that the scan adds
    up between its [Velocity] and its [NoteOff] event. *)
Inductive timed_note_stream (cfg : Config) (lo hi : Z)
  : list Event -> list Z -> Prop :=
| timed_note_stream_nil : timed_note_stream cfg lo hi [] []
| timed_note_stream_note (gap dur tail : list Event) (on vel off : Event)
    (p : Z) (ts totals : list Z) :
    Forall (fun e => type_ e = "TimeShift") gap ->
    type_ on = "NoteOn" -> value on = VInt p ->
    type_ vel = "Velocity" ->
    Forall (fun e => type_ e = "TimeShift") dur -> dur <> [] ->
    Forall2 (shift_of cfg) dur ts ->
    type_ off = "NoteOff" -> value off = VInt p ->
    lo <= p <= hi ->
    timed_note_stream cfg lo hi tail totals ->
    timed_note_stream cfg lo hi (gap ++ on :: vel :: dur ++ off :: tail)
      (foldr Z.add 0 ts :: totals).

(** What a [TimeShift] or [Rest] event leaves of the state. *)
Definition after_shift (cfg : Config) (st : ErrState) : ErrState :=
  mkErrState (err st) (e_current_program st) (active_pitches st)
    (foldr (fun p m => <[p := []]> m) ∅ (programs cfg))
    (e_previous_pitch_onset st) (e_previous_pitch_chord st).

(** An event that the loop of [tokens_errors] can score whatever the
    events before it are: its type is a key of the graph; the value of a
    [NoteOn] or [NoteOff] is a pitch of the range, the value of a [Program]
    a program of the configuration, the value of a [TimeShift] or [Rest] a
    duration; it is no interval event, whose pitch depends on the events
    before. *)
Definition event_scorable (cfg : Config) (ev : Event) : bool :=
  bool_decide (is_Some (tokens_types_graph cfg !! type_ ev))
  && (if in_types (type_ ev) ["NoteOn"; "NoteOff"] then
        match int_of (value ev) with
        | Ok p =>
            (fst (pitch_range cfg) <=? p) && (p <=? snd (pitch_range cfg))
        | Raise _ => false
        end
      else if in_types (type_ ev) ["PitchIntervalTime"; "PitchIntervalChord"]
      then false
      else if String.eqb (type_ ev) "Program" then
        match int_of (value ev) with
        | Ok g => bool_decide (g ∈ programs cfg)
        | Raise _ => false
        end
      else if in_types (type_ ev) ["TimeShift"; "Rest"] then
        Py.is_ok (_token_duration_to_ticks cfg (DurVal (value ev))
                    (time_division cfg))
      else true).

Definition scorable (cfg : Config) (evs : list Event) : bool :=
  bool_decide (0 ∈ programs cfg)
  && Py.is_ok (max_duration_ticks cfg (time_division cfg))
  && forallb (event_scorable cfg) evs.

(** The dictionaries of [tokens_errors] have the keys that the loop
    indexes: every program, and under it every pitch of the range. *)
Definition active_ok (cfg : Config) (a : gmap Z (gmap Z Z)) : Prop :=
  ∀ g, g ∈ programs cfg →
       ∃ d, a !! g = Some d
            ∧ ∀ p, fst (pitch_range cfg) <= p <= snd (pitch_range cfg) →
                   is_Some (d !! p).

Definition ticks_ok (cfg : Config) (c : gmap Z (list Z)) : Prop :=
  ∀ g, g ∈ programs cfg → is_Some (c !! g).

Definition err_state_ok (cfg : Config) (st : ErrState) : Prop :=
  e_current_program st ∈ programs cfg
  ∧ active_ok cfg (active_pitches st)
  ∧ ticks_ok cfg (current_pitches_tick st).

End ScoreSpec.

(** ** The error count of the multi-track wrapper ([mmm.py]) *)

Module MMMErrors.

(** The inner loop of [_tokens_errors]:
    [while j < len(tokens) and tokens[j] != "Track_End": j += 1]; the
    result is the value of [j] after the loop, [None] a run that has used
    [fuel] iterations and has not left the loop. *)
Fixpoint end_loop (fuel : nat) (tokens : list string) (j : nat) : option nat :=
  match fuel with
  | O => None
  | S fuel' =>
      match tokens !! j with
      | Some t =>
          if negb (String.eqb t "Track_End") then end_loop fuel' tokens (S j)
          else Some j
      | None => Some j
      end
  end.

(** The outer loop, from position [i] with the count [err];
    [base_tokens_errors] is [self.base_tokenizer._tokens_errors].  The
    inner loop is given one iteration per token and one more. *)
Fixpoint errors_loop (base_tokens_errors : list string -> result Z)
  (fuel : nat) (tokens : list string) (i : nat) (err : Z)
  : option (result Z) :=
  match fuel with
  | O => None
  | S fuel' =>
      match tokens !! i with
      | None => Some (Ok err)
      | Some t =>
          if negb (String.eqb t "Track_Start") then
            errors_loop base_tokens_errors fuel' tokens (S i) err
          else
            match end_loop (S (length tokens)) tokens i with
            | None => None
            | Some j =>
                match base_tokens_errors
                        (Py.slice tokens (i + 1) (Some j)) with
                | Ok e =>
                    errors_loop base_tokens_errors fuel' tokens j (err + e)
                | Raise x => Some (Raise x)
                end
            end
      end
  end.

Definition _tokens_errors (base_tokens_errors : list string -> result Z)
  (fuel : nat) (tokens : list string) : option (result Z) :=
  errors_loop base_tokens_errors fuel tokens 0 0.

(** A stream of closed tracks: for each track some tokens [gap] that
    stand before it, then [Track_Start], the tokens [body] of the track
    and [Track_End]. *)
Definition track_stream (tracks : list (list string * list string))
  : list string :=
  flat_map (fun '(gap, body) => gap ++ "Track_Start" :: body ++ ["Track_End"])
    tracks.

End MMMErrors.

(** ** The token types of the fixed-pattern scheme ([structured.py]) *)

Module StructuredGraph.

Import Structured.

(** [_create_token_types_graph] *)
Definition _create_token_types_graph (cfg : Config)
  : gmap string (list string) :=
  let dic : gmap string (list string) :=
    <["TimeShift" := ["Pitch"]]>
      (<["Duration" := ["TimeShift"]]>
         (<["Velocity" := ["Duration"]]> {[ "Pitch" := ["Velocity"] ]})) in
  if use_programs cfg
  then <["TimeShift" := ["Program"]]> (<["Program" := ["Pitch"]]> dic)
  else dic.

(** The configuration with [self.one_token_stream] set to [b]. *)
Definition set_one_token_stream (cfg : Config) (b : bool) : Config :=
  mkConfig b (use_programs cfg) (time_division cfg)
    (_tpb_ticks_to_tokens cfg) (_tpb_tokens_to_ticks cfg)
    (MIDI_INSTRUMENTS cfg).

(** The types of the tokens of one note, in the order of the encoder. *)
Definition note_types (cfg : Config) : list string :=
  ["TimeShift"] ++ (if use_programs cfg then ["Program"] else [])
    ++ ["Pitch"; "Velocity"; "Duration"].

(** Each type of [tys] is a permitted successor, in the graph [g], of the
    type before it; [prev] is the type before the first. *)
Fixpoint follows_from (g : gmap string (list string)) (prev : string)
  (tys : list string) : bool :=
  match tys with
  | [] => true
  | ty :: r =>
      match g !! prev with
      | Some succ => existsb (String.eqb ty) succ
      | None => false
      end && follows_from g ty r
  end.

Definition follows_graph (g : gmap string (list string)) (tys : list string)
  : bool :=
  match tys with
  | [] => true
  | ty :: r => follows_from g ty r
  end.

(** The value of the [TimeShift] token of a gap, as both encoders
    compute it. *)
Definition shift_value (cfg : Config) (gap : Z) : result string :=
  if negb (gap =? 0) then ticks_to_token cfg (time_division cfg) gap
  else Ok "0.0.1".

(** The two tables of durations are inverse of each other on the tokens
    that the encoder can emit, and no such token is the token ["0.0.1"]
    of a gap of zero or holds the separator of a token. *)
Definition tables_inverse (cfg : Config) : Prop :=
  ∀ ticks val,
    ticks_to_token cfg (time_division cfg) ticks = Ok val →
    token_to_ticks cfg (time_division cfg) val = Ok ticks
    ∧ val ≠ "0.0.1"
    ∧ Py.split "_" val = [val].

End StructuredGraph.

(** ** The vocabulary of the fixed-pattern scheme ([structured.py]) *)

Module StructuredVocab.

Import Structured.

(** The attributes that [_create_base_vocabulary] reads besides
    [config.use_programs]: [config.pitch_range], [self.velocities],
    [self.durations] and [config.programs]. *)
Record Attributes := mkAttributes {
  pitch_range : Z * Z;
  velocities : list Z;
  durations : list (Z * Z * Z);
  programs : list Z
}.

(** [".".join(map(str, duration))] *)
Definition duration_value (duration : Z * Z * Z) : string :=
  let '(beat, pos, res) := duration in
  String.concat "." (map pretty [beat; pos; res]).

Definition _create_base_vocabulary (cfg : Config) (a : Attributes)
  : list string :=
  let vocab := [] in
  let vocab :=
    vocab ++ map (fun i => "Pitch_" +:+ pretty i)
               (Py.range (fst (pitch_range a)) (snd (pitch_range a))) in
  let vocab := vocab ++ map (fun i => "Velocity_" +:+ pretty i) (velocities a) in
  let vocab :=
    vocab ++ map (fun d => "Duration_" +:+ duration_value d) (durations a) in
  let vocab := vocab ++ ["TimeShift_0.0.1"] in
  let vocab :=
    vocab ++ map (fun d => "TimeShift_" +:+ duration_value d) (durations a) in
  if use_programs cfg
  then vocab ++ map (fun p => "Program_" +:+ pretty p) (programs a)
  else vocab.

(** The values of the table of durations are the printed durations of
    the vocabulary. *)
Definition table_of_durations (cfg : Config) (a : Attributes) : Prop :=
  ∀ tpb ticks val,
    ticks_to_token cfg tpb ticks = Ok val →
    ∃ d, d ∈ durations a ∧ val = duration_value d.

(** A note that the vocabulary can print: its pitch is in the range
    from [pitch_range[0]] to [pitch_range[1]], the latter left out, and
    its velocity is one of [velocities]. *)
Definition note_in_vocabulary (a : Attributes) (n : Note) : Prop :=
  fst (pitch_range a) <= note_pitch n < snd (pitch_range a)
  ∧ note_velocity n ∈ velocities a.

(** The program that the decoder can be at: 0, or a program of the
    vocabulary. *)
Definition program_known (cfg : Config) (a : Attributes) (p : Z) : Prop :=
  p = 0 ∨ (use_programs cfg = true ∧ p ∈ programs a).

(** The table that the decoder reads has every duration of the
    vocabulary. *)
Definition table_covers (cfg : Config) (a : Attributes) : Prop :=
  ∀ d, d ∈ durations a →
       ∃ ticks, token_to_ticks cfg (time_division cfg) (duration_value d)
                = Ok ticks.

(** The tracks of the programs that the decoder can be at.  With
    separate streams the track of a sequence can be created for each of
    them.  In one stream, [check_inst] on each of them gives a track or
    raises [IndexError], which the decoder catches: it does not raise the
    [TypeError] of a program that a track cannot hold. *)
Definition tracks_creatable (cfg : Config) (a : Attributes) : Prop :=
  ∀ p, program_known cfg a p →
       if one_token_stream cfg
       then (∃ t, new_inst_track (MIDI_INSTRUMENTS cfg) p = Ok t)
            ∨ new_inst_track (MIDI_INSTRUMENTS cfg) p = Raise IndexError
       else ∃ t, new_seq_track (MIDI_INSTRUMENTS cfg) p false = Ok t.

(** The ticks that the [TimeShift] tokens of a sequence add to the cursor
    of the decoder. *)
Definition shift_span (cfg : Config) (seq : list string) : Z :=
  foldr Z.add 0
    (map (fun token =>
            match split_token token with
            | Ok (token_type, token_val) =>
                if String.eqb token_type "TimeShift"
                   && negb (String.eqb token_val "0.0.1")
                then
                  match token_to_ticks cfg (time_division cfg) token_val with
                  | Ok ticks => ticks
                  | Raise _ => 0
                  end
                else 0
            | Raise _ => 0
            end)
       seq).

(** The values of the notes that the decoder builds are values that a
    note of the score library holds: the pitches and the velocities of
    the vocabulary are values of the MIDI protocol, 0 to 127; the
    durations of the table are not negative and fit in 32 bits, and so
    does the cursor, which the [TimeShift] tokens of a sequence move by
    such durations. *)
Definition values_held (cfg : Config) (a : Attributes)
  (tokens : list (list string)) : bool :=
  (0 <=? fst (pitch_range a)) && (snd (pitch_range a) <=? 128)
  && forallb (fun v => (0 <=? v) && (v <? 128)) (velocities a)
  && forallb (fun d =>
                match token_to_ticks cfg (time_division cfg)
                        (duration_value d) with
                | Ok ticks => (0 <=? ticks) && (ticks <? 2 ^ 31)
                | Raise _ => true
                end)
       (durations a)
  && forallb (fun seq => shift_span cfg seq <? 2 ^ 31) tokens.

(** What the token loop of the decoder keeps: a known program and, with
    separate streams, a current track. *)
Definition decoder_ready (cfg : Config) (a : Attributes) (st : State)
  : Prop :=
  program_known cfg a (current_program st)
  ∧ (one_token_stream cfg = false → is_Some (current_instrument st)).

End StructuredVocab.

(** ** Time events and token types of the FIFO scheme ([midi_like.py]) *)

Module MIDILikeSpec.

Import MIDILike.

(** An event that [_add_time_events] can add: a [TimeShift], or a [Rest]
    when rests are used. *)
Definition time_type (cfg : Config) (e : Event) : Prop :=
  type_ e = "TimeShift" ∨ (use_rests cfg = true ∧ type_ e = "Rest").

(** [out] is [evs] with time events added in front of some of its
    events, and none in front of an event at the tick [t] of the event
    before it (0 for the first). *)
Inductive inserted (cfg : Config) : Z → list Event → list Event → Prop :=
| inserted_nil t : inserted cfg t [] []
| inserted_cons t ev rest G out :
    Forall (time_type cfg) G →
    (time ev = t → G = []) →
    inserted cfg (time ev) rest out →
    inserted cfg t (ev :: rest) (G ++ ev :: out).

(** Every type that the graph [g] lists as a successor has an entry of
    its own in [g]. *)
Definition graph_closed (g : gmap string (list string)) : bool :=
  forallb (fun '(_, succ) =>
             forallb (fun t => bool_decide (is_Some (g !! t))) succ)
    (map_to_list g).

(** The type [ty] is listed as a successor of the types [after] only. *)
Definition only_after (g : gmap string (list string)) (ty : string)
  (after : list string) : bool :=
  forallb (fun '(k, succ) =>
             implb (existsb (String.eqb ty) succ)
               (existsb (String.eqb k) after))
    (map_to_list g).

(** What the decoder does to a track: it appends a note, which is no
    longer than the maximum duration [md] when one is set, a pedal or a
    pitch bend. *)
Inductive track_edit (md : option Z) : (Track -> Track) -> Prop :=
| edit_note n :
    (∀ m, md = Some m → note_duration n <= m) →
    track_edit md (fun t => track_add_note t n)
| edit_pedal p : track_edit md (fun t => track_add_pedal t p)
| edit_bend b : track_edit md (fun t => track_add_pitch_bend t b).

(** Two states with the same tracks. *)
Definition same_tracks (a b : State) : Prop :=
  tracks a = tracks b ∧ store a = store b
  ∧ current_instrument a = current_instrument b
  ∧ midi_tracks a = midi_tracks b.

(** No note of the track [t] is longer than [m]. *)
Definition notes_bounded (m : Z) (t : Track) : Prop :=
  Forall (fun n => note_duration n <= m) (notes t).

Definition state_bounded (m : Z) (st : State) : Prop :=
  Forall (notes_bounded m) (ODict.values (tracks st))
  ∧ Forall (notes_bounded m) (store st).

(** What a part of the decoding of the sequence of index [si] keeps:
    the bound on the notes when a maximum duration is set, the current
    instrument, the tracks added to the score, the number of tracks
    created so far, and, outside the first sequence, the tempos and the
    time signatures. *)
Definition frame (md : option Z) (si : nat) (st st' : State) : Prop :=
  (∀ m, md = Some m → state_bounded m st → state_bounded m st')
  ∧ current_instrument st' = current_instrument st
  ∧ midi_tracks st' = midi_tracks st
  ∧ length (store st') = length (store st)
  ∧ (si ≠ 0%nat →
     tempo_changes st' = tempo_changes st
     ∧ time_signature_changes st' = time_signature_changes st).

(** The notes that the flush builds from the queues of one program: one
    note of the maximum duration per onset, in the order of the loops. *)
Definition flushed_notes (max_duration_ : Z)
  (active_notes_ : ODict.t (list (Z * Z))) : list Note :=
  map (fun '(pitch_, onset_tick, vel_) =>
         mkNote onset_tick max_duration_ pitch_ vel_)
    (queued_onsets active_notes_).

(** The values of the note of every onset queued in [active_notes_] fit a
    note of the score library. *)
Definition onsets_fit (cfg : Config) (max_duration_ : Z)
  (active_notes_ : ODict.t (list (Z * Z))) : bool :=
  forallb (fun '(pitch_, onset_tick, vel_) =>
             Note_fits cfg onset_tick max_duration_ pitch_ vel_)
    (queued_onsets active_notes_).

(** A note that neither starts before tick 0 nor has a negative
    duration. *)
Definition note_ok (n : Note) : Prop :=
  0 <= note_time n ∧ 0 <= note_duration n.

(** Every onset queued in [an] is between tick 0 and the tick [t]. *)
Definition queued_until (t : Z) (an : ODict.t (ODict.t (list (Z * Z))))
  : Prop :=
  Forall (fun d : ODict.t (list (Z * Z)) =>
            Forall (fun q : list (Z * Z) =>
                      Forall (fun on : Z * Z => 0 <= fst on <= t) q)
              (ODict.values d))
    (ODict.values an).

(** The invariant of the token loop of one stream: the cursor is not
    negative, no queued onset is after it, and the notes built so far are
    well timed. *)
Definition timed (st : State) : Prop :=
  0 <= current_tick st
  ∧ queued_until (current_tick st) (active_notes st)
  ∧ Forall (fun t => Forall note_ok (notes t)) (ODict.values (tracks st)).

(** A [TimeShift] or [Rest] token whose value converts to ticks does not
    move the cursor backwards. *)
Definition shift_ok (cfg : Config) (time_division_ : Z) (token : string)
  : bool :=
  match split_token token with
  | Ok (tok_type, tok_val) =>
      if in_types tok_type ["TimeShift"; "Rest"] then
        match _token_duration_to_ticks cfg (DurVal (VStr tok_val))
                time_division_ with
        | Ok ticks => 0 <=? ticks
        | Raise _ => true
        end
      else true
  | Raise _ => true
  end.

(** [".".join(map(str, dur_value))] *)
Definition duration_text (dur_value : list Z) : string :=
  String.concat "." (map pretty dur_value).

(** The two methods of the parent class agree: every duration that
    [_ticks_to_duration_tokens] returns converts back to its ticks, the
    durations of the time shift of a positive gap add up to the gap, and
    the durations of the rests of a gap do not exceed it. *)
Definition durations_exact (cfg : Config) (time_division_ : Z) : Prop :=
  (∀ gap rest,
     Forall (fun d : list Z * Z =>
               _token_duration_to_ticks cfg
                 (DurVal (VStr (duration_text (fst d)))) time_division_
               = Ok (snd d))
       (_ticks_to_duration_tokens cfg gap rest))
  ∧ (∀ gap, 0 < gap →
       foldr Z.add 0 (map snd (_ticks_to_duration_tokens cfg gap false)) = gap)
  ∧ (∀ gap, 0 <= gap →
       foldr Z.add 0 (map snd (_ticks_to_duration_tokens cfg gap true))
       <= gap).

(** The tick from which [_add_time_events] lays out the time events in
    front of an event at the tick [event_time]: the end of the last note
    when a rest is due, the tick of the event before otherwise. *)
Definition shift_origin (cfg : Config)
  (event_time previous_tick previous_note_end : Z) : Z :=
  if negb (event_time =? previous_tick) && use_rests cfg
     && (event_time - previous_note_end >=? _min_rest cfg)
  then previous_note_end
  else previous_tick.

(** Every combination of the flags that the graph depends on. *)
Definition all_flags : list GraphFlags :=
  let bools := [true; false] in
  flat_map (fun a => flat_map (fun b => flat_map (fun c =>
  flat_map (fun d => flat_map (fun e => flat_map (fun f =>
  flat_map (fun g => flat_map (fun h => flat_map (fun i =>
  flat_map (fun j => [mkGraphFlags a b c d e f g h i j])
    bools) bools) bools) bools) bools) bools) bools) bools) bools) bools.

(** The graph is built when program changes come with programs, and it
    is closed; otherwise the construction raises [KeyError]. *)
Definition graph_check (f : GraphFlags) : bool :=
  match _create_token_types_graph f with
  | Ok g => implb (g_program_changes f) (g_use_programs f) && graph_closed g
  | Raise e =>
      negb (implb (g_program_changes f) (g_use_programs f))
      && bool_decide (e = KeyError)
  end.

(** With programs and no program changes, [NoteOn] comes after
    [Program] only. *)
Definition onset_check (f : GraphFlags) : bool :=
  match _create_token_types_graph f with
  | Ok g =>
      implb (g_use_programs f && negb (g_program_changes f))
        (only_after g "NoteOn" ["Program"])
  | Raise _ => true
  end.

End MIDILikeSpec.

(** ** Positions of the tracks in a concatenated sequence *)

Module TrackSplit.

(** The positions at which tracks of the lengths [lens] start when they
    are put end to end from position [off] on. *)
Fixpoint track_starts (off : nat) (lens : list nat) : list nat :=
  match lens with
  | [] => []
  | n :: r => off :: track_starts (off + n) r
  end.

End TrackSplit.

(** ** Splitting token sequences ([pytorch_data/split_midi_utils.py]) *)

Module SplitUtils.

(** The bound of a slice as Python reads it: a negative bound counts from
    the end, and the result is kept between 0 and the length. *)
Definition clip (n i : Z) : Z :=
  if i <? 0 then Z.max (n + i) 0 else Z.min i n.

(** [l[start:stop]] for any two integers. *)
Definition slice_int {A} (l : list A) (start stop : Z) : list A :=
  let n := Z.of_nat (length l) in
  let a := clip n start in
  let b := clip n stop in
  take (Z.to_nat (b - a)) (drop (Z.to_nat a) l).

(** The [while] loop of [split_seq_in_subsequences]; the loop has no
    bound of its own, [None] is a run that has used [fuel] iterations and
    has not left the loop. *)
Fixpoint split_loop {A} (fuel : nat) (seq : list A)
  (min_seq_len max_seq_len : Z) (i : Z) (sub_seq : list (list A))
  : option (list (list A)) :=
  match fuel with
  | O => None
  | S fuel' =>
      if i <? Z.of_nat (length seq) then
        if i >=? Z.of_nat (length seq) - min_seq_len then Some sub_seq
        else
          let chunk := slice_int seq i (i + max_seq_len) in
          split_loop fuel' seq min_seq_len max_seq_len
            (i + Z.of_nat (length chunk)) (sub_seq ++ [chunk])
      else Some sub_seq
  end.

Definition split_seq_in_subsequences {A} (fuel : nat) (seq : list A)
  (min_seq_len max_seq_len : Z) : option (list (list A)) :=
  split_loop fuel seq min_seq_len max_seq_len 0 [].

End SplitUtils.

(** ** Concrete tokenizers used by the examples *)

Module Examples.

(** A vocabulary with the two delimiters and four tokens of a base scheme. *)
Definition vocab : gmap string Z :=
  list_to_map
    [("PAD_None", 0); ("Track_Start", 1); ("Track_End", 2);
     ("Pitch_60", 10); ("Pitch_64", 11); ("Velocity_100", 12);
     ("Duration_1.0.8", 13)].

(** A merge model with the single rule [(2, 1) -> 99]: the encoder
    replaces every adjacent pair [Track_End, Track_Start] by the id [99],
    and [99] expands to that pair. *)
Fixpoint merge_encode (l : list Z) : list Z :=
  match l with
  | a :: r =>
      match r with
      | b :: r' =>
          if (a =? 2) && (b =? 1) then 99 :: merge_encode r'
          else a :: merge_encode r
      | [] => [a]
      end
  | [] => []
  end.

Definition merge_expand (i : Z) : list Z :=
  if i =? 99 then [2; 1] else [i].

Definition is_base (i : Z) : bool := negb (i =? 99).

(** A base scheme that leaves the events of a track as they are. *)
Definition mmm_cfg (split : string) : MMM.Config :=
  MMM.mkConfig vocab split true (fun evs _ => Ok evs) merge_encode.

Definition note_events (pitch : Z) : list Event :=
  [mkEvent "Pitch" (VInt pitch) 0 480;
   mkEvent "Velocity" (VInt 100) 0 100;
   mkEvent "Duration" (VStr "1.0.8") 0 480].

(** The stream of two tracks of one note each. *)
Definition two_tracks : MMM.TokSequence :=
  let evs :=
    [mkEvent "Track" (VStr "Start") 0 0] ++ note_events 60
      ++ [mkEvent "Track" (VStr "End") 1 0]
      ++ [mkEvent "Track" (VStr "Start") 0 0] ++ note_events 64
      ++ [mkEvent "Track" (VStr "End") 1 0] in
  MMM.mkTokSequence evs (map token_of_event evs)
    [1; 10; 12; 13; 2; 1; 11; 12; 13; 2] false.

(** A fixed-pattern tokenizer at 480 ticks per beat whose duration table
    has the three entries of a half beat, one beat and four beats. *)
Definition structured_cfg (one_stream : bool) : Structured.Config :=
  Structured.mkConfig one_stream one_stream 480
    {[ 480 := list_to_map [(240, "0.4.8"); (480, "1.0.8"); (1920, "4.0.8")] ]}
    {[ 480 := list_to_map [("0.4.8", 240); ("1.0.8", 480); ("4.0.8", 1920)] ]}
    (replicate 128 "Instrument").

(** Two notes of one beat on a track of program 0, the second starting
    [gap] ticks after the first. *)
Definition gap_track (gap : Z) : Track :=
  mkTrack 0 false "Instrument"
    [mkNote 0 480 60 100; mkNote gap 480 64 100] [] [].

Definition structured_state : Structured.State :=
  Structured.mkState 0 0 []
    (Some (mkTrack 0 false "Instrument" [] [] [])) [].

(** The durations of the examples: ["beat.pos.res"] or the tuple
    [(num_beats, num_frames, res_frames)] is [num_beats] beats and
    [num_frames] frames of a beat cut in [res_frames] frames. *)
Definition duration_ticks (d : MIDILike.dur_arg) (time_division : Z)
  : result Z :=
  let ticks (beat pos res : Z) : result Z :=
    if res =? 0 then Raise ZeroDivisionError
    else Ok ((beat * res + pos) * time_division / res) in
  match d with
  | MIDILike.DurTuple beat pos res => ticks beat pos res
  | MIDILike.DurVal (VStr s) =>
      match Py.split "." s with
      | [b; p; r] =>
          beat ← Py.int b; pos ← Py.int p; res ← Py.int r;
          ticks beat pos res
      | _ => Raise ValueError
      end
  | MIDILike.DurVal (VInt _) => Raise TypeError
  end.

(** One duration per gap, in eighths of a beat of 480 ticks. *)
Definition duration_tokens (ticks : Z) (rest : bool) : list (list Z * Z) :=
  if ticks <=? 0 then []
  else [([ticks / 480; (ticks mod 480) / 60; 8], ticks)].

Definition time_signature (s : string) : result (Z * Z) :=
  match Py.split "/" s with
  | [n; d] => num ← Py.int n; den ← Py.int d; Ok (num, den)
  | _ => Raise ValueError
  end.

Definition no_flags : MIDILike.GraphFlags :=
  MIDILike.mkGraphFlags false false false false false false false false false
    false.

Definition program_flags : MIDILike.GraphFlags :=
  MIDILike.mkGraphFlags true false false false false false false false false
    false.

Definition graph_of (f : MIDILike.GraphFlags) : gmap string (list string) :=
  match MIDILike._create_token_types_graph f with
  | Ok g => g
  | Raise _ => ∅
  end.

(** The state of the decoder once it has read the tokens [prefix] of a
    sequence; the value is the initial state when the prefix raises. *)
Definition midilike_after (cfg : MIDILike.Config) (max_duration_ : option Z)
  (prefix : list string) (st : MIDILike.State) : MIDILike.State :=
  match MIDILike.decode_tokens cfg max_duration_ 480 prefix 0 prefix 0 st with
  | Ok st' => st'
  | Raise _ => st
  end.

(** The notes of the score library: ticks of 32 bits, pitch and velocity
    of 8 bits. *)
Definition note_fits (time duration pitch velocity : Z) : bool :=
  let int32 (z : Z) := (- 2 ^ 31 <=? z) && (z <? 2 ^ 31) in
  let int8 (z : Z) := (- 2 ^ 7 <=? z) && (z <? 2 ^ 7) in
  int32 time && int32 duration && int8 pitch && int8 velocity.

(** A FIFO tokenizer at 480 ticks per beat, programs -1 to 127, pitches 21
    to 109. *)
Definition midilike_cfg (one_stream programs_on : bool)
  (max_dur : option (Z * Z * Z)) : MIDILike.Config :=
  MIDILike.mkConfig one_stream programs_on false false true
    (Py.range (-1) 128) (21, 109) [8; 4] 480 480 max_dur
    (graph_of (if programs_on then program_flags else no_flags))
    duration_ticks duration_tokens time_signature
    (replicate 128 "Instrument") note_fits.

(** One-stream decoding with a maximum duration of one beat, and the
    state after an onset of pitch 60 and a time shift of two beats. *)
Definition clamp_cfg : MIDILike.Config :=
  midilike_cfg true false (Some (1, 0, 8)).

Definition clamp_seq : list string :=
  ["NoteOn_60"; "Velocity_100"; "TimeShift_2.0.8"; "NoteOff_60"].

Definition clamp_state : MIDILike.State :=
  midilike_after clamp_cfg (Some 480)
    ["NoteOn_60"; "Velocity_100"; "TimeShift_2.0.8"]
    (MIDILike.initial_state clamp_cfg).

(** Separate track sequences with [Program] tokens and a maximum duration
    of one beat. *)
Definition tracks_cfg : MIDILike.Config :=
  midilike_cfg false true (Some (1, 0, 8)).

(** The events after an onset of pitch 60 under program 0: its velocity, a
    change to program 5, half a beat, and the [NoteOff] of the pitch. *)
Definition scan_pre : list Event :=
  [mkEvent "Velocity" (VStr "100") 0 0; mkEvent "Program" (VStr "5") 0 0;
   mkEvent "TimeShift" (VStr "0.4.8") 0 0].

Definition scan_off : Event := mkEvent "NoteOff" (VStr "60") 0 0.

(** Scoring without and with a maximum duration of one beat, on the graph
    that [_create_token_types_graph] builds with every flag off. *)
Definition score_cfg (max_dur : option (Z * Z * Z)) : MIDILike.Config :=
  midilike_cfg false false max_dur.

(** One note of two beats at pitch 60. *)
Definition long_note : list Note := [mkNote 0 960 60 100].

(** Three notes one after the other: one beat, two beats after a gap of
    half a beat, and three beats. *)
Definition three_notes : list Note :=
  [mkNote 0 480 60 100; mkNote 720 960 64 100; mkNote 1680 1440 67 100].

(** The sequence of one track of one note, as the wrapper builds it. *)
Definition track_seq (pitch : Z) : MMM.TokSequence :=
  let evs :=
    [mkEvent "Track" (VStr "Start") 0 0] ++ note_events pitch
      ++ [mkEvent "Track" (VStr "End") 1 0] in
  MMM.mkTokSequence evs (map token_of_event evs)
    [1; (if pitch =? 60 then 10 else 11); 12; 13; 2] false.

(** The events of the track [gap_track 480] as the fixed-pattern
    encoder builds them: for separate streams, and for one stream before
    and after the time events are added. *)
Definition separate_events : list Event :=
  match Structured._create_track_events (structured_cfg false)
          (gap_track 480) with
  | Ok evs => evs
  | Raise _ => []
  end.

Definition one_stream_note_events : list Event :=
  match Structured._create_track_events (structured_cfg true)
          (gap_track 480) with
  | Ok evs => evs
  | Raise _ => []
  end.

Definition one_stream_events : list Event :=
  match Structured._add_time_events (structured_cfg true)
          one_stream_note_events 480 with
  | Ok evs => evs
  | Raise _ => []
  end.

(** The score decoded from [clamp_seq]. *)
Definition clamp_score : MIDILike.Score :=
  match MIDILike._tokens_to_midi clamp_cfg [clamp_seq] None None with
  | Ok sc => sc
  | Raise _ => MIDILike.mkScore [] [] []
  end.

(** Two track sequences with a tempo each, the second without notes, and
    the score decoded from them. *)
Definition two_seqs : list (list string) :=
  [["Tempo_120.0"; "NoteOn_60"; "Velocity_100"; "TimeShift_1.0.8";
    "NoteOff_60"];
   ["Tempo_90.5"; "TimeShift_2.0.8"]].

Definition two_seqs_score : MIDILike.Score :=
  match MIDILike._tokens_to_midi (midilike_cfg false false None) two_seqs
          None None with
  | Ok sc => sc
  | Raise _ => MIDILike.mkScore [] [] []
  end.

(** The state of [tracks_cfg] at the end of a track sequence of program 0
    with two onsets that no [NoteOff] closes. *)
Definition flush_state : MIDILike.State :=
  midilike_after tracks_cfg (Some 480)
    ["NoteOn_60"; "Velocity_100"; "TimeShift_2.0.8"; "NoteOn_64";
     "Velocity_90"]
    (MIDILike.mkState 0 0 (MIDILike.previous_pitch_init tracks_cfg)
       (MIDILike.previous_pitch_init tracks_cfg) ∅
       (MIDILike.active_notes (MIDILike.initial_state tracks_cfg)) []
       [mkTrack 0 false "Instrument" [] [] []] (Some 0%nat) [] [] []).

(** Durations in 480th of a beat, which print every number of ticks,
    and a FIFO tokenizer with rests of at least one beat that uses
    them. *)
Definition fine_duration_tokens (ticks : Z) (rest : bool)
  : list (list Z * Z) :=
  if ticks <=? 0 then [] else [([ticks / 480; ticks mod 480; 480], ticks)].

Definition rests_cfg : MIDILike.Config :=
  MIDILike.mkConfig true false true false true
    (Py.range (-1) 128) (21, 109) [8; 4] 480 480 None
    (graph_of no_flags)
    duration_ticks fine_duration_tokens time_signature
    (replicate 128 "Instrument") note_fits.

(** The attributes of a vocabulary for [structured_cfg]: pitches 21 to
    108, four velocities and the three durations of its table. *)
Definition structured_attributes : StructuredVocab.Attributes :=
  StructuredVocab.mkAttributes (21, 109) [31; 63; 100; 127]
    [(0, 4, 8); (1, 0, 8); (4, 0, 8)] (Py.range (-1) 128).

(** Separate track sequences with [Program] tokens, and a vocabulary
    for them with the programs 0 to 127. *)
Definition structured_tracks_cfg : Structured.Config :=
  Structured.mkConfig false true 480
    (Structured._tpb_ticks_to_tokens (structured_cfg false))
    (Structured._tpb_tokens_to_ticks (structured_cfg false))
    (replicate 128 "Instrument").

Definition structured_tracks_attributes : StructuredVocab.Attributes :=
  StructuredVocab.mkAttributes (21, 109) [31; 63; 100; 127]
    [(0, 4, 8); (1, 0, 8); (4, 0, 8)] (Py.range 0 128).

(** A base count for the wrapper: every token that is not a [Pitch],
    [Velocity] or [Duration] token is an error. *)
Definition base_errors (tokens : list string) : result Z :=
  Ok (Z.of_nat
        (length
           (List.filter
              (fun t => negb (MIDILike.in_types (token_type t)
                                ["Pitch"; "Velocity"; "Duration"]))
              tokens))).

End Examples.

(** * Properties *)

(** ** Strings and integers *)

Example split_ex : Py.split "_" "NoteOn_60" = ["NoteOn"; "60"].
Proof. reflexivity. Qed.
Example int_ex : Py.int "-12" = Ok (-12) /\ Py.int "1.0.8" = Raise ValueError.
Proof. split; reflexivity. Qed.

(** ** Loops and binds that do not raise *)

Section ResultMonad.

Lemma bind_ok {A B} (r : result A) (k : A → result B) (a : A) :
  r = Ok a → (r ≫= k) = k a.
Proof. now intros ->. Qed.

Lemma bind_ok_inv {A B} (r : result A) (k : A → result B) (b : B) :
  (r ≫= k) = Ok b → ∃ a, r = Ok a ∧ k a = Ok b.
Proof. destruct r as [a|e]; [eauto|discriminate]. Qed.

Lemma mapM_cons_ok {A B} (f : A → result B) x l y ys :
  f x = Ok y → mapM f l = Ok ys → mapM f (x :: l) = Ok (y :: ys).
Proof. intros Hx Hl. cbn. rewrite Hx. cbn. now rewrite Hl. Qed.

Lemma mapM_app_ok {A B} (f : A → result B) l1 l2 r1 r2 :
  mapM f l1 = Ok r1 → mapM f l2 = Ok r2 → mapM f (l1 ++ l2) = Ok (r1 ++ r2).
Proof.
  revert r1. induction l1 as [|x l1 IH]; intros r1 H1 H2.
  - cbn in H1. injection H1 as <-. exact H2.
  - cbn in H1. apply bind_ok_inv in H1 as (y & Hy & H1).
    apply bind_ok_inv in H1 as (ys & Hys & H1). injection H1 as <-.
    cbn [app]. apply mapM_cons_ok; [exact Hy|]. now apply IH.
Qed.

Lemma try_except_pass_same {A} (e : exn) (st : A) :
  Py.try_except_pass (Raise e) e st = Ok st.
Proof. unfold Py.try_except_pass. now rewrite decide_True. Qed.

Lemma try_except_pass_ok_inv {A} (body : result A) (e : exn) (st st' : A) :
  Py.try_except_pass body e st = Ok st' →
  body = Ok st' ∨ (body = Raise e ∧ st' = st).
Proof.
  unfold Py.try_except_pass. destruct body as [a|e']; [now left|].
  destruct (decide (e' = e)) as [->|]; [|discriminate].
  intros [= ->]. now right.
Qed.

End ResultMonad.

(** ** The constructors of the score library *)

Lemma Track_new_inv p d nm t :
  Track_new p d nm = Ok t → t = mkTrack p d nm [] [] [] ∧ 0 <= p < 256.
Proof.
  unfold Track_new. destruct ((0 <=? p) && (p <? 256)) eqn:Hp;
    [|discriminate].
  intros [= <-]. split; [reflexivity|lia].
Qed.

Lemma Track_new_ok p d nm :
  0 <= p < 256 → Track_new p d nm = Ok (mkTrack p d nm [] [] []).
Proof.
  intros Hp. unfold Track_new.
  now replace ((0 <=? p) && (p <? 256)) with true by lia.
Qed.

(** ** The multi-track wrapper *)

Section MMMSplit.

Import MMM.

Lemma split_loop_ids s keep idx :
  map ids (split_loop s keep idx) = slices_of keep (ids s) idx.
Proof.
  induction idx as [|i rest IH]; [reflexivity|].
  cbn [split_loop slices_of map]. now rewrite IH.
Qed.

Lemma split_loop_tokens s keep idx :
  map tokens (split_loop s keep idx) = slices_of keep (tokens s) idx.
Proof.
  induction idx as [|i rest IH]; [reflexivity|].
  cbn [split_loop slices_of map]. now rewrite IH.
Qed.

Lemma split_loop_events s keep idx :
  map events (split_loop s keep idx) = slices_of keep (events s) idx.
Proof.
  induction idx as [|i rest IH]; [reflexivity|].
  cbn [split_loop slices_of map]. now rewrite IH.
Qed.

Lemma split_loop_length s keep idx :
  length (split_loop s keep idx) = length idx.
Proof. induction idx as [|i rest IH]; cbn; congruence. Qed.

(** The positions found by [where_eq] start at the offset and increase. *)
Lemma where_eq_ge x l i k : k ∈ Py.where_eq x l i → (i <= k)%nat.
Proof.
  revert i. induction l as [|y r IH]; intros i Hk; cbn in Hk.
  - inversion Hk.
  - destruct (y =? x).
    + apply elem_of_cons in Hk as [->|Hk]; [lia|]. apply IH in Hk. lia.
    + apply IH in Hk. lia.
Qed.

Lemma where_eq_sorted x l i : StronglySorted lt (Py.where_eq x l i).
Proof.
  revert i. induction l as [|y r IH]; intros i; cbn.
  - constructor.
  - destruct (y =? x); [|apply IH].
    constructor; [apply IH|].
    apply Forall_forall. intros k Hk. apply where_eq_ge in Hk. lia.
Qed.

(** With the delimiters kept, the slices put end to end are the sequence
    from the first [Track_Start] on. *)
Lemma concat_slices_keep {A} (l : list A) idx :
  StronglySorted lt idx →
  concat (slices_of true l idx)
  = match idx with [] => [] | i0 :: _ => drop i0 l end.
Proof.
  induction 1 as [|i rest Hs IH Hlt]; [reflexivity|].
  cbn [slices_of concat]. rewrite IH.
  destruct rest as [|i1 rest'].
  - cbn. apply app_nil_r.
  - cbn [Py.slice]. apply Forall_cons in Hlt as [Hlt _].
    replace (drop i1 l) with (drop (i1 - i) (drop i l)).
    + apply take_drop.
    + rewrite drop_drop. f_equal. lia.
Qed.

End MMMSplit.

Section MMMTracks.

Import MMM.

Lemma where_eq_nil x l i : x ∉ l → Py.where_eq x l i = [].
Proof.
  revert i. induction l as [|y r IH]; intros i Hx; [reflexivity|].
  cbn. apply not_elem_of_cons in Hx as [Hne Hx].
  destruct (Z.eqb_spec y x); [congruence|]. now apply IH.
Qed.

Lemma where_eq_nil_inv x l i : Py.where_eq x l i = [] → x ∉ l.
Proof.
  revert i. induction l as [|y r IH]; intros i H.
  - apply not_elem_of_nil.
  - cbn in H. destruct (Z.eqb_spec y x); [discriminate|].
    apply not_elem_of_cons. split; [congruence|]. now apply (IH (S i)).
Qed.

Lemma where_eq_app x l1 l2 i :
  Py.where_eq x (l1 ++ l2) i
  = Py.where_eq x l1 i ++ (Py.where_eq x l2 (i + length l1)%nat).
Proof.
  revert i. induction l1 as [|y r IH]; intros i; cbn.
  - f_equal. lia.
  - rewrite IH. replace (S i + length r)%nat with (i + S (length r))%nat by lia.
    now destruct (y =? x).
Qed.

(** The first position found is the first occurrence. *)
Lemma where_eq_cons x l i k rest :
  Py.where_eq x l i = k :: rest →
  ∃ l1 l2, l = l1 ++ (x :: l2) ∧ (x ∉ l1) ∧ k = (i + length l1)%nat.
Proof.
  revert i. induction l as [|y r IH]; intros i H; [discriminate|].
  cbn in H. destruct (Z.eqb_spec y x) as [->|Hne].
  - injection H as <- _. exists [], r. cbn.
    split_and!; [reflexivity | apply not_elem_of_nil | lia].
  - apply IH in H as (l1 & l2 & -> & Hx & ->).
    exists (y :: l1), l2. cbn.
    split_and!; [reflexivity | | lia].
    apply not_elem_of_cons. split; congruence.
Qed.

(** With the delimiters kept, every slice is one track: it starts at a
    [Track_Start] and holds no other one. *)
Lemma slices_keep_tracks x pre l :
  Forall (λ s, ∃ r, s = x :: r ∧ x ∉ r)
    (slices_of true (pre ++ l) (Py.where_eq x l (length pre))).
Proof.
  revert pre. induction l as [|y r IH]; intros pre; [constructor|].
  assert (Htail : Forall (λ s, ∃ r0, s = x :: r0 ∧ x ∉ r0)
            (slices_of true (pre ++ y :: r)
               (Py.where_eq x r (S (length pre))))).
  { specialize (IH (pre ++ [y])).
    rewrite <- app_assoc, length_app in IH. cbn in IH.
    now replace (length pre + 1)%nat with (S (length pre)) in IH by lia. }
  cbn [Py.where_eq]. destruct (Z.eqb_spec y x) as [->|Hne]; [|exact Htail].
  cbn [slices_of]. constructor; [|exact Htail].
  destruct (Py.where_eq x r (S (length pre))) as [|k rest] eqn:Hw.
  - exists r. split; [|now apply where_eq_nil_inv in Hw].
    cbn. now rewrite drop_app_length.
  - apply where_eq_cons in Hw as (l1 & l2 & -> & Hx & ->).
    exists l1. split; [|exact Hx].
    cbn. rewrite drop_app_length.
    match goal with
    | |- take ?n _ = _ => replace n with (S (length l1)) by lia
    end.
    cbn. f_equal. apply take_app_length.
Qed.

End MMMTracks.

Section MMMEncode.

Import MMM.

Lemma mapM_lookup_ok (v : gmap string Z) (toks : list string) :
  Forall (λ t, is_Some (v !! t)) toks →
  ∃ l, mapM (λ t, Py.of_option (v !! t) KeyError) toks = Ok l
       ∧ Forall2 (λ t i, v !! t = Some i) toks l.
Proof.
  induction 1 as [|t toks [i Hi] _ (l & Hl & IH)].
  - exists []. split; [reflexivity|constructor].
  - exists (i :: l). split.
    + apply mapM_cons_ok; [now rewrite Hi|exact Hl].
    + constructor; assumption.
Qed.

Lemma token_not_track_start e :
  type_ e ≠ "Track" → token_of_event e ≠ "Track_Start".
Proof.
  destruct e as [ty v t d]. unfold token_of_event. cbn [type_ value].
  generalize (str v). intros sv Hty H. apply Hty. clear Hty.
  repeat (destruct ty as [|? ty]; cbn in H;
          [first [discriminate | reflexivity]|injection H as -> H]).
  destruct ty; discriminate.
Qed.

Lemma token_not_track_end e :
  type_ e ≠ "Track" → token_of_event e ≠ "Track_End".
Proof.
  destruct e as [ty v t d]. unfold token_of_event. cbn [type_ value].
  generalize (str v). intros sv Hty H. apply Hty. clear Hty.
  repeat (destruct ty as [|? ty]; cbn in H;
          [first [discriminate | reflexivity]|injection H as -> H]).
  destruct ty; discriminate.
Qed.

Lemma complete_sequence_ok cfg evs l :
  mapM (λ t, Py.of_option (vocab cfg !! t) KeyError) (map token_of_event evs)
  = Ok l →
  complete_sequence cfg evs
  = Ok (mkTokSequence evs (map token_of_event evs) l false).
Proof.
  intros H. unfold complete_sequence. now rewrite (bind_ok _ _ _ H).
Qed.

(** The sequence of one track is its events between the two delimiters,
    and no other id of it is a delimiter id. *)
Lemma track_sequence_shape cfg td evs tes ts te :
  track_events_of cfg evs td = Ok tes →
  tes ≠ [] →
  Forall (λ e, type_ e ≠ "Track" ∧ is_Some (vocab cfg !! token_of_event e)) tes →
  vocab cfg !! "Track_Start" = Some ts →
  vocab cfg !! "Track_End" = Some te →
  vocab_injective (vocab cfg) →
  ∃ q a,
    (all_events ← _add_time_events cfg evs td;
     complete_sequence cfg all_events) = Ok q
    ∧ ids q = ts :: a ++ [te]
    ∧ (ts ∉ a) ∧ (te ∉ a)
    ∧ tokens q = "Track_Start" :: map token_of_event tes ++ ["Track_End"]
    ∧ ("Track_Start" ∉ map token_of_event tes)
    ∧ ("Track_End" ∉ map token_of_event tes)
    ∧ length (events q) = length (ids q)
    ∧ length (tokens q) = length (ids q)
    ∧ are_ids_encoded q = false.
Proof.
  intros Htr Hne Hall Hts Hte Hinj.
  destruct (last tes) as [e_last|] eqn:Hlast;
    [|apply last_None in Hlast; contradiction].
  destruct (mapM_lookup_ok (vocab cfg) (map token_of_event tes)) as (a & Ha & Ha2).
  { apply Forall_fmap. eapply Forall_impl; [exact Hall|]. now intros e [_ H]. }
  assert (Hnots : ∀ e, e ∈ tes → token_of_event e ≠ "Track_Start"
                                  ∧ token_of_event e ≠ "Track_End").
  { intros e He. rewrite Forall_forall in Hall. destruct (Hall e He) as [Hty _].
    split; [now apply token_not_track_start|now apply token_not_track_end]. }
  assert (Hx : ∀ x t, vocab cfg !! t = Some x →
               (∀ e, e ∈ tes → token_of_event e ≠ t) → x ∉ a).
  { intros x t Hxt Hdiff Hin.
    apply list_elem_of_lookup in Hin as [k Hk].
    destruct (Forall2_lookup_r _ _ _ _ _ Ha2 Hk) as (tok & Htok & Hv).
    rewrite list_lookup_fmap in Htok.
    destruct (tes !! k) as [e|] eqn:He; [|discriminate].
    cbn in Htok. injection Htok as <-.
    apply (Hdiff e); [now apply list_elem_of_lookup_2 in He|].
    now apply (Hinj _ _ x). }
  exists (mkTokSequence
            (mkEvent "Track" (VStr "Start") 0 0 :: tes
               ++ [mkEvent "Track" (VStr "End") (time e_last + 1) 0])
            ("Track_Start" :: map token_of_event tes ++ ["Track_End"])
            (ts :: a ++ [te]) false), a.
  split_and!; try reflexivity.
  - change ("Track_Start" :: map token_of_event tes ++ ["Track_End"])
      with (token_of_event (mkEvent "Track" (VStr "Start") 0 0)
              :: map token_of_event tes
              ++ map token_of_event
                   [mkEvent "Track" (VStr "End") (time e_last + 1) 0]).
    rewrite <- map_app, <- (map_cons token_of_event).
    unfold _add_time_events.
    rewrite (bind_ok _ _ _ Htr). rewrite Hlast.
    cbn [Py.of_option]. rewrite (bind_ok _ _ _ eq_refl).
    apply complete_sequence_ok.
    cbn [map]. rewrite map_app. cbn [map].
    apply mapM_cons_ok;
      [exact (f_equal (λ o, Py.of_option o KeyError) Hts)|].
    apply mapM_app_ok; [exact Ha|].
    apply (mapM_cons_ok _ _ [] _ []);
      [exact (f_equal (λ o, Py.of_option o KeyError) Hte)|reflexivity].
  - apply (Hx ts "Track_Start" Hts). intros e He. apply (Hnots e He).
  - apply (Hx te "Track_End" Hte). intros e He. apply (Hnots e He).
  - intros Hin. apply list_elem_of_fmap in Hin as (e & He1 & He2).
    destruct (Hnots e He2) as [H _]. now apply H.
  - intros Hin. apply list_elem_of_fmap in Hin as (e & He1 & He2).
    destruct (Hnots e He2) as [_ H]. now apply H.
  - cbn. rewrite !length_app. cbn.
    apply Forall2_length in Ha2. rewrite length_map in Ha2. lia.
  - cbn. rewrite !length_app, length_map. cbn.
    apply Forall2_length in Ha2. rewrite length_map in Ha2. lia.
Qed.

Lemma count_occ_track (x y : Z) (a : list Z) :
  x ∉ a → x ≠ y → count_occ Z.eq_dec (y :: a ++ [x]) x = 1%nat.
Proof.
  intros Ha Hxy. rewrite count_occ_cons_neq by congruence.
  rewrite count_occ_app, (proj1 (count_occ_not_In Z.eq_dec a x)).
  - cbn. now destruct (Z.eq_dec x x).
  - now rewrite <- list_elem_of_In.
Qed.

Lemma count_occ_track_head (x y : Z) (a : list Z) :
  x ∉ a → x ≠ y → count_occ Z.eq_dec (x :: a ++ [y]) x = 1%nat.
Proof.
  intros Ha Hxy. rewrite count_occ_cons_eq by reflexivity.
  rewrite count_occ_app, (proj1 (count_occ_not_In Z.eq_dec a x)).
  - cbn. now destruct (Z.eq_dec y x); [congruence|].
  - now rewrite <- list_elem_of_In.
Qed.

Lemma count_occ_tokens_track (x y : string) (a : list string) :
  x ∉ a → x ≠ y → count_occ string_dec (y :: a ++ [x]) x = 1%nat
                   ∧ count_occ string_dec (x :: a ++ [y]) x = 1%nat.
Proof.
  intros Ha Hxy.
  assert (H0 : count_occ string_dec a x = 0%nat).
  { apply count_occ_not_In. now rewrite <- list_elem_of_In. }
  split.
  - rewrite count_occ_cons_neq by congruence.
    rewrite count_occ_app, H0. cbn. now destruct (string_dec x x).
  - rewrite count_occ_cons_eq by reflexivity.
    rewrite count_occ_app, H0. cbn. now destruct (string_dec y x); [congruence|].
Qed.

(** C5.  With the concatenation of the track sequences on: a score of two
    tracks, each with at least one event, whose events are not of type
    [Track] and whose tokens are in an injective vocabulary, is encoded
    as one stream that holds exactly two [Track_Start] and two
    [Track_End] (as tokens and as ids); splitting this stream per track
    with the delimiters kept returns the two track sequences, and their
    sum is the stream again, view by view. *)
Theorem two_track_stream_splits_back cfg td evs1 evs2 tes1 tes2 ts te :
  concatenate_track_sequences cfg = true →
  track_events_of cfg evs1 td = Ok tes1 →
  track_events_of cfg evs2 td = Ok tes2 →
  tes1 ≠ [] →
  tes2 ≠ [] →
  Forall (λ e, type_ e ≠ "Track" ∧ is_Some (vocab cfg !! token_of_event e))
    (tes1 ++ tes2) →
  vocab cfg !! "Track_Start" = Some ts →
  vocab cfg !! "Track_End" = Some te →
  vocab_injective (vocab cfg) →
  ∃ q1 q2,
    _score_to_tokens cfg [evs1; evs2] td
    = Ok (Concatenated (tokseq_add q1 q2))
    ∧ count_occ Z.eq_dec (ids (tokseq_add q1 q2)) ts = 2%nat
    ∧ count_occ Z.eq_dec (ids (tokseq_add q1 q2)) te = 2%nat
    ∧ count_occ string_dec (tokens (tokseq_add q1 q2)) "Track_Start" = 2%nat
    ∧ count_occ string_dec (tokens (tokseq_add q1 q2)) "Track_End" = 2%nat
    ∧ split_tokseq_per_track cfg (tokseq_add q1 q2) true = Ok [q1; q2]
    ∧ tokseq_sum [q1; q2] = Concatenated (tokseq_add q1 q2).
Proof.
  intros Hcat Htr1 Htr2 Hne1 Hne2 Hall Hts Hte Hinj.
  apply Forall_app in Hall as [Hall1 Hall2].
  destruct (track_sequence_shape cfg td evs1 tes1 ts te)
    as (q1 & a1 & Hq1 & Hi1 & Hs1 & He1 & Ht1 & Hts1 & Hte1 & Hl1 & Hm1 & Hf1);
    auto.
  destruct (track_sequence_shape cfg td evs2 tes2 ts te)
    as (q2 & a2 & Hq2 & Hi2 & Hs2 & He2 & Ht2 & Hts2 & Hte2 & Hl2 & Hm2 & Hf2);
    auto.
  assert (Hd : ts ≠ te).
  { intros ->. specialize (Hinj _ _ _ Hts Hte). discriminate. }
  exists q1, q2. split_and!.
  - unfold _score_to_tokens, super_score_to_tokens.
    rewrite (bind_ok _ _ [q1; q2]).
    + now rewrite Hcat.
    + apply mapM_cons_ok; [exact Hq1|].
      apply mapM_cons_ok; [exact Hq2|reflexivity].
  - cbn [ids tokseq_add]. rewrite Hi1, Hi2, count_occ_app.
    now rewrite !count_occ_track_head.
  - cbn [ids tokseq_add]. rewrite Hi1, Hi2, count_occ_app.
    now rewrite !count_occ_track by congruence.
  - cbn [tokens tokseq_add]. rewrite Ht1, Ht2, count_occ_app.
    destruct (count_occ_tokens_track "Track_Start" "Track_End" _ Hts1)
      as [_ ->]; [discriminate|].
    destruct (count_occ_tokens_track "Track_Start" "Track_End" _ Hts2)
      as [_ ->]; [discriminate|]. reflexivity.
  - cbn [tokens tokseq_add]. rewrite Ht1, Ht2, count_occ_app.
    destruct (count_occ_tokens_track "Track_End" "Track_Start" _ Hte1)
      as [-> _]; [discriminate|].
    destruct (count_occ_tokens_track "Track_End" "Track_Start" _ Hte2)
      as [-> _]; [discriminate|]. reflexivity.
  - unfold split_tokseq_per_track. rewrite Hts. cbn [Py.of_option].
    rewrite (bind_ok _ _ _ eq_refl).
    assert (Hw : Py.where_eq ts (ids (tokseq_add q1 q2)) 0
                 = [0%nat; length (ids q1)]).
    { cbn [ids tokseq_add]. rewrite Hi1, Hi2.
      cbn [app Py.where_eq]. rewrite Z.eqb_refl.
      rewrite <- !app_assoc. rewrite where_eq_app, (where_eq_nil _ _ _ Hs1).
      cbn [app Py.where_eq].
      destruct (Z.eqb_spec te ts) as [Heq|_]; [congruence|].
      rewrite Z.eqb_refl, where_eq_app, (where_eq_nil _ _ _ Hs2).
      cbn [app Py.where_eq].
      destruct (Z.eqb_spec te ts) as [Heq|_]; [congruence|].
      do 2 f_equal. cbn [length]. rewrite length_app. cbn. lia. }
    rewrite Hw. cbn [length Nat.eqb split_loop].
    do 2 f_equal.
    + destruct q1 as [e1 t1 i1 f1], q2 as [e2 t2 i2 f2].
      cbn in Hl1, Hm1, Hf1 |- *. unfold tokseq_slice. cbn.
      rewrite Nat.sub_0_r. f_equal.
      * now apply take_app_length'.
      * now apply take_app_length'.
      * now apply take_app_length'.
    + destruct q1 as [e1 t1 i1 f1], q2 as [e2 t2 i2 f2].
      cbn in Hl1, Hm1, Hf1, Hf2 |- *. subst f1 f2.
      unfold tokseq_slice. cbn.
      rewrite (drop_app_length' e1 e2), (drop_app_length' t1 t2),
        (drop_app_length' i1 i2) by congruence.
      reflexivity.
  - reflexivity.
Qed.

End MMMEncode.

Section MMMCompression.

Import MMM.

Lemma nodup_snd_inj {A B} (l : list (A * B)) a1 a2 b :
  NoDup (map snd l) → (a1, b) ∈ l → (a2, b) ∈ l → a1 = a2.
Proof.
  induction l as [|[a b'] l IH]; intros Hnd H1 H2; [inversion H1|].
  cbn in Hnd. apply NoDup_cons in Hnd as [Hnotin Hnd].
  assert (Hin : ∀ a0, (a0, b) ∈ l → b ∈ map snd l).
  { intros a0 H. apply list_elem_of_fmap. now exists (a0, b). }
  apply elem_of_cons in H1 as [H1|H1]; apply elem_of_cons in H2 as [H2|H2].
  - congruence.
  - injection H1 as -> ->. destruct Hnotin. eauto.
  - injection H2 as -> ->. destruct Hnotin. eauto.
  - now apply IH.
Qed.

Lemma nodup_values_injective (v : gmap string Z) :
  NoDup (map snd (map_to_list v)) → vocab_injective v.
Proof.
  intros Hnd t1 t2 i H1 H2.
  apply elem_of_map_to_list in H1. apply elem_of_map_to_list in H2.
  exact (nodup_snd_inj _ _ _ _ Hnd H1 H2).
Qed.

Lemma forallb_slice {A} (f : A → bool) (l : list A) a b :
  forallb f l = true → forallb f (Py.slice l a b) = true.
Proof.
  rewrite !forallb_forall. intros H x Hx. apply H.
  apply list_elem_of_In. apply list_elem_of_In in Hx.
  destruct b as [e|]; cbn in Hx.
  - now apply subseteq_take, subseteq_drop in Hx.
  - now apply subseteq_drop in Hx.
Qed.

Lemma forallb_slices {A} (f : A → bool) (l : list A) keep idx :
  forallb f l = true → Forall (λ s, forallb f s = true) (slices_of keep l idx).
Proof.
  intros H. induction idx as [|i rest IH]; [constructor|].
  cbn [slices_of]. constructor; [now apply forallb_slice|exact IH].
Qed.

(** C4, amended.  When [encode_ids_split] is not ["no"], the ids of the
    encoded sequence are the ids of the track slices, each encoded on its
    own, put end to end: every slice is one track (it starts at a
    [Track_Start] and holds no other one, or it is the whole sequence
    when there is no [Track_Start]), and for a lossless merge model no id
    of the result covers base ids of two tracks. *)
Theorem encode_token_ids_track_local cfg seq ts expand base :
  encode_ids_split cfg ≠ "no" →
  vocab cfg !! "Track_Start" = Some ts →
  (∀ x, forallb base x = true →
        flat_map expand (super_encode_token_ids cfg x) = x) →
  forallb base (ids seq) = true →
  ∃ slices,
    split_tokseq_per_track cfg seq true = Ok slices
    ∧ encode_token_ids cfg seq
      = Ok (set_encoded_ids seq
              (concat (map (λ s, super_encode_token_ids cfg (ids s)) slices)))
    ∧ (ts ∈ ids seq →
       Forall (λ s, ∃ r, ids s = ts :: r ∧ (ts ∉ r)) slices)
    ∧ (ts ∉ ids seq → slices = [seq])
    ∧ track_local expand (map ids slices)
        (concat (map (λ s, super_encode_token_ids cfg (ids s)) slices)).
Proof.
  intros Hsplit Hts Hloss Hbase.
  apply String.eqb_neq in Hsplit.
  assert (Hall : ∀ keep idx,
             Forall (λ s, forallb base (ids s) = true)
               (split_loop seq keep idx)).
  { intros keep idx.
    apply (proj1 (List.Forall_map ids (λ l, forallb base l = true) _)).
    rewrite split_loop_ids. now apply forallb_slices. }
  assert (Hlocal : ∀ slices,
             Forall (λ s, forallb base (ids s) = true) slices →
             track_local expand (map ids slices)
               (concat (map (λ s, super_encode_token_ids cfg (ids s)) slices))).
  { intros slices Hsl.
    exists (map (λ s, super_encode_token_ids cfg (ids s)) slices).
    split; [reflexivity|].
    induction Hsl as [|s slices Hs _ IH]; [constructor|].
    cbn [map]. constructor; [now apply Hloss|exact IH]. }
  unfold encode_token_ids, split_tokseq_per_track.
  rewrite Hsplit, Hts. cbn [Py.of_option]. rewrite !(bind_ok _ _ _ eq_refl).
  destruct (Py.where_eq ts (ids seq) 0) as [|k idx] eqn:Hw.
  - cbn [length Nat.eqb]. exists [seq]. rewrite !(bind_ok _ _ _ eq_refl).
    split_and!; try reflexivity.
    + intros Hin. now apply where_eq_nil_inv in Hw.
    + apply Hlocal. constructor; [exact Hbase|constructor].
  - cbn [length Nat.eqb]. exists (split_loop seq true (k :: idx)).
    rewrite !(bind_ok _ _ _ eq_refl).
    split_and!; try reflexivity.
    + intros _.
      apply (proj1 (List.Forall_map ids (λ l, ∃ r, l = ts :: r ∧ (ts ∉ r)) _)).
      rewrite split_loop_ids, <- Hw.
      exact (slices_keep_tracks ts [] (ids seq)).
    + intros Hnot. apply (where_eq_nil _ _ 0%nat) in Hnot. congruence.
    + apply Hlocal, Hall.
Qed.

Lemma merge_encode_cons2 a b r :
  Examples.merge_encode (a :: b :: r)
  = if (a =? 2) && (b =? 1) then 99 :: Examples.merge_encode r
    else a :: Examples.merge_encode (b :: r).
Proof. reflexivity. Qed.

Lemma merge_lossless_le n : ∀ x,
  (length x <= n)%nat →
  forallb Examples.is_base x = true →
  flat_map Examples.merge_expand (Examples.merge_encode x) = x.
Proof.
  induction n as [|n IH]; intros x Hn Hb.
  - destruct x; [reflexivity|cbn in Hn; lia].
  - destruct x as [|a [|b r]]; [reflexivity| |].
    + cbn in Hb |- *. unfold Examples.merge_expand, Examples.is_base in *.
      now destruct (a =? 99).
    + rewrite merge_encode_cons2.
      cbn [forallb] in Hb. apply andb_prop in Hb as [Ha Hb].
      destruct ((a =? 2) && (b =? 1)) eqn:Hab.
      * apply andb_prop in Hab as [->%Z.eqb_eq ->%Z.eqb_eq].
        apply andb_prop in Hb as [_ Hb].
        cbn [flat_map]. rewrite IH; [reflexivity| |exact Hb].
        cbn in Hn. lia.
      * cbn [flat_map]. rewrite IH; [|cbn in Hn |- *; lia|exact Hb].
        unfold Examples.merge_expand, Examples.is_base in *.
        now destruct (a =? 99).
Qed.

Lemma merge_lossless x :
  forallb Examples.is_base x = true →
  flat_map Examples.merge_expand (Examples.merge_encode x) = x.
Proof. now apply (merge_lossless_le (length x)). Qed.

(** Witness of C4: the two-track stream under the split ["bar"]. *)
Lemma encode_token_ids_track_local_witness :
  ∃ slices,
    split_tokseq_per_track (Examples.mmm_cfg "bar") Examples.two_tracks true
    = Ok slices
    ∧ encode_token_ids (Examples.mmm_cfg "bar") Examples.two_tracks
      = Ok (set_encoded_ids Examples.two_tracks
              (concat (map (λ s, Examples.merge_encode (ids s)) slices)))
    ∧ (1 ∈ ids Examples.two_tracks →
       Forall (λ s, ∃ r, ids s = 1 :: r ∧ (1 ∉ r)) slices)
    ∧ (1 ∉ ids Examples.two_tracks → slices = [Examples.two_tracks])
    ∧ track_local Examples.merge_expand (map ids slices)
        (concat (map (λ s, Examples.merge_encode (ids s)) slices)).
Proof.
  apply (encode_token_ids_track_local (Examples.mmm_cfg "bar")
           Examples.two_tracks 1 Examples.merge_expand Examples.is_base).
  - discriminate.
  - reflexivity.
  - exact merge_lossless.
  - reflexivity.
Defined.

(** Counterexample to C4 as stated: with [encode_ids_split] set to
    ["no"] the parent encodes the concatenated stream as a whole, and the
    id [99] of the result expands to the [Track_End] of the first track
    followed by the [Track_Start] of the second. *)
Lemma no_split_merges_across_tracks :
  ∃ out slices,
    encode_token_ids (Examples.mmm_cfg "no") Examples.two_tracks = Ok out
    ∧ ids out = [1; 10; 12; 13; 99; 11; 12; 13; 2]
    ∧ split_tokseq_per_track (Examples.mmm_cfg "no") Examples.two_tracks true
      = Ok slices
    ∧ map ids slices = [[1; 10; 12; 13; 2]; [1; 11; 12; 13; 2]]
    ∧ ¬ track_local Examples.merge_expand (map ids slices) (ids out).
Proof.
  eexists. eexists.
  split; [vm_compute; reflexivity|].
  split; [reflexivity|].
  split; [vm_compute; reflexivity|].
  split; [reflexivity|].
  intros (runs & Hc & Hf).
  cbn [map ids MMM.tokseq_slice Py.slice] in Hf.
  apply Forall2_cons_inv_r in Hf as (r1 & runs' & H1 & Hf & ->).
  clear Hf. revert H1 Hc. cbn [ids set_encoded_ids concat].
  generalize (concat runs'). intros rest H1 Hc.
  vm_compute in Hc.
  repeat (destruct r1 as [|? r1];
          [vm_compute in H1; discriminate
          |cbn in Hc; injection Hc as -> Hc;
           vm_compute in H1; try discriminate;
           injection H1 as H1]).
Qed.

(** C6, the code at a failing input: on the two-track stream, with
    [keep_track_tokens] off, the slice of the last track still ends with
    [Track_End]. *)
Lemma split_strip_keeps_last_track_end :
  ∃ s1 s2,
    split_tokseq_per_track (Examples.mmm_cfg "bar") Examples.two_tracks false
    = Ok [s1; s2]
    ∧ tokens s1 = ["Pitch_60"; "Velocity_100"; "Duration_1.0.8"]
    ∧ tokens s2 = ["Pitch_64"; "Velocity_100"; "Duration_1.0.8"; "Track_End"]
    ∧ ids s2 = [11; 12; 13; 2].
Proof.
  eexists. eexists. split; [vm_compute; reflexivity|].
  split_and!; reflexivity.
Qed.

(** Witness of C5: two tracks of one note each. *)
Lemma two_track_stream_splits_back_witness :
  ∃ q1 q2,
    _score_to_tokens (Examples.mmm_cfg "bar")
      [Examples.note_events 60; Examples.note_events 64] 480
    = Ok (Concatenated (tokseq_add q1 q2))
    ∧ count_occ Z.eq_dec (ids (tokseq_add q1 q2)) 1 = 2%nat
    ∧ count_occ Z.eq_dec (ids (tokseq_add q1 q2)) 2 = 2%nat
    ∧ count_occ string_dec (tokens (tokseq_add q1 q2)) "Track_Start" = 2%nat
    ∧ count_occ string_dec (tokens (tokseq_add q1 q2)) "Track_End" = 2%nat
    ∧ split_tokseq_per_track (Examples.mmm_cfg "bar") (tokseq_add q1 q2) true
      = Ok [q1; q2]
    ∧ tokseq_sum [q1; q2] = Concatenated (tokseq_add q1 q2).
Proof.
  apply (two_track_stream_splits_back (Examples.mmm_cfg "bar") 480
           (Examples.note_events 60) (Examples.note_events 64)
           (Examples.note_events 60) (Examples.note_events 64) 1 2).
  - reflexivity.
  - reflexivity.
  - reflexivity.
  - discriminate.
  - discriminate.
  - repeat constructor; try discriminate; eexists; vm_compute; reflexivity.
  - reflexivity.
  - reflexivity.
  - apply nodup_values_injective.
    refine (bool_decide_unpack _ _). vm_compute. exact I.
Defined.

End MMMCompression.

(** ** The fixed-pattern scheme *)

Section StructuredDecode.

Import Structured.

Lemma split_token_parts token ty v :
  split_token token = Ok (ty, v) → Py.split "_" token = [ty; v].
Proof.
  unfold split_token. destruct (Py.split "_" token) as [|a [|b [|c r]]];
    try discriminate. now intros [= -> ->].
Qed.



(** Decoding whole sequences: a complete triplet gives its note, a
    triplet cut at the end of the sequence gives none and nothing is
    raised. *)
Example decode_truncated_triplet :
  _tokens_to_midi (Examples.structured_cfg false)
    [["TimeShift_0.0.1"; "Pitch_60"; "Velocity_100"; "Duration_1.0.8";
      "TimeShift_1.0.8"; "Pitch_64"; "Velocity_100"]] None
  = Ok [mkTrack 0 false "Instrument" [mkNote 0 480 60 100] [] []].
Proof. vm_compute. reflexivity. Qed.

End StructuredDecode.

Section StructuredEncode.

Import Structured.

(** A gap that is not zero and not a key of the table makes the loop
    raise: no other value is looked for. *)
Lemma add_time_loop_unknown_gap cfg check td ev rest previous_tick all_events :
  type_ ev = check →
  time ev - previous_tick ≠ 0 →
  ticks_to_token cfg td (time ev - previous_tick) = Raise KeyError →
  add_time_loop cfg check td (ev :: rest) previous_tick all_events
  = Raise KeyError.
Proof.
  intros Hty Hgap Hraise. cbn [add_time_loop].
  rewrite Hty, String.eqb_refl.
  destruct (Z.eqb_spec (time ev - previous_tick) 0); [contradiction|].
  cbn [negb]. now rewrite Hraise.
Qed.

(** C9, the code at a failing input: the table goes up to four beats
    (1920 ticks); a second note 9600 ticks after the first makes both
    encoders raise [KeyError], where the claim has a [TimeShift] of the
    largest value. *)
Lemma time_shift_beyond_table_raises :
  _create_track_events (Examples.structured_cfg false)
    (Examples.gap_track 9600) = Raise KeyError
  ∧ ∃ evs,
      _create_track_events (Examples.structured_cfg true)
        (Examples.gap_track 9600) = Ok evs
      ∧ _add_time_events (Examples.structured_cfg true) evs 480
        = Raise KeyError.
Proof.
  split; [vm_compute; reflexivity|].
  eexists. split; vm_compute; reflexivity.
Qed.

(** The same encoders on gaps of the table: one [TimeShift] before each
    group, ["0.0.1"] for a gap of zero. *)
Example time_shift_in_table :
  (evs ← _create_track_events (Examples.structured_cfg true)
           (Examples.gap_track 0);
   all ← _add_time_events (Examples.structured_cfg true) evs 480;
   Ok (map token_of_event all))
  = Ok ["TimeShift_0.0.1"; "Program_0"; "Pitch_60"; "Velocity_100";
        "Duration_1.0.8"; "TimeShift_0.0.1"; "Program_0"; "Pitch_64";
        "Velocity_100"; "Duration_1.0.8"]
  ∧ (evs ← _create_track_events (Examples.structured_cfg false)
             (Examples.gap_track 480);
     Ok (map token_of_event evs))
    = Ok ["TimeShift_0.0.1"; "Pitch_60"; "Velocity_100"; "Duration_1.0.8";
          "TimeShift_1.0.8"; "Pitch_64"; "Velocity_100"; "Duration_1.0.8"].
Proof. split; vm_compute; reflexivity. Qed.

End StructuredEncode.

(** ** The FIFO decoder *)

Section ODictFacts.

Context {V : Type}.

Lemma odict_get_set_eq (d : ODict.t V) k v :
  ODict.get (ODict.set d k v) k = Some v.
Proof.
  induction d as [|[k' v'] d IH]; cbn.
  - now rewrite Z.eqb_refl.
  - destruct (Z.eqb_spec k' k) as [->|Hne]; cbn.
    + now rewrite Z.eqb_refl.
    + destruct (Z.eqb_spec k' k); [contradiction|exact IH].
Qed.

Lemma odict_get_set_ne (d : ODict.t V) k k' v :
  k ≠ k' → ODict.get (ODict.set d k v) k' = ODict.get d k'.
Proof.
  intros Hne. induction d as [|[k0 v0] d IH]; cbn.
  - destruct (Z.eqb_spec k k'); [contradiction|reflexivity].
  - destruct (Z.eqb_spec k0 k) as [->|Hne0]; cbn.
    + destruct (Z.eqb_spec k k'); [contradiction|reflexivity].
    + destruct (Z.eqb_spec k0 k'); [reflexivity|exact IH].
Qed.

Lemma odict_mem_get (d : ODict.t V) k :
  ODict.mem d k = true ↔ is_Some (ODict.get d k).
Proof.
  unfold ODict.mem. destruct (ODict.get d k); split; intros H;
    try reflexivity; try discriminate; [now eexists|].
  destruct H as [x H]. discriminate.
Qed.

End ODictFacts.

Section MIDILikeDecode.

Import MIDILike.

Lemma get_queue_inv st g p q :
  get_queue st g p = Ok q →
  ∃ d, ODict.get (active_notes st) g = Some d ∧ ODict.get d p = Some q.
Proof.
  unfold get_queue. intros H.
  apply bind_ok_inv in H as (d & Hd & H).
  exists d. destruct (ODict.get (active_notes st) g); [|discriminate].
  injection Hd as ->. split; [reflexivity|].
  destruct (ODict.get d p); [|discriminate]. now injection H as ->.
Qed.

(** Storing a queue changes this queue and nothing else. *)
Lemma put_queue_ok st g p q0 q :
  get_queue st g p = Ok q0 →
  ∃ st1, put_queue st g p q = Ok st1
         ∧ get_queue st1 g p = Ok q
         ∧ tracks st1 = tracks st
         ∧ store st1 = store st
         ∧ current_instrument st1 = current_instrument st
         ∧ current_tick st1 = current_tick st
         ∧ current_program st1 = current_program st.
Proof.
  intros H. apply get_queue_inv in H as (d & Hd & Hq).
  unfold put_queue. rewrite Hd. cbn [Py.of_option].
  rewrite (bind_ok _ _ _ eq_refl). eexists. split; [reflexivity|].
  split_and!; try reflexivity.
  unfold get_queue. cbn [active_notes set_active_notes].
  rewrite odict_get_set_eq. cbn [Py.of_option].
  now rewrite (bind_ok _ _ _ eq_refl), odict_get_set_eq.
Qed.

(** Appending a note to the track of [prog] changes the notes of this
    track and neither the queues nor the cursor. *)
Lemma add_note_dest cfg st prog n st' :
  add_to_track cfg st prog (λ t, track_add_note t n) = Ok st' →
  dest_notes cfg st' prog = dest_notes cfg st prog ++ [n]
  ∧ active_notes st' = active_notes st
  ∧ current_tick st' = current_tick st
  ∧ current_program st' = current_program st.
Proof.
  unfold add_to_track, dest_notes. destruct (one_token_stream cfg).
  - intros H. apply bind_ok_inv in H as (trs & Htrs & H).
    apply bind_ok_inv in H as (tr & Htr & H). injection H as <-.
    cbn [tracks set_tracks active_notes current_tick current_program].
    rewrite odict_get_set_eq. split_and!; try reflexivity.
    unfold check_inst in Htrs.
    destruct (ODict.mem (tracks st) prog) eqn:Hmem.
    + injection Htrs as <-.
      destruct (ODict.get (tracks st) prog); [|discriminate].
      now injection Htr as <-.
    + apply bind_ok_inv in Htrs as (t0 & Ht0 & Htrs). injection Htrs as <-.
      rewrite odict_get_set_eq in Htr. injection Htr as <-.
      unfold ODict.mem in Hmem.
      destruct (ODict.get (tracks st) prog); [discriminate|].
      unfold new_inst_track in Ht0.
      apply bind_ok_inv in Ht0 as (nm & _ & Ht0).
      now apply Track_new_inv in Ht0 as [-> _].
  - intros H. apply bind_ok_inv in H as (ref & Href & H).
    apply bind_ok_inv in H as (tr & Htr & H). injection H as <-.
    cbn [store set_store current_instrument active_notes current_tick
         current_program].
    destruct (current_instrument st) as [r|]; [|discriminate].
    injection Href as ->.
    destruct (store st !! ref) as [t|] eqn:Hs; [|discriminate].
    injection Htr as ->.
    rewrite list_lookup_insert_eq; [now split_and!|].
    now apply lookup_lt_Some in Hs.
Qed.

Lemma add_to_track_ok cfg st prog f :
  dest_available cfg st prog → ∃ st', add_to_track cfg st prog f = Ok st'.
Proof.
  unfold dest_available, add_to_track, check_inst.
  destruct (one_token_stream cfg).
  - intros [Hmem|[t Ht]].
    + rewrite Hmem. rewrite (bind_ok _ _ _ eq_refl).
      apply odict_mem_get in Hmem as [tr Htr]. rewrite Htr.
      cbn [Py.of_option]. rewrite (bind_ok _ _ _ eq_refl). now eexists.
    + destruct (ODict.mem (tracks st) prog) eqn:Hmem.
      * rewrite (bind_ok _ _ _ eq_refl).
        apply odict_mem_get in Hmem as [tr Htr]. rewrite Htr.
        cbn [Py.of_option]. rewrite (bind_ok _ _ _ eq_refl). now eexists.
      * rewrite (bind_ok _ _ _ Ht), (bind_ok _ _ _ eq_refl).
        rewrite odict_get_set_eq. cbn [Py.of_option].
        rewrite (bind_ok _ _ _ eq_refl). now eexists.
  - intros (ref & t & Href & Ht). rewrite Href. cbn [Py.of_option].
    rewrite (bind_ok _ _ _ eq_refl), Ht. cbn [Py.of_option].
    rewrite (bind_ok _ _ _ eq_refl). now eexists.
Qed.

(** A [NoteOff] token runs the branch that closes a note. *)
Lemma decode_note_off cfg maxd td seq si ti token v p st :
  split_token token = Ok ("NoteOff", v) →
  Py.int v = Ok p →
  decode_token cfg maxd td seq si ti token st = note_off cfg maxd p st.
Proof.
  intros Hsp Hint. unfold decode_token. rewrite (bind_ok _ _ _ Hsp).
  cbn -[note_off note_on]. unfold resolve_pitch. cbn -[note_off note_on].
  now rewrite (bind_ok _ _ _ Hint).
Qed.

(** The constructor of a note returns the note with the four values, or
    raises [TypeError]. *)
Lemma new_note_inv cfg t d p v n :
  new_note cfg t d p v = Ok n → n = mkNote t d p v ∧ Note_fits cfg t d p v = true.
Proof.
  unfold new_note. destruct (Note_fits cfg t d p v); [|discriminate].
  now intros [= <-].
Qed.

Lemma new_note_ok cfg t d p v :
  Note_fits cfg t d p v = true → new_note cfg t d p v = Ok (mkNote t d p v).
Proof. unfold new_note. now intros ->. Qed.

Lemma new_note_raises cfg t d p v :
  Note_fits cfg t d p v = false → new_note cfg t d p v = Raise TypeError.
Proof. unfold new_note. now intros ->. Qed.

(** One onset of the flush: when the values fit a note, the note is
    appended as [add_to_track] does; the flush returns in this case
    only. *)
Lemma flush_note_fits cfg m prog st p onset vel :
  Note_fits cfg onset m p vel = true →
  flush_note cfg m prog st (p, onset, vel)
  = add_to_track cfg st prog (λ t, track_add_note t (mkNote onset m p vel)).
Proof.
  intros Hfit. unfold flush_note, add_to_track.
  rewrite (new_note_ok _ _ _ _ _ Hfit).
  destruct (one_token_stream cfg).
  - destruct (check_inst (MIDI_INSTRUMENTS cfg) (tracks st) prog) as [trs|e];
      [|reflexivity].
    rewrite !(bind_ok _ _ _ eq_refl).
    now destruct (ODict.get trs prog).
  - destruct (current_instrument st) as [ref|]; [|reflexivity].
    cbn [Py.of_option]. rewrite !(bind_ok _ _ _ eq_refl).
    now destruct (store st !! ref).
Qed.

Lemma flush_note_inv cfg m prog st p onset vel st' :
  flush_note cfg m prog st (p, onset, vel) = Ok st' →
  Note_fits cfg onset m p vel = true
  ∧ add_to_track cfg st prog (λ t, track_add_note t (mkNote onset m p vel))
    = Ok st'.
Proof.
  intros H. destruct (Note_fits cfg onset m p vel) eqn:Hfit.
  - split; [reflexivity|]. now rewrite <- (flush_note_fits _ _ _ _ _ _ _ Hfit).
  - exfalso. unfold flush_note in H. destruct (one_token_stream cfg).
    + apply bind_ok_inv in H as (trs & _ & H).
      apply bind_ok_inv in H as (tr & _ & H).
      apply bind_ok_inv in H as (n & Hn & _).
      apply new_note_inv in Hn as [_ Hn]. congruence.
    + apply bind_ok_inv in H as (ref & _ & H).
      apply bind_ok_inv in H as (tr & _ & H).
      apply bind_ok_inv in H as (n & Hn & _).
      apply new_note_inv in Hn as [_ Hn]. congruence.
Qed.

(** C1, amended.  A [NoteOff] token for pitch [p] under the current
    program [g]: when the queue of [(g, p)] is empty the step returns the
    state as it was.  When its oldest entry is [(onset, vel)], the note
    to build starts at [onset], has the pitch [p] and the velocity [vel],
    and lasts the distance from [onset] to the tick cursor, or the
    maximum duration when one is configured and smaller.  When these
    values do not fit a note of the score library the step raises
    [TypeError]; when they do, the step returns as soon as the track of
    [g] exists or can be created.  Whenever the step returns, the entry
    is gone from the queue, the rest of the queue is as it was, and the
    track has this one more note. *)
Theorem note_off_closes_oldest cfg maxd td seq si ti token v p st :
  split_token token = Ok ("NoteOff", v) →
  Py.int v = Ok p →
  (get_queue st (current_program st) p = Ok [] →
   decode_token cfg maxd td seq si ti token st = Ok st)
  ∧ ∀ onset vel rest,
      get_queue st (current_program st) p = Ok ((onset, vel) :: rest) →
      (Note_fits cfg onset
         (match maxd with
          | Some md => Z.min (current_tick st - onset) md
          | None => current_tick st - onset
          end) p vel = false →
       decode_token cfg maxd td seq si ti token st = Raise TypeError)
      ∧ (Note_fits cfg onset
           (match maxd with
            | Some md => Z.min (current_tick st - onset) md
            | None => current_tick st - onset
            end) p vel = true →
         dest_available cfg st (current_program st) →
         ∃ st', decode_token cfg maxd td seq si ti token st = Ok st')
      ∧ ∀ st',
          decode_token cfg maxd td seq si ti token st = Ok st' →
          get_queue st' (current_program st) p = Ok rest
          ∧ dest_notes cfg st' (current_program st)
            = dest_notes cfg st (current_program st)
              ++ [mkNote onset
                    (match maxd with
                     | Some md => Z.min (current_tick st - onset) md
                     | None => current_tick st - onset
                     end) p vel]
          ∧ current_tick st' = current_tick st.
Proof.
  intros Hsp Hint. rewrite (decode_note_off _ _ _ _ _ _ _ _ _ _ Hsp Hint).
  unfold note_off. split.
  - intros Hq. now rewrite (bind_ok _ _ _ Hq).
  - intros onset vel rest Hq. rewrite (bind_ok _ _ _ Hq).
    destruct (put_queue_ok st (current_program st) p _ rest Hq)
      as (st1 & Hput & Hget & Htr & Hst & Hci & Htick & Hprog).
    rewrite (bind_ok _ _ _ Hput).
    assert (Hdur : (match maxd with
                    | Some md =>
                        if current_tick st - onset >? md then md
                        else current_tick st - onset
                    | None => current_tick st - onset
                    end)
                   = match maxd with
                     | Some md => Z.min (current_tick st - onset) md
                     | None => current_tick st - onset
                     end).
    { destruct maxd as [md|]; [|reflexivity].
      destruct (Z.gtb_spec (current_tick st - onset) md); lia. }
    rewrite Hdur. split_and!.
    + intros Hfit. now rewrite (new_note_raises _ _ _ _ _ Hfit).
    + intros Hfit Hav. rewrite (new_note_ok _ _ _ _ _ Hfit).
      rewrite (bind_ok _ _ _ eq_refl). apply add_to_track_ok.
      unfold dest_available in *. now rewrite Htr, Hst, Hci.
    + intros st' Hadd. apply bind_ok_inv in Hadd as (n & Hn & Hadd).
      apply new_note_inv in Hn as [-> _].
      apply add_note_dest in Hadd as (Hnotes & Han & Ht & _).
      split_and!.
      * unfold get_queue in *. now rewrite Han.
      * rewrite Hnotes. f_equal. unfold dest_notes.
        now rewrite Htr, Hst, Hci.
      * congruence.
Qed.

(** Witness of C1: the token [NoteOff_60] after an onset of pitch 60
    and 960 ticks, the maximum duration being one beat. *)
Lemma note_off_closes_oldest_witness :
  (get_queue Examples.clamp_state (current_program Examples.clamp_state) 60
   = Ok [] →
   decode_token Examples.clamp_cfg (Some 480) 480 Examples.clamp_seq 0 3
     "NoteOff_60" Examples.clamp_state = Ok Examples.clamp_state)
  ∧ ∀ onset vel rest,
      get_queue Examples.clamp_state (current_program Examples.clamp_state) 60
      = Ok ((onset, vel) :: rest) →
      (Note_fits Examples.clamp_cfg onset
         (Z.min (current_tick Examples.clamp_state - onset) 480) 60 vel
       = false →
       decode_token Examples.clamp_cfg (Some 480) 480 Examples.clamp_seq 0 3
         "NoteOff_60" Examples.clamp_state = Raise TypeError)
      ∧ (Note_fits Examples.clamp_cfg onset
           (Z.min (current_tick Examples.clamp_state - onset) 480) 60 vel
         = true →
         dest_available Examples.clamp_cfg Examples.clamp_state
           (current_program Examples.clamp_state) →
         ∃ st', decode_token Examples.clamp_cfg (Some 480) 480
                  Examples.clamp_seq 0 3 "NoteOff_60" Examples.clamp_state
                = Ok st')
      ∧ ∀ st',
          decode_token Examples.clamp_cfg (Some 480) 480 Examples.clamp_seq
            0 3 "NoteOff_60" Examples.clamp_state = Ok st' →
          get_queue st' (current_program Examples.clamp_state) 60 = Ok rest
          ∧ dest_notes Examples.clamp_cfg st'
              (current_program Examples.clamp_state)
            = dest_notes Examples.clamp_cfg Examples.clamp_state
                (current_program Examples.clamp_state)
              ++ [mkNote onset
                    (Z.min (current_tick Examples.clamp_state - onset) 480)
                    60 vel]
          ∧ current_tick st' = current_tick Examples.clamp_state.
Proof.
  apply (note_off_closes_oldest Examples.clamp_cfg (Some 480) 480
           Examples.clamp_seq 0 3 "NoteOff_60" "60" 60 Examples.clamp_state);
    reflexivity.
Defined.

(** Counterexample to C1 as stated: with a maximum duration of one beat
    (480 ticks), an onset at tick 0 closed by a [NoteOff] at tick 960 gives
    a note of 480 ticks, which ends before the tick cursor. *)
Lemma note_off_clamped_note_ends_early :
  max_duration_ticks Examples.clamp_cfg 480 = Ok (Some 480)
  ∧ current_tick Examples.clamp_state = 960
  ∧ get_queue Examples.clamp_state (current_program Examples.clamp_state) 60
    = Ok [(0, 100)]
  ∧ ∃ st' n,
      decode_token Examples.clamp_cfg (Some 480) 480 Examples.clamp_seq 0 3
        "NoteOff_60" Examples.clamp_state = Ok st'
      ∧ dest_notes Examples.clamp_cfg st'
          (current_program Examples.clamp_state) = [n]
      ∧ n = mkNote 0 480 60 100
      ∧ note_end n ≠ current_tick Examples.clamp_state.
Proof.
  split; [reflexivity|]. split; [reflexivity|]. split; [reflexivity|].
  eexists. eexists. split; [vm_compute; reflexivity|].
  split; [reflexivity|]. split; [reflexivity|]. discriminate.
Qed.

(** The onset branch reads the value of the next token whatever its type
    is: nothing checks that it is a [Velocity] token. *)
Lemma note_on_reads_any_next_token seq ti pitch st next val vel q :
  seq !! (ti + 1)%nat = Some next →
  token_value next = Ok val →
  Py.int val = Ok vel →
  get_queue st (current_program st) pitch = Ok q →
  ∃ st', note_on seq ti pitch st = Ok st'
         ∧ get_queue st' (current_program st) pitch
           = Ok (q ++ [(current_tick st, vel)]).
Proof.
  intros Hnext Hval Hvel Hq. unfold note_on.
  assert (Hlt : (ti + 1 <? length seq)%nat = true).
  { apply Nat.ltb_lt. now apply lookup_lt_Some in Hnext. }
  rewrite Hlt. unfold Py.index. rewrite Hnext. cbn [Py.of_option].
  rewrite (bind_ok _ _ _ eq_refl), (bind_ok _ _ _ Hval),
    (bind_ok _ _ _ Hvel), (bind_ok _ _ _ Hq).
  destruct (put_queue_ok st (current_program st) pitch q
              (q ++ [(current_tick st, vel)]) Hq) as (st1 & Hput & Hget & _).
  exists st1. now split.
Qed.

(** C2, the code at failing inputs.  An onset followed by [NoteOff_60] is
    queued with the velocity 60 read from that token, and the same
    [NoteOff_60] then closes it as a note; an onset followed by a
    [TimeShift] token makes the decoder raise [ValueError]. *)
Lemma note_on_without_velocity_token :
  _tokens_to_midi (Examples.midilike_cfg true false None)
    [["NoteOn_60"; "NoteOff_60"]] None None
  = Ok (mkScore [mkTrack 0 false "Instrument" [mkNote 0 0 60 60] [] []] [] [])
  ∧ (∃ st, decode_token (Examples.midilike_cfg true false None) None 480
             ["NoteOn_60"; "NoteOff_60"] 0 0 "NoteOn_60"
             (Examples.midilike_after (Examples.midilike_cfg true false None)
                None [] (initial_state (Examples.midilike_cfg true false None)))
           = Ok st
           ∧ get_queue st 0 60 = Ok [(0, 60)])
  ∧ _tokens_to_midi (Examples.midilike_cfg true false None)
      [["NoteOn_60"; "TimeShift_1.0.8"; "NoteOff_60"]] None None
    = Raise ValueError.
Proof.
  split; [vm_compute; reflexivity|]. split; [|vm_compute; reflexivity].
  eexists. split; vm_compute; reflexivity.
Qed.

(** C7, the code at a failing input.  With the track sequences decoded
    separately and a maximum duration of one beat, an onset queued after
    a [Program_5] token is not flushed at the end of its sequence: the
    track comes out empty, where decoding the same tokens as one stream
    flushes the note; and the onset stays queued, so that a [NoteOff] of
    the next sequence closes it into the next track. *)
Lemma flush_skips_other_programs :
  _tokens_to_midi Examples.tracks_cfg
    [["Program_5"; "NoteOn_60"; "Velocity_100"]] None None
  = Ok (mkScore [mkTrack 0 false "Instrument" [] [] []] [] [])
  ∧ _tokens_to_midi (Examples.midilike_cfg true true (Some (1, 0, 8)))
      [["Program_5"; "NoteOn_60"; "Velocity_100"]] None None
    = Ok (mkScore [mkTrack 5 false "Instrument" [mkNote 0 480 60 100] [] []]
            [] [])
  ∧ _tokens_to_midi Examples.tracks_cfg
      [["Program_5"; "NoteOn_60"; "Velocity_100"];
       ["Program_5"; "TimeShift_1.0.8"; "NoteOff_60"]] None None
    = Ok (mkScore [mkTrack 0 false "Instrument" [] [] [];
                   mkTrack 0 false "Instrument" [mkNote 0 480 60 100] [] []]
            [] []).
Proof. split_and!; vm_compute; reflexivity. Qed.

(** The parts of C7 that hold: without a maximum duration nothing is
    flushed, and a track sequence whose onsets are queued under the
    program of its track has them flushed with the maximum duration. *)
Lemma clear_active_notes_without_max cfg st :
  clear_active_notes cfg None st = Ok st.
Proof. reflexivity. Qed.

Example flush_of_track_program :
  _tokens_to_midi Examples.tracks_cfg
    [["NoteOn_60"; "Velocity_100"; "TimeShift_2.0.8"; "NoteOn_64";
      "Velocity_90"]] None None
  = Ok (mkScore
          [mkTrack 0 false "Instrument"
             [mkNote 0 480 60 100; mkNote 960 480 64 90] [] []] [] [])
  ∧ _tokens_to_midi (Examples.midilike_cfg false true None)
      [["NoteOn_60"; "Velocity_100"; "TimeShift_2.0.8"; "NoteOn_64";
        "Velocity_90"]] None None
    = Ok (mkScore [mkTrack 0 false "Instrument" [] [] []] [] []).
Proof. split; vm_compute; reflexivity. Qed.

End MIDILikeDecode.

(** ** Validity scoring *)

Section Lookahead.

Import MIDILike.

(** The scan gives the same result whatever [use_programs], the current
    program, the program met so far and the values of the [Program]
    events are. *)
Lemma lookahead_program_independent cfg md pitch b cp cp' rest rest' :
  Forall2 same_but_program rest rest' →
  ∀ off noff noff',
    lookahead (set_use_programs cfg b) md cp' pitch rest' off noff'
    = lookahead cfg md cp pitch rest off noff.
Proof.
  induction 1 as [|e e' rest rest' [Hty Hval] _ IH]; intros off noff noff';
    [reflexivity|].
  cbn [lookahead]. rewrite <- Hty.
  destruct (String.eqb_spec (type_ e) "NoteOff") as [Hoff|Hoff].
  - rewrite <- Hval by (rewrite Hoff; discriminate).
    destruct (int_of (value e)) as [v|err]; [|reflexivity].
    rewrite !(bind_ok _ _ _ eq_refl).
    destruct (v =? pitch).
    + now destruct (use_programs _ && _), (use_programs _ && _).
    + rewrite Hoff. cbn -[lookahead].
      destruct (off >? md); [reflexivity|apply IH].
  - rewrite !(bind_ok _ _ _ eq_refl).
    destruct (in_types (type_ e) ["TimeShift"; "Rest"]) eqn:Hts.
    + assert (Hnp : type_ e ≠ "Program").
      { intros Heq. rewrite Heq in Hts. discriminate. }
      rewrite <- (Hval Hnp). cbn [time_division _token_duration_to_ticks set_use_programs].
      destruct (_token_duration_to_ticks cfg (DurVal (value e))
                  (time_division cfg)) as [t|err]; [|reflexivity].
      rewrite !(bind_ok _ _ _ eq_refl).
      destruct (off + t >? md); [reflexivity|apply IH].
    + destruct (String.eqb (type_ e) "Program");
        rewrite !(bind_ok _ _ _ eq_refl);
        (destruct (off >? md); [reflexivity|apply IH]).
Qed.

Lemma same_but_program_refl l : Forall2 same_but_program l l.
Proof. induction l; constructor; [now split|assumption]. Qed.

(** A scan that went through [pre] without counting an error stops
    without counting one at a [NoteOff] of the pitch that follows. *)
Lemma lookahead_reaches_note_off cfg md cp pitch pre ev post :
  type_ ev = "NoteOff" →
  int_of (value ev) = Ok pitch →
  ∀ off noff,
    lookahead cfg md cp pitch pre off noff = Ok 0 →
    lookahead cfg md cp pitch (pre ++ ev :: post) off noff = Ok 0.
Proof.
  intros Hty Hval. induction pre as [|e pre IH]; intros off noff Hpre.
  - cbn [app lookahead]. rewrite Hty, String.eqb_refl.
    rewrite (bind_ok _ _ _ Hval), (bind_ok _ _ _ eq_refl), Z.eqb_refl.
    now destruct (use_programs cfg && _).
  - cbn [app lookahead] in Hpre |- *.
    apply bind_ok_inv in Hpre as (is_off & Hoff & Hpre).
    rewrite (bind_ok _ _ _ Hoff). destruct is_off; [exact Hpre|].
    apply bind_ok_inv in Hpre as ([off' noff'] & Hst & Hpre).
    rewrite (bind_ok _ _ _ Hst).
    destruct (off' >? md); [discriminate|]. now apply IH.
Qed.

(** C10.  In the scan that follows an onset when a maximum duration is
    set: once the scan has gone through the events [pre] without counting
    an error, it stops at a following [NoteOff] event of the onset pitch
    and counts no error, whatever [use_programs], the current program and
    the program met so far are; and on any events the result of the scan
    does not depend on them nor on the values of the [Program] events. *)
Theorem lookahead_stops_at_note_off_of_pitch cfg md cp pitch pre ev post off
  noff :
  type_ ev = "NoteOff" →
  int_of (value ev) = Ok pitch →
  lookahead cfg md cp pitch pre off noff = Ok 0 →
  (∀ b cp' noff',
     lookahead (set_use_programs cfg b) md cp' pitch (pre ++ ev :: post) off
       noff' = Ok 0)
  ∧ ∀ rest rest' b cp' off' noff1 noff2,
      Forall2 same_but_program rest rest' →
      lookahead (set_use_programs cfg b) md cp' pitch rest' off' noff2
      = lookahead cfg md cp pitch rest off' noff1.
Proof.
  intros Hty Hval Hpre. split.
  - intros b cp' noff'.
    rewrite (lookahead_program_independent cfg md pitch b cp cp'
               (pre ++ ev :: post) (pre ++ ev :: post)
               (same_but_program_refl _) off noff noff').
    now apply lookahead_reaches_note_off.
  - intros rest rest' b cp' off' noff1 noff2 Hsame.
    now apply lookahead_program_independent.
Qed.

(** Witness of C10: the scan of the events [scan_pre], with a maximum
    duration of one beat. *)
Lemma lookahead_stops_at_note_off_of_pitch_witness :
  (∀ b cp' noff',
     lookahead
       (set_use_programs (Examples.midilike_cfg true true (Some (1, 0, 8))) b)
       480 cp' 60 (Examples.scan_pre ++ Examples.scan_off :: []) 0 noff'
     = Ok 0)
  ∧ ∀ rest rest' b cp' off' noff1 noff2,
      Forall2 same_but_program rest rest' →
      lookahead
        (set_use_programs (Examples.midilike_cfg true true (Some (1, 0, 8))) b)
        480 cp' 60 rest' off' noff2
      = lookahead (Examples.midilike_cfg true true (Some (1, 0, 8))) 480 0 60
          rest off' noff1.
Proof.
  apply (lookahead_stops_at_note_off_of_pitch
           (Examples.midilike_cfg true true (Some (1, 0, 8))) 480 0 60
           Examples.scan_pre Examples.scan_off [] 0 (VInt 0));
    reflexivity.
Defined.

End Lookahead.

Section ScoreBounds.

Import MIDILike.

Lemma lookahead_01 cfg md cp pitch rest :
  ∀ off noff e,
    lookahead cfg md cp pitch rest off noff = Ok e → e = 0 ∨ e = 1.
Proof.
  induction rest as [|ev rest IH]; intros off noff e H.
  - injection H as <-. now left.
  - cbn [lookahead] in H.
    apply bind_ok_inv in H as (is_off & _ & H). destruct is_off.
    + destruct (use_programs cfg && _); injection H as <-; now left.
    + apply bind_ok_inv in H as ([off' noff'] & _ & H).
      destruct (off' >? md); [injection H as <-; now right|].
      now apply IH in H.
Qed.

(** One event adds at most one error. *)
Lemma score_event_err cfg maxd prev ev rest st st' :
  score_event cfg maxd prev ev rest st = Ok st' →
  err st <= err st' <= err st + 1.
Proof.
  unfold score_event. intros H.
  apply bind_ok_inv in H as (bad & _ & H).
  destruct bad; [injection H as <-; cbn; lia|].
  destruct (in_types (type_ ev) _).
  - apply bind_ok_inv in H as ([[pitch_val onset'] chord'] & _ & H).
    apply bind_ok_inv in H as (d & _ & H).
    apply bind_ok_inv in H as (n & _ & H).
    apply bind_ok_inv in H as (dup & _ & H).
    destruct dup; [injection H as <-; cbn; lia|].
    apply bind_ok_inv in H as (l & _ & H).
    destruct maxd as [md|]; [|injection H as <-; cbn; lia].
    apply bind_ok_inv in H as (e & He & H). injection H as <-.
    apply lookahead_01 in He as [->| ->]; cbn; lia.
  - destruct (String.eqb (type_ ev) "NoteOff").
    + apply bind_ok_inv in H as (v & _ & H).
      apply bind_ok_inv in H as (n & _ & H).
      destruct (n =? 0); [injection H as <-; cbn; lia|].
      apply bind_ok_inv in H as (d & _ & H). injection H as <-. cbn. lia.
    + destruct (String.eqb (type_ ev) "Program" && _).
      * apply bind_ok_inv in H as (p & _ & H). injection H as <-. cbn. lia.
      * destruct (in_types (type_ ev) _); injection H as <-; cbn; lia.
Qed.

(** The loop counts at most one error per event. *)
Lemma errors_loop_err cfg maxd evs :
  ∀ prev st st',
    errors_loop cfg maxd prev evs st = Ok st' →
    err st <= err st' <= err st + Z.of_nat (length evs).
Proof.
  induction evs as [|ev rest IH]; intros prev st st' H.
  - injection H as <-. cbn. lia.
  - cbn [errors_loop] in H. apply bind_ok_inv in H as (st1 & H1 & H).
    apply score_event_err in H1. apply IH in H. cbn [length]. lia.
Qed.

Lemma count_errors_bounds cfg evs e :
  count_errors cfg evs = Ok e → 0 <= e <= Z.of_nat (length evs).
Proof.
  unfold count_errors. intros H.
  apply bind_ok_inv in H as (maxd & _ & H).
  apply bind_ok_inv in H as (st & Hst & H). injection H as <-.
  apply errors_loop_err in Hst. cbn in Hst. lia.
Qed.

(** Whenever [tokens_errors] returns on a sequence whose token count is
    its number of events, the score is the error count over this number
    and lies between 0 and 1. *)
Lemma tokens_errors_in_unit_interval cfg evs q :
  tokens_errors cfg (length evs) evs = Ok q →
  (0 <= q)%Q ∧ (q <= 1)%Q
  ∧ (evs = [] → q = inject_Z 0)
  ∧ (evs ≠ [] →
     ∃ e, count_errors cfg evs = Ok e
          ∧ q = Qmake e (Pos.of_nat (length evs))).
Proof.
  unfold tokens_errors. destruct evs as [|ev rest].
  - intros [= <-]. split_and!; [easy|easy|reflexivity|congruence].
  - cbn [length Nat.eqb]. intros H.
    apply bind_ok_inv in H as (e & He & H). injection H as <-.
    pose proof (count_errors_bounds _ _ _ He) as Hb.
    cbn [length] in Hb. split_and!.
    + unfold Qle. cbn. lia.
    + unfold Qle. cbn -[Pos.of_nat]. lia.
    + discriminate.
    + intros _. now exists e.
Qed.

End ScoreBounds.

Section FreshScore.

Import MIDILike ScoreSpec.

Lemma lookup_foldr_insert {V} (f : Z → V) (l : list Z) (k : Z) :
  k ∈ l → foldr (λ p m, <[p := f p]> m) (∅ : gmap Z V) l !! k = Some (f k).
Proof.
  induction l as [|x l IH]; intros Hk; [inversion Hk|].
  cbn [foldr]. destruct (decide (x = k)) as [->|Hne].
  - apply lookup_insert_eq.
  - rewrite lookup_insert_ne by exact Hne. apply IH.
    apply elem_of_cons in Hk as [->|Hk]; [contradiction|exact Hk].
Qed.

Lemma elem_of_range a b p : a <= p < b → p ∈ Py.range a b.
Proof.
  intros Hp. unfold Py.range. apply list_elem_of_fmap.
  exists (Z.to_nat (p - a)). split; [lia|].
  apply list_elem_of_In, in_seq. lia.
Qed.

Variable cfg : Config.
Hypothesis Hgrammar : note_grammar cfg = true.
Hypothesis Hprog0 : 0 ∈ programs cfg.

Lemma grammar_edges :
  allowed cfg "NoteOn" "Velocity" = true
  ∧ allowed cfg "Velocity" "TimeShift" = true
  ∧ allowed cfg "TimeShift" "TimeShift" = true
  ∧ allowed cfg "TimeShift" "NoteOff" = true
  ∧ allowed cfg "TimeShift" "NoteOn" = true
  ∧ allowed cfg "NoteOff" "TimeShift" = true
  ∧ allowed cfg "NoteOff" "NoteOn" = true.
Proof.
  pose proof Hgrammar as H. unfold note_grammar in H. cbn [forallb] in H.
  repeat (apply andb_prop in H as [? H]). now split_and!.
Qed.

Lemma good_type prev ev :
  prev_ok cfg prev (type_ ev) →
  match prev with
  | None => Ok false
  | Some p =>
      succ ← Py.of_option (tokens_types_graph cfg !! type_ p) KeyError;
      Ok (negb (in_types (type_ ev) succ))
  end = Ok false.
Proof.
  destruct prev as [p|]; [|reflexivity]. unfold prev_ok, allowed.
  destruct (tokens_types_graph cfg !! type_ p) as [succ|]; [|discriminate].
  intros H. cbn [Py.of_option]. now rewrite (bind_ok _ _ _ eq_refl), H.
Qed.

Lemma score_shift maxd prev ev rest st :
  type_ ev = "TimeShift" → prev_ok cfg prev "TimeShift" →
  score_event cfg maxd prev ev rest st = Ok (after_shift cfg st).
Proof.
  intros Hty Hprev. unfold score_event.
  rewrite good_type by (now rewrite Hty).
  rewrite (bind_ok _ _ _ eq_refl), Hty. reflexivity.
Qed.

Lemma score_velocity maxd prev ev rest st :
  type_ ev = "Velocity" → prev_ok cfg prev "Velocity" →
  score_event cfg maxd prev ev rest st = Ok st.
Proof.
  intros Hty Hprev. unfold score_event.
  rewrite good_type by (now rewrite Hty).
  rewrite (bind_ok _ _ _ eq_refl), Hty. reflexivity.
Qed.

Lemma score_note_on prev ev rest st p d n :
  type_ ev = "NoteOn" → value ev = VInt p → prev_ok cfg prev "NoteOn" →
  e_current_program st = 0 →
  active_pitches st !! 0 = Some d → d !! p = Some n →
  current_pitches_tick st !! 0 = Some [] →
  score_event cfg None prev ev rest st
  = Ok (mkErrState (err st) 0
          (<[0 := <[p := n + 1]> d]> (active_pitches st))
          (<[0 := [p]]> (current_pitches_tick st))
          (<[0 := p]> (e_previous_pitch_onset st))
          (<[0 := p]> (e_previous_pitch_chord st))).
Proof.
  intros Hty Hval Hprev Hcp Hd Hn Hcpt. unfold score_event.
  rewrite good_type by (now rewrite Hty).
  rewrite (bind_ok _ _ _ eq_refl), Hty. cbn [in_types existsb String.eqb].
  cbn -[mbind]. unfold onset_pitch. rewrite Hty, Hval, Hcp. cbn -[mbind].
  rewrite !(bind_ok _ _ _ eq_refl). rewrite Hd. cbn [Py.of_option].
  rewrite (bind_ok _ _ _ eq_refl), Hn. cbn [Py.of_option].
  rewrite (bind_ok _ _ _ eq_refl), Hcpt. cbn [Py.of_option].
  destruct (remove_duplicated_notes cfg);
    rewrite ?(bind_ok _ _ _ eq_refl);
    rewrite ?(bool_decide_eq_false_2 _ (not_elem_of_nil p));
    rewrite ?(bind_ok _ _ _ eq_refl); reflexivity.
Qed.

Lemma score_note_off maxd prev ev rest st p d n :
  type_ ev = "NoteOff" → value ev = VInt p → prev_ok cfg prev "NoteOff" →
  e_current_program st = 0 →
  active_pitches st !! 0 = Some d → d !! p = Some n → n ≠ 0 →
  score_event cfg maxd prev ev rest st
  = Ok (mkErrState (err st) 0
          (<[0 := <[p := n - 1]> d]> (active_pitches st))
          (current_pitches_tick st)
          (e_previous_pitch_onset st) (e_previous_pitch_chord st)).
Proof.
  intros Hty Hval Hprev Hcp Hd Hn Hn0. unfold score_event.
  rewrite good_type by (now rewrite Hty).
  rewrite (bind_ok _ _ _ eq_refl), Hty. cbn [in_types existsb String.eqb].
  cbn -[mbind]. rewrite Hval. cbn [int_of].
  rewrite (bind_ok _ _ _ eq_refl). unfold get_active. rewrite ?Hcp, Hd.
  cbn [Py.of_option]. rewrite (bind_ok _ _ _ eq_refl), Hn.
  cbn [Py.of_option]. rewrite (bind_ok _ _ _ eq_refl).
  destruct (Z.eqb_spec n 0); [contradiction|].
  rewrite ?Hcp, ?Hd. cbn [Py.of_option].
  now rewrite ?(bind_ok _ _ _ eq_refl), ?Hcp.
Qed.

Lemma at_rest_after_shift st : at_rest cfg st → at_rest cfg (after_shift cfg st).
Proof.
  intros (He & Hp & _ & Hd). unfold at_rest, after_shift. cbn.
  split_and!; auto.
  exact (lookup_foldr_insert (λ _, []) (programs cfg) 0 Hprog0).
Qed.

(** A run of [TimeShift] events counts no error and clears the pitches of
    the current tick. *)
Lemma errors_loop_shifts maxd ts tail :
  Forall (λ e, type_ e = "TimeShift") ts →
  ∀ prev st,
    prev_ok cfg prev "TimeShift" →
    ∃ prev' st',
      errors_loop cfg maxd prev (ts ++ tail) st
      = errors_loop cfg maxd prev' tail st'
      ∧ ((ts = [] ∧ prev' = prev ∧ st' = st)
         ∨ (ts ≠ [] ∧ st' = after_shift cfg st
            ∧ ∃ e, prev' = Some e ∧ type_ e = "TimeShift")).
Proof.
  induction 1 as [|e ts He _ IH]; intros prev st Hprev.
  - exists prev, st. split; [reflexivity|]. now left.
  - cbn [app errors_loop]. rewrite (score_shift maxd prev e _ st He Hprev).
    rewrite (bind_ok _ _ _ eq_refl).
    destruct (IH (Some e) (after_shift cfg st)) as (prev' & st' & Heq & Hcase).
    { cbn. rewrite He. apply grammar_edges. }
    exists prev', st'. split; [exact Heq|]. right.
    split; [discriminate|].
    destruct Hcase as [(_ & -> & ->)|(_ & -> & Hp)]; [|now split].
    split; [reflexivity|]. now exists e.
Qed.

(** A stream of notes is scored without an error, and leaves the state
    as it was between two notes. *)
Lemma note_stream_scores evs :
  note_stream (fst (pitch_range cfg)) (snd (pitch_range cfg)) evs →
  ∀ prev st,
    at_rest cfg st →
    prev_ok cfg prev "TimeShift" → prev_ok cfg prev "NoteOn" →
    ∃ st', errors_loop cfg None prev evs st = Ok st' ∧ at_rest cfg st'.
Proof.
  pose proof grammar_edges as (G1 & G2 & G3 & G4 & G5 & G6 & G7).
  induction 1 as [|gap dur tail on vel off p Hgap Hon Hvon Hvel Hdur Hne Hoff
                   Hvoff Hp _ IH]; intros prev st Hst Hpt Hpn.
  - exists st. now split.
  - destruct (errors_loop_shifts None gap (on :: vel :: dur ++ off :: tail)
                Hgap prev st Hpt) as (prev1 & st1 & -> & Hcase1).
    assert (Hst1 : at_rest cfg st1).
    { destruct Hcase1 as [(_ & _ & ->)|(_ & -> & _)];
        [exact Hst|now apply at_rest_after_shift]. }
    assert (Hp1 : prev_ok cfg prev1 "NoteOn").
    { destruct Hcase1 as [(_ & -> & _)|(_ & _ & e & -> & He)];
        [exact Hpn|]. cbn. now rewrite He. }
    destruct Hst1 as (Herr & Hcp & Hcpt & d & Hd & Hzero).
    cbn [errors_loop].
    rewrite (score_note_on prev1 on _ st1 p d 0 Hon Hvon Hp1 Hcp Hd
               (Hzero p Hp) Hcpt).
    rewrite (bind_ok _ _ _ eq_refl).
    rewrite score_velocity by (try exact Hvel; cbn; now rewrite Hon).
    rewrite (bind_ok _ _ _ eq_refl).
    match goal with
    | |- context [errors_loop cfg None (Some vel) _ ?s] => set (st2 := s)
    end.
    destruct (errors_loop_shifts None dur (off :: tail) Hdur (Some vel) st2)
      as (prev3 & st3 & -> & Hcase3).
    { cbn. now rewrite Hvel. }
    destruct Hcase3 as [(Hnil & _)|(_ & -> & e & -> & He)];
      [contradiction|].
    cbn [errors_loop].
    rewrite (score_note_off None (Some e) off _ (after_shift cfg st2) p
               (<[p := 0 + 1]> d) (0 + 1) Hoff Hvoff);
      [| cbn; now rewrite He | reflexivity
       | cbn; apply lookup_insert_eq | apply lookup_insert_eq | lia].
    rewrite (bind_ok _ _ _ eq_refl).
    apply IH.
    + unfold at_rest. cbn. split_and!; auto.
      * exact (lookup_foldr_insert (λ _, []) (programs cfg) 0 Hprog0).
      * eexists. split; [apply lookup_insert_eq|].
        intros p' Hp'. destruct (decide (p = p')) as [->|Hne'].
        -- now rewrite lookup_insert_eq.
        -- rewrite !lookup_insert_ne by exact Hne'. now apply Hzero.
    + cbn. now rewrite Hoff.
    + cbn. now rewrite Hoff.
Qed.

Lemma initial_at_rest : at_rest cfg (initial_err_state cfg).
Proof.
  unfold at_rest, initial_err_state. cbn. split_and!; try reflexivity.
  - exact (lookup_foldr_insert (λ _, []) (programs cfg) 0 Hprog0).
  - eexists. split.
    + exact (lookup_foldr_insert _ (programs cfg) 0 Hprog0).
    + intros p Hp.
      apply (lookup_foldr_insert (λ _, 0)). apply elem_of_range. lia.
Qed.

(** *** With a maximum duration *)

Lemma between_notes_after_shift st :
  between_notes cfg st → between_notes cfg (after_shift cfg st).
Proof.
  intros (Hp & _ & Hd). unfold between_notes, after_shift. cbn.
  split_and!; auto.
  exact (lookup_foldr_insert (λ _, []) (programs cfg) 0 Hprog0).
Qed.

Lemma initial_between_notes : between_notes cfg (initial_err_state cfg).
Proof. destruct initial_at_rest as (_ & H). exact H. Qed.

(** The scan over the time shifts of a note stops at its [NoteOff]
    event, and has counted an error when the ticks added up exceed the
    maximum. *)
Lemma lookahead_shifts md cp p dur ts off_ev tail :
  Forall2 (shift_of cfg) dur ts →
  Forall (λ e, type_ e = "TimeShift") dur →
  type_ off_ev = "NoteOff" → value off_ev = VInt p →
  ∀ off noff,
    off <= md →
    lookahead cfg md cp p (dur ++ off_ev :: tail) off noff
    = Ok (if md <? off + foldr Z.add 0 ts then 1 else 0).
Proof.
  intros Hconv. induction Hconv as [|e t dur ts [Ht Hpos] Hrest IH];
    intros Hty Hoff Hval off noff Hle.
  - cbn [app lookahead foldr]. rewrite Hoff, String.eqb_refl, Hval.
    cbn [int_of]. rewrite !(bind_ok _ _ _ eq_refl), Z.eqb_refl.
    destruct (Z.ltb_spec md (off + 0)); [lia|].
    now destruct (use_programs cfg && _).
  - apply Forall_cons in Hty as [Hte Hty].
    assert (Hsum : 0 <= foldr Z.add 0 ts).
    { clear -Hrest. induction Hrest as [|? ? ? ? [_ ?]]; cbn; lia. }
    cbn [app lookahead foldr]. rewrite Hte.
    change (String.eqb "TimeShift" "NoteOff") with false.
    change (in_types "TimeShift" ["TimeShift"; "Rest"]) with true.
    cbn beta iota. rewrite (bind_ok _ _ _ eq_refl). cbn beta iota.
    rewrite Ht, !(bind_ok _ _ _ eq_refl). cbn beta iota.
    destruct (Z.gtb_spec (off + t) md).
    + destruct (Z.ltb_spec md (off + (t + foldr Z.add 0 ts)));
        [reflexivity|lia].
    + rewrite IH by (auto; lia). now rewrite Z.add_assoc.
Qed.

(** The scan after the onset of a note of a stream. *)
Lemma lookahead_note md p vel dur ts off_ev tail noff :
  0 <= md →
  type_ vel = "Velocity" →
  Forall2 (shift_of cfg) dur ts →
  Forall (λ e, type_ e = "TimeShift") dur →
  type_ off_ev = "NoteOff" → value off_ev = VInt p →
  lookahead cfg md 0 p (vel :: dur ++ off_ev :: tail) 0 noff
  = Ok (if md <? foldr Z.add 0 ts then 1 else 0).
Proof.
  intros Hmd Hvel Hconv Hty Hoff Hval. cbn [lookahead]. rewrite Hvel.
  change (String.eqb "Velocity" "NoteOff") with false.
  change (in_types "Velocity" ["TimeShift"; "Rest"]) with false.
  change (String.eqb "Velocity" "Program") with false.
  cbn beta iota. rewrite !(bind_ok _ _ _ eq_refl). cbn beta iota.
  destruct (Z.gtb_spec 0 md); [lia|].
  now rewrite (lookahead_shifts md 0 p dur ts off_ev tail Hconv Hty Hoff Hval
                 0 noff Hmd).
Qed.

Lemma score_note_on_max md prev ev rest st p d n :
  type_ ev = "NoteOn" → value ev = VInt p → prev_ok cfg prev "NoteOn" →
  e_current_program st = 0 →
  active_pitches st !! 0 = Some d → d !! p = Some n →
  current_pitches_tick st !! 0 = Some [] →
  score_event cfg (Some md) prev ev rest st
  = (e ← lookahead cfg md 0 p rest 0 (VInt 0);
     Ok (add_err
           (mkErrState (err st) 0
              (<[0 := <[p := n + 1]> d]> (active_pitches st))
              (<[0 := [p]]> (current_pitches_tick st))
              (<[0 := p]> (e_previous_pitch_onset st))
              (<[0 := p]> (e_previous_pitch_chord st))) e)).
Proof.
  intros Hty Hval Hprev Hcp Hd Hn Hcpt. unfold score_event.
  rewrite good_type by (now rewrite Hty).
  rewrite (bind_ok _ _ _ eq_refl), Hty. cbn [in_types existsb String.eqb].
  cbn -[mbind lookahead]. unfold onset_pitch. rewrite Hty, Hval, Hcp.
  cbn -[mbind lookahead].
  rewrite !(bind_ok _ _ _ eq_refl). rewrite Hd. cbn [Py.of_option].
  rewrite (bind_ok _ _ _ eq_refl), Hn. cbn [Py.of_option].
  rewrite (bind_ok _ _ _ eq_refl), Hcpt. cbn [Py.of_option].
  destruct (remove_duplicated_notes cfg);
    rewrite ?(bind_ok _ _ _ eq_refl);
    rewrite ?(bool_decide_eq_false_2 _ (not_elem_of_nil p));
    rewrite ?(bind_ok _ _ _ eq_refl); reflexivity.
Qed.

(** A timed stream of notes is scored with one error for each note whose
    ticks exceed the maximum, and leaves the state as it was between two
    notes. *)
Lemma timed_note_stream_scores md evs totals :
  0 <= md →
  timed_note_stream cfg (fst (pitch_range cfg)) (snd (pitch_range cfg)) evs
    totals →
  ∀ prev st,
    between_notes cfg st →
    prev_ok cfg prev "TimeShift" → prev_ok cfg prev "NoteOn" →
    ∃ st', errors_loop cfg (Some md) prev evs st = Ok st'
           ∧ err st'
             = err st
               + Z.of_nat (length (List.filter (λ t, md <? t) totals))
           ∧ between_notes cfg st'.
Proof.
  pose proof grammar_edges as (G1 & G2 & G3 & G4 & G5 & G6 & G7).
  intros Hmd.
  induction 1 as [|gap dur tail on vel off p ts totals Hgap Hon Hvon Hvel
                   Hdur Hne Hts Hoff Hvoff Hp _ IH]; intros prev st Hst Hpt Hpn.
  - exists st. cbn. split_and!; [reflexivity|lia|exact Hst].
  - destruct (errors_loop_shifts (Some md) gap
                (on :: vel :: dur ++ off :: tail) Hgap prev st Hpt)
      as (prev1 & st1 & -> & Hcase1).
    assert (Hst1 : between_notes cfg st1).
    { destruct Hcase1 as [(_ & _ & ->)|(_ & -> & _)];
        [exact Hst|now apply between_notes_after_shift]. }
    assert (Herr1 : err st1 = err st).
    { destruct Hcase1 as [(_ & _ & ->)|(_ & -> & _)]; reflexivity. }
    assert (Hp1 : prev_ok cfg prev1 "NoteOn").
    { destruct Hcase1 as [(_ & -> & _)|(_ & _ & e & -> & He)];
        [exact Hpn|]. cbn. now rewrite He. }
    destruct Hst1 as (Hcp & Hcpt & d & Hd & Hzero).
    cbn [errors_loop].
    rewrite (score_note_on_max md prev1 on _ st1 p d 0 Hon Hvon Hp1 Hcp Hd
               (Hzero p Hp) Hcpt).
    rewrite (lookahead_note md p vel dur ts off tail (VInt 0) Hmd Hvel Hts
               Hdur Hoff Hvoff).
    rewrite !(bind_ok _ _ _ eq_refl).
    rewrite score_velocity by (try exact Hvel; cbn; now rewrite Hon).
    rewrite (bind_ok _ _ _ eq_refl).
    match goal with
    | |- context [errors_loop cfg (Some md) (Some vel) _ ?s] => set (st2 := s)
    end.
    destruct (errors_loop_shifts (Some md) dur (off :: tail) Hdur (Some vel)
                st2) as (prev3 & st3 & -> & Hcase3).
    { cbn. now rewrite Hvel. }
    destruct Hcase3 as [(Hnil & _)|(_ & -> & e & -> & He)];
      [contradiction|].
    cbn [errors_loop].
    rewrite (score_note_off (Some md) (Some e) off _ (after_shift cfg st2) p
               (<[p := 0 + 1]> d) (0 + 1) Hoff Hvoff);
      [| cbn; now rewrite He | reflexivity
       | cbn; apply lookup_insert_eq | apply lookup_insert_eq | lia].
    rewrite (bind_ok _ _ _ eq_refl).
    match goal with
    | |- context [errors_loop cfg (Some md) (Some off) tail ?s] =>
        destruct (IH (Some off) s) as (st' & Hloop & Herr & Hst')
    end.
    + unfold between_notes. cbn. split_and!; auto.
      * exact (lookup_foldr_insert (λ _, []) (programs cfg) 0 Hprog0).
      * eexists. split; [apply lookup_insert_eq|].
        intros p' Hp'. destruct (decide (p = p')) as [->|Hne'].
        -- now rewrite lookup_insert_eq.
        -- rewrite !lookup_insert_ne by exact Hne'. now apply Hzero.
    + cbn. now rewrite Hoff.
    + cbn. now rewrite Hoff.
    + exists st'. split; [exact Hloop|]. split; [|exact Hst'].
      rewrite Herr. cbn [List.filter err after_shift add_err]. subst st2.
      cbn [err add_err after_shift]. rewrite Herr1.
      destruct (md <? foldr Z.add 0 ts); cbn [length]; lia.
Qed.

Hypothesis Hrests : use_rests cfg = false.

Lemma emit_durations_spec ty f durs :
  ∀ pt acc,
    ∃ E pt', emit_durations ty f durs pt acc = (acc ++ E, pt')
             ∧ Forall (λ e, type_ e = ty) E
             ∧ (durs ≠ [] → E ≠ []).
Proof.
  induction durs as [|[dv dt] r IH]; intros pt acc.
  - exists [], pt. rewrite app_nil_r. now split_and!.
  - cbn [emit_durations].
    destruct (IH (pt + dt)
                (acc ++ [mkEvent ty (VStr (String.concat "." (map pretty dv)))
                           pt (f pt)])) as (E & pt' & -> & HF & _).
    eexists (_ :: E), pt'. rewrite <- app_assoc. split_and!.
    + reflexivity.
    + constructor; [reflexivity|exact HF].
    + discriminate.
Qed.

(** One event through the loop of [_add_time_events], without rests: the
    event comes out after [TimeShift] events, none when it is at the
    previous tick. *)
Lemma add_time_step_shifts ev rest t pne acc :
  ∃ G pne',
    add_time_loop cfg (ev :: rest) t pne acc
    = add_time_loop cfg rest (time ev) pne' (acc ++ G ++ [ev])
    ∧ Forall (λ e, type_ e = "TimeShift") G
    ∧ (time ev = t → G = []).
Proof.
  cbn [add_time_loop]. rewrite Hrests. cbn [andb].
  destruct (Z.eqb_spec (time ev) t) as [->|Hne]; cbn [negb].
  - exists []. eexists. split; [reflexivity|]. now split.
  - destruct (emit_durations_spec "TimeShift" (λ _, time ev - t)
                (_ticks_to_duration_tokens cfg (time ev - t) false) t acc)
      as (E & pt' & HE & HF & _).
    rewrite HE. cbn [fst]. exists E. eexists.
    rewrite <- app_assoc. split; [reflexivity|].
    split; [exact HF|intros Heq; contradiction].
Qed.

Lemma filter_map_length {A} (f : A → Z) (c : Z → bool) (l : list A) :
  length (List.filter c (map f l)) = length (List.filter (λ x, c (f x)) l).
Proof.
  induction l as [|x l IH]; [reflexivity|].
  cbn [map List.filter]. destruct (c (f x)); cbn [length]; now rewrite IH.
Qed.

Lemma shift_exact_spec t :
  shift_exact cfg t = true →
  Forall (λ d : list Z * Z,
            _token_duration_to_ticks cfg
              (DurVal (VStr (String.concat "." (map pretty (fst d)))))
              (time_division cfg) = Ok (snd d)
            ∧ 0 <= snd d)
    (_ticks_to_duration_tokens cfg t false)
  ∧ foldr Z.add 0 (map snd (_ticks_to_duration_tokens cfg t false)) = t.
Proof.
  unfold shift_exact. intros H. apply andb_prop in H as [Hall Hsum].
  split; [|lia]. clear Hsum.
  induction (_ticks_to_duration_tokens cfg t false) as [|d l IH];
    constructor.
  - cbn [forallb] in Hall. apply andb_prop in Hall as [Hd _].
    destruct (_token_duration_to_ticks cfg _ _) as [x|]; [|discriminate].
    apply andb_prop in Hd as [Hx Hpos]. split; [f_equal|]; lia.
  - apply IH. cbn [forallb] in Hall. now apply andb_prop in Hall as [_ Hall].
Qed.

(** The durations that convert back give events that the scan reads as
    their ticks. *)
Lemma emit_durations_ticks ty f durs :
  Forall (λ d : list Z * Z,
            _token_duration_to_ticks cfg
              (DurVal (VStr (String.concat "." (map pretty (fst d)))))
              (time_division cfg) = Ok (snd d)
            ∧ 0 <= snd d) durs →
  ∀ pt acc,
    ∃ E pt', emit_durations ty f durs pt acc = (acc ++ E, pt')
             ∧ Forall (λ e, type_ e = ty) E
             ∧ Forall2 (shift_of cfg) E (map snd durs)
             ∧ (durs ≠ [] → E ≠ []).
Proof.
  induction 1 as [|[dv dt] r [Hc Hp] _ IH]; intros pt acc.
  - exists [], pt. rewrite app_nil_r.
    split_and!; [reflexivity|constructor|constructor|congruence].
  - cbn [emit_durations].
    destruct (IH (pt + dt)
                (acc ++ [mkEvent ty (VStr (String.concat "." (map pretty dv)))
                           pt (f pt)])) as (E & pt' & -> & HF & H2 & _).
    eexists (_ :: E), pt'. rewrite <- app_assoc. split_and!.
    + reflexivity.
    + constructor; [reflexivity|exact HF].
    + cbn [map]. constructor; [now split|exact H2].
    + discriminate.
Qed.

(** An event that is later than the previous tick, over a time shift
    that is read back: it comes out after [TimeShift] events whose ticks
    add up to the shift. *)
Lemma add_time_step_exact ev rest t pne acc :
  0 < time ev - t →
  shift_exact cfg (time ev - t) = true →
  ∃ G pne' ts,
    add_time_loop cfg (ev :: rest) t pne acc
    = add_time_loop cfg rest (time ev) pne' (acc ++ G ++ [ev])
    ∧ Forall (λ e, type_ e = "TimeShift") G
    ∧ G ≠ []
    ∧ Forall2 (shift_of cfg) G ts
    ∧ foldr Z.add 0 ts = time ev - t.
Proof.
  intros Hpos Hex. apply shift_exact_spec in Hex as [Hall Hsum].
  cbn [add_time_loop]. rewrite Hrests. cbn [andb].
  destruct (Z.eqb_spec (time ev) t) as [Heq|Hne]; [lia|]. cbn [negb].
  destruct (emit_durations_ticks "TimeShift" (λ _, time ev - t) _ Hall t acc)
    as (E & pt' & HE & HF & H2 & Hnil).
  rewrite HE. cbn [fst]. exists E. eexists. eexists.
  rewrite <- app_assoc. split; [reflexivity|].
  split_and!; [exact HF| |exact H2|exact Hsum].
  apply Hnil. intros Hd. rewrite Hd in Hsum. cbn in Hsum. lia.
Qed.

(** The time events added to the events of sequential notes whose
    durations are read back make a stream of notes timed by these
    durations. *)
Lemma add_time_loop_timed_notes lo hi ns :
  ∀ t pne acc,
    sequential t ns →
    Forall (λ n, lo <= note_pitch n <= hi) ns →
    Forall (λ n, shift_exact cfg (note_duration n) = true) ns →
    ∃ X, add_time_loop cfg (note_on_off_events ns) t pne acc = acc ++ X
         ∧ timed_note_stream cfg lo hi X (map note_duration ns).
Proof.
  induction ns as [|n r IH]; intros t pne acc Hseq Hrange Hexact.
  - exists []. rewrite app_nil_r. split; [reflexivity|constructor].
  - destruct Hseq as (Ht & Hd & Hseq).
    apply Forall_cons in Hrange as [Hp Hrange].
    apply Forall_cons in Hexact as [Hex Hexact].
    change (note_on_off_events (n :: r))
      with (note_on_event n :: velocity_event n :: note_off_event n
              :: note_on_off_events r).
    destruct (add_time_step_shifts (note_on_event n)
                (velocity_event n :: note_off_event n :: note_on_off_events r)
                t pne acc) as (G & pne1 & -> & HG & _).
    destruct (add_time_step_shifts (velocity_event n)
                (note_off_event n :: note_on_off_events r)
                (time (note_on_event n)) pne1
                (acc ++ G ++ [note_on_event n]))
      as (G2 & pne2 & -> & _ & HG2).
    rewrite (HG2 eq_refl).
    assert (Hdur : time (note_off_event n) - time (velocity_event n)
                   = note_duration n) by (cbn; unfold note_end; lia).
    destruct (add_time_step_exact (note_off_event n) (note_on_off_events r)
                (time (velocity_event n)) pne2
                ((acc ++ G ++ [note_on_event n]) ++ [] ++ [velocity_event n]))
      as (D & pne3 & ts & -> & HD & HDne & HD2 & Hsum);
      [rewrite Hdur; lia|now rewrite Hdur|].
    destruct (IH (time (note_off_event n)) pne3
                (((acc ++ G ++ [note_on_event n]) ++ [] ++ [velocity_event n])
                   ++ D ++ [note_off_event n]) Hseq Hrange Hexact)
      as (X & -> & HsX).
    eexists. split.
    + rewrite <- !app_assoc. cbn [app]. reflexivity.
    + cbn [map]. rewrite <- Hdur, <- Hsum.
      apply (timed_note_stream_note cfg lo hi G D X _ _ _ (note_pitch n));
        auto.
Qed.

Hypothesis Hdurs :
  ∀ t, 0 < t → _ticks_to_duration_tokens cfg t false ≠ [].

(** One event through the loop of [_add_time_events], without rests: the
    event comes out after [TimeShift] events, none when it is at the
    previous tick and at least one when it is later. *)
Lemma add_time_step ev rest t pne acc :
  ∃ G pne',
    add_time_loop cfg (ev :: rest) t pne acc
    = add_time_loop cfg rest (time ev) pne' (acc ++ G ++ [ev])
    ∧ Forall (λ e, type_ e = "TimeShift") G
    ∧ (time ev = t → G = [])
    ∧ (0 < time ev - t → G ≠ []).
Proof.
  cbn [add_time_loop]. rewrite Hrests. cbn [andb].
  destruct (Z.eqb_spec (time ev) t) as [->|Hne]; cbn [negb].
  - exists []. eexists. split; [reflexivity|]. split_and!; auto. lia.
  - destruct (emit_durations_spec "TimeShift" (λ _, time ev - t)
                (_ticks_to_duration_tokens cfg (time ev - t) false) t acc)
      as (E & pt' & HE & HF & Hnil).
    rewrite HE. cbn [fst]. exists E. eexists.
    rewrite <- app_assoc. split; [reflexivity|].
    split_and!;
      [exact HF | intros Heq; contradiction
      | intros Hpos; apply Hnil; now apply Hdurs].
Qed.

(** The time events added to the events of sequential notes make a
    stream of notes. *)
Lemma add_time_loop_notes lo hi ns :
  ∀ t pne acc,
    sequential t ns →
    Forall (λ n, lo <= note_pitch n <= hi) ns →
    ∃ X, add_time_loop cfg (note_on_off_events ns) t pne acc = acc ++ X
         ∧ note_stream lo hi X.
Proof.
  induction ns as [|n r IH]; intros t pne acc Hseq Hrange.
  - exists []. rewrite app_nil_r. split; [reflexivity|constructor].
  - destruct Hseq as (Ht & Hd & Hseq).
    apply Forall_cons in Hrange as [Hp Hrange].
    change (note_on_off_events (n :: r))
      with (note_on_event n :: velocity_event n :: note_off_event n
              :: note_on_off_events r).
    destruct (add_time_step (note_on_event n)
                (velocity_event n :: note_off_event n :: note_on_off_events r)
                t pne acc) as (G & pne1 & -> & HG & _ & _).
    destruct (add_time_step (velocity_event n)
                (note_off_event n :: note_on_off_events r)
                (time (note_on_event n)) pne1
                (acc ++ G ++ [note_on_event n]))
      as (G2 & pne2 & -> & _ & HG2 & _).
    rewrite (HG2 eq_refl).
    destruct (add_time_step (note_off_event n) (note_on_off_events r)
                (time (velocity_event n)) pne2
                ((acc ++ G ++ [note_on_event n]) ++ [] ++ [velocity_event n]))
      as (D & pne3 & -> & HD & _ & HDne).
    destruct (IH (time (note_off_event n)) pne3
                (((acc ++ G ++ [note_on_event n]) ++ [] ++ [velocity_event n])
                   ++ D ++ [note_off_event n]) Hseq Hrange)
      as (X & -> & HsX).
    eexists. split.
    + rewrite <- !app_assoc. cbn [app]. reflexivity.
    + apply (note_stream_note lo hi G D X _ _ _ (note_pitch n)); auto.
      apply HDne. cbn. unfold note_end. lia.
Qed.

(** The events that the encoder makes of sequential notes are scored
    without an error when no maximum duration is configured. *)
Lemma fresh_notes_count_zero ns :
  max_duration cfg = None →
  sequential 0 ns →
  Forall (λ n, fst (pitch_range cfg) <= note_pitch n <= snd (pitch_range cfg))
    ns →
  count_errors cfg (_add_time_events cfg (note_on_off_events ns)) = Ok 0.
Proof.
  intros Hmax Hseq Hrange. unfold count_errors, max_duration_ticks.
  rewrite Hmax, (bind_ok _ _ _ eq_refl).
  destruct (add_time_loop_notes _ _ ns 0 0 [] Hseq Hrange) as (X & HX & HsX).
  unfold _add_time_events. rewrite HX. cbn [app].
  destruct (note_stream_scores X HsX None (initial_err_state cfg)
              initial_at_rest I I) as (st' & -> & Herr & _).
  now rewrite (bind_ok _ _ _ eq_refl), Herr.
Qed.

(** With a maximum duration of [md] ticks, the events that the encoder
    makes of sequential notes whose durations are read back are scored
    with one error for each note longer than the maximum. *)
Lemma fresh_notes_count_long md ns :
  max_duration_ticks cfg (time_division cfg) = Ok (Some md) →
  0 <= md →
  sequential 0 ns →
  Forall (λ n, fst (pitch_range cfg) <= note_pitch n <= snd (pitch_range cfg))
    ns →
  Forall (λ n, shift_exact cfg (note_duration n) = true) ns →
  count_errors cfg (_add_time_events cfg (note_on_off_events ns))
  = Ok (Z.of_nat (length (long_notes md ns))).
Proof.
  intros Hmax Hmd Hseq Hrange Hexact. unfold count_errors.
  rewrite Hmax, (bind_ok _ _ _ eq_refl).
  destruct (add_time_loop_timed_notes _ _ ns 0 0 [] Hseq Hrange Hexact)
    as (X & HX & HsX).
  unfold _add_time_events. rewrite HX. cbn [app].
  destruct (timed_note_stream_scores md X _ Hmd HsX None
              (initial_err_state cfg) initial_between_notes I I)
    as (st' & -> & Herr & _).
  rewrite (bind_ok _ _ _ eq_refl), Herr, filter_map_length.
  reflexivity.
Qed.

End FreshScore.

Section Totality.

Import MIDILike ScoreSpec.

(** Runs the binds whose first computation has returned. *)
Ltac run_binds := repeat rewrite (bind_ok _ _ _ eq_refl).

(** The types that the loop tells apart. *)
Lemma type_cases (ty : string) :
  ty = "NoteOn" ∨ ty = "NoteOff" ∨ ty = "PitchIntervalTime"
  ∨ ty = "PitchIntervalChord" ∨ ty = "Program" ∨ ty = "TimeShift"
  ∨ ty = "Rest"
  ∨ (String.eqb ty "NoteOn" = false ∧ String.eqb ty "NoteOff" = false
     ∧ String.eqb ty "PitchIntervalTime" = false
     ∧ String.eqb ty "PitchIntervalChord" = false
     ∧ String.eqb ty "Program" = false ∧ String.eqb ty "TimeShift" = false
     ∧ String.eqb ty "Rest" = false).
Proof.
  destruct (String.eqb_spec ty "NoteOn"); [tauto|].
  destruct (String.eqb_spec ty "NoteOff"); [tauto|].
  destruct (String.eqb_spec ty "PitchIntervalTime"); [tauto|].
  destruct (String.eqb_spec ty "PitchIntervalChord"); [tauto|].
  destruct (String.eqb_spec ty "Program"); [tauto|].
  destruct (String.eqb_spec ty "TimeShift"); [tauto|].
  destruct (String.eqb_spec ty "Rest"); [tauto|].
  repeat right. tauto.
Qed.

Variable cfg : Config.

Lemma active_ok_insert a g d p v :
  active_ok cfg a → a !! g = Some d →
  active_ok cfg (<[g := <[p := v]> d]> a).
Proof.
  intros Ha Hd g' Hg'. destruct (decide (g = g')) as [<-|Hne].
  - rewrite lookup_insert_eq. eexists. split; [reflexivity|].
    intros p' Hp'. destruct (decide (p = p')) as [<-|Hnp].
    + rewrite lookup_insert_eq. now eexists.
    + rewrite lookup_insert_ne by exact Hnp.
      destruct (Ha g Hg') as (d0 & Hd0 & Hall).
      rewrite Hd in Hd0. injection Hd0 as <-. now apply Hall.
  - rewrite lookup_insert_ne by exact Hne. now apply Ha.
Qed.

Lemma ticks_ok_insert c g l :
  ticks_ok cfg c → ticks_ok cfg (<[g := l]> c).
Proof.
  intros Hc g' Hg'. destruct (decide (g = g')) as [<-|Hne].
  - rewrite lookup_insert_eq. now eexists.
  - rewrite lookup_insert_ne by exact Hne. now apply Hc.
Qed.

Lemma ticks_ok_reset :
  ticks_ok cfg (foldr (λ p m, <[p := []]> m) ∅ (programs cfg)).
Proof.
  intros g Hg. rewrite (lookup_foldr_insert (λ _, []) _ g Hg). now eexists.
Qed.

Lemma initial_err_state_ok :
  0 ∈ programs cfg → err_state_ok cfg (initial_err_state cfg).
Proof.
  intros H0. unfold err_state_ok, initial_err_state. cbn.
  split_and!; [exact H0| |apply ticks_ok_reset].
  intros g Hg. eexists. split.
  - exact (lookup_foldr_insert _ (programs cfg) g Hg).
  - intros p Hp. rewrite (lookup_foldr_insert (λ _, 0)); [now eexists|].
    apply elem_of_range. lia.
Qed.

(** The scan after an onset returns on scorable events. *)
Lemma lookahead_total md cp pitch rest :
  forallb (event_scorable cfg) rest = true →
  ∀ off noff, ∃ e, lookahead cfg md cp pitch rest off noff = Ok e.
Proof.
  induction rest as [|ev rest IH]; intros Hall off noff; [now eexists|].
  cbn [forallb] in Hall. apply andb_prop in Hall as [Hev Hall].
  specialize (IH Hall).
  unfold event_scorable in Hev. apply andb_prop in Hev as [_ Hev].
  cbn [lookahead].
  destruct (type_cases (type_ ev))
    as [H|[H|[H|[H|[H|[H|[H|(H1 & H2 & H3 & H4 & H5 & H6 & H7)]]]]]]];
    try (rewrite H in Hev |- *; cbn -[lookahead mbind] in Hev |- *).
  - run_binds.
    destruct (off >? md); [now eexists|apply IH].
  - destruct (int_of (value ev)) as [v|]; [|discriminate].
    run_binds.
    destruct (v =? pitch).
    + destruct (use_programs cfg && _); now eexists.
    + run_binds.
      destruct (off >? md); [now eexists|apply IH].
  - discriminate.
  - discriminate.
  - run_binds.
    destruct (off >? md); [now eexists|apply IH].
  - destruct (_token_duration_to_ticks cfg (DurVal (value ev))
                (time_division cfg)) as [t|]; [|discriminate].
    run_binds.
    destruct (off + t >? md); [now eexists|apply IH].
  - destruct (_token_duration_to_ticks cfg (DurVal (value ev))
                (time_division cfg)) as [t|]; [|discriminate].
    run_binds.
    destruct (off + t >? md); [now eexists|apply IH].
  - unfold in_types. cbn [existsb]. rewrite H2, H5, H6, H7. cbn [orb].
    run_binds.
    destruct (off >? md); [now eexists|apply IH].
Qed.

(** One iteration returns on a scorable event and keeps the keys of the
    dictionaries. *)
Lemma score_event_total maxd prev ev rest st :
  err_state_ok cfg st →
  event_scorable cfg ev = true →
  match prev with
  | Some p => is_Some (tokens_types_graph cfg !! type_ p)
  | None => True
  end →
  forallb (event_scorable cfg) rest = true →
  ∃ st', score_event cfg maxd prev ev rest st = Ok st'
         ∧ err_state_ok cfg st'.
Proof.
  intros (Hcp & Hact & Htick) Hev Hprev Hrest.
  unfold event_scorable in Hev. apply andb_prop in Hev as [_ Hev].
  unfold score_event.
  assert (Hbad : ∃ bad,
             match prev with
             | None => Ok false
             | Some p =>
                 succ ← Py.of_option (tokens_types_graph cfg !! type_ p)
                          KeyError;
                 Ok (negb (in_types (type_ ev) succ))
             end = Ok bad).
  { destruct prev as [p|]; [|now eexists].
    destruct Hprev as [succ ->]. now eexists. }
  destruct Hbad as [bad ->]. run_binds.
  destruct bad; [eexists; split; [reflexivity|now split_and!]|].
  destruct (Hact _ Hcp) as (d & Hd & Hpitch).
  destruct (Htick _ Hcp) as (l & Hl).
  destruct (type_cases (type_ ev))
    as [H|[H|[H|[H|[H|[H|[H|(H1 & H2 & H3 & H4 & H5 & H6 & H7)]]]]]]];
    try (rewrite H in Hev |- *; cbn -[lookahead mbind] in Hev |- *).
  - unfold onset_pitch. rewrite H. cbn -[lookahead mbind].
    destruct (int_of (value ev)) as [p|]; [|discriminate].
    apply andb_prop in Hev as [Hlo Hhi].
    destruct (Hpitch p) as [n Hn]; [lia|].
    run_binds. rewrite Hd. cbn [Py.of_option]. run_binds.
    rewrite Hn. cbn [Py.of_option]. run_binds.
    assert (Hact' : active_ok cfg
                      (<[e_current_program st := <[p := n + 1]> d]>
                         (active_pitches st)))
      by now apply active_ok_insert.
    destruct (remove_duplicated_notes cfg).
    + rewrite Hl. cbn [Py.of_option]. run_binds.
      destruct (bool_decide (p ∈ l)).
      * eexists. split; [reflexivity|now split_and!].
      * destruct maxd as [md|].
        -- destruct (lookahead_total md (e_current_program st) p rest Hrest 0
                       (VInt (e_current_program st))) as [e ->].
           run_binds. eexists. split; [reflexivity|].
           split_and!; auto. now apply ticks_ok_insert.
        -- eexists. split; [reflexivity|].
           split_and!; auto. now apply ticks_ok_insert.
    + run_binds. rewrite Hl. cbn [Py.of_option]. run_binds.
      destruct maxd as [md|].
      * destruct (lookahead_total md (e_current_program st) p rest Hrest 0
                    (VInt (e_current_program st))) as [e ->].
        run_binds. eexists. split; [reflexivity|].
        split_and!; auto. now apply ticks_ok_insert.
      * eexists. split; [reflexivity|].
        split_and!; auto. now apply ticks_ok_insert.
  - destruct (int_of (value ev)) as [p|]; [|discriminate].
    apply andb_prop in Hev as [Hlo Hhi].
    destruct (Hpitch p) as [n Hn]; [lia|].
    run_binds. unfold get_active. rewrite Hd. cbn [Py.of_option]. run_binds.
    rewrite Hn. cbn [Py.of_option]. run_binds.
    destruct (n =? 0).
    + eexists. split; [reflexivity|now split_and!].
    + rewrite ?Hd. cbn [Py.of_option]. run_binds.
      eexists. split; [reflexivity|].
      split_and!; auto. now apply active_ok_insert.
  - discriminate.
  - discriminate.
  - destruct (negb (bool_decide (rest = []))); cbn -[mbind].
    + destruct (int_of (value ev)) as [g|]; [|discriminate].
      apply bool_decide_eq_true_1 in Hev. run_binds.
      eexists. split; [reflexivity|now split_and!].
    + eexists. split; [reflexivity|now split_and!].
  - eexists. split; [reflexivity|].
    split_and!; auto. apply ticks_ok_reset.
  - eexists. split; [reflexivity|].
    split_and!; auto. apply ticks_ok_reset.
  - unfold in_types. cbn [existsb]. rewrite H1, H2, H3, H4, H5, H6, H7.
    cbn. eexists. split; [reflexivity|now split_and!].
Qed.

Lemma errors_loop_total maxd evs :
  forallb (event_scorable cfg) evs = true →
  ∀ prev st,
    err_state_ok cfg st →
    match prev with
    | Some p => is_Some (tokens_types_graph cfg !! type_ p)
    | None => True
    end →
    ∃ st', errors_loop cfg maxd prev evs st = Ok st'.
Proof.
  induction evs as [|ev rest IH]; intros Hall prev st Hst Hprev;
    [now eexists|].
  cbn [forallb] in Hall. apply andb_prop in Hall as [Hev Hall].
  cbn [errors_loop].
  destruct (score_event_total maxd prev ev rest st Hst Hev Hprev Hall)
    as (st1 & -> & Hst1).
  run_binds. apply (IH Hall); [exact Hst1|].
  unfold event_scorable in Hev. apply andb_prop in Hev as [Hkey _].
  now apply bool_decide_eq_true_1 in Hkey.
Qed.

(** [tokens_errors] returns a score on every sequence of scorable
    events. *)
Lemma tokens_errors_total n evs :
  scorable cfg evs = true → ∃ q, tokens_errors cfg n evs = Ok q.
Proof.
  unfold scorable. intros H.
  apply andb_prop in H as [H Hall]. apply andb_prop in H as [H0 Hmax].
  apply bool_decide_eq_true_1 in H0.
  unfold tokens_errors. destruct (n =? 0)%nat; [now eexists|].
  unfold count_errors.
  destruct (max_duration_ticks cfg (time_division cfg)) as [maxd|];
    [|discriminate].
  run_binds.
  destruct (errors_loop_total maxd evs Hall None (initial_err_state cfg)
              (initial_err_state_ok H0) I) as [st' ->].
  run_binds. now eexists.
Qed.

End Totality.

Section Score.

Import MIDILike ScoreSpec.


Lemma duration_tokens_nonempty t :
  0 < t → Examples.duration_tokens t false ≠ [].
Proof.
  intros Ht. unfold Examples.duration_tokens.
  destruct (Z.leb_spec t 0); [lia|discriminate].
Qed.



End Score.

(** ** Splitting a sequence into subsequences *)

Section SplitSequences.

Import SplitUtils.

Context {A : Type}.

(** With a positive maximum, the chunk cut at a position of the sequence
    is the next [max_seq_len] elements, or what is left of the sequence. *)
Lemma slice_int_chunk (seq : list A) (i m : Z) :
  0 <= i <= Z.of_nat (length seq) → 0 < m →
  slice_int seq i (i + m) = take (Z.to_nat m) (drop (Z.to_nat i) seq).
Proof.
  intros Hi Hm. unfold slice_int, clip.
  destruct (Z.ltb_spec i 0); [lia|].
  destruct (Z.ltb_spec (i + m) 0); [lia|].
  rewrite (Z.min_l i) by lia.
  destruct (Z.le_ge_cases (i + m) (Z.of_nat (length seq))) as [Hle|Hge].
  - rewrite Z.min_l by lia. f_equal. lia.
  - rewrite Z.min_r by lia.
    rewrite !take_ge; [reflexivity| |]; rewrite length_drop; lia.
Qed.

Lemma slice_int_chunk_length (seq : list A) (i m : Z) :
  0 <= i <= Z.of_nat (length seq) → 0 < m →
  Z.of_nat (length (slice_int seq i (i + m)))
  = Z.min m (Z.of_nat (length seq) - i).
Proof.
  intros Hi Hm. rewrite slice_int_chunk by assumption.
  rewrite length_take, length_drop. lia.
Qed.

(** What the loop returns from position [i] on: the chunks put end to end
    are the sequence from [i] on but for a tail of at most [min_seq_len]
    elements; every chunk but the last is full. *)
Lemma split_loop_spec (seq : list A) (mn mx : Z) :
  0 < mx →
  ∀ fuel i acc,
    0 <= i <= Z.of_nat (length seq) →
    Z.of_nat (length seq) - i < Z.of_nat fuel →
    ∃ subs tail,
      split_loop fuel seq mn mx i acc = Some (acc ++ subs)
      ∧ concat subs ++ tail = drop (Z.to_nat i) seq
      ∧ (tail = [] ∨ Z.of_nat (length tail) <= mn)
      ∧ Forall (λ c, 0 < Z.of_nat (length c) <= mx
                     ∧ (mn < mx → mn < Z.of_nat (length c))) subs
      ∧ (∀ k c, subs !! k = Some c → (S k < length subs)%nat →
                Z.of_nat (length c) = mx).
Proof.
  intros Hmx. induction fuel as [|fuel IH]; intros i acc Hi Hfuel; [lia|].
  cbn [split_loop].
  destruct (Z.ltb_spec i (Z.of_nat (length seq))) as [Hlt|Hge].
  - destruct (Z.geb_spec i (Z.of_nat (length seq) - mn)) as [Hbrk|Hgo].
    + exists [], (drop (Z.to_nat i) seq). rewrite app_nil_r.
      split_and!; [reflexivity|reflexivity| |constructor|].
      * right. rewrite length_drop. lia.
      * intros k c Hk. discriminate.
    + pose proof (slice_int_chunk_length seq i mx Hi Hmx) as Hlen.
      destruct (IH (i + Z.of_nat (length (slice_int seq i (i + mx))))
                  (acc ++ [slice_int seq i (i + mx)]))
        as (subs & tail & Hrun & Hcat & Htail & Hall & Hfull); [lia|lia|].
      exists (slice_int seq i (i + mx) :: subs), tail.
      split_and!.
      * rewrite Hrun, <- app_assoc. reflexivity.
      * cbn [concat]. rewrite <- app_assoc, Hcat.
        rewrite <- (take_drop (Z.to_nat mx) (drop (Z.to_nat i) seq)) at 1.
        rewrite <- slice_int_chunk by assumption. f_equal.
        rewrite drop_drop.
        destruct (Z.le_gt_cases mx (Z.of_nat (length seq) - i)).
        -- f_equal. lia.
        -- rewrite !drop_ge; [reflexivity|lia|lia].
      * exact Htail.
      * constructor; [lia|exact Hall].
      * intros [|k] c Hk Hlast; cbn in Hk, Hlast.
        -- injection Hk as <-.
           destruct (Z.le_gt_cases mx (Z.of_nat (length seq) - i)); [lia|].
           exfalso. destruct subs as [|c0 subs]; [cbn in Hlast; lia|].
           apply Forall_cons in Hall as [[Hc0 _] _].
           apply (f_equal length) in Hcat.
           rewrite length_app, length_drop in Hcat. cbn [concat] in Hcat.
           rewrite length_app in Hcat. lia.
        -- apply (Hfull k c Hk). lia.
  - exists [], []. assert (Hi' : Z.to_nat i = length seq) by lia.
    rewrite Hi', drop_all, app_nil_r.
    split_and!; [reflexivity|reflexivity|now left|constructor|].
    intros k c Hk. discriminate.
Qed.

(** X1.  With a positive [max_seq_len], [split_seq_in_subsequences]
    leaves its loop after at most one iteration per element, and the
    subsequences it returns, put end to end, are the sequence itself but
    for a tail that it drops; the dropped tail has at most [min_seq_len]
    elements (a last part of exactly [min_seq_len] elements is dropped
    too), and none when [min_seq_len] is negative. *)
Theorem split_seq_covers_but_short_tail (seq : list A) (mn mx : Z)
  (fuel : nat) :
  0 < mx →
  (length seq < fuel)%nat →
  ∃ subs tail,
    split_seq_in_subsequences fuel seq mn mx = Some subs
    ∧ concat subs ++ tail = seq
    ∧ Z.of_nat (length tail) <= Z.max 0 mn.
Proof.
  intros Hmx Hfuel.
  destruct (split_loop_spec seq mn mx Hmx fuel 0 [])
    as (subs & tail & Hrun & Hcat & Htail & _); [lia|lia|].
  exists subs, tail. split_and!; [exact Hrun|exact Hcat|].
  destruct Htail as [->|Hle]; [cbn; lia|lia].
Qed.

(** X2.  With a positive [max_seq_len], every subsequence returned has
    between 1 and [max_seq_len] elements, all but the last have exactly
    [max_seq_len], and when [min_seq_len < max_seq_len] every one has
    more than [min_seq_len] elements. *)
Theorem split_seq_lengths (seq : list A) (mn mx : Z) (fuel : nat) :
  0 < mx →
  (length seq < fuel)%nat →
  ∃ subs,
    split_seq_in_subsequences fuel seq mn mx = Some subs
    ∧ Forall (λ c, 0 < Z.of_nat (length c) <= mx
                   ∧ (mn < mx → mn < Z.of_nat (length c))) subs
    ∧ (∀ k c, subs !! k = Some c → (S k < length subs)%nat →
              Z.of_nat (length c) = mx).
Proof.
  intros Hmx Hfuel.
  destruct (split_loop_spec seq mn mx Hmx fuel 0 [])
    as (subs & tail & Hrun & _ & _ & Hall & Hfull); [lia|lia|].
  exists subs. now split_and!.
Qed.

(** X3.  With [max_seq_len] at zero the loop never ends on a sequence
    that is not empty and has more than [min_seq_len] elements: each
    iteration appends an empty chunk and stays at position 0. *)
Theorem split_seq_zero_max_never_returns (seq : list A) (mn : Z) :
  0 < Z.of_nat (length seq) →
  mn < Z.of_nat (length seq) →
  ∀ fuel, split_seq_in_subsequences fuel seq mn 0 = None.
Proof.
  intros Hne Hmn fuel. unfold split_seq_in_subsequences.
  generalize (@nil (list A)).
  induction fuel as [|fuel IH]; intros acc; [reflexivity|].
  cbn [split_loop].
  destruct (Z.ltb_spec 0 (Z.of_nat (length seq))); [|lia].
  destruct (Z.geb_spec 0 (Z.of_nat (length seq) - mn)); [lia|].
  assert (Hchunk : slice_int seq 0 (0 + 0) = []).
  { unfold slice_int, clip. change (0 + 0 <? 0) with false.
    change (0 <? 0) with false. cbv iota. rewrite Z.sub_diag. reflexivity. }
  rewrite Hchunk. cbn [length]. apply IH.
Qed.

End SplitSequences.

(** Witness of X1: ten ids cut into chunks of four, a last part of two
    being too short. *)
Lemma split_seq_covers_but_short_tail_witness :
  ∃ subs tail,
    SplitUtils.split_seq_in_subsequences 11 [1; 2; 3; 4; 5; 6; 7; 8; 9; 10] 2 4
    = Some subs
    ∧ concat subs ++ tail = [1; 2; 3; 4; 5; 6; 7; 8; 9; 10]
    ∧ Z.of_nat (length tail) <= Z.max 0 2.
Proof.
  apply (split_seq_covers_but_short_tail [1; 2; 3; 4; 5; 6; 7; 8; 9; 10] 2 4 11);
    [lia|cbn; lia].
Defined.

(** Witness of X2: the same sequence. *)
Lemma split_seq_lengths_witness :
  ∃ subs,
    SplitUtils.split_seq_in_subsequences 11 [1; 2; 3; 4; 5; 6; 7; 8; 9; 10] 2 4
    = Some subs
    ∧ Forall (λ c, 0 < Z.of_nat (length c) <= 4
                   ∧ (2 < 4 → 2 < Z.of_nat (length c))) subs
    ∧ (∀ k c, subs !! k = Some c → (S k < length subs)%nat →
              Z.of_nat (length c) = 4).
Proof.
  apply (split_seq_lengths [1; 2; 3; 4; 5; 6; 7; 8; 9; 10] 2 4 11);
    [lia|cbn; lia].
Defined.

(** Witness of X3: three ids, a minimum of one. *)
Lemma split_seq_zero_max_never_returns_witness :
  SplitUtils.split_seq_in_subsequences 1000 [1; 2; 3] 1 0 = None.
Proof.
  apply (split_seq_zero_max_never_returns [1; 2; 3] 1); cbn; lia.
Defined.

(** ** The error count of the multi-track wrapper *)

Section MMMTokensErrors.

Import MMMErrors.

Variable base : list string → result Z.

(** The inner loop stops at the first [Track_End] at or after its
    start. *)
Lemma mmm_end_loop_body pre body rest fuel :
  "Track_End" ∉ body →
  (length body < fuel)%nat →
  end_loop fuel (pre ++ body ++ "Track_End" :: rest) (length pre)
  = Some (length pre + length body)%nat.
Proof.
  revert pre fuel. induction body as [|t body IH]; intros pre fuel Hno Hfuel;
    (destruct fuel as [|fuel]; [cbn in Hfuel; lia|]); cbn [end_loop app].
  - rewrite list_lookup_middle by reflexivity. cbn. f_equal. lia.
  - rewrite list_lookup_middle by reflexivity.
    apply not_elem_of_cons in Hno as [Hne Hno].
    destruct (String.eqb_spec t "Track_End") as [Heq|_]; [congruence|].
    cbn [negb].
    specialize (IH (pre ++ [t]) fuel Hno).
    rewrite <- app_assoc, length_app in IH. cbn in IH.
    replace (S (length pre)) with (length pre + 1)%nat by lia.
    rewrite IH by (cbn in Hfuel; lia). f_equal. cbn. lia.
Qed.

(** Without a [Track_End] the inner loop runs to the end of the
    sequence. *)
Lemma mmm_end_loop_open pre body fuel :
  "Track_End" ∉ body →
  (length body < fuel)%nat →
  end_loop fuel (pre ++ body) (length pre)
  = Some (length pre + length body)%nat.
Proof.
  revert pre fuel. induction body as [|t body IH]; intros pre fuel Hno Hfuel;
    (destruct fuel as [|fuel]; [cbn in Hfuel; lia|]); cbn [end_loop].
  - rewrite app_nil_r, lookup_ge_None_2 by lia. cbn. f_equal. lia.
  - rewrite list_lookup_middle by reflexivity.
    apply not_elem_of_cons in Hno as [Hne Hno].
    destruct (String.eqb_spec t "Track_End") as [Heq|_]; [congruence|].
    cbn [negb].
    specialize (IH (pre ++ [t]) fuel Hno).
    rewrite <- app_assoc, length_app in IH. cbn in IH.
    replace (S (length pre)) with (length pre + 1)%nat by lia.
    rewrite IH by (cbn in Hfuel; lia). f_equal. cbn. lia.
Qed.

Lemma mmm_errors_loop_step fuel tokens i err :
  errors_loop base (S fuel) tokens i err
  = match tokens !! i with
    | None => Some (Ok err)
    | Some t =>
        if negb (String.eqb t "Track_Start") then
          errors_loop base fuel tokens (S i) err
        else
          match end_loop (S (length tokens)) tokens i with
          | None => None
          | Some j =>
              match base (Py.slice tokens (i + 1) (Some j)) with
              | Ok e => errors_loop base fuel tokens j (err + e)
              | Raise x => Some (Raise x)
              end
          end
    end.
Proof. reflexivity. Qed.

(** The outer loop steps over the tokens that are not [Track_Start]. *)
Lemma mmm_errors_loop_skip pre mid l fuel err :
  "Track_Start" ∉ mid →
  errors_loop base (length mid + fuel) (pre ++ mid ++ l) (length pre) err
  = errors_loop base fuel (pre ++ mid ++ l) (length pre + length mid) err.
Proof.
  revert pre. induction mid as [|t mid IH]; intros pre Hno.
  - cbn. now rewrite Nat.add_0_r.
  - cbn [length Nat.add errors_loop app].
    rewrite list_lookup_middle by reflexivity.
    apply not_elem_of_cons in Hno as [Hne Hno].
    destruct (String.eqb_spec t "Track_Start") as [Heq|_]; [congruence|].
    cbn [negb].
    specialize (IH (pre ++ [t]) Hno).
    rewrite <- app_assoc, length_app in IH. cbn in IH.
    replace (S (length pre)) with (length pre + 1)%nat by lia.
    rewrite IH. f_equal. lia.
Qed.

(** At a [Track_Start] the tokens up to the next [Track_End] go to the
    base tokenizer, and the loop goes on after that [Track_End]. *)
Lemma mmm_errors_loop_track pre body rest fuel err :
  "Track_End" ∉ body →
  errors_loop base (S (S fuel))
    (pre ++ "Track_Start" :: body ++ "Track_End" :: rest) (length pre) err
  = match base body with
    | Ok e =>
        errors_loop base fuel
          (pre ++ "Track_Start" :: body ++ "Track_End" :: rest)
          (length pre + length body + 2) (err + e)
    | Raise x => Some (Raise x)
    end.
Proof.
  intros Hno. rewrite mmm_errors_loop_step.
  rewrite list_lookup_middle by reflexivity.
  rewrite String.eqb_refl. cbn [negb].
  rewrite (mmm_end_loop_body pre ("Track_Start" :: body) rest).
  - assert (Hsl : Py.slice (pre ++ "Track_Start" :: body ++ "Track_End" :: rest)
                    (length pre + 1)
                    (Some (length pre + length ("Track_Start" :: body))%nat)
                  = body).
    { unfold Py.slice.
      replace (pre ++ "Track_Start" :: body ++ "Track_End" :: rest)
        with ((pre ++ ["Track_Start"]) ++ body ++ "Track_End" :: rest)
        by now rewrite <- app_assoc.
      rewrite drop_app_length' by (rewrite length_app; cbn; lia).
      cbn [length].
      replace (length pre + S (length body) - (length pre + 1))%nat
        with (length body) by lia.
      apply take_app_length. }
    rewrite Hsl. destruct (base body) as [e|x]; [|reflexivity].
    rewrite mmm_errors_loop_step.
    replace (pre ++ "Track_Start" :: body ++ "Track_End" :: rest)
      with ((pre ++ "Track_Start" :: body) ++ "Track_End" :: rest)
      by now rewrite <- app_assoc.
    rewrite list_lookup_middle by (rewrite length_app; cbn [length]; lia).
    change (String.eqb "Track_End" "Track_Start") with false. cbn [negb].
    f_equal. cbn [length]. lia.
  - apply not_elem_of_cons. split; [discriminate|exact Hno].
  - rewrite !length_app. cbn [length]. rewrite length_app. cbn [length]. lia.
Qed.

Lemma mapM_cons_ok_inv {X Y} (f : X → result Y) x l ys :
  mapM f (x :: l) = Ok ys →
  ∃ y ys', f x = Ok y ∧ mapM f l = Ok ys' ∧ ys = y :: ys'.
Proof.
  intros H. cbn in H. apply bind_ok_inv in H as (y & Hy & H).
  apply bind_ok_inv in H as (ys' & Hys & H). injection H as <-. eauto.
Qed.

Lemma mmm_errors_loop_stream tracks :
  ∀ es trailing pre err fuel,
    Forall (λ '(gap, body), ("Track_Start" ∉ gap) ∧ ("Track_End" ∉ body)) tracks →
    "Track_Start" ∉ trailing →
    mapM base (map snd tracks) = Ok es →
    (length (track_stream tracks ++ trailing) < fuel)%nat →
    errors_loop base fuel (pre ++ track_stream tracks ++ trailing)
      (length pre) err
    = Some (Ok (err + foldr Z.add 0 es)).
Proof.
  induction tracks as [|[gap body] tracks IH];
    intros es trailing pre err fuel Hall Htr Hes Hfuel.
  - cbn in Hes. injection Hes as <-. cbn [track_stream flat_map app] in *.
    replace fuel with (length trailing + S (fuel - length trailing - 1))%nat
      by lia.
    pose proof (mmm_errors_loop_skip pre trailing []
                  (S (fuel - length trailing - 1)) err Htr) as Hskip.
    rewrite app_nil_r in Hskip. rewrite Hskip, mmm_errors_loop_step.
    rewrite lookup_ge_None_2 by (rewrite length_app; lia).
    cbn. now rewrite Z.add_0_r.
  - apply Forall_cons in Hall as [[Hgap Hbody] Hall].
    cbn [map snd] in Hes.
    apply mapM_cons_ok_inv in Hes as (e & es' & He & Hes' & ->).
    cbn [track_stream flat_map] in *. fold (track_stream tracks) in *.
    rewrite !length_app in Hfuel. cbn [length] in Hfuel.
    rewrite !length_app in Hfuel. cbn [length] in Hfuel.
    replace (pre ++ ((gap ++ "Track_Start" :: body ++ ["Track_End"])
                     ++ track_stream tracks) ++ trailing)
      with (pre ++ gap
              ++ "Track_Start" :: body
              ++ "Track_End" :: track_stream tracks ++ trailing)
      by (rewrite <- !app_assoc; cbn; now rewrite <- !app_assoc).
    replace fuel with (length gap + S (S (fuel - length gap - 2)))%nat by lia.
    rewrite mmm_errors_loop_skip by exact Hgap.
    rewrite app_assoc, <- length_app.
    rewrite mmm_errors_loop_track by exact Hbody.
    rewrite He.
    replace ((pre ++ gap)
               ++ "Track_Start" :: body
               ++ "Track_End" :: track_stream tracks ++ trailing)
      with ((pre ++ gap ++ "Track_Start" :: body ++ ["Track_End"])
              ++ track_stream tracks ++ trailing)
      by (rewrite <- !app_assoc; cbn; now rewrite <- !app_assoc).
    replace (length (pre ++ gap) + length body + 2)%nat
      with (length (pre ++ gap ++ "Track_Start" :: body ++ ["Track_End"]))
      by (rewrite !length_app; cbn [length]; rewrite length_app; cbn; lia).
    rewrite (IH es' trailing _ (err + e)); [|exact Hall|exact Htr|exact Hes'|].
    + cbn [foldr]. do 2 f_equal. lia.
    + rewrite length_app. lia.
Qed.

(** X5.  On a stream of closed tracks, [_tokens_errors] leaves its loops
    and returns the sum of the counts that the base tokenizer gives for
    the tokens between each [Track_Start] and its [Track_End]; the
    delimiters and the tokens outside the tracks are not counted. *)
Theorem mmm_tokens_errors_sums_tracks tracks es trailing fuel :
  Forall (λ '(gap, body), ("Track_Start" ∉ gap) ∧ ("Track_End" ∉ body)) tracks →
  "Track_Start" ∉ trailing →
  mapM base (map snd tracks) = Ok es →
  (length (track_stream tracks ++ trailing) < fuel)%nat →
  _tokens_errors base fuel (track_stream tracks ++ trailing)
  = Some (Ok (foldr Z.add 0 es)).
Proof.
  intros Hall Htr Hes Hfuel. unfold _tokens_errors.
  exact (mmm_errors_loop_stream tracks es trailing [] 0 fuel Hall Htr Hes Hfuel).
Qed.

(** X6.  A track that is not closed runs to the end of the sequence:
    every token after its [Track_Start], a later [Track_Start] too, goes
    to the base tokenizer in one piece. *)
Theorem mmm_tokens_errors_open_track pre body fuel :
  "Track_Start" ∉ pre →
  "Track_End" ∉ body →
  (length (pre ++ "Track_Start" :: body) < fuel)%nat →
  _tokens_errors base fuel (pre ++ "Track_Start" :: body)
  = Some (e ← base body; Ok (0 + e)).
Proof.
  intros Hpre Hbody Hfuel. unfold _tokens_errors.
  rewrite length_app in Hfuel. cbn [length] in Hfuel.
  replace fuel with (length pre + S (S (fuel - length pre - 2)))%nat by lia.
  pose proof (mmm_errors_loop_skip [] pre ("Track_Start" :: body)
                (S (S (fuel - length pre - 2))) 0 Hpre) as Hskip.
  cbn [app length Nat.add] in Hskip. rewrite Hskip.
  rewrite mmm_errors_loop_step, list_lookup_middle by reflexivity.
  rewrite String.eqb_refl. cbn [negb].
  pose proof (mmm_end_loop_open pre ("Track_Start" :: body)
                (S (length (pre ++ "Track_Start" :: body)))) as Hend.
  rewrite Hend.
  - assert (Hsl : Py.slice (pre ++ "Track_Start" :: body) (length pre + 1)
                    (Some (length pre + length ("Track_Start" :: body))%nat)
                  = body).
    { unfold Py.slice.
      replace (pre ++ "Track_Start" :: body)
        with ((pre ++ ["Track_Start"]) ++ body) by now rewrite <- app_assoc.
      rewrite drop_app_length' by (rewrite length_app; cbn; lia).
      apply take_ge. cbn [length]. lia. }
    rewrite Hsl. destruct (base body) as [e|x]; [|reflexivity].
    rewrite mmm_errors_loop_step, lookup_ge_None_2; [reflexivity|].
    rewrite length_app. lia.
  - apply not_elem_of_cons. split; [discriminate|exact Hbody].
  - rewrite length_app. lia.
Qed.

(** The inner loop leaves after at most one iteration per token. *)
Lemma mmm_end_loop_total tokens fuel :
  ∀ j0,
    (length tokens - j0 < fuel)%nat →
    ∃ j, end_loop fuel tokens j0 = Some j
         ∧ (j0 <= j)%nat
         ∧ (j <= Nat.max j0 (length tokens))%nat
         ∧ (∀ t, tokens !! j0 = Some t → t ≠ "Track_End" → (j0 < j)%nat).
Proof.
  induction fuel as [|fuel IH]; intros j0 Hfuel; [lia|].
  cbn [end_loop]. destruct (tokens !! j0) as [t|] eqn:Ht.
  - apply lookup_lt_Some in Ht as Hlt.
    destruct (String.eqb_spec t "Track_End") as [->|Hne]; cbn [negb].
    + exists j0. split_and!; [reflexivity|lia|lia|]. intros t [= <-] H. congruence.
    + destruct (IH (S j0)) as (j & Hj & Hge & Hle & _); [lia|].
      exists j. split_and!; [exact Hj|lia|lia|]. intros; lia.
  - exists j0. split_and!; [reflexivity|lia|lia|]. intros t [=].
Qed.

Lemma mmm_errors_loop_total tokens :
  (∀ l e, base l = Ok e → 0 <= e <= Z.of_nat (length l)) →
  ∀ fuel i err,
    (length tokens - i < fuel)%nat →
    ∃ r, errors_loop base fuel tokens i err = Some r
         ∧ ∀ e, r = Ok e →
                err <= e <= err + Z.of_nat (length tokens - i).
Proof.
  intros Hbase. induction fuel as [|fuel IH]; intros i err Hfuel; [lia|].
  rewrite mmm_errors_loop_step. destruct (tokens !! i) as [t|] eqn:Ht.
  - apply lookup_lt_Some in Ht as Hlt.
    destruct (String.eqb_spec t "Track_Start") as [->|Hne]; cbn [negb].
    + destruct (mmm_end_loop_total tokens (S (length tokens)) i)
        as (j & Hj & Hge & Hle & Hprog); [lia|].
      specialize (Hprog _ Ht ltac:(discriminate)).
      rewrite Hj.
      destruct (base (Py.slice tokens (i + 1) (Some j))) as [e|x] eqn:He.
      * apply Hbase in He. unfold Py.slice in He.
        rewrite length_take, length_drop in He.
        destruct (IH j (err + e)) as (r & Hr & Hb); [lia|].
        exists r. split; [exact Hr|]. intros e' He'. specialize (Hb e' He'). lia.
      * exists (Raise x). split; [reflexivity|]. intros e [=].
    + destruct (IH (S i) err) as (r & Hr & Hb); [lia|].
      exists r. split; [exact Hr|]. intros e' He'. specialize (Hb e' He'). lia.
  - exists (Ok err). split; [reflexivity|]. intros e [= <-]. lia.
Qed.

(** X4.  [_tokens_errors] leaves its loops on every sequence, after at
    most one outer iteration per token; and when the base tokenizer counts
    at most one error per token, so does the wrapper: the count it
    returns is between 0 and the number of tokens. *)
Theorem mmm_tokens_errors_bounded tokens fuel :
  (∀ l e, base l = Ok e → 0 <= e <= Z.of_nat (length l)) →
  (length tokens < fuel)%nat →
  ∃ r, _tokens_errors base fuel tokens = Some r
       ∧ ∀ e, r = Ok e → 0 <= e <= Z.of_nat (length tokens).
Proof.
  intros Hbase Hfuel.
  destruct (mmm_errors_loop_total tokens Hbase fuel 0%nat 0) as (r & Hr & Hb); [lia|].
  exists r. split; [exact Hr|]. intros e He. specialize (Hb e He). lia.
Qed.

End MMMTokensErrors.

(** A closed decidable proposition, settled by evaluation. *)
Ltac decide_closed := refine (bool_decide_unpack _ _); vm_compute; exact I.

Lemma base_errors_bounded l e :
  Examples.base_errors l = Ok e → 0 <= e <= Z.of_nat (length l).
Proof.
  intros [= <-]. split; [lia|]. apply Nat2Z.inj_le, List.filter_length_le.
Qed.

(** Witness of X4: a stream of two tracks with a token before the first
    and an unknown token in the second. *)
Lemma mmm_tokens_errors_bounded_witness :
  ∃ r,
    MMMErrors._tokens_errors Examples.base_errors 10
      ["Bar_None"; "Track_Start"; "Pitch_60"; "Track_End"; "Track_Start";
       "Oops_1"; "Track_End"] = Some r
    ∧ ∀ e, r = Ok e → 0 <= e <= Z.of_nat 7.
Proof.
  apply (mmm_tokens_errors_bounded Examples.base_errors
           ["Bar_None"; "Track_Start"; "Pitch_60"; "Track_End"; "Track_Start";
            "Oops_1"; "Track_End"] 10 base_errors_bounded).
  cbn. lia.
Defined.

(** Witness of X5: the same stream, as two closed tracks. *)
Lemma mmm_tokens_errors_sums_tracks_witness :
  MMMErrors._tokens_errors Examples.base_errors 10
    (MMMErrors.track_stream
       [(["Bar_None"], ["Pitch_60"]); ([], ["Oops_1"])] ++ ["PAD_None"])
  = Some (Ok (foldr Z.add 0 [0; 1])).
Proof.
  apply (mmm_tokens_errors_sums_tracks Examples.base_errors
           [(["Bar_None"], ["Pitch_60"]); ([], ["Oops_1"])] [0; 1]
           ["PAD_None"] 10).
  - repeat constructor; decide_closed.
  - decide_closed.
  - reflexivity.
  - cbn. lia.
Defined.

(** Witness of X6: a second [Track_Start] before any [Track_End]. *)
Lemma mmm_tokens_errors_open_track_witness :
  MMMErrors._tokens_errors Examples.base_errors 10
    (["Bar_None"] ++ "Track_Start" :: ["Pitch_60"; "Track_Start"; "Pitch_64"])
  = Some (e ← Examples.base_errors ["Pitch_60"; "Track_Start"; "Pitch_64"];
          Ok (0 + e)).
Proof.
  apply (mmm_tokens_errors_open_track Examples.base_errors ["Bar_None"]
           ["Pitch_60"; "Track_Start"; "Pitch_64"] 10).
  - decide_closed.
  - decide_closed.
  - cbn. lia.
Defined.

(** ** Splitting a concatenated sequence per track *)

Section MMMSplitTracks.

Import MMM TrackSplit.

Lemma track_starts_length off lens :
  length (track_starts off lens) = length lens.
Proof. revert off. induction lens as [|n r IH]; intros off; cbn; congruence. Qed.

(** The positions of [Track_Start] in tracks put end to end are the
    starts of the tracks. *)
Lemma where_eq_tracks (ts : Z) (ls : list (list Z)) :
  Forall (λ l, ∃ r, l = ts :: r ∧ (ts ∉ r)) ls →
  ∀ off, Py.where_eq ts (concat ls) off = track_starts off (map length ls).
Proof.
  induction 1 as [|l ls (r & -> & Hr) _ IH]; intros off; [reflexivity|].
  cbn [concat map track_starts app Py.where_eq length].
  rewrite Z.eqb_refl. f_equal.
  rewrite where_eq_app, (where_eq_nil _ _ _ Hr). cbn [app].
  rewrite IH. f_equal. lia.
Qed.

(** Cutting at the starts of the tracks gives the tracks back. *)
Lemma slices_of_track_starts {X} (ls : list (list X)) :
  ∀ pre,
    slices_of true (pre ++ concat ls) (track_starts (length pre) (map length ls))
    = ls.
Proof.
  induction ls as [|l ls IH]; intros pre; [reflexivity|].
  cbn [concat map track_starts slices_of]. f_equal.
  - destruct ls as [|l' ls].
    + cbn. now rewrite app_nil_r, drop_app_length.
    + cbn [map track_starts Py.slice]. rewrite drop_app_length.
      replace (length pre + length l - length pre)%nat with (length l) by lia.
      apply take_app_length.
  - specialize (IH (pre ++ l)). rewrite length_app, <- app_assoc in IH.
    exact IH.
Qed.

Lemma fold_tokseq_add_views r :
  ∀ a,
    events (fold_left tokseq_add r a) = events a ++ concat (map events r)
    ∧ tokens (fold_left tokseq_add r a) = tokens a ++ concat (map tokens r)
    ∧ ids (fold_left tokseq_add r a) = ids a ++ concat (map ids r)
    ∧ are_ids_encoded (fold_left tokseq_add r a) = are_ids_encoded a.
Proof.
  induction r as [|s r IH]; intros a.
  - cbn. now rewrite !app_nil_r.
  - cbn [fold_left map concat].
    destruct (IH (tokseq_add a s)) as (He & Ht & Hi & Hf).
    rewrite He, Ht, Hi, Hf. cbn [events tokens ids are_ids_encoded tokseq_add].
    now rewrite <- !app_assoc.
Qed.

Lemma split_loop_flags s keep idx :
  map are_ids_encoded (split_loop s keep idx)
  = map (λ _, are_ids_encoded s) idx.
Proof.
  induction idx as [|i rest IH]; [reflexivity|].
  cbn [split_loop map]. now rewrite IH.
Qed.

Lemma tokseq_list_eq (l1 l2 : list TokSequence) :
  map events l1 = map events l2 →
  map tokens l1 = map tokens l2 →
  map ids l1 = map ids l2 →
  map are_ids_encoded l1 = map are_ids_encoded l2 →
  l1 = l2.
Proof.
  revert l2. induction l1 as [|[e1 t1 i1 f1] l1 IH];
    intros [|[e2 t2 i2 f2] l2] He Ht Hi Hf; try discriminate; [reflexivity|].
  cbn in He, Ht, Hi, Hf.
  injection He as -> He. injection Ht as -> Ht.
  injection Hi as -> Hi. injection Hf as -> Hf.
  f_equal. now apply IH.
Qed.

Lemma same_flags (l : list TokSequence) (b : bool) (idx : list nat) :
  length idx = length l →
  Forall (λ s, are_ids_encoded s = b) l →
  map (λ _, b) idx = map are_ids_encoded l.
Proof.
  intros Hlen Hall. revert idx Hlen.
  induction Hall as [|s l Hs _ IH]; intros [|i idx] Hlen;
    try discriminate; [reflexivity|].
  cbn [map]. rewrite Hs. f_equal. apply IH. now injection Hlen.
Qed.

(** X7.  Any number of track sequences, each starting with its
    [Track_Start] id and holding no other one, with views of one length
    and one flag [are_ids_encoded]: splitting their sum per track with
    the delimiters kept returns these sequences, view by view. *)
Theorem split_of_sum_gives_tracks_back cfg ts a r :
  vocab cfg !! "Track_Start" = Some ts →
  Forall (λ s, (∃ l, ids s = ts :: l ∧ (ts ∉ l))
               ∧ length (events s) = length (ids s)
               ∧ length (tokens s) = length (ids s)
               ∧ are_ids_encoded s = are_ids_encoded a) (a :: r) →
  ∃ whole,
    tokseq_sum (a :: r) = Concatenated whole
    ∧ split_tokseq_per_track cfg whole true = Ok (a :: r).
Proof.
  intros Hts Hall. exists (fold_left tokseq_add r a). split; [reflexivity|].
  destruct (fold_tokseq_add_views r a) as (He & Ht & Hi & Hf).
  assert (Hidx : Py.where_eq ts (ids (fold_left tokseq_add r a)) 0
                 = track_starts 0 (map length (map ids (a :: r)))).
  { rewrite Hi. change (ids a ++ concat (map ids r))
      with (concat (map ids (a :: r))).
    apply where_eq_tracks. apply Forall_fmap.
    eapply Forall_impl; [exact Hall|]. now intros s [H _]. }
  assert (Hlens : map length (map events (a :: r))
                  = map length (map ids (a :: r))
                  ∧ map length (map tokens (a :: r))
                    = map length (map ids (a :: r))).
  { clear -Hall. induction Hall as [|s l (_ & H1 & H2 & _) _ [IH1 IH2]];
      [now split|].
    cbn [map]. now rewrite H1, H2, IH1, IH2. }
  destruct Hlens as [Hle Hlt].
  unfold split_tokseq_per_track. rewrite Hts. cbn [Py.of_option].
  rewrite (bind_ok _ _ _ eq_refl), Hidx.
  cbn [map track_starts length Nat.eqb]. f_equal.
  change (0%nat :: track_starts (0 + length (ids a))
                     (map length (map ids r)))
    with (track_starts 0 (map length (map ids (a :: r)))).
  apply tokseq_list_eq.
  - rewrite split_loop_events, He, <- Hle.
    exact (slices_of_track_starts (map events (a :: r)) []).
  - rewrite split_loop_tokens, Ht, <- Hlt.
    exact (slices_of_track_starts (map tokens (a :: r)) []).
  - rewrite split_loop_ids, Hi.
    exact (slices_of_track_starts (map ids (a :: r)) []).
  - rewrite split_loop_flags, Hf. apply same_flags.
    + now rewrite track_starts_length, !length_map.
    + eapply Forall_impl; [exact Hall|]. now intros s (_ & _ & _ & H).
Qed.

Lemma where_eq_length x l i :
  length (Py.where_eq x l i) = count_occ Z.eq_dec l x.
Proof.
  revert i. induction l as [|y r IH]; intros i; [reflexivity|].
  cbn [Py.where_eq count_occ].
  destruct (Z.eq_dec y x) as [Heq|Hneq], (Z.eqb_spec y x) as [Heq'|Hne];
    try congruence; cbn [length]; now rewrite IH.
Qed.

(** X8.  [split_tokseq_per_track] returns one sequence per [Track_Start]
    id of its input (the input itself when there is none); and with the
    delimiters kept, the ids of the sequences returned, put end to end,
    are the ids of the input from its first [Track_Start] on: what stands
    before the first [Track_Start] is in no sequence returned. *)
Theorem split_one_sequence_per_track_start cfg tokseq keep ts :
  vocab cfg !! "Track_Start" = Some ts →
  ∃ slices,
    split_tokseq_per_track cfg tokseq keep = Ok slices
    ∧ length slices = Nat.max 1 (count_occ Z.eq_dec (ids tokseq) ts)
    ∧ (keep = true →
       ∀ l1 l2, ids tokseq = l1 ++ ts :: l2 → ts ∉ l1 →
                concat (map ids slices) = ts :: l2).
Proof.
  intros Hts. unfold split_tokseq_per_track. rewrite Hts. cbn [Py.of_option].
  rewrite (bind_ok _ _ _ eq_refl).
  pose proof (where_eq_length ts (ids tokseq) 0) as Hlen.
  destruct (Py.where_eq ts (ids tokseq) 0) as [|k idx] eqn:Hw.
  - cbn [length Nat.eqb]. exists [tokseq]. split_and!; [reflexivity| |].
    + cbn in Hlen. rewrite <- Hlen. reflexivity.
    + intros _ l1 l2 Hids Hl1. apply where_eq_nil_inv in Hw.
      exfalso. apply Hw. rewrite Hids. set_solver.
  - cbn [length Nat.eqb]. exists (split_loop tokseq keep (k :: idx)).
    split_and!; [reflexivity| |].
    + rewrite split_loop_length, <- Hlen. cbn [length]. lia.
    + intros -> l1 l2 Hids Hl1.
      rewrite split_loop_ids, <- Hw, concat_slices_keep
        by apply where_eq_sorted.
      rewrite Hw.
      assert (Hk : k = length l1).
      { rewrite Hids, where_eq_app, (where_eq_nil _ _ _ Hl1) in Hw.
        cbn [app Py.where_eq] in Hw. rewrite Z.eqb_refl in Hw.
        injection Hw as <- _. lia. }
      rewrite Hk, Hids. apply drop_app_length.
Qed.

End MMMSplitTracks.

(** Witness of X7: three tracks of one note each. *)
Lemma split_of_sum_gives_tracks_back_witness :
  ∃ whole,
    MMM.tokseq_sum
      (Examples.track_seq 60 :: [Examples.track_seq 64; Examples.track_seq 60])
    = MMM.Concatenated whole
    ∧ MMM.split_tokseq_per_track (Examples.mmm_cfg "bar") whole true
      = Ok (Examples.track_seq 60
              :: [Examples.track_seq 64; Examples.track_seq 60]).
Proof.
  apply (split_of_sum_gives_tracks_back (Examples.mmm_cfg "bar") 1
           (Examples.track_seq 60)
           [Examples.track_seq 64; Examples.track_seq 60]).
  - reflexivity.
  - repeat constructor;
      try (eexists; split; [reflexivity|decide_closed]).
Defined.

(** Witness of X8: the two-track stream. *)
Lemma split_one_sequence_per_track_start_witness :
  ∃ slices,
    MMM.split_tokseq_per_track (Examples.mmm_cfg "bar") Examples.two_tracks
      true = Ok slices
    ∧ length slices
      = Nat.max 1 (count_occ Z.eq_dec (MMM.ids Examples.two_tracks) 1)
    ∧ (true = true →
       ∀ l1 l2, MMM.ids Examples.two_tracks = l1 ++ 1 :: l2 → 1 ∉ l1 →
                concat (map MMM.ids slices) = 1 :: l2).
Proof.
  apply (split_one_sequence_per_track_start (Examples.mmm_cfg "bar")
           Examples.two_tracks true 1).
  reflexivity.
Defined.

(** ** Printing and reading integers and tokens *)

Section Tokens.

Lemma digit_pretty_char (d : N) :
  (d < 10)%N → Py.digit (pretty_N_char d) = Some (Z.of_N d).
Proof.
  intros Hd.
  assert (d = 0 ∨ d = 1 ∨ d = 2 ∨ d = 3 ∨ d = 4 ∨ d = 5 ∨ d = 6 ∨ d = 7
          ∨ d = 8 ∨ d = 9)%N as H by lia.
  repeat (destruct H as [->|H]; [reflexivity|]). now subst.
Qed.

(** Reading the digits printed for [x] in front of [s]. *)
Lemma digits_pretty_go (x : N) :
  ∃ k : Z, 0 <= k ∧
    ∀ s acc,
      Py.digits acc (pretty_N_go x s)
      = Py.digits (acc * 10 ^ k + Z.of_N x) s.
Proof.
  induction (N.lt_wf_0 x) as [x _ IH].
  destruct (N.eq_dec x 0%N) as [->|Hx].
  - exists 0. split; [lia|]. intros s acc. rewrite pretty_N_go_0.
    f_equal. lia.
  - destruct (IH (x `div` 10)%N) as (k & Hk & IHx).
    { apply N.div_lt; lia. }
    exists (k + 1). split; [lia|]. intros s acc.
    rewrite pretty_N_go_step by lia. rewrite IHx. cbn [Py.digits].
    rewrite digit_pretty_char by (apply N.mod_lt; lia).
    f_equal. rewrite Z.pow_add_r by lia.
    pose proof (N.div_mod x 10 ltac:(lia)) as Hdm.
    apply (f_equal Z.of_N) in Hdm.
    rewrite N2Z.inj_add, N2Z.inj_mul in Hdm. cbn in Hdm. lia.
Qed.

Lemma digits_pretty_pos (p : positive) :
  Py.digits 0 (pretty_N_go (N.pos p) "") = Some (Z.pos p).
Proof.
  destruct (digits_pretty_go (N.pos p)) as (k & _ & H).
  rewrite H. cbn. reflexivity.
Qed.

(** A string of digits that does not read as 0 is read by [int] as its
    digits. *)
Lemma int_of_digits (s : string) (z : Z) :
  Py.digits 0 s = Some z → s ≠ "" → Py.int s = Ok z.
Proof.
  intros Hd Hne. destruct s as [|c r]; [contradiction|].
  assert (Hc : Py.digit c ≠ None).
  { intros Hc. cbn [Py.digits] in Hd. now rewrite Hc in Hd. }
  unfold Py.int.
  destruct c as [[] [] [] [] [] [] [] []];
    try (exfalso; apply Hc; reflexivity);
    now rewrite Hd.
Qed.

Lemma pretty_go_nonempty (p : positive) : pretty_N_go (N.pos p) "" ≠ "".
Proof.
  intros H. pose proof (digits_pretty_pos p) as Hd. rewrite H in Hd.
  discriminate.
Qed.

(** [int(str(z)) == z] *)
Lemma int_pretty (z : Z) : Py.int (pretty z) = Ok z.
Proof.
  destruct z as [|p|p].
  - reflexivity.
  - apply int_of_digits; [apply digits_pretty_pos|apply pretty_go_nonempty].
  - change (pretty (Z.neg p)) with (String "-" (pretty_N_go (N.pos p) "")).
    unfold Py.int.
    pose proof (digits_pretty_pos p) as Hd.
    pose proof (pretty_go_nonempty p) as Hne.
    destruct (pretty_N_go (N.pos p) "") as [|c r]; [contradiction|].
    now rewrite Hd.
Qed.

(** Splitting at a separator that the first part does not hold. *)
Lemma split_app_sep (a b : string) :
  Py.split "_" a = [a] →
  Py.split "_" (a +:+ String "_" b) = a :: Py.split "_" b.
Proof.
  revert b. induction a as [|c a IH]; intros b Ha; [reflexivity|].
  change (String c a +:+ String "_" b) with (String c (a +:+ String "_" b)).
  cbn [Py.split] in Ha |- *.
  destruct (Ascii.eqb c "_"); [discriminate|].
  destruct (Py.split "_" a) as [|h t] eqn:Hs.
  - injection Ha as <-. discriminate.
  - injection Ha as -> ->. now rewrite IH.
Qed.

Lemma split_cons_no_sep (c : ascii) (s : string) :
  Ascii.eqb c "_" = false →
  Py.split "_" s = [s] → Py.split "_" (String c s) = [String c s].
Proof. intros Hc Hs. cbn [Py.split]. now rewrite Hc, Hs. Qed.

Lemma pretty_char_no_sep (d : N) : Ascii.eqb (pretty_N_char d) "_" = false.
Proof. unfold pretty_N_char. repeat case_match; reflexivity. Qed.

Lemma pretty_go_no_sep (x : N) :
  ∀ s, Py.split "_" s = [s] →
       Py.split "_" (pretty_N_go x s) = [pretty_N_go x s].
Proof.
  induction (N.lt_wf_0 x) as [x _ IH]. intros s Hs.
  destruct (N.eq_dec x 0%N) as [->|Hx]; [now rewrite pretty_N_go_0|].
  rewrite pretty_N_go_step by lia. apply IH; [apply N.div_lt; lia|].
  apply split_cons_no_sep; [apply pretty_char_no_sep|exact Hs].
Qed.

(** The printed form of an integer holds no separator. *)
Lemma pretty_no_sep (z : Z) : Py.split "_" (pretty z) = [pretty z].
Proof.
  destruct z as [|p|p].
  - reflexivity.
  - now apply pretty_go_no_sep.
  - change (pretty (Z.neg p)) with (String "-" (pretty_N_go (N.pos p) "")).
    apply split_cons_no_sep; [reflexivity|]. now apply pretty_go_no_sep.
Qed.

(** The token of an event whose type and value hold no separator splits
    into this type and this value. *)
Lemma split_token_of_event (e : Event) :
  Py.split "_" (type_ e) = [type_ e] →
  Py.split "_" (str (value e)) = [str (value e)] →
  split_token (token_of_event e) = Ok (type_ e, str (value e))
  ∧ token_type (token_of_event e) = type_ e
  ∧ token_value (token_of_event e) = Ok (str (value e)).
Proof.
  intros Hty Hval. unfold split_token, token_type, token_value, token_of_event.
  change (type_ e +:+ "_" +:+ str (value e))
    with (type_ e +:+ String "_" (str (value e))).
  rewrite split_app_sep, Hval by exact Hty. now split_and!.
Qed.

End Tokens.

(** ** The events of the fixed-pattern encoder *)

Section StructuredPattern.

Import Structured StructuredGraph.

Lemma ticks_to_token_raises cfg td t e :
  ticks_to_token cfg td t = Raise e → e = KeyError.
Proof.
  unfold ticks_to_token. destruct (_tpb_ticks_to_tokens cfg !! td) as [tb|];
    cbn; [|congruence].
  destruct (tb !! t); cbn; congruence.
Qed.

Lemma create_loop_acc cfg p notes :
  ∀ prev acc,
    create_loop cfg p notes prev acc
    = (r ← create_loop cfg p notes prev []; Ok (acc ++ r)).
Proof.
  induction notes as [|n rest IH]; intros prev acc.
  - cbn. now rewrite app_nil_r.
  - cbn [create_loop]. destruct (note_events cfg p prev n) as [new|e];
      [|reflexivity].
    rewrite !(bind_ok _ _ _ eq_refl). rewrite (IH _ (acc ++ new)), (IH _ ([] ++ new)).
    destruct (create_loop cfg p rest (note_time n) []) as [r|e]; [|reflexivity].
    rewrite !(bind_ok _ _ _ eq_refl). cbn. now rewrite app_assoc.
Qed.

Lemma create_loop_cons cfg p n rest prev :
  create_loop cfg p (n :: rest) prev []
  = (new ← note_events cfg p prev n;
     r ← create_loop cfg p rest (note_time n) [];
     Ok (new ++ r)).
Proof.
  cbn [create_loop]. destruct (note_events cfg p prev n) as [new|e];
    [|reflexivity].
  rewrite !(bind_ok _ _ _ eq_refl). now rewrite create_loop_acc.
Qed.

Lemma add_time_loop_acc cfg check td evs :
  ∀ prev acc,
    add_time_loop cfg check td evs prev acc
    = (r ← add_time_loop cfg check td evs prev []; Ok (acc ++ r)).
Proof.
  induction evs as [|ev rest IH]; intros prev acc.
  - cbn. now rewrite app_nil_r.
  - cbn [add_time_loop]. destruct (String.eqb (type_ ev) check).
    + destruct (if negb (time ev - prev =? 0)
                then ticks_to_token cfg td (time ev - prev)
                else Ok "0.0.1") as [sh|e]; [|reflexivity].
      rewrite !(bind_ok _ _ _ eq_refl). rewrite IH, (IH _ ([] ++ _)).
      destruct (add_time_loop cfg check td rest (time ev) []) as [r|e];
        [|reflexivity].
      rewrite !(bind_ok _ _ _ eq_refl). cbn. now rewrite <- !app_assoc.
    + rewrite IH, (IH _ ([] ++ _)).
      destruct (add_time_loop cfg check td rest prev []) as [r|e];
        [|reflexivity].
      rewrite !(bind_ok _ _ _ eq_refl). cbn. now rewrite <- !app_assoc.
Qed.

Lemma create_loop_raises cfg p notes :
  ∀ prev e, create_loop cfg p notes prev [] = Raise e → e = KeyError.
Proof.
  induction notes as [|n rest IH]; intros prev e; [discriminate|].
  rewrite create_loop_cons. unfold note_events.
  destruct (one_token_stream cfg).
  - rewrite (bind_ok _ _ _ eq_refl).
    destruct (ticks_to_token cfg (time_division cfg) (note_duration n))
      as [d|e'] eqn:Hd; [|intros [= <-]; now apply ticks_to_token_raises in Hd].
    rewrite !(bind_ok _ _ _ eq_refl).
    destruct (create_loop cfg p rest (note_time n) []) as [r|e'] eqn:Hr;
      [discriminate|]. intros [= <-]. now apply IH in Hr.
  - destruct (if negb (note_time n - prev =? 0)
              then ticks_to_token cfg (time_division cfg) (note_time n - prev)
              else Ok "0.0.1") as [sh|e'] eqn:Hs.
    + rewrite !(bind_ok _ _ _ eq_refl).
      destruct (ticks_to_token cfg (time_division cfg) (note_duration n))
        as [d|e'] eqn:Hd;
        [|intros [= <-]; now apply ticks_to_token_raises in Hd].
      rewrite !(bind_ok _ _ _ eq_refl).
      destruct (create_loop cfg p rest (note_time n) []) as [r|e'] eqn:Hr;
        [discriminate|]. intros [= <-]. now apply IH in Hr.
    + intros [= <-]. destruct (negb _); [|discriminate].
      now apply ticks_to_token_raises in Hs.
Qed.

Lemma note_events_one_stream cfg p prev n :
  one_token_stream cfg = true →
  use_programs cfg = true →
  note_events cfg p prev n
  = (dur ← ticks_to_token cfg (time_division cfg) (note_duration n);
     Ok [mkEvent "Program" (VInt p) (note_time n) (note_end n);
         mkEvent "Pitch" (VInt (note_pitch n)) (note_time n) (note_end n);
         mkEvent "Velocity" (VInt (note_velocity n)) (note_time n)
           (note_velocity n);
         mkEvent "Duration" (VStr dur) (note_time n) (note_duration n)]).
Proof.
  intros Hos Hup. unfold note_events. rewrite Hos, Hup.
  now rewrite (bind_ok _ _ _ eq_refl).
Qed.

Lemma note_events_separate cfg p prev n :
  use_programs cfg = true →
  note_events (set_one_token_stream cfg false) p prev n
  = (time_shift ←
       (if negb (note_time n - prev =? 0)
        then ticks_to_token cfg (time_division cfg) (note_time n - prev)
        else Ok "0.0.1");
     dur ← ticks_to_token cfg (time_division cfg) (note_duration n);
     Ok [mkEvent "TimeShift" (VStr time_shift) (note_time n)
           (note_time n - prev);
         mkEvent "Program" (VInt p) (note_time n) (note_end n);
         mkEvent "Pitch" (VInt (note_pitch n)) (note_time n) (note_end n);
         mkEvent "Velocity" (VInt (note_velocity n)) (note_time n)
           (note_velocity n);
         mkEvent "Duration" (VStr dur) (note_time n) (note_duration n)]).
Proof.
  intros Hup. unfold note_events.
  cbn [one_token_stream use_programs time_division set_one_token_stream negb].
  rewrite Hup.
  change (ticks_to_token (set_one_token_stream cfg false))
    with (ticks_to_token cfg).
  destruct (if negb (note_time n - prev =? 0)
            then ticks_to_token cfg (time_division cfg) (note_time n - prev)
            else Ok "0.0.1") as [sh|e]; [|reflexivity].
  now rewrite !(bind_ok _ _ _ eq_refl).
Qed.

Lemma one_stream_loops_agree cfg p notes :
  one_token_stream cfg = true →
  use_programs cfg = true →
  ∀ prevc prev,
    (evs0 ← create_loop cfg p notes prevc [];
     add_time_loop cfg "Program" (time_division cfg) evs0 prev [])
    = create_loop (set_one_token_stream cfg false) p notes prev [].
Proof.
  intros Hos Hup. induction notes as [|n rest IH]; intros prevc prev;
    [reflexivity|].
  rewrite !create_loop_cons, note_events_one_stream, note_events_separate
    by assumption.
  rewrite <- (IH (note_time n) (note_time n)).
  destruct (ticks_to_token cfg (time_division cfg) (note_duration n))
    as [d|e] eqn:Hd.
  - rewrite !(bind_ok _ _ _ eq_refl).
    destruct (create_loop cfg p rest (note_time n) []) as [r|e] eqn:Hr.
    + rewrite !(bind_ok _ _ _ eq_refl).
      cbn [app add_time_loop type_ time String.eqb Ascii.eqb Bool.eqb].
      destruct (if negb (note_time n - prev =? 0)
                then ticks_to_token cfg (time_division cfg)
                       (note_time n - prev)
                else Ok "0.0.1") as [sh|e]; [|reflexivity].
      rewrite !(bind_ok _ _ _ eq_refl). rewrite add_time_loop_acc.
      reflexivity.
    + apply create_loop_raises in Hr as ->. cbn.
      destruct (if negb (note_time n - prev =? 0)
                then ticks_to_token cfg (time_division cfg)
                       (note_time n - prev)
                else Ok "0.0.1") as [sh|e] eqn:Hs; [reflexivity|].
      destruct (negb _); [|discriminate].
      now apply ticks_to_token_raises in Hs as ->.
  - apply ticks_to_token_raises in Hd as ->. cbn.
    destruct (if negb (note_time n - prev =? 0)
              then ticks_to_token cfg (time_division cfg) (note_time n - prev)
              else Ok "0.0.1") as [sh|e] eqn:Hs; [reflexivity|].
    destruct (negb _); [|discriminate].
    now apply ticks_to_token_raises in Hs as ->.
Qed.

(** X10.  With programs, the two ways of encoding a track agree: the
    note events of the one-stream mode with the time events added by
    [_add_time_events] are the events that [_create_track_events] builds
    for separate streams, raised exceptions included. *)
Theorem one_stream_events_agree cfg track :
  one_token_stream cfg = true →
  use_programs cfg = true →
  (evs0 ← _create_track_events cfg track;
   _add_time_events cfg evs0 (time_division cfg))
  = _create_track_events (set_one_token_stream cfg false) track.
Proof.
  intros Hos Hup. unfold _create_track_events, _add_time_events.
  rewrite Hos. now apply one_stream_loops_agree.
Qed.

Lemma note_events_types cfg p prev n new :
  one_token_stream cfg = false →
  note_events cfg p prev n = Ok new →
  map type_ new = note_types cfg.
Proof.
  intros Hos. unfold note_events, note_types. rewrite Hos. cbn [negb].
  intros H.
  apply bind_ok_inv in H as (sh & Hsh & H).
  apply bind_ok_inv in Hsh as (x & _ & [= <-]).
  apply bind_ok_inv in H as (d & _ & [= <-]).
  now destruct (use_programs cfg).
Qed.

Lemma create_loop_types cfg p notes :
  one_token_stream cfg = false →
  ∀ prev evs,
    create_loop cfg p notes prev [] = Ok evs →
    map type_ evs = concat (map (λ _, note_types cfg) notes).
Proof.
  intros Hos. induction notes as [|n rest IH]; intros prev evs H.
  - now injection H as <-.
  - rewrite create_loop_cons in H.
    apply bind_ok_inv in H as (new & Hnew & H).
    apply bind_ok_inv in H as (r & Hr & [= <-]).
    rewrite map_app, (note_events_types _ _ _ _ _ Hos Hnew), (IH _ _ Hr).
    reflexivity.
Qed.

(** The pattern of a note can follow a [Duration] token, and ends with
    one. *)
Lemma last_cons_default {X} (a : list X) (x d d' : X) :
  List.last (x :: a) d = List.last (x :: a) d'.
Proof.
  revert x. induction a as [|y a IH]; intros x; [reflexivity|].
  change (List.last (y :: a) d = List.last (y :: a) d'). apply IH.
Qed.

Lemma follows_from_app g prev a b :
  follows_from g prev (a ++ b)
  = follows_from g prev a && follows_from g (List.last a prev) b.
Proof.
  revert prev. induction a as [|x a IH]; intros prev; [reflexivity|].
  cbn [app follows_from]. rewrite IH, andb_assoc. do 2 f_equal.
  destruct a as [|y a]; [reflexivity|].
  rewrite (last_cons_default a y x prev). reflexivity.
Qed.

Lemma note_types_follow cfg (k : list Note) :
  follows_from (_create_token_types_graph cfg) "Duration"
    (concat (map (λ _, note_types cfg) k)) = true.
Proof.
  induction k as [|n k IH]; [reflexivity|].
  cbn [map concat]. rewrite follows_from_app.
  replace (List.last (note_types cfg) "Duration") with "Duration"
    by (unfold note_types; now destruct (use_programs cfg)).
  rewrite IH, andb_true_r.
  unfold _create_token_types_graph, note_types.
  destruct (use_programs cfg); vm_compute; reflexivity.
Qed.

(** X9.  With separate streams, the types of the events that
    [_create_track_events] builds are the pattern [TimeShift], [Program]
    when programs are used, [Pitch], [Velocity], [Duration], once per
    note; and this sequence of types follows the graph of
    [_create_token_types_graph]: each type is a permitted successor of
    the one before. *)
Theorem track_events_follow_pattern cfg track evs :
  one_token_stream cfg = false →
  _create_track_events cfg track = Ok evs →
  map type_ evs = concat (map (λ _, note_types cfg) (notes track))
  ∧ follows_graph (_create_token_types_graph cfg) (map type_ evs) = true.
Proof.
  intros Hos H. unfold _create_track_events in H.
  apply (create_loop_types _ _ _ Hos) in H. split; [exact H|].
  rewrite H. destruct (notes track) as [|n k]; [reflexivity|].
  pose proof (note_types_follow cfg k) as Hk.
  cbn [map concat]. unfold note_types at 1.
  cbn [app follows_graph]. rewrite follows_from_app.
  replace (List.last
             ((if use_programs cfg then ["Program"] else [])
              ++ ["Pitch"; "Velocity"; "Duration"]) "TimeShift")
    with "Duration" by now destruct (use_programs cfg).
  rewrite Hk, andb_true_r.
  unfold _create_token_types_graph.
  destruct (use_programs cfg); vm_compute; reflexivity.
Qed.

Lemma set_one_token_stream_same cfg :
  one_token_stream cfg = false → set_one_token_stream cfg false = cfg.
Proof. destruct cfg. cbn. now intros ->. Qed.

End StructuredPattern.

(** ** Decoding what the fixed-pattern encoder builds *)

Section StructuredRoundTrip.

Import Structured StructuredGraph.

Variable cfg : Config.
Hypothesis Htab : tables_inverse cfg.

Lemma decode_tokens_cons seq t rest ti st :
  decode_tokens cfg seq (t :: rest) ti st
  = (st' ← decode_token cfg seq ti t st; decode_tokens cfg seq rest (S ti) st').
Proof. reflexivity. Qed.

Lemma set_tick_same (st : State) : set_tick st (current_tick st + 0) = st.
Proof. destruct st. unfold set_tick. cbn. now rewrite Z.add_0_r. Qed.

Lemma decode_time_shift seq ti st gap x t d :
  shift_value cfg gap = Ok x →
  decode_token cfg seq ti (token_of_event (mkEvent "TimeShift" (VStr x) t d)) st
  = Ok (set_tick st (current_tick st + gap)).
Proof.
  unfold shift_value. intros Hx.
  destruct (Z.eqb_spec gap 0) as [->|Hgap]; cbn [negb] in Hx.
  - injection Hx as <-. rewrite set_tick_same. reflexivity.
  - destruct (Htab _ _ Hx) as (Hback & Hne & Hsep).
    unfold decode_token.
    destruct (split_token_of_event (mkEvent "TimeShift" (VStr x) t d))
      as (Hsp & _); [reflexivity|exact Hsep|].
    rewrite (bind_ok _ _ _ Hsp). cbn [type_ value str].
    change (String.eqb "TimeShift" "TimeShift") with true.
    destruct (String.eqb_spec x "0.0.1") as [Heq|_]; [contradiction|].
    cbn [andb negb]. now rewrite (bind_ok _ _ _ Hback).
Qed.

Lemma decode_program seq ti st p t d :
  decode_token cfg seq ti (token_of_event (mkEvent "Program" (VInt p) t d)) st
  = Ok (set_program st p).
Proof.
  unfold decode_token.
  destruct (split_token_of_event (mkEvent "Program" (VInt p) t d))
    as (Hsp & _); [reflexivity|apply pretty_no_sep|].
  rewrite (bind_ok _ _ _ Hsp). cbn [type_ value str].
  change (String.eqb "Program" "TimeShift") with false.
  change (String.eqb "Program" "Pitch") with false.
  change (String.eqb "Program" "Program") with true.
  cbn [andb]. now rewrite (bind_ok _ _ _ (int_pretty p)).
Qed.

Lemma decode_velocity seq ti st v t d :
  decode_token cfg seq ti (token_of_event (mkEvent "Velocity" (VInt v) t d)) st
  = Ok st.
Proof.
  unfold decode_token.
  destruct (split_token_of_event (mkEvent "Velocity" (VInt v) t d))
    as (Hsp & _); [reflexivity|apply pretty_no_sep|].
  rewrite (bind_ok _ _ _ Hsp). reflexivity.
Qed.

Lemma decode_duration seq ti st x t d :
  Py.split "_" x = [x] →
  decode_token cfg seq ti (token_of_event (mkEvent "Duration" (VStr x) t d)) st
  = Ok st.
Proof.
  intros Hsep. unfold decode_token.
  destruct (split_token_of_event (mkEvent "Duration" (VStr x) t d))
    as (Hsp & _); [reflexivity|exact Hsep|].
  rewrite (bind_ok _ _ _ Hsp). reflexivity.
Qed.

(** A [Pitch] token followed by the [Velocity] and [Duration] tokens of
    its note appends the note at the current tick. *)
Lemma decode_pitch seq ti st n x t1 d1 t2 d2 t3 d3 :
  seq !! ti
  = Some (token_of_event (mkEvent "Pitch" (VInt (note_pitch n)) t1 d1)) →
  seq !! (ti + 1)%nat
  = Some (token_of_event (mkEvent "Velocity" (VInt (note_velocity n)) t2 d2)) →
  seq !! (ti + 2)%nat
  = Some (token_of_event (mkEvent "Duration" (VStr x) t3 d3)) →
  ticks_to_token cfg (time_division cfg) (note_duration n) = Ok x →
  decode_token cfg seq ti
    (token_of_event (mkEvent "Pitch" (VInt (note_pitch n)) t1 d1)) st
  = Py.try_except_pass
      (add_note cfg st
         (mkNote (current_tick st) (note_duration n) (note_pitch n)
            (note_velocity n)))
      IndexError st.
Proof.
  intros H0 H1 H2 Hx. destruct (Htab _ _ Hx) as (Hback & _ & Hsep).
  destruct (split_token_of_event (mkEvent "Pitch" (VInt (note_pitch n)) t1 d1))
    as (Hsp0 & _ & Hv0); [reflexivity|apply pretty_no_sep|].
  destruct (split_token_of_event
              (mkEvent "Velocity" (VInt (note_velocity n)) t2 d2))
    as (_ & Hty1 & Hv1); [reflexivity|apply pretty_no_sep|].
  destruct (split_token_of_event (mkEvent "Duration" (VStr x) t3 d3))
    as (_ & Hty2 & Hv2); [reflexivity|exact Hsep|].
  unfold decode_token. rewrite (bind_ok _ _ _ Hsp0). cbn [type_ value str].
  change (String.eqb "Pitch" "TimeShift") with false.
  change (String.eqb "Pitch" "Pitch") with true. cbn [andb].
  f_equal. unfold pitch_body, Py.index. rewrite H0, H1, H2.
  cbn [Py.of_option].
  rewrite (bind_ok _ _ _ eq_refl), Hty1. cbn [type_].
  change (String.eqb "Velocity" "Velocity") with true. cbn iota.
  rewrite (bind_ok _ _ _ eq_refl), Hty2. cbn [type_].
  change (String.eqb "Duration" "Duration") with true. cbn iota.
  rewrite (bind_ok _ _ _ eq_refl), (bind_ok _ _ _ Hv0). cbn [value str].
  rewrite (bind_ok _ _ _ (int_pretty _)), (bind_ok _ _ _ Hv1).
  cbn [value str].
  rewrite (bind_ok _ _ _ (int_pretty _)), (bind_ok _ _ _ Hv2).
  cbn [value str]. now rewrite (bind_ok _ _ _ Hback).
Qed.

Lemma note_events_shape p prev n :
  note_events (set_one_token_stream cfg false) p prev n
  = (x ← shift_value cfg (note_time n - prev);
     d ← ticks_to_token cfg (time_division cfg) (note_duration n);
     Ok (mkEvent "TimeShift" (VStr x) (note_time n) (note_time n - prev)
           :: (if use_programs cfg
               then [mkEvent "Program" (VInt p) (note_time n) (note_end n)]
               else [])
           ++ [mkEvent "Pitch" (VInt (note_pitch n)) (note_time n) (note_end n);
               mkEvent "Velocity" (VInt (note_velocity n)) (note_time n)
                 (note_velocity n);
               mkEvent "Duration" (VStr d) (note_time n) (note_duration n)])).
Proof.
  unfold note_events, shift_value.
  cbn [one_token_stream use_programs time_division set_one_token_stream negb].
  change (ticks_to_token (set_one_token_stream cfg false))
    with (ticks_to_token cfg).
  destruct (if negb (note_time n - prev =? 0)
            then ticks_to_token cfg (time_division cfg) (note_time n - prev)
            else Ok "0.0.1") as [sh|e]; [|reflexivity].
  now rewrite !(bind_ok _ _ _ eq_refl).
Qed.

Lemma note_eta (n : Note) :
  mkNote (note_time n) (note_duration n) (note_pitch n) (note_velocity n) = n.
Proof. now destruct n. Qed.

(** Decoding the tokens of one note: the cursor goes to the start of the
    note, the program is set when programs are used, and the note is
    appended. *)
Lemma decode_group pre post st p n x d :
  shift_value cfg (note_time n - current_tick st) = Ok x →
  ticks_to_token cfg (time_division cfg) (note_duration n) = Ok d →
  ∀ new,
    new = mkEvent "TimeShift" (VStr x) (note_time n)
            (note_time n - current_tick st)
          :: (if use_programs cfg
              then [mkEvent "Program" (VInt p) (note_time n) (note_end n)]
              else [])
          ++ [mkEvent "Pitch" (VInt (note_pitch n)) (note_time n) (note_end n);
              mkEvent "Velocity" (VInt (note_velocity n)) (note_time n)
                (note_velocity n);
              mkEvent "Duration" (VStr d) (note_time n) (note_duration n)] →
    ∀ st_mid,
      st_mid = (if use_programs cfg
                then set_program (set_tick st (note_time n)) p
                else set_tick st (note_time n)) →
      decode_tokens cfg (pre ++ map token_of_event new ++ post)
        (map token_of_event new ++ post) (length pre) st
      = (st1 ← Py.try_except_pass (add_note cfg st_mid n) IndexError st_mid;
         decode_tokens cfg (pre ++ map token_of_event new ++ post) post
           (length pre + length new) st1).
Proof.
  intros Hx Hd new -> st_mid ->.
  destruct (Htab _ _ Hd) as (_ & _ & Hsep).
  assert (Htick : set_tick st (current_tick st + (note_time n - current_tick st))
                  = set_tick st (note_time n)) by (f_equal; lia).
  destruct (use_programs cfg); cbn [app map length].
  - rewrite decode_tokens_cons,
      (decode_time_shift _ _ _ (note_time n - current_tick st) x) by exact Hx.
    rewrite (bind_ok _ _ _ eq_refl), Htick.
    rewrite decode_tokens_cons, decode_program, (bind_ok _ _ _ eq_refl).
    rewrite decode_tokens_cons.
    rewrite (decode_pitch _ _ _ n d _ _ (note_time n) (note_velocity n)
               (note_time n) (note_duration n)); [| | | |exact Hd].
    + cbn [current_tick set_program set_tick]. rewrite note_eta.
      destruct (Py.try_except_pass _ _ _) as [st1|e]; [|reflexivity].
      rewrite (bind_ok _ _ _ eq_refl).
      rewrite decode_tokens_cons, decode_velocity, (bind_ok _ _ _ eq_refl).
      rewrite decode_tokens_cons, decode_duration by exact Hsep.
      rewrite !(bind_ok _ _ _ eq_refl). f_equal. lia.
    + rewrite lookup_app_r by lia.
      replace (S (S (length pre)) - length pre)%nat with 2%nat by lia.
      reflexivity.
    + rewrite lookup_app_r by lia.
      replace (S (S (length pre)) + 1 - length pre)%nat with 3%nat by lia.
      reflexivity.
    + rewrite lookup_app_r by lia.
      replace (S (S (length pre)) + 2 - length pre)%nat with 4%nat by lia.
      reflexivity.
  - rewrite decode_tokens_cons,
      (decode_time_shift _ _ _ (note_time n - current_tick st) x) by exact Hx.
    rewrite (bind_ok _ _ _ eq_refl), Htick.
    rewrite decode_tokens_cons.
    rewrite (decode_pitch _ _ _ n d _ _ (note_time n) (note_velocity n)
               (note_time n) (note_duration n)); [| | | |exact Hd].
    + cbn [current_tick set_tick]. rewrite note_eta.
      destruct (Py.try_except_pass _ _ _) as [st1|e]; [|reflexivity].
      rewrite (bind_ok _ _ _ eq_refl).
      rewrite decode_tokens_cons, decode_velocity, (bind_ok _ _ _ eq_refl).
      rewrite decode_tokens_cons, decode_duration by exact Hsep.
      rewrite !(bind_ok _ _ _ eq_refl). f_equal. lia.
    + rewrite lookup_app_r by lia.
      replace (S (length pre) - length pre)%nat with 1%nat by lia.
      reflexivity.
    + rewrite lookup_app_r by lia.
      replace (S (length pre) + 1 - length pre)%nat with 2%nat by lia.
      reflexivity.
    + rewrite lookup_app_r by lia.
      replace (S (length pre) + 2 - length pre)%nat with 3%nat by lia.
      reflexivity.
Qed.

Lemma track_eta (tr : Track) :
  mkTrack (program tr) (is_drum tr) (name tr) (notes tr ++ []) (pedals tr)
    (pitch_bends tr) = tr.
Proof. destruct tr. cbn. now rewrite app_nil_r. Qed.

(** With separate streams, decoding the tokens of the events of a list
    of notes appends these notes to the current instrument. *)
Lemma decode_separate p track_notes :
  one_token_stream cfg = false →
  ∀ prev evs pre st tr,
    create_loop (set_one_token_stream cfg false) p track_notes prev [] = Ok evs →
    current_tick st = prev →
    current_instrument st = Some tr →
    ∃ st',
      decode_tokens cfg (pre ++ map token_of_event evs)
        (map token_of_event evs) (length pre) st = Ok st'
      ∧ current_instrument st'
        = Some (mkTrack (program tr) (is_drum tr) (name tr)
                  (notes tr ++ track_notes) (pedals tr) (pitch_bends tr))
      ∧ instruments st' = instruments st
      ∧ midi_tracks st' = midi_tracks st.
Proof.
  intros Hos. induction track_notes as [|n rest IH];
    intros prev evs pre st tr Hevs Htick Htr.
  - injection Hevs as <-. exists st. cbn [map decode_tokens].
    now rewrite track_eta.
  - rewrite create_loop_cons, note_events_shape in Hevs.
    apply bind_ok_inv in Hevs as (new & Hnew & Hevs).
    apply bind_ok_inv in Hnew as (x & Hx & Hnew).
    apply bind_ok_inv in Hnew as (d & Hd & Hnew). injection Hnew as Hnew.
    apply bind_ok_inv in Hevs as (r & Hr & [= <-]).
    subst prev. rewrite map_app.
    rewrite (decode_group pre (map token_of_event r) st p n x d Hx Hd
               new (eq_sym Hnew) _ eq_refl).
    set (st_mid := if use_programs cfg
                   then set_program (set_tick st (note_time n)) p
                   else set_tick st (note_time n)).
    assert (Hmid : current_instrument st_mid = Some tr
                   ∧ current_tick st_mid = note_time n
                   ∧ instruments st_mid = instruments st
                   ∧ midi_tracks st_mid = midi_tracks st).
    { subst st_mid. now destruct (use_programs cfg). }
    destruct Hmid as (Hci & Hct & Hin & Hmt).
    unfold add_note. rewrite Hos, Hci. cbn [Py.of_option].
    rewrite (bind_ok _ _ _ eq_refl). cbn [Py.try_except_pass].
    rewrite (bind_ok _ _ _ eq_refl).
    destruct (IH (note_time n) r (pre ++ map token_of_event new)
                (mkState (current_tick st_mid) (current_program st_mid)
                   (instruments st_mid) (Some (track_add_note tr n))
                   (midi_tracks st_mid))
                (track_add_note tr n) Hr Hct eq_refl)
      as (st' & Hdec & Hci' & Hin' & Hmt').
    rewrite length_app, length_map, <- app_assoc in Hdec.
    exists st'. split_and!.
    + exact Hdec.
    + rewrite Hci'. cbn [track_add_note program is_drum name notes pedals
                         pitch_bends]. now rewrite <- app_assoc.
    + now rewrite Hin'.
    + now rewrite Hmt'.
Qed.

(** X11.  With separate streams and duration tables that are inverse of
    each other, decoding the tokens of the events that
    [_create_track_events] builds for a track gives a track with exactly
    the notes of that track, in their order, under the program given for
    the sequence. *)
Theorem separate_stream_round_trip track evs p d tr0 :
  one_token_stream cfg = false →
  _create_track_events cfg track = Ok evs →
  new_seq_track (MIDI_INSTRUMENTS cfg) p d = Ok tr0 →
  _tokens_to_midi cfg [map token_of_event evs] (Some [(p, d)])
  = Ok [mkTrack p d (name tr0) (notes track) [] []].
Proof.
  intros Hos Hevs Htr0. unfold _create_track_events in Hevs.
  rewrite <- (set_one_token_stream_same cfg Hos) in Hevs at 1.
  assert (Htr : tr0 = mkTrack p d (name tr0) [] [] []).
  { unfold new_seq_track in Htr0.
    apply bind_ok_inv in Htr0 as (nm & _ & Htr0).
    now apply Track_new_inv in Htr0 as [-> _]. }
  destruct (decode_separate _ (notes track) Hos 0 evs []
              (mkState 0 p [] (Some tr0) []) tr0 Hevs eq_refl eq_refl)
    as (st' & Hdec & Hci & Hin & Hmt).
  cbn [app length] in Hdec.
  unfold _tokens_to_midi. cbn [decode_seqs]. unfold decode_seq.
  rewrite Hos. cbn [negb Py.index lookup list_lookup Py.of_option].
  rewrite (bind_ok _ _ _ eq_refl), (bind_ok _ _ _ Htr0).
  rewrite (bind_ok _ _ _ eq_refl). cbn [instruments midi_tracks].
  rewrite (bind_ok _ _ _ Hdec), Hci. cbn [Py.of_option].
  rewrite !(bind_ok _ _ _ eq_refl). cbn [midi_tracks]. rewrite Hmt.
  cbn [midi_tracks app]. do 2 f_equal. rewrite Htr at 1 2 4 5 6. reflexivity.
Qed.

Lemma add_note_known p st tr n :
  one_token_stream cfg = true →
  current_program st = p →
  instruments st = [(p, tr)] →
  add_note cfg st n
  = Ok (mkState (current_tick st) p [(p, track_add_note tr n)]
          (current_instrument st) (midi_tracks st)).
Proof.
  intros Hos Hp Hin. unfold add_note, check_inst, ODict.mem.
  rewrite Hos, Hin, Hp. cbn [ODict.get ODict.set]. rewrite Z.eqb_refl.
  rewrite (bind_ok _ _ _ eq_refl). cbn [ODict.get Py.of_option].
  rewrite Z.eqb_refl. cbn [Py.of_option]. rewrite (bind_ok _ _ _ eq_refl).
  cbn [ODict.set]. now rewrite Z.eqb_refl.
Qed.

Lemma add_note_first p st tr0 n :
  one_token_stream cfg = true →
  current_program st = p →
  instruments st = [] →
  new_inst_track (MIDI_INSTRUMENTS cfg) p = Ok tr0 →
  add_note cfg st n
  = Ok (mkState (current_tick st) p [(p, track_add_note tr0 n)]
          (current_instrument st) (midi_tracks st)).
Proof.
  intros Hos Hp Hin Htr0. unfold add_note, check_inst, ODict.mem.
  rewrite Hos, Hin, Hp. cbn [ODict.get]. rewrite (bind_ok _ _ _ Htr0).
  rewrite (bind_ok _ _ _ eq_refl). cbn [ODict.set ODict.get].
  rewrite Z.eqb_refl. cbn [Py.of_option]. rewrite (bind_ok _ _ _ eq_refl).
  cbn [ODict.set]. rewrite ?Z.eqb_refl. reflexivity.
Qed.

(** In one stream, decoding the tokens of the events of a list of notes
    appends these notes to the track of their program. *)
Lemma decode_one_stream p track_notes :
  one_token_stream cfg = true →
  use_programs cfg = true →
  ∀ prev evs pre st tr,
    create_loop (set_one_token_stream cfg false) p track_notes prev [] = Ok evs →
    current_tick st = prev →
    instruments st = [(p, tr)] →
    ∃ st',
      decode_tokens cfg (pre ++ map token_of_event evs)
        (map token_of_event evs) (length pre) st = Ok st'
      ∧ instruments st'
        = [(p, mkTrack (program tr) (is_drum tr) (name tr)
                 (notes tr ++ track_notes) (pedals tr) (pitch_bends tr))].
Proof.
  intros Hos Hup. induction track_notes as [|n rest IH];
    intros prev evs pre st tr Hevs Htick Hin.
  - injection Hevs as <-. exists st. cbn [map decode_tokens].
    now rewrite track_eta.
  - rewrite create_loop_cons, note_events_shape in Hevs.
    apply bind_ok_inv in Hevs as (new & Hnew & Hevs).
    apply bind_ok_inv in Hnew as (x & Hx & Hnew).
    apply bind_ok_inv in Hnew as (d & Hd & Hnew). injection Hnew as Hnew.
    apply bind_ok_inv in Hevs as (r & Hr & [= <-]).
    subst prev. rewrite map_app.
    rewrite (decode_group pre (map token_of_event r) st p n x d Hx Hd
               new (eq_sym Hnew) _ eq_refl).
    rewrite Hup.
    rewrite (add_note_known p (set_program (set_tick st (note_time n)) p)
               tr n Hos eq_refl Hin).
    cbn [Py.try_except_pass]. rewrite (bind_ok _ _ _ eq_refl).
    destruct (IH (note_time n) r (pre ++ map token_of_event new)
                (mkState (current_tick (set_program (set_tick st (note_time n)) p))
                   p [(p, track_add_note tr n)]
                   (current_instrument
                      (set_program (set_tick st (note_time n)) p))
                   (midi_tracks (set_program (set_tick st (note_time n)) p)))
                (track_add_note tr n) Hr eq_refl eq_refl)
      as (st' & Hdec & Hin').
    rewrite length_app, length_map, <- app_assoc in Hdec.
    exists st'. split; [exact Hdec|].
    rewrite Hin'. cbn [track_add_note program is_drum name notes pedals
                       pitch_bends]. now rewrite <- app_assoc.
Qed.

(** X12.  In one stream with programs and duration tables that are
    inverse of each other, decoding the tokens of the events of a track
    (its note events with the time events added) gives one track with
    exactly the notes of that track, in their order, and no track at all
    for a track without notes.  The track decoded is the one that
    [check_inst] creates for the program: program 0 and [is_drum] for a
    drum track. *)
Theorem one_stream_round_trip track evs0 evs tr0 :
  one_token_stream cfg = true →
  use_programs cfg = true →
  _create_track_events cfg track = Ok evs0 →
  _add_time_events cfg evs0 (time_division cfg) = Ok evs →
  new_inst_track (MIDI_INSTRUMENTS cfg)
    (if negb (is_drum track) then program track else -1) = Ok tr0 →
  _tokens_to_midi cfg [map token_of_event evs] None
  = Ok (match notes track with
        | [] => []
        | _ => [mkTrack (program tr0) (is_drum tr0) (name tr0) (notes track)
                  [] []]
        end).
Proof.
  intros Hos Hup Hevs0 Hevs Htr0.
  set (p := if negb (is_drum track) then program track else -1) in *.
  pose proof (one_stream_loops_agree cfg p (notes track) Hos Hup 0 0)
    as Hagree.
  unfold _create_track_events in Hevs0. fold p in Hevs0.
  unfold _add_time_events in Hevs. rewrite Hos in Hevs.
  rewrite (bind_ok _ _ _ Hevs0), Hevs in Hagree. symmetry in Hagree.
  assert (Htr : tr0 = mkTrack (program tr0) (is_drum tr0) (name tr0) [] [] []).
  { unfold new_inst_track in Htr0.
    apply bind_ok_inv in Htr0 as (nm & _ & Htr0).
    now apply Track_new_inv in Htr0 as [-> _]. }
  unfold _tokens_to_midi. cbn [decode_seqs]. unfold decode_seq.
  rewrite Hos. cbn [negb]. rewrite (bind_ok _ _ _ eq_refl).
  destruct (notes track) as [|n rest].
  - injection Hagree as <-. reflexivity.
  - rewrite create_loop_cons, note_events_shape in Hagree.
    apply bind_ok_inv in Hagree as (new & Hnew & Hagree).
    apply bind_ok_inv in Hnew as (x & Hx & Hnew).
    apply bind_ok_inv in Hnew as (d & Hd & Hnew). injection Hnew as Hnew.
    apply bind_ok_inv in Hagree as (r & Hr & [= <-]).
    rewrite map_app.
    pose proof (decode_group [] (map token_of_event r)
                  (mkState 0 0 [] None []) p n x d Hx Hd new (eq_sym Hnew)
                  _ eq_refl) as Hgroup.
    cbn [app length] in Hgroup. rewrite Hgroup. rewrite Hup.
    rewrite (add_note_first p
               (set_program (set_tick (mkState 0 0 [] None []) (note_time n)) p)
               tr0 n Hos eq_refl eq_refl Htr0).
    cbn [Py.try_except_pass]. rewrite (bind_ok _ _ _ eq_refl).
    destruct (decode_one_stream p rest Hos Hup (note_time n) r
                (map token_of_event new)
                (mkState
                   (current_tick
                      (set_program
                         (set_tick (mkState 0 0 [] None []) (note_time n)) p))
                   p [(p, track_add_note tr0 n)]
                   (current_instrument
                      (set_program
                         (set_tick (mkState 0 0 [] None []) (note_time n)) p))
                   (midi_tracks
                      (set_program
                         (set_tick (mkState 0 0 [] None []) (note_time n)) p)))
                (track_add_note tr0 n) Hr eq_refl eq_refl)
      as (st' & Hdec & Hin').
    rewrite length_map in Hdec. replace (0 + length new)%nat with (length new)
      by lia.
    rewrite Hdec. rewrite !(bind_ok _ _ _ eq_refl). rewrite Hin'.
    cbn [ODict.values map snd track_add_note program is_drum name notes
         pedals pitch_bends].
    do 2 f_equal. rewrite Htr at 4 5 6. reflexivity.
Qed.

End StructuredRoundTrip.

Lemma structured_tables_inverse b :
  StructuredGraph.tables_inverse (Examples.structured_cfg b).
Proof.
  intros ticks val H. unfold Structured.ticks_to_token in H.
  cbn [Structured.time_division Structured._tpb_ticks_to_tokens
       Examples.structured_cfg] in H.
  rewrite lookup_singleton_eq in H. cbn [Py.of_option] in H.
  rewrite (bind_ok _ _ _ eq_refl) in H.
  destruct (list_to_map (M := gmap Z string)
              [(240, "0.4.8"); (480, "1.0.8"); (1920, "4.0.8")] !! ticks)
    as [v|] eqn:Hl; [|discriminate].
  injection H as ->.
  apply elem_of_list_to_map_2 in Hl.
  repeat (apply elem_of_cons in Hl as [[= -> ->]|Hl];
          [split_and!; [reflexivity|discriminate|reflexivity]|]).
  inversion Hl.
Qed.

(** Witness of X9: two notes a beat apart. *)
Lemma track_events_follow_pattern_witness :
  map type_ Examples.separate_events
  = concat (map (λ _, StructuredGraph.note_types (Examples.structured_cfg false))
              (notes (Examples.gap_track 480)))
  ∧ StructuredGraph.follows_graph
      (StructuredGraph._create_token_types_graph (Examples.structured_cfg false))
      (map type_ Examples.separate_events) = true.
Proof.
  apply (track_events_follow_pattern (Examples.structured_cfg false)
           (Examples.gap_track 480) Examples.separate_events);
    reflexivity.
Defined.

(** Witness of X10: the same track with programs. *)
Lemma one_stream_events_agree_witness :
  (evs0 ← Structured._create_track_events (Examples.structured_cfg true)
            (Examples.gap_track 480);
   Structured._add_time_events (Examples.structured_cfg true) evs0
     (Structured.time_division (Examples.structured_cfg true)))
  = Structured._create_track_events
      (StructuredGraph.set_one_token_stream (Examples.structured_cfg true) false)
      (Examples.gap_track 480).
Proof.
  apply (one_stream_events_agree (Examples.structured_cfg true)
           (Examples.gap_track 480)); reflexivity.
Defined.

(** Witness of X11: the track decoded under program 0. *)
Lemma separate_stream_round_trip_witness :
  Structured._tokens_to_midi (Examples.structured_cfg false)
    [map token_of_event Examples.separate_events] (Some [(0, false)])
  = Ok [mkTrack 0 false "Instrument" (notes (Examples.gap_track 480)) [] []].
Proof.
  apply (separate_stream_round_trip (Examples.structured_cfg false)
           (structured_tables_inverse false) (Examples.gap_track 480)
           Examples.separate_events 0 false
           (mkTrack 0 false "Instrument" [] [] []));
    reflexivity.
Defined.

(** Witness of X12: the same track in one stream. *)
Lemma one_stream_round_trip_witness :
  Structured._tokens_to_midi (Examples.structured_cfg true)
    [map token_of_event Examples.one_stream_events] None
  = Ok [mkTrack 0 false "Instrument" (notes (Examples.gap_track 480)) [] []].
Proof.
  apply (one_stream_round_trip (Examples.structured_cfg true)
           (structured_tables_inverse true) (Examples.gap_track 480)
           Examples.one_stream_note_events Examples.one_stream_events
           (mkTrack 0 false "Instrument" [] [] []));
    reflexivity.
Defined.

(** ** The time events of the FIFO encoder *)

Section MIDILikeTimeEvents.

Import MIDILike MIDILikeSpec.

Variable cfg : Config.

(** One event through the loop: it comes out after the time events added
    for it, and the loop goes on from its tick. *)
Lemma add_time_step_any ev rest t pne acc :
  ∃ G pne',
    add_time_loop cfg (ev :: rest) t pne acc
    = add_time_loop cfg rest (time ev) pne' (acc ++ G ++ [ev])
    ∧ Forall (time_type cfg) G
    ∧ (time ev = t → G = []).
Proof.
  cbn [add_time_loop].
  destruct (Z.eqb_spec (time ev) t) as [Heq|Hne]; cbn [negb].
  - exists []. eexists. rewrite Heq at 2. split; [reflexivity|]. now split.
  - destruct (use_rests cfg && (time ev - pne >=? _min_rest cfg)) eqn:Hrest.
    + apply andb_prop in Hrest as [Hrest _].
      destruct (emit_durations_spec "Rest" (λ pt, time ev - pt)
                  (_ticks_to_duration_tokens cfg (time ev - pne) true)
                  pne acc) as (R & pt' & HR & HFR & _).
      rewrite HR.
      destruct (Z.eqb_spec (time ev) pt') as [Heq|Hne']; cbn [negb].
      * exists R. eexists. rewrite <- app_assoc. split; [reflexivity|].
        split; [|intros; contradiction].
        eapply Forall_impl; [exact HFR|]. intros e He. right. now split.
      * destruct (emit_durations_spec "TimeShift" (λ _, time ev - pt')
                    (_ticks_to_duration_tokens cfg (time ev - pt') false)
                    pt' (acc ++ R)) as (E & pt'' & HE & HFE & _).
        rewrite HE. cbn [fst]. exists (R ++ E). eexists.
        rewrite <- !app_assoc. split; [reflexivity|].
        split; [|intros; contradiction].
        apply Forall_app. split.
        -- eapply Forall_impl; [exact HFR|]. intros e He. right. now split.
        -- eapply Forall_impl; [exact HFE|]. intros e He. now left.
    + destruct (emit_durations_spec "TimeShift" (λ _, time ev - t)
                  (_ticks_to_duration_tokens cfg (time ev - t) false)
                  t acc) as (E & pt' & HE & HFE & _).
      rewrite HE. cbn [fst].
      destruct (Z.eqb_spec (time ev) t) as [Heq|_]; [contradiction|].
      cbn [negb]. exists E. eexists.
      rewrite <- app_assoc. split; [reflexivity|].
      split; [|intros; contradiction].
      eapply Forall_impl; [exact HFE|]. intros e He. now left.
Qed.

Lemma add_time_loop_inserted evs :
  ∀ t pne acc,
    ∃ out, add_time_loop cfg evs t pne acc = acc ++ out
           ∧ inserted cfg t evs out.
Proof.
  induction evs as [|ev rest IH]; intros t pne acc.
  - exists []. rewrite app_nil_r. split; [reflexivity|constructor].
  - destruct (add_time_step_any ev rest t pne acc)
      as (G & pne' & -> & HG & Hsame).
    destruct (IH (time ev) pne' (acc ++ G ++ [ev])) as (out & -> & Hout).
    exists (G ++ ev :: out). split.
    + rewrite <- !app_assoc. reflexivity.
    + now constructor.
Qed.

(** X13.  [_add_time_events] returns the events it is given, in their
    order, with time events added in front of some of them: every added
    event is a [TimeShift], or a [Rest] when rests are used, and none is
    added in front of an event at the tick of the event before it (tick 0
    for the first event). *)
Theorem add_time_events_inserts_time_events evs :
  inserted cfg 0 evs (_add_time_events cfg evs).
Proof.
  unfold _add_time_events.
  destruct (add_time_loop_inserted evs 0 0 []) as (out & -> & Hout).
  exact Hout.
Qed.

End MIDILikeTimeEvents.

(** ** The graph of token types of the FIFO scheme *)

Section MIDILikeGraph.

Import MIDILike MIDILikeSpec.

Lemma graph_closed_sound (g : gmap string (list string)) :
  graph_closed g = true →
  ∀ k succ t, g !! k = Some succ → t ∈ succ → is_Some (g !! t).
Proof.
  unfold graph_closed. rewrite forallb_forall. intros H k succ t Hk Ht.
  apply elem_of_map_to_list, list_elem_of_In in Hk.
  specialize (H _ Hk). cbn in H. rewrite forallb_forall in H.
  apply list_elem_of_In in Ht. apply H in Ht.
  now apply bool_decide_eq_true_1 in Ht.
Qed.

Lemma only_after_sound (g : gmap string (list string)) ty after :
  only_after g ty after = true →
  ∀ k succ, g !! k = Some succ → ty ∈ succ → k ∈ after.
Proof.
  unfold only_after. rewrite forallb_forall. intros H k succ Hk Ht.
  apply elem_of_map_to_list, list_elem_of_In in Hk.
  specialize (H _ Hk). cbn in H.
  assert (Hex : existsb (String.eqb ty) succ = true).
  { apply existsb_exists. exists ty. split;
      [now apply list_elem_of_In|apply String.eqb_refl]. }
  rewrite Hex in H. cbn in H. apply existsb_exists in H as (a & Ha & Heq).
  apply String.eqb_eq in Heq as ->. now apply list_elem_of_In.
Qed.

Lemma all_flags_complete (f : GraphFlags) : In f all_flags.
Proof.
  assert (Hb : ∀ b : bool, In b [true; false]) by (intros []; cbn; auto).
  destruct f as [a b c d e f g h i j]. unfold all_flags.
  repeat (apply in_flat_map; eexists; split; [apply Hb|]).
  left. reflexivity.
Qed.

Lemma graph_check_all : forallb graph_check all_flags = true.
Proof. vm_compute. reflexivity. Qed.

Lemma onset_check_all : forallb onset_check all_flags = true.
Proof. vm_compute. reflexivity. Qed.

(** X14.  [_create_token_types_graph] returns a graph for every
    configuration in which program changes come with programs, and
    raises [KeyError] in every other one; and in the graph returned,
    every type listed as a successor has an entry of its own, so that
    following the graph never leads to a missing key. *)
Theorem token_types_graph_closed (f : GraphFlags) :
  (implb (g_program_changes f) (g_use_programs f) = true →
   ∃ g, _create_token_types_graph f = Ok g
        ∧ ∀ k succ t, g !! k = Some succ → t ∈ succ → is_Some (g !! t))
  ∧ (implb (g_program_changes f) (g_use_programs f) = false →
     _create_token_types_graph f = Raise KeyError).
Proof.
  pose proof graph_check_all as Hall. rewrite forallb_forall in Hall.
  specialize (Hall f (all_flags_complete f)). unfold graph_check in Hall.
  destruct (_create_token_types_graph f) as [g|e];
    apply andb_prop in Hall as [Hv Hc]; split; intros Hv'.
  - exists g. split; [reflexivity|]. now apply graph_closed_sound.
  - rewrite Hv' in Hv. discriminate.
  - rewrite Hv' in Hv. discriminate.
  - apply bool_decide_eq_true_1 in Hc. now subst e.
Qed.

(** X15.  With programs and without program changes, the graph lists
    [NoteOn] as a successor of [Program] only: a [NoteOn] token is
    permitted right after the [Program] token of its note and nowhere
    else. *)
Theorem note_on_only_after_program (f : GraphFlags) g :
  g_use_programs f = true →
  g_program_changes f = false →
  _create_token_types_graph f = Ok g →
  ∀ k succ, g !! k = Some succ → "NoteOn" ∈ succ → k = "Program".
Proof.
  intros Hup Hpc Hg k succ Hk Hin.
  pose proof onset_check_all as Hc. rewrite forallb_forall in Hc.
  specialize (Hc f (all_flags_complete f)). unfold onset_check in Hc.
  rewrite Hg, Hup, Hpc in Hc. cbn [andb negb implb] in Hc.
  pose proof (only_after_sound g "NoteOn" ["Program"] Hc k succ Hk Hin) as H.
  apply list_elem_of_singleton in H. exact H.
Qed.

End MIDILikeGraph.

(** Witness of X14: every option on, with program changes. *)
Lemma token_types_graph_closed_witness :
  (∃ g, MIDILike._create_token_types_graph
          (MIDILike.mkGraphFlags true true true true true true true true false
             true) = Ok g
        ∧ ∀ k succ t, g !! k = Some succ → t ∈ succ → is_Some (g !! t))
  ∧ MIDILike._create_token_types_graph
      (MIDILike.mkGraphFlags false true false false false false false false
         false false) = Raise KeyError.
Proof.
  split.
  - apply (token_types_graph_closed
             (MIDILike.mkGraphFlags true true true true true true true true
                false true)). reflexivity.
  - apply (token_types_graph_closed
             (MIDILike.mkGraphFlags false true false false false false false
                false false false)). reflexivity.
Defined.

(** Witness of X15: programs with pitch intervals and chords. *)
Lemma note_on_only_after_program_witness :
  Examples.graph_of
    (MIDILike.mkGraphFlags true false true true false false false false
       false false) !! "Program"
  = Some ["NoteOn"; "NoteOff"; "PitchIntervalTime"; "PitchIntervalChord";
          "Chord"]
  ∧ ∀ k succ,
      Examples.graph_of
        (MIDILike.mkGraphFlags true false true true false false false false
           false false) !! k = Some succ →
      "NoteOn" ∈ succ → k = "Program".
Proof.
  split; [reflexivity|].
  apply (note_on_only_after_program
           (MIDILike.mkGraphFlags true false true true false false false false
              false false)); reflexivity.
Defined.

(** ** What a step of the FIFO decoder changes *)

Section MIDILikeFrame.

Import MIDILike MIDILikeSpec.

Variable cfg : Config.

Lemma same_tracks_refl st : same_tracks st st.
Proof. now split_and!. Qed.

Lemma same_tracks_trans a b c :
  same_tracks a b → same_tracks b c → same_tracks a c.
Proof.
  intros (H1 & H2 & H3 & H4) (H1' & H2' & H3' & H4').
  split_and!; congruence.
Qed.

Lemma put_queue_same st g p q st' :
  put_queue st g p q = Ok st' →
  same_tracks st st'
  ∧ tempo_changes st' = tempo_changes st
  ∧ time_signature_changes st' = time_signature_changes st.
Proof.
  unfold put_queue. intros H. apply bind_ok_inv in H as (d & _ & [= <-]).
  now split_and!.
Qed.

Lemma resolve_pitch_same st ty v pitch st' :
  resolve_pitch st ty v = Ok (pitch, st') →
  same_tracks st st'
  ∧ tempo_changes st' = tempo_changes st
  ∧ time_signature_changes st' = time_signature_changes st
  ∧ current_tick st' = current_tick st.
Proof.
  unfold resolve_pitch. intros H.
  destruct (String.eqb ty "PitchIntervalTime").
  { apply bind_ok_inv in H as (prev & _ & H).
    apply bind_ok_inv in H as (d & _ & [= <- <-]). now split_and!. }
  destruct (String.eqb ty "PitchIntervalChord").
  { apply bind_ok_inv in H as (prev & _ & H).
    apply bind_ok_inv in H as (d & _ & [= <- <-]). now split_and!. }
  apply bind_ok_inv in H as (p & _ & H).
  destruct (String.eqb ty "NoteOn"); injection H as <- <-; now split_and!.
Qed.

Lemma add_to_track_same st prog add st' :
  add_to_track cfg st prog add = Ok st' →
  current_instrument st' = current_instrument st
  ∧ midi_tracks st' = midi_tracks st
  ∧ tempo_changes st' = tempo_changes st
  ∧ time_signature_changes st' = time_signature_changes st
  ∧ active_notes st' = active_notes st
  ∧ length (store st') = length (store st).
Proof.
  unfold add_to_track. destruct (one_token_stream cfg); intros H.
  - apply bind_ok_inv in H as (trs & _ & H).
    apply bind_ok_inv in H as (tr & _ & [= <-]). now split_and!.
  - apply bind_ok_inv in H as (ref & _ & H).
    apply bind_ok_inv in H as (tr & _ & [= <-]).
    cbn. rewrite length_insert. now split_and!.
Qed.

Lemma add_to_track_congr st0 st prog add :
  same_tracks st0 st →
  ∀ st1, add_to_track cfg st0 prog add = Ok st1 →
         ∃ st2, add_to_track cfg st prog add = Ok st2 ∧ same_tracks st1 st2.
Proof.
  intros (Ht & Hs & Hc & Hm) st1. unfold add_to_track.
  destruct (one_token_stream cfg); intros H.
  - apply bind_ok_inv in H as (trs & Htrs & H).
    apply bind_ok_inv in H as (tr & Htr & [= <-]).
    rewrite <- Ht, (bind_ok _ _ _ Htrs), (bind_ok _ _ _ Htr).
    eexists. split; [reflexivity|]. now split_and!.
  - apply bind_ok_inv in H as (ref & Href & H).
    apply bind_ok_inv in H as (tr & Htr & [= <-]).
    rewrite <- Hc, <- Hs, (bind_ok _ _ _ Href), (bind_ok _ _ _ Htr).
    eexists. split; [reflexivity|]. split_and!; cbn; congruence.
Qed.

(** The step returns a state with the tracks of [st]. *)
Ltac frame_same :=
  split; [intros _; split; reflexivity|left; split_and!; reflexivity].

(** One token changes the tempos and the time signatures in the first
    sequence only, and changes the tracks by at most one edit. *)
Lemma decode_token_effect md td seq si ti token st st' :
  decode_token cfg md td seq si ti token st = Ok st' →
  (si ≠ 0%nat →
   tempo_changes st' = tempo_changes st
   ∧ time_signature_changes st' = time_signature_changes st)
  ∧ (same_tracks st st'
     ∨ ∃ st2 prog add,
         track_edit md add
         ∧ add_to_track cfg st prog add = Ok st2
         ∧ same_tracks st2 st').
Proof.
  intros H. unfold decode_token in H.
  apply bind_ok_inv in H as ([ty v] & _ & H).
  destruct (in_types ty ["TimeShift"; "Rest"]).
  { apply bind_ok_inv in H as (ticks & _ & [= <-]). frame_same. }
  destruct (in_types ty
              ["NoteOn"; "NoteOff"; "PitchIntervalTime"; "PitchIntervalChord"]).
  { apply bind_ok_inv in H as ([pitch st1] & Hres & H).
    apply resolve_pitch_same in Hres as (Hsame1 & Hte1 & Hts1 & Htick1).
    destruct (negb (String.eqb ty "NoteOff")).
    - unfold note_on in H. destruct (ti + 1 <? length seq)%nat.
      + apply bind_ok_inv in H as (next & _ & H).
        apply bind_ok_inv in H as (vel_s & _ & H).
        apply bind_ok_inv in H as (vel & _ & H).
        apply bind_ok_inv in H as (q & _ & H).
        apply put_queue_same in H as (Hsame2 & Hte2 & Hts2).
        split; [intros _; split; congruence|].
        left. now apply (same_tracks_trans _ st1).
      + injection H as <-. split; [intros _; now split|now left].
    - unfold note_off in H.
      apply bind_ok_inv in H as (q & _ & H).
      destruct q as [|[onset vel] q'].
      + injection H as <-. split; [intros _; now split|now left].
      + apply bind_ok_inv in H as (st2 & Hput & H). cbv zeta in H.
        apply bind_ok_inv in H as (n & Hn & H).
        apply new_note_inv in Hn as [-> _].
        apply put_queue_same in Hput as (Hsame2 & Hte2 & Hts2).
        pose proof (add_to_track_same _ _ _ _ H) as (_ & _ & Hte3 & Hts3 & _).
        split; [intros _; split; congruence|]. right.
        destruct (add_to_track_congr st2 st _ _
                    ltac:(apply (same_tracks_trans _ st1);
                          [destruct Hsame2 as (?&?&?&?); split_and!; congruence
                          |destruct Hsame1 as (?&?&?&?); split_and!; congruence])
                    st' H) as (st3 & Hadd & Hsame3).
        exists st3, (current_program st1). eexists.
        refine (conj _ (conj Hadd _)).
        * apply edit_note. intros m ->. cbn [note_duration].
          destruct (Z.gtb_spec (current_tick st1 - onset) m); lia.
        * destruct Hsame3 as (?&?&?&?). split_and!; congruence. }
  destruct (String.eqb ty "Program").
  { apply bind_ok_inv in H as (p & _ & [= <-]). frame_same. }
  destruct (String.eqb ty "Tempo" && (si =? 0)%nat) eqn:Htempo.
  { apply bind_ok_inv in H as (x & _ & [= <-]).
    apply andb_prop in Htempo as [_ Hsi%Nat.eqb_eq].
    split; [intros Hne; contradiction|left; split_and!; reflexivity]. }
  destruct (String.eqb ty "TimeSig" && (si =? 0)%nat) eqn:Hsig.
  { apply bind_ok_inv in H as ([num den] & _ & [= <-]).
    apply andb_prop in Hsig as [_ Hsi%Nat.eqb_eq].
    split; [intros Hne; contradiction|left; split_and!; reflexivity]. }
  destruct (String.eqb ty "Pedal").
  { apply bind_ok_inv in H as (pp & _ & H).
    destruct (sustain_pedal_duration cfg && (ti + 1 <? length seq)%nat).
    - apply bind_ok_inv in H as (next & _ & H).
      destruct (String.eqb (token_type next) "Duration").
      + apply bind_ok_inv in H as (dur_s & _ & H).
        apply bind_ok_inv in H as (duration & _ & H).
        pose proof (add_to_track_same _ _ _ _ H) as (_ & _ & Hte & Hts & _).
        split; [intros _; now split|]. right.
        exists st', pp. eexists. split; [apply edit_pedal|].
        split; [exact H|apply same_tracks_refl].
      + injection H as <-. split; [intros _; now split|now left].
    - destruct (active_pedals st !! pp); injection H as <-; frame_same. }
  destruct (String.eqb ty "PedalOff").
  { apply bind_ok_inv in H as (pp & _ & H).
    destruct (active_pedals st !! pp) as [onset|].
    - apply bind_ok_inv in H as (st1 & Hadd & [= <-]).
      pose proof (add_to_track_same _ _ _ _ Hadd) as (_ & _ & Hte & Hts & _).
      split; [intros _; now split|]. right.
      exists st1, pp. eexists. split; [apply edit_pedal|].
      split; [exact Hadd|now split_and!].
    - injection H as <-. split; [intros _; now split|now left]. }
  destruct (String.eqb ty "PitchBend").
  { apply bind_ok_inv in H as (x & _ & H).
    pose proof (add_to_track_same _ _ _ _ H) as (_ & _ & Hte & Hts & _).
    split; [intros _; now split|]. right.
    exists st', (current_program st). eexists. split; [apply edit_bend|].
    split; [exact H|apply same_tracks_refl]. }
  injection H as <-. split; [intros _; now split|now left].
Qed.

Lemma frame_refl md si st : frame md si st st.
Proof. unfold frame. split_and!; auto. Qed.

Lemma frame_trans md si a b c :
  frame md si a b → frame md si b c → frame md si a c.
Proof.
  intros (B1 & C1 & M1 & L1 & T1) (B2 & C2 & M2 & L2 & T2).
  unfold frame. split_and!; try congruence.
  - intros m Hm Ha. apply (B2 m Hm), (B1 m Hm), Ha.
  - intros Hsi. destruct (T1 Hsi), (T2 Hsi). split; congruence.
Qed.

Lemma odict_set_forall {V} (P : V → Prop) (d : ODict.t V) k v :
  Forall P (ODict.values d) → P v → Forall P (ODict.values (ODict.set d k v)).
Proof.
  unfold ODict.values. induction d as [|[k' v'] d IH]; intros Hd Hv; cbn.
  - now constructor.
  - cbn in Hd. apply Forall_cons in Hd as [Hv' Hd].
    destruct (k' =? k); cbn; constructor; auto.
Qed.

Lemma odict_get_forall {V} (P : V → Prop) (d : ODict.t V) k v :
  Forall P (ODict.values d) → ODict.get d k = Some v → P v.
Proof.
  unfold ODict.values. induction d as [|[k' v'] d IH]; intros Hd Hg;
    [discriminate|].
  cbn in Hd, Hg. apply Forall_cons in Hd as [Hv' Hd].
  destruct (k' =? k); [now injection Hg as <-|auto].
Qed.

Lemma track_edit_bounded m add t :
  track_edit (Some m) add → notes_bounded m t → notes_bounded m (add t).
Proof.
  unfold notes_bounded. intros [n Hn|p|b] Ht; cbn; [|exact Ht|exact Ht].
  apply Forall_app. split; [exact Ht|]. constructor; [now apply Hn|constructor].
Qed.

(** An edit of a track keeps everything that [frame] speaks of. *)
Lemma add_to_track_frame md si st prog add st' :
  track_edit md add →
  add_to_track cfg st prog add = Ok st' →
  frame md si st st'.
Proof.
  intros Hedit H.
  pose proof (add_to_track_same _ _ _ _ H) as (Hc & Hm & Hte & Hts & _ & Hl).
  unfold frame. split_and!; auto.
  intros m -> [Htr Hst]. unfold add_to_track in H.
  destruct (one_token_stream cfg).
  - apply bind_ok_inv in H as (trs & Htrs & H).
    apply bind_ok_inv in H as (tr & Htr0 & [= <-]).
    assert (Hb : Forall (notes_bounded m) (ODict.values trs)).
    { unfold check_inst in Htrs. destruct (ODict.mem (tracks st) prog).
      - now injection Htrs as <-.
      - apply bind_ok_inv in Htrs as (t & Ht & [= <-]).
        apply odict_set_forall; [exact Htr|].
        unfold new_inst_track in Ht.
        apply bind_ok_inv in Ht as (nm & _ & Ht).
        apply Track_new_inv in Ht as [-> _]. constructor. }
    split; [|exact Hst]. cbn [tracks set_tracks].
    apply odict_set_forall; [exact Hb|].
    apply track_edit_bounded; [exact Hedit|].
    destruct (ODict.get trs prog) as [t|] eqn:Hg; [|discriminate].
    injection Htr0 as <-. exact (odict_get_forall _ _ _ _ Hb Hg).
  - apply bind_ok_inv in H as (ref & Href & H).
    apply bind_ok_inv in H as (tr & Htr0 & [= <-]).
    split; [exact Htr|]. cbn [store set_store].
    apply Forall_insert; [exact Hst|].
    apply track_edit_bounded; [exact Hedit|].
    destruct (store st !! ref) as [t|] eqn:Hg; [|discriminate].
    injection Htr0 as <-. exact (Forall_lookup_1 _ _ _ _ Hst Hg).
Qed.

Lemma same_tracks_frame md si st st' :
  same_tracks st st' →
  (si ≠ 0%nat →
   tempo_changes st' = tempo_changes st
   ∧ time_signature_changes st' = time_signature_changes st) →
  frame md si st st'.
Proof.
  intros (Ht & Hs & Hc & Hm) Htempo. unfold frame, state_bounded.
  rewrite <- Ht, <- Hs. split_and!; auto.
Qed.

Lemma decode_token_frame md td seq si ti token st st' :
  decode_token cfg md td seq si ti token st = Ok st' →
  frame md si st st'.
Proof.
  intros H. apply decode_token_effect in H as [Htempo [Hsame|Hedit]].
  - now apply same_tracks_frame.
  - destruct Hedit as (st2 & prog & add & Hedit & Hadd & Hsame).
    pose proof (add_to_track_frame md si _ _ _ _ Hedit Hadd)
      as (B & C & M & L & T).
    destruct Hsame as (Ht & Hs & Hc & Hm).
    unfold frame, state_bounded in *. rewrite <- Ht, <- Hs.
    split_and!; auto; congruence.
Qed.

Lemma decode_tokens_frame md td seq si rest :
  ∀ ti st st',
    decode_tokens cfg md td seq si rest ti st = Ok st' →
    frame md si st st'.
Proof.
  induction rest as [|token rest IH]; intros ti st st' H.
  - injection H as <-. apply frame_refl.
  - cbn [decode_tokens] in H. apply bind_ok_inv in H as (st1 & H1 & H).
    apply (frame_trans _ _ _ st1);
      [now apply decode_token_frame in H1|now apply IH in H].
Qed.

Lemma foldlM_frame {X} md si (body : State → X → result State) (l : list X) :
  (∀ st a st', In a l → body st a = Ok st' → frame md si st st') →
  ∀ st st', Py.foldlM body l st = Ok st' → frame md si st st'.
Proof.
  induction l as [|a l IH]; intros Hbody st st' H.
  - injection H as <-. apply frame_refl.
  - cbn [Py.foldlM] in H.
    destruct (body st a) as [st1|e] eqn:H1; [|discriminate].
    cbn [Py.bind] in H.
    apply (frame_trans _ _ _ st1).
    + apply (Hbody st a st1); [now left|exact H1].
    + apply IH; [|exact H]. intros s b s' Hb. apply Hbody. now right.
Qed.

(** The notes flushed at the end of a sequence last the maximum
    duration, and the flush keeps everything else. *)
Lemma clear_active_notes_frame md si st st' :
  clear_active_notes cfg md st = Ok st' → frame md si st st'.
Proof.
  unfold clear_active_notes. destruct md as [m|];
    [|intros [= <-]; apply frame_refl].
  assert (Hnote : ∀ prog st3 (o : Z * Z * Z) st4,
             flush_note cfg m prog st3 o = Ok st4 →
             frame (Some m) si st3 st4).
  { intros prog st3 [[p onset] vel] st4 Hadd.
    apply flush_note_inv in Hadd as [_ Hadd].
    eapply add_to_track_frame; [|exact Hadd].
    apply edit_note. intros m' [= <-]. cbn [note_duration]. lia. }
  destruct (one_token_stream cfg).
  - apply foldlM_frame. intros st1 [prog q] st2 _.
    apply foldlM_frame. intros st3 o st4 _. apply Hnote.
  - intros H. apply bind_ok_inv in H as (ref & _ & H).
    apply bind_ok_inv in H as (tr & _ & H).
    apply bind_ok_inv in H as (q & _ & H). revert st st' H.
    apply foldlM_frame. intros st3 o st4 _. apply Hnote.
Qed.

(** One sequence: the bound on the notes and, after the first sequence,
    the tempos and time signatures are kept; with separate streams one
    track is added to the score. *)
Lemma decode_seq_keeps md td programs_ si seq st st' :
  decode_seq cfg md td programs_ si seq st = Ok st' →
  (∀ m, md = Some m → state_bounded m st → state_bounded m st')
  ∧ (si ≠ 0%nat →
     tempo_changes st' = tempo_changes st
     ∧ time_signature_changes st' = time_signature_changes st)
  ∧ length (midi_tracks st')
    = (if one_token_stream cfg then length (midi_tracks st)
       else S (length (midi_tracks st))).
Proof.
  unfold decode_seq. destruct (one_token_stream cfg); cbn [negb]; intros H.
  - rewrite (bind_ok _ _ _ eq_refl) in H.
    apply bind_ok_inv in H as (st2 & Hdec & [= <-]).
    apply decode_tokens_frame in Hdec as (B & C & M & L & T).
    cbn in M. split_and!; [exact B|exact T|now rewrite M].
  - apply bind_ok_inv in H as (st1 & H1 & H).
    apply bind_ok_inv in H1 as ([prog is_drum_] & _ & H1).
    apply bind_ok_inv in H1 as (tr & Htr & [= <-]).
    apply bind_ok_inv in H as (st2 & Hdec & H).
    apply bind_ok_inv in H as (ref & _ & H).
    apply bind_ok_inv in H as (st4 & Hclear & H).
    apply bind_ok_inv in H as (tr' & _ & [= <-]).
    apply decode_tokens_frame in Hdec as (B & C & M & L & T).
    apply (clear_active_notes_frame md si) in Hclear as (B' & C' & M' & L' & T').
    cbn in B, M, T, B', M', T' |- *.
    split_and!.
    + intros m Hm [Htr0 Hst0]. apply (B' m Hm), (B m Hm).
      split; [exact Htr0|]. cbn. apply Forall_app. split; [exact Hst0|].
      constructor; [|constructor].
      unfold new_seq_track in Htr.
      apply bind_ok_inv in Htr as (nm & _ & Htr).
      apply Track_new_inv in Htr as [-> _]. constructor.
    + intros Hsi. destruct (T Hsi), (T' Hsi). split; congruence.
    + rewrite M', length_app, M. cbn. lia.
Qed.

Lemma decode_seqs_keeps md td programs_ tokens :
  ∀ si st st',
    decode_seqs cfg md td programs_ tokens si st = Ok st' →
    (∀ m, md = Some m → state_bounded m st → state_bounded m st')
    ∧ (si ≠ 0%nat →
       tempo_changes st' = tempo_changes st
       ∧ time_signature_changes st' = time_signature_changes st)
    ∧ length (midi_tracks st')
      = (if one_token_stream cfg then length (midi_tracks st)
         else (length tokens + length (midi_tracks st))%nat).
Proof.
  induction tokens as [|seq rest IH]; intros si st st' H.
  - injection H as <-. split_and!; auto. now destruct (one_token_stream cfg).
  - cbn [decode_seqs] in H. apply bind_ok_inv in H as (st1 & H1 & H).
    apply decode_seq_keeps in H1 as (B1 & T1 & M1).
    apply IH in H as (B & T & M). split_and!.
    + intros m Hm Hb. apply (B m Hm), (B1 m Hm), Hb.
    + intros Hsi. destruct (T1 Hsi), (T ltac:(lia)). split; congruence.
    + rewrite M. destruct (one_token_stream cfg); [exact M1|].
      rewrite M1. cbn. lia.
Qed.

Lemma mapM_lookup_store (store_ : list Track) (refs : list nat) trs :
  mapM (λ ref, Py.of_option (store_ !! ref) AttributeError) refs = Ok trs →
  length trs = length refs ∧ Forall (λ t, t ∈ store_) trs.
Proof.
  revert trs. induction refs as [|r refs IH]; intros trs H.
  - cbn in H. injection H as <-. split; [reflexivity|constructor].
  - cbn in H. apply bind_ok_inv in H as (t & Ht & H).
    apply bind_ok_inv in H as (ts & Hts & [= <-]).
    destruct (IH ts Hts) as [Hlen Hall]. split; [cbn; congruence|].
    constructor; [|exact Hall].
    destruct (store_ !! r) as [t0|] eqn:Hl; [|discriminate].
    injection Ht as <-. now apply list_elem_of_lookup_2 in Hl.
Qed.

(** What [_tokens_to_midi] is made of, when it returns a score. *)
Lemma tokens_to_midi_inv tokens programs_ tda score :
  _tokens_to_midi cfg tokens programs_ tda = Ok score →
  ∃ md st st' trs,
    max_duration_ticks cfg (default (time_division cfg) tda) = Ok md
    ∧ decode_seqs cfg md (default (time_division cfg) tda) programs_ tokens 0
        (initial_state cfg) = Ok st
    ∧ (if one_token_stream cfg then clear_active_notes cfg md st else Ok st)
      = Ok st'
    ∧ (if one_token_stream cfg then Ok (ODict.values (tracks st'))
       else mapM (λ ref, Py.of_option (store st' !! ref) AttributeError)
              (midi_tracks st')) = Ok trs
    ∧ score = mkScore trs (tempo_changes st') (time_signature_changes st').
Proof.
  unfold _tokens_to_midi. intros H.
  apply bind_ok_inv in H as (mx & _ & H).
  destruct (mx =? 0); [discriminate|].
  destruct (negb _); [discriminate|].
  apply bind_ok_inv in H as (md & Hmd & H).
  apply bind_ok_inv in H as (st & Hst & H).
  apply bind_ok_inv in H as (st' & Hst' & H).
  apply bind_ok_inv in H as (trs & Htrs & [= <-]).
  exists md, st, st', trs. now split_and!.
Qed.

(** X16.  When a maximum duration is configured, no note of the score
    that [_tokens_to_midi] returns is longer than it, whatever the tokens
    are: the notes closed by a [NoteOff] are cut to it and the notes
    flushed at the end of a sequence are given it. *)
Theorem decoded_notes_within_max_duration tokens programs_ tda score m :
  max_duration_ticks cfg (default (time_division cfg) tda) = Ok (Some m) →
  _tokens_to_midi cfg tokens programs_ tda = Ok score →
  Forall (λ t, Forall (λ n, note_duration n <= m) (notes t))
    (score_tracks score).
Proof.
  intros Hm H.
  apply tokens_to_midi_inv in H as (md & st & st' & trs & Hmd & Hst & Hst'
                                    & Htrs & ->).
  rewrite Hm in Hmd. injection Hmd as <-.
  apply decode_seqs_keeps in Hst as (B & _ & _).
  assert (Hb : state_bounded m st).
  { apply (B m eq_refl). split; constructor. }
  assert (Hb' : state_bounded m st').
  { destruct (one_token_stream cfg); [|now injection Hst' as <-].
    apply (clear_active_notes_frame _ 0%nat) in Hst' as (B' & _).
    now apply (B' m eq_refl). }
  cbn [score_tracks]. destruct Hb' as [Htr Hsto].
  destruct (one_token_stream cfg).
  - injection Htrs as <-. exact Htr.
  - apply mapM_lookup_store in Htrs as [_ Hin].
    rewrite Forall_forall in Hsto.
    eapply Forall_impl; [exact Hin|]. intros t Ht. now apply Hsto.
Qed.

(** X17.  The tempos and the time signatures of the score are the ones
    decoded from the first sequence: the sequences after it, and the
    flush of the notes, add none. *)
Theorem tempos_of_first_sequence_only seq0 rest programs_ tda score :
  _tokens_to_midi cfg (seq0 :: rest) programs_ tda = Ok score →
  ∃ md st1,
    max_duration_ticks cfg (default (time_division cfg) tda) = Ok md
    ∧ decode_seq cfg md (default (time_division cfg) tda) programs_ 0 seq0
        (initial_state cfg) = Ok st1
    ∧ score_tempos score = tempo_changes st1
    ∧ score_time_signatures score = time_signature_changes st1.
Proof.
  intros H.
  apply tokens_to_midi_inv in H as (md & st & st' & trs & Hmd & Hst & Hst'
                                    & Htrs & ->).
  cbn [decode_seqs] in Hst. apply bind_ok_inv in Hst as (st1 & H1 & Hst).
  exists md, st1. split; [exact Hmd|]. split; [exact H1|].
  apply decode_seqs_keeps in Hst as (_ & T & _).
  destruct (T ltac:(lia)) as [Hte Hts].
  assert (Hfl : tempo_changes st' = tempo_changes st
                ∧ time_signature_changes st' = time_signature_changes st).
  { destruct (one_token_stream cfg); [|now injection Hst' as <-].
    apply (clear_active_notes_frame _ 1%nat) in Hst' as (_ & _ & _ & _ & T').
    apply T'. lia. }
  destruct Hfl as [Hte' Hts']. cbn [score_tempos score_time_signatures].
  split; congruence.
Qed.

(** X18.  With separate streams, the score returned has exactly one
    track per token sequence, also for a sequence without notes. *)
Theorem one_track_per_sequence tokens programs_ tda score :
  one_token_stream cfg = false →
  _tokens_to_midi cfg tokens programs_ tda = Ok score →
  length (score_tracks score) = length tokens.
Proof.
  intros Hos H.
  apply tokens_to_midi_inv in H as (md & st & st' & trs & Hmd & Hst & Hst'
                                    & Htrs & ->).
  apply decode_seqs_keeps in Hst as (_ & _ & M).
  rewrite Hos in Hst', Htrs, M. injection Hst' as <-.
  apply mapM_lookup_store in Htrs as [Hlen _].
  cbn [score_tracks]. rewrite Hlen, M. cbn. lia.
Qed.

End MIDILikeFrame.

(** Witness of X16: a note of two beats under a maximum of one beat. *)
Lemma decoded_notes_within_max_duration_witness :
  Examples.clamp_score
  = MIDILike.mkScore [mkTrack 0 false "Instrument" [mkNote 0 480 60 100] [] []]
      [] []
  ∧ Forall (λ t, Forall (λ n, note_duration n <= 480) (notes t))
      (MIDILike.score_tracks Examples.clamp_score).
Proof.
  split; [vm_compute; reflexivity|].
  apply (decoded_notes_within_max_duration Examples.clamp_cfg
           [Examples.clamp_seq] None None Examples.clamp_score 480);
    vm_compute; reflexivity.
Defined.

(** Witness of X17: the tempo of the second sequence is not in the
    score. *)
Lemma tempos_of_first_sequence_only_witness :
  map MIDILike.tempo_time (MIDILike.score_tempos Examples.two_seqs_score) = [0]
  ∧ ∃ md st1,
      MIDILike.max_duration_ticks (Examples.midilike_cfg false false None)
        (default
           (MIDILike.time_division (Examples.midilike_cfg false false None))
           None) = Ok md
      ∧ MIDILike.decode_seq (Examples.midilike_cfg false false None) md
          (default
             (MIDILike.time_division (Examples.midilike_cfg false false None))
             None) None 0
          ["Tempo_120.0"; "NoteOn_60"; "Velocity_100"; "TimeShift_1.0.8";
           "NoteOff_60"]
          (MIDILike.initial_state (Examples.midilike_cfg false false None))
        = Ok st1
      ∧ MIDILike.score_tempos Examples.two_seqs_score
        = MIDILike.tempo_changes st1
      ∧ MIDILike.score_time_signatures Examples.two_seqs_score
        = MIDILike.time_signature_changes st1.
Proof.
  split; [vm_compute; reflexivity|].
  apply (tempos_of_first_sequence_only (Examples.midilike_cfg false false None)
           ["Tempo_120.0"; "NoteOn_60"; "Velocity_100"; "TimeShift_1.0.8";
            "NoteOff_60"]
           [["Tempo_90.5"; "TimeShift_2.0.8"]] None None
           Examples.two_seqs_score).
  vm_compute. reflexivity.
Defined.

(** Witness of X18: two sequences, two tracks. *)
Lemma one_track_per_sequence_witness :
  length (MIDILike.score_tracks Examples.two_seqs_score)
  = length Examples.two_seqs.
Proof.
  apply (one_track_per_sequence (Examples.midilike_cfg false false None)
           Examples.two_seqs None None Examples.two_seqs_score);
    vm_compute; reflexivity.
Defined.

(** ** The flush at the end of a sequence *)

Section MIDILikeFlush.

Import MIDILike MIDILikeSpec.

Variable cfg : Config.

Lemma add_note_other st prog n st' g :
  one_token_stream cfg = true → g ≠ prog →
  add_to_track cfg st prog (λ t, track_add_note t n) = Ok st' →
  dest_notes cfg st' g = dest_notes cfg st g.
Proof.
  intros Hone Hne. unfold add_to_track, dest_notes. rewrite Hone.
  intros H. apply bind_ok_inv in H as (trs & Htrs & H).
  apply bind_ok_inv in H as (tr & _ & H). injection H as <-.
  cbn [tracks set_tracks].
  rewrite odict_get_set_ne by (intros ->; now apply Hne).
  unfold check_inst in Htrs. destruct (ODict.mem (tracks st) prog).
  - now injection Htrs as <-.
  - apply bind_ok_inv in Htrs as (t0 & _ & Htrs). injection Htrs as <-.
    now rewrite odict_get_set_ne by (intros ->; now apply Hne).
Qed.

Lemma add_to_track_available st prog f st' g :
  add_to_track cfg st prog f = Ok st' →
  dest_available cfg st g → dest_available cfg st' g.
Proof.
  unfold add_to_track, dest_available. destruct (one_token_stream cfg).
  - intros H. apply bind_ok_inv in H as (trs & Htrs & H).
    apply bind_ok_inv in H as (tr & _ & H). injection H as <-.
    cbn [tracks set_tracks]. intros [Hmem|Hnew]; [left|now right].
    destruct (Z.eq_dec prog g) as [->|Hne].
    + apply odict_mem_get. rewrite odict_get_set_eq. now eexists.
    + unfold check_inst in Htrs. unfold ODict.mem in *.
      rewrite odict_get_set_ne by exact Hne.
      destruct (ODict.get (tracks st) prog); cbn in Htrs.
      * now injection Htrs as <-.
      * apply bind_ok_inv in Htrs as (t0 & _ & Htrs). injection Htrs as <-.
        now rewrite odict_get_set_ne by exact Hne.
  - intros H (ref & t & Href & Ht). rewrite Href in H. cbn in H.
    rewrite Ht in H. cbn in H. injection H as <-.
    cbn [current_instrument store set_store]. exists ref.
    rewrite list_lookup_insert_eq by (now apply lookup_lt_Some in Ht).
    eexists. now split.
Qed.

(** The loop that appends the notes [ns] to the track of [prog]. *)
Lemma add_notes_dest prog ns :
  ∀ st st',
  Py.foldlM (λ st2 n, add_to_track cfg st2 prog (λ t, track_add_note t n))
    ns st = Ok st' →
  dest_notes cfg st' prog = dest_notes cfg st prog ++ ns
  ∧ active_notes st' = active_notes st
  ∧ (one_token_stream cfg = true →
     ∀ g, g ≠ prog → dest_notes cfg st' g = dest_notes cfg st g)
  ∧ ∀ g, dest_available cfg st g → dest_available cfg st' g.
Proof.
  induction ns as [|n ns IH]; intros st st' H.
  - injection H as <-. rewrite app_nil_r. now split_and!.
  - cbn [Py.foldlM] in H. apply bind_ok_inv in H as (st1 & H1 & H).
    destruct (IH _ _ H) as (D & A & O & V).
    destruct (add_note_dest _ _ _ _ _ H1) as (D1 & A1 & _).
    split_and!.
    + now rewrite D, D1, <- app_assoc.
    + congruence.
    + intros Hone g Hne. rewrite (O Hone g Hne).
      exact (add_note_other _ _ _ _ _ Hone Hne H1).
    + intros g Hg. apply V. exact (add_to_track_available _ _ _ _ _ H1 Hg).
Qed.

Lemma add_notes_ok prog ns :
  ∀ st, dest_available cfg st prog →
  ∃ st',
    Py.foldlM (λ st2 n, add_to_track cfg st2 prog (λ t, track_add_note t n))
      ns st = Ok st'.
Proof.
  induction ns as [|n ns IH]; intros st Hav.
  - now eexists.
  - destruct (add_to_track_ok cfg st prog (λ t, track_add_note t n) Hav)
      as [st1 H1].
    destruct (IH st1 (add_to_track_available _ _ _ _ _ H1 Hav)) as [st' H].
    exists st'. cbn [Py.foldlM]. rewrite H1. exact H.
Qed.

Lemma odict_get_not_key {V} (d : ODict.t V) k :
  k ∉ d.*1 → ODict.get d k = None.
Proof.
  induction d as [|[k' v] d IH]; [reflexivity|]. cbn. intros Hk.
  apply not_elem_of_cons in Hk as [Hne Hk].
  destruct (Z.eqb_spec k' k); [congruence|now apply IH].
Qed.

(** The loop over the onsets of one program, when they all fit: it
    appends the notes one by one. *)
Lemma flush_loop_as_adds md prog os :
  forallb (λ '(p, onset, vel), Note_fits cfg onset md p vel) os = true →
  ∀ st,
    Py.foldlM (flush_note cfg md prog) os st
    = Py.foldlM
        (λ st2 n, add_to_track cfg st2 prog (λ t, track_add_note t n))
        (map (λ '(p, onset, vel), mkNote onset md p vel) os) st.
Proof.
  induction os as [|[[p onset] vel] os IH]; intros Hall st; [reflexivity|].
  cbn [forallb] in Hall. apply andb_prop in Hall as [Hfit Hall].
  cbn [Py.foldlM map]. rewrite (flush_note_fits _ _ _ _ _ _ _ Hfit).
  destruct (add_to_track cfg st prog
              (λ t, track_add_note t (mkNote onset md p vel))) as [st1|e];
    [|reflexivity].
  cbn [Py.bind]. now apply IH.
Qed.

(** The loop over the onsets of one program returns only when they all
    fit. *)
Lemma flush_loop_ok_fits md prog os :
  ∀ st st',
    Py.foldlM (flush_note cfg md prog) os st = Ok st' →
    forallb (λ '(p, onset, vel), Note_fits cfg onset md p vel) os = true.
Proof.
  induction os as [|[[p onset] vel] os IH]; intros st st' H; [reflexivity|].
  cbn [Py.foldlM] in H.
  destruct (flush_note cfg md prog st (p, onset, vel)) as [st1|e] eqn:H1;
    [|discriminate].
  cbn [Py.bind] in H. apply flush_note_inv in H1 as [Hfit _].
  cbn [forallb]. now rewrite Hfit, (IH _ _ H).
Qed.

(** The loop of the one-stream flush over the queues [l]. *)
Lemma flush_loop_spec md l :
  one_token_stream cfg = true → NoDup l.*1 →
  Forall (λ gq, onsets_fit cfg md gq.2 = true) l →
  ∀ st, (∀ g, g ∈ l.*1 → dest_available cfg st g) →
  ∃ st',
    Py.foldlM
      (λ st1 '(program_, active_notes_),
         Py.foldlM (flush_note cfg md program_)
           (queued_onsets active_notes_) st1)
      l st = Ok st'
    ∧ active_notes st' = active_notes st
    ∧ ∀ g, dest_notes cfg st' g
           = dest_notes cfg st g
             ++ match ODict.get l g with
                | Some q => flushed_notes md q
                | None => []
                end.
Proof.
  intros Hone. induction l as [|[k q] l IH]; intros Hnd Hfit st Hav.
  - exists st. split_and!; [reflexivity..|]. intros g. now rewrite app_nil_r.
  - cbn in Hnd. apply NoDup_cons in Hnd as [Hk Hnd].
    apply Forall_cons in Hfit as [Hq Hfit]. cbn [snd] in Hq.
    destruct (add_notes_ok k (flushed_notes md q) st) as [st1 H1].
    { apply Hav. cbn. left. }
    destruct (add_notes_dest _ _ _ _ H1) as (D1 & A1 & O1 & V1).
    destruct (IH Hnd Hfit st1) as (st' & H & A & D).
    { intros g Hg. apply V1, Hav. cbn. now right. }
    exists st'. split_and!.
    + cbn [Py.foldlM]. rewrite (flush_loop_as_adds md k _ Hq).
      unfold flushed_notes in H1. rewrite H1. exact H.
    + congruence.
    + intros g. rewrite D. cbn [ODict.get].
      destruct (Z.eqb_spec k g) as [->|Hne].
      * now rewrite D1, (odict_get_not_key _ _ Hk), app_nil_r.
      * now rewrite (O1 Hone g (not_eq_sym Hne)).
Qed.

Lemma flush_loop_ok_all_fit md l :
  ∀ st st',
    Py.foldlM
      (λ st1 '(program_, active_notes_),
         Py.foldlM (flush_note cfg md program_)
           (queued_onsets active_notes_) st1)
      l st = Ok st' →
    Forall (λ gq, onsets_fit cfg md gq.2 = true) l.
Proof.
  induction l as [|[k q] l IH]; intros st st' H; [constructor|].
  cbn [Py.foldlM] in H.
  destruct (Py.foldlM (flush_note cfg md k) (queued_onsets q) st)
    as [st1|e] eqn:H1; [|discriminate].
  cbn [Py.bind] in H. constructor; [|exact (IH _ _ H)].
  exact (flush_loop_ok_fits _ _ _ _ _ H1).
Qed.

(** X19.  The flush of the one-stream decoder.  The flush builds one
    note of the maximum duration per onset still queued, and returns
    only when the values of each of these notes fit a note of the score
    library.  When they do and every program that has queues has its
    track or can be given one, [clear_active_notes] returns, and the
    track of every program receives, after the notes it had, the notes of
    the onsets queued under this program, in the order of the pitches and
    then of the onsets; tracks of other programs are not changed, and the
    onsets stay in their queues. *)
Theorem flush_one_stream_closes_every_onset md st :
  one_token_stream cfg = true →
  NoDup (active_notes st).*1 →
  (∀ g, g ∈ (active_notes st).*1 → dest_available cfg st g) →
  (∀ st', clear_active_notes cfg (Some md) st = Ok st' →
          Forall (λ gq, onsets_fit cfg md gq.2 = true) (active_notes st))
  ∧ (Forall (λ gq, onsets_fit cfg md gq.2 = true) (active_notes st) →
     ∃ st', clear_active_notes cfg (Some md) st = Ok st'
       ∧ active_notes st' = active_notes st
       ∧ ∀ g, dest_notes cfg st' g
              = dest_notes cfg st g
                ++ match ODict.get (active_notes st) g with
                   | Some q => flushed_notes md q
                   | None => []
                   end).
Proof.
  intros Hone Hnd Hav. unfold clear_active_notes. rewrite Hone. split.
  - intros st'. apply flush_loop_ok_all_fit.
  - intros Hfit.
    exact (flush_loop_spec md (active_notes st) Hone Hnd Hfit st Hav).
Qed.

(** With separate streams the loop that appends notes rewrites the
    current track, and always returns. *)
Lemma add_notes_store prog ns :
  one_token_stream cfg = false →
  ∀ st ref tr,
  current_instrument st = Some ref → store st !! ref = Some tr →
  ∃ st',
    Py.foldlM (λ st2 n, add_to_track cfg st2 prog (λ t, track_add_note t n))
      ns st = Ok st'
    ∧ current_instrument st' = Some ref
    ∧ store st'
      = <[ref := mkTrack (program tr) (is_drum tr) (name tr) (notes tr ++ ns)
                   (pedals tr) (pitch_bends tr)]> (store st)
    ∧ active_notes st' = active_notes st.
Proof.
  intros Hone. induction ns as [|n ns IH]; intros st ref tr Href Htr.
  - exists st. split_and!; try reflexivity; [exact Href|].
    rewrite app_nil_r. symmetry. apply list_insert_id.
    rewrite Htr. now destruct tr.
  - destruct (IH (set_store st (<[ref := track_add_note tr n]> (store st)))
                ref (track_add_note tr n)) as (st' & H & C & S & A).
    { exact Href. }
    { cbn [store set_store]. apply list_lookup_insert_eq.
      now apply lookup_lt_Some in Htr. }
    exists st'. split_and!; [|exact C| |exact A].
    + cbn [Py.foldlM]. unfold add_to_track at 1. rewrite Hone, Href.
      cbn [Py.of_option]. rewrite (bind_ok _ _ _ eq_refl), Htr.
      cbn [Py.of_option]. rewrite (bind_ok _ _ _ eq_refl). exact H.
    + rewrite S. cbn [store set_store track_add_note program is_drum name
                      notes pedals pitch_bends].
      now rewrite list_insert_insert_eq, <- app_assoc.
Qed.

(** With separate streams the loop of the flush raises [TypeError] at the
    first onset whose values do not fit a note. *)
Lemma flush_separate_raises md prog os :
  one_token_stream cfg = false →
  forallb (λ '(p, onset, vel), Note_fits cfg onset md p vel) os = false →
  ∀ st ref tr,
    current_instrument st = Some ref → store st !! ref = Some tr →
    Py.foldlM (flush_note cfg md prog) os st = Raise TypeError.
Proof.
  intros Hone. induction os as [|[[p onset] vel] os IH];
    intros Hnot st ref tr Href Htr; [discriminate|].
  - cbn [Py.foldlM]. cbn [forallb] in Hnot.
    destruct (Note_fits cfg onset md p vel) eqn:Hfit; cbn [andb] in Hnot.
    + rewrite (flush_note_fits _ _ _ _ _ _ _ Hfit). unfold add_to_track.
      rewrite Hone, Href. cbn [Py.of_option].
      rewrite (bind_ok _ _ _ eq_refl), Htr. cbn [Py.of_option].
      rewrite (bind_ok _ _ _ eq_refl). cbn [Py.bind].
      apply (IH Hnot) with (ref := ref)
                           (tr := track_add_note tr (mkNote onset md p vel)).
      * exact Href.
      * cbn [store set_store]. apply list_lookup_insert_eq.
        now apply lookup_lt_Some in Htr.
    + unfold flush_note. rewrite Hone, Href. cbn [Py.of_option].
      rewrite (bind_ok _ _ _ eq_refl), Htr. cbn [Py.of_option].
      rewrite (bind_ok _ _ _ eq_refl), (new_note_raises _ _ _ _ _ Hfit).
      reflexivity.
Qed.

(** X20.  The flush of a track sequence decoded on its own.  The flush
    reads the queues of one program only, the program of the track of the
    sequence.  When the queues have no entry for it, the flush raises
    [KeyError], whatever is queued.  Otherwise it builds one note of the
    maximum duration per onset queued under this program: when the
    values of one of them do not fit a note of the score library the
    flush raises [TypeError]; when they all fit it returns, the track
    holds these notes after the notes it had, and the other tracks and
    all the queues are as they were. *)
Theorem flush_separate_closes_track_program md st ref tr :
  one_token_stream cfg = false →
  current_instrument st = Some ref →
  store st !! ref = Some tr →
  (ODict.get (active_notes st) (program tr) = None →
   clear_active_notes cfg (Some md) st = Raise KeyError)
  ∧ ∀ q, ODict.get (active_notes st) (program tr) = Some q →
    (onsets_fit cfg md q = false →
     clear_active_notes cfg (Some md) st = Raise TypeError)
    ∧ (onsets_fit cfg md q = true →
       ∃ st', clear_active_notes cfg (Some md) st = Ok st'
         ∧ store st'
           = <[ref := mkTrack (program tr) (is_drum tr) (name tr)
                        (notes tr ++ flushed_notes md q) (pedals tr)
                        (pitch_bends tr)]> (store st)
         ∧ active_notes st' = active_notes st).
Proof.
  intros Hone Href Htr. unfold clear_active_notes. rewrite Hone, Href.
  cbn [Py.of_option]. rewrite (bind_ok _ _ _ eq_refl), Htr.
  cbn [Py.of_option]. rewrite (bind_ok _ _ _ eq_refl). split.
  - now intros ->.
  - intros q ->. cbn [Py.of_option]. rewrite (bind_ok _ _ _ eq_refl). split.
    + intros Hnot.
      exact (flush_separate_raises md (program tr) _ Hone Hnot st ref tr
               Href Htr).
    + intros Hfit. rewrite (flush_loop_as_adds md (program tr) _ Hfit).
      destruct (add_notes_store (program tr) (flushed_notes md q) Hone st
                  ref tr Href Htr) as (st' & H & _ & S & A).
      now exists st'.
Qed.

End MIDILikeFlush.

(** Witness of X19: the onset of pitch 60 queued at tick 0 is flushed as a
    note of one beat on the track of program 0. *)
Lemma flush_one_stream_closes_every_onset_witness :
  ∃ st',
    MIDILike.clear_active_notes Examples.clamp_cfg (Some 480)
      Examples.clamp_state = Ok st'
    ∧ MIDILike.active_notes st' = MIDILike.active_notes Examples.clamp_state
    ∧ MIDILike.dest_notes Examples.clamp_cfg st' 0 = [mkNote 0 480 60 100].
Proof.
  destruct (flush_one_stream_closes_every_onset Examples.clamp_cfg 480
              Examples.clamp_state) as [_ Hflush].
  - reflexivity.
  - decide_closed.
  - intros g Hg. right.
    assert (Hok : Py.is_ok
                    (new_inst_track
                       (MIDILike.MIDI_INSTRUMENTS Examples.clamp_cfg) g)
                  = true).
    { revert g Hg. apply Forall_forall. decide_closed. }
    destruct (new_inst_track _ g) as [t|]; [now exists t|discriminate].
  - destruct Hflush as (st' & H & A & D); [decide_closed|].
    exists st'. split; [exact H|]. split; [exact A|]. rewrite (D 0).
    vm_compute. reflexivity.
Defined.

(** Witness of X20: the two onsets queued under the program of the track
    are flushed on it. *)
Lemma flush_separate_closes_track_program_witness :
  ∃ st',
    MIDILike.clear_active_notes Examples.tracks_cfg (Some 480)
      Examples.flush_state = Ok st'
    ∧ MIDILike.store st'
      = [mkTrack 0 false "Instrument"
           [mkNote 0 480 60 100; mkNote 960 480 64 90] [] []].
Proof.
  destruct (flush_separate_closes_track_program Examples.tracks_cfg 480
              Examples.flush_state 0 (mkTrack 0 false "Instrument" [] [] [])
              eq_refl eq_refl eq_refl) as [_ H].
  destruct (H (default []
                 (ODict.get (MIDILike.active_notes Examples.flush_state) 0)))
    as [_ Hfit].
  - vm_compute. reflexivity.
  - destruct Hfit as (st' & Hc & S & _); [vm_compute; reflexivity|].
    exists st'. split; [exact Hc|]. rewrite S. vm_compute. reflexivity.
Defined.

(** ** The ticks of the notes decoded from one stream *)

Section MIDILikeTimed.

Import MIDILike MIDILikeSpec.

Variable cfg : Config.

Hypothesis Hone : one_token_stream cfg = true.

Lemma queued_until_mono t t' an :
  t <= t' → queued_until t an → queued_until t' an.
Proof.
  intros Hle. unfold queued_until. intros H.
  eapply Forall_impl; [exact H|]. intros d Hd. cbn beta in Hd.
  eapply Forall_impl; [exact Hd|]. intros q Hq. cbn beta in Hq.
  eapply Forall_impl; [exact Hq|]. intros on. cbn beta. lia.
Qed.

Lemma timed_same st st' :
  current_tick st' = current_tick st →
  active_notes st' = active_notes st →
  tracks st' = tracks st →
  timed st → timed st'.
Proof. unfold timed. now intros -> -> ->. Qed.

Lemma odict_comprehension_forall {V} (P : V → Prop) keys (f : Z → V) :
  (∀ k, P (f k)) → Forall P (ODict.values (ODict.comprehension keys f)).
Proof.
  intros Hf. unfold ODict.comprehension.
  assert (Hgen : ∀ acc : ODict.t V,
             Forall P (ODict.values acc) →
             Forall P (ODict.values
                         (fold_left (λ d k, ODict.set d k (f k)) keys acc))).
  { induction keys as [|k keys IH]; intros acc Hacc; [exact Hacc|].
    cbn [fold_left]. apply IH. now apply odict_set_forall. }
  apply Hgen. constructor.
Qed.

Lemma initial_queued_until t : queued_until t (active_notes (initial_state cfg)).
Proof.
  unfold queued_until, initial_state. cbn [active_notes].
  apply odict_comprehension_forall. intros _. unfold empty_queues.
  apply odict_comprehension_forall. intros _. constructor.
Qed.

Lemma put_queue_timed st g p q st' :
  put_queue st g p q = Ok st' →
  Forall (λ on : Z * Z, 0 <= fst on <= current_tick st) q →
  timed st → timed st'.
Proof.
  unfold put_queue. intros H Hq (Ht & Hqs & Hn).
  destruct (ODict.get (active_notes st) g) as [d|] eqn:Hd; [|discriminate].
  injection H as <-. unfold timed.
  cbn [current_tick active_notes tracks set_active_notes].
  split_and!; [exact Ht| |exact Hn].
  apply odict_set_forall; [exact Hqs|].
  apply odict_set_forall; [|exact Hq].
  exact (odict_get_forall _ _ _ _ Hqs Hd).
Qed.

Lemma add_to_track_timed st prog add st' :
  (∀ t, Forall note_ok (notes t) → Forall note_ok (notes (add t))) →
  add_to_track cfg st prog add = Ok st' →
  timed st → timed st'.
Proof.
  intros Hadd H (Ht & Hqs & Hn). unfold add_to_track in H. rewrite Hone in H.
  apply bind_ok_inv in H as (trs & Htrs & H).
  apply bind_ok_inv in H as (tr & Htr & [= <-]). unfold timed.
  cbn [current_tick active_notes tracks set_tracks].
  split_and!; [exact Ht|exact Hqs|].
  assert (Hb : Forall (λ t, Forall note_ok (notes t)) (ODict.values trs)).
  { unfold check_inst in Htrs. destruct (ODict.mem (tracks st) prog).
    - now injection Htrs as <-.
    - apply bind_ok_inv in Htrs as (t & Hnew & [= <-]).
      apply odict_set_forall; [exact Hn|].
      unfold new_inst_track in Hnew.
      apply bind_ok_inv in Hnew as (nm & _ & Hnew).
      apply Track_new_inv in Hnew as [-> _]. constructor. }
  apply odict_set_forall; [exact Hb|]. apply Hadd.
  destruct (ODict.get trs prog) as [t|] eqn:Hg; [|discriminate].
  injection Htr as <-. exact (odict_get_forall _ _ _ _ Hb Hg).
Qed.

Lemma add_note_timed st prog n st' :
  note_ok n →
  add_to_track cfg st prog (λ t, track_add_note t n) = Ok st' →
  timed st → timed st'.
Proof.
  intros Hn. apply add_to_track_timed. intros t Ht. cbn [notes track_add_note].
  apply Forall_app. split; [exact Ht|]. now constructor.
Qed.

Lemma resolve_pitch_timed st ty v pitch st' :
  resolve_pitch st ty v = Ok (pitch, st') →
  current_program st' = current_program st ∧ (timed st → timed st').
Proof.
  unfold resolve_pitch. intros H.
  destruct (String.eqb ty "PitchIntervalTime").
  { apply bind_ok_inv in H as (prev & _ & H).
    apply bind_ok_inv in H as (d & _ & [= <- <-]). now split. }
  destruct (String.eqb ty "PitchIntervalChord").
  { apply bind_ok_inv in H as (prev & _ & H).
    apply bind_ok_inv in H as (d & _ & [= <- <-]). now split. }
  apply bind_ok_inv in H as (p & _ & H).
  destruct (String.eqb ty "NoteOn"); injection H as <- <-; now split.
Qed.

(** One token keeps the invariant, when the maximum duration is not
    negative. *)
Lemma decode_token_timed md td seq si ti token st st' :
  (∀ m, md = Some m → 0 <= m) →
  shift_ok cfg td token = true →
  decode_token cfg md td seq si ti token st = Ok st' →
  timed st → timed st'.
Proof.
  intros Hmd Hshift H Hst. unfold decode_token in H. unfold shift_ok in Hshift.
  apply bind_ok_inv in H as ([ty v] & Hsplit & H). rewrite Hsplit in Hshift.
  destruct (in_types ty ["TimeShift"; "Rest"]).
  { apply bind_ok_inv in H as (ticks & Hd & [= <-]).
    rewrite Hd in Hshift. apply Z.leb_le in Hshift. clear Hd.
    destruct Hst as (Ht & Hqs & Hn). unfold timed.
    cbn [current_tick active_notes tracks set_tick].
    split_and!; [lia| |exact Hn].
    apply (queued_until_mono (current_tick st)); [lia|exact Hqs]. }
  destruct (in_types ty
              ["NoteOn"; "NoteOff"; "PitchIntervalTime"; "PitchIntervalChord"]).
  { apply bind_ok_inv in H as ([pitch st1] & Hres & H).
    apply resolve_pitch_timed in Hres as [Hprog Hst1].
    specialize (Hst1 Hst). clear Hst.
    destruct (negb (String.eqb ty "NoteOff")).
    - unfold note_on in H. destruct (ti + 1 <? length seq)%nat.
      + apply bind_ok_inv in H as (next & _ & H).
        apply bind_ok_inv in H as (vel_s & _ & H).
        apply bind_ok_inv in H as (vel & _ & H).
        apply bind_ok_inv in H as (q & Hq & H).
        apply (put_queue_timed _ _ _ _ _ H); [|exact Hst1].
        apply get_queue_inv in Hq as (d & Hd & Hq).
        destruct Hst1 as (Ht & Hqs & _).
        apply Forall_app. split.
        * exact (odict_get_forall _ _ _ _
                   (odict_get_forall _ _ _ _ Hqs Hd) Hq).
        * constructor; [cbn [fst]; lia|constructor].
      + now injection H as <-.
    - unfold note_off in H.
      apply bind_ok_inv in H as (q & Hq & H).
      destruct q as [|[onset vel] q'].
      + now injection H as <-.
      + apply bind_ok_inv in H as (st2 & Hput & H). cbv zeta in H.
        apply get_queue_inv in Hq as (d & Hd & Hq).
        pose proof Hst1 as (Ht & Hqs & _).
        pose proof (odict_get_forall _ _ _ _
                      (odict_get_forall _ _ _ _ Hqs Hd) Hq) as Hall.
        apply Forall_cons in Hall as [Hon Hall]. cbn [fst] in Hon.
        apply bind_ok_inv in H as (n & Hn & H).
        apply new_note_inv in Hn as [-> _].
        apply (add_note_timed _ _ _ _) in H; [exact H| |].
        * split; cbn [note_time note_duration]; [lia|].
          destruct md as [m|]; [|lia]. specialize (Hmd m eq_refl).
          destruct (Z.gtb_spec (current_tick st1 - onset) m); lia.
        * exact (put_queue_timed _ _ _ _ _ Hput Hall Hst1). }
  destruct (String.eqb ty "Program").
  { apply bind_ok_inv in H as (p & _ & [= <-]). exact Hst. }
  destruct (String.eqb ty "Tempo" && (si =? 0)%nat).
  { apply bind_ok_inv in H as (x & _ & [= <-]). exact Hst. }
  destruct (String.eqb ty "TimeSig" && (si =? 0)%nat).
  { apply bind_ok_inv in H as ([num den] & _ & [= <-]). exact Hst. }
  destruct (String.eqb ty "Pedal").
  { apply bind_ok_inv in H as (pp & _ & H).
    destruct (sustain_pedal_duration cfg && (ti + 1 <? length seq)%nat).
    - apply bind_ok_inv in H as (next & _ & H).
      destruct (String.eqb (token_type next) "Duration").
      + apply bind_ok_inv in H as (dur_s & _ & H).
        apply bind_ok_inv in H as (duration & _ & H).
        apply (add_to_track_timed _ _ _ _) in H; [exact H| |exact Hst].
        now intros t.
      + now injection H as <-.
    - destruct (active_pedals st !! pp); injection H as <-; exact Hst. }
  destruct (String.eqb ty "PedalOff").
  { apply bind_ok_inv in H as (pp & _ & H).
    destruct (active_pedals st !! pp) as [onset|].
    - apply bind_ok_inv in H as (st1 & Hadd & [= <-]).
      apply (add_to_track_timed _ _ _ _) in Hadd; [exact Hadd| |exact Hst].
      now intros t.
    - now injection H as <-. }
  destruct (String.eqb ty "PitchBend").
  { apply bind_ok_inv in H as (x & _ & H).
    apply (add_to_track_timed _ _ _ _) in H; [exact H| |exact Hst].
    now intros t. }
  now injection H as <-.
Qed.

Lemma decode_tokens_timed md td seq si rest :
  (∀ m, md = Some m → 0 <= m) →
  forallb (shift_ok cfg td) rest = true →
  ∀ ti st st',
    decode_tokens cfg md td seq si rest ti st = Ok st' →
    timed st → timed st'.
Proof.
  intros Hmd. induction rest as [|token rest IH]; intros Hr ti st st' H Hst.
  - now injection H as <-.
  - cbn [forallb] in Hr. apply andb_prop in Hr as [Htok Hr].
    cbn [decode_tokens] in H. apply bind_ok_inv in H as (st1 & H1 & H).
    apply (IH Hr _ _ _ H).
    exact (decode_token_timed _ _ _ _ _ _ _ _ Hmd Htok H1 Hst).
Qed.

Lemma queued_onsets_ok t (q : ODict.t (list (Z * Z))) :
  Forall (λ ons : list (Z * Z), Forall (λ on : Z * Z, 0 <= fst on <= t) ons)
    (ODict.values q) →
  Forall (λ o : Z * Z * Z, 0 <= snd (fst o)) (queued_onsets q).
Proof.
  unfold queued_onsets, ODict.values.
  induction q as [|[pitch ons] q IH]; intros Hq; [constructor|].
  cbn [map snd] in Hq. apply Forall_cons in Hq as [Hons Hq].
  cbn [flat_map]. apply Forall_app. split; [|now apply IH].
  clear IH Hq. induction Hons as [|[on vel] ons Hon Hons IH]; cbn [map];
    constructor; [|exact IH].
  cbn [fst snd] in *. lia.
Qed.

Lemma foldlM_timed {X} (body : State → X → result State) (l : list X) :
  (∀ st a st', a ∈ l → body st a = Ok st' → timed st → timed st') →
  ∀ st st', Py.foldlM body l st = Ok st' → timed st → timed st'.
Proof.
  induction l as [|a l IH]; intros Hbody st st' H Hst.
  - now injection H as <-.
  - cbn [Py.foldlM] in H.
    destruct (body st a) as [st1|e] eqn:H1; [|discriminate].
    cbn [Py.bind] in H. apply (IH) with (st := st1); [|exact H|].
    + intros s x s' Hx. apply Hbody. now right.
    + apply (Hbody st a st1); [left|exact H1|exact Hst].
Qed.

(** The flush keeps the invariant. *)
Lemma clear_active_notes_timed md st st' :
  (∀ m, md = Some m → 0 <= m) →
  clear_active_notes cfg md st = Ok st' →
  timed st → timed st'.
Proof.
  intros Hmd. unfold clear_active_notes. destruct md as [m|];
    [|now intros [= <-]].
  rewrite Hone. intros H Hst. pose proof Hst as (_ & Hqs & _).
  revert H Hst. generalize st at 2 3 as st0. intros st0.
  apply foldlM_timed. intros st1 [prog q] st2 Hin.
  apply foldlM_timed. intros st3 [[p onset] vel] st4 Ho Hflush.
  apply flush_note_inv in Hflush as [_ Hadd]. revert Hadd.
  apply add_note_timed.
  assert (Hq : Forall (λ o : Z * Z * Z, 0 <= snd (fst o)) (queued_onsets q)).
  { apply (queued_onsets_ok (current_tick st)).
    unfold queued_until in Hqs. rewrite Forall_forall in Hqs.
    apply Hqs. unfold ODict.values. apply list_elem_of_fmap.
    now exists (prog, q). }
  rewrite Forall_forall in Hq. specialize (Hq _ Ho). cbn [fst snd] in Hq.
  split; cbn [note_time note_duration]; [exact Hq|now apply Hmd].
Qed.

(** X21.  Decoding one stream never gives a note that starts before
    tick 0 or has a negative duration, when no [TimeShift] or [Rest]
    token of the stream converts to a negative number of ticks and the
    maximum duration, if one is configured, is not negative: the tick
    cursor only advances, so that every queued onset is at or before the
    [NoteOff] that closes it. *)
Theorem one_stream_notes_well_timed seq programs_ tda score :
  (∀ m, max_duration_ticks cfg (default (time_division cfg) tda)
        = Ok (Some m) → 0 <= m) →
  forallb (shift_ok cfg (default (time_division cfg) tda)) seq = true →
  _tokens_to_midi cfg [seq] programs_ tda = Ok score →
  Forall (λ t, Forall note_ok (notes t)) (score_tracks score).
Proof.
  intros Hmax Hseq0 H.
  apply tokens_to_midi_inv in H as (md & st & st' & trs & Hmd & Hst & Hst'
                                    & Htrs & ->).
  rewrite Hone in Hst', Htrs. injection Htrs as <-. cbn [score_tracks].
  assert (Hm : ∀ m, md = Some m → 0 <= m).
  { intros m ->. now apply Hmax. }
  cbn [decode_seqs] in Hst. apply bind_ok_inv in Hst as (st1 & Hseq & [= <-]).
  unfold decode_seq in Hseq. rewrite Hone in Hseq. cbn [negb] in Hseq.
  rewrite (bind_ok _ _ _ eq_refl) in Hseq.
  apply bind_ok_inv in Hseq as (st2 & Hdec & [= <-]).
  apply (decode_tokens_timed _ _ _ _ _ Hm Hseq0) in Hdec.
  - now apply (clear_active_notes_timed _ _ _ Hm Hst') in Hdec as (_ & _ & Hn).
  - unfold timed. cbn [current_tick active_notes tracks].
    split_and!; [lia|apply initial_queued_until|constructor].
Qed.

End MIDILikeTimed.

(** Witness of X21: the note decoded from [clamp_seq]. *)
Lemma one_stream_notes_well_timed_witness :
  Forall (λ t, Forall MIDILikeSpec.note_ok (notes t))
    (MIDILike.score_tracks Examples.clamp_score).
Proof.
  apply (one_stream_notes_well_timed Examples.clamp_cfg eq_refl
           Examples.clamp_seq None None Examples.clamp_score).
  - intros m Hm. vm_compute in Hm. injection Hm as <-. lia.
  - vm_compute. reflexivity.
  - vm_compute. reflexivity.
Defined.

(** ** The vocabulary of the fixed-pattern scheme *)

Section StructuredVocabulary.

Import Structured StructuredGraph StructuredVocab.

Variable cfg : Config.
Variable a : Attributes.

Lemma split_no_sep_app (x y : string) :
  Py.split "_" x = [x] → Py.split "_" y = [y] →
  Py.split "_" (x +:+ y) = [x +:+ y].
Proof.
  intros Hx Hy. induction x as [|c x IH]; [exact Hy|].
  change (String c x +:+ y) with (String c (x +:+ y)).
  cbn [Py.split] in Hx |- *.
  destruct (Ascii.eqb c "_"); [discriminate|].
  destruct (Py.split "_" x) as [|h t] eqn:Hs.
  - injection Hx as <-. discriminate.
  - injection Hx as -> ->. now rewrite IH.
Qed.

Lemma duration_value_no_sep d :
  Py.split "_" (duration_value d) = [duration_value d].
Proof.
  destruct d as [[b p] r]. unfold duration_value. cbn [map String.concat].
  repeat (apply split_no_sep_app;
          [first [apply pretty_no_sep|reflexivity]|]).
  apply pretty_no_sep.
Qed.

(** A token ["Type_" + value] splits into its two parts when neither
    holds an underscore. *)
Lemma split_typed_token (ty val : string) :
  Py.split "_" ty = [ty] → Py.split "_" val = [val] →
  split_token (ty +:+ String "_" val) = Ok (ty, val)
  ∧ token_type (ty +:+ String "_" val) = ty.
Proof.
  intros Hty Hval. unfold split_token, token_type.
  now rewrite (split_app_sep _ _ Hty), Hval.
Qed.

Lemma vocabulary_cases tok :
  tok ∈ _create_base_vocabulary cfg a →
  (∃ i, tok = "Pitch" +:+ String "_" (pretty i)
        ∧ fst (pitch_range a) <= i < snd (pitch_range a))
  ∨ (∃ i, tok = "Velocity" +:+ String "_" (pretty i) ∧ i ∈ velocities a)
  ∨ (∃ d, tok = "Duration" +:+ String "_" (duration_value d)
          ∧ d ∈ durations a)
  ∨ tok = "TimeShift" +:+ String "_" "0.0.1"
  ∨ (∃ d, tok = "TimeShift" +:+ String "_" (duration_value d)
          ∧ d ∈ durations a)
  ∨ (use_programs cfg = true
     ∧ ∃ p, tok = "Program" +:+ String "_" (pretty p) ∧ p ∈ programs a).
Proof.
  unfold _create_base_vocabulary. cbn [app]. intros H.
  assert (Hbase :
            tok ∈ (map (λ i, "Pitch_" +:+ pretty i)
                     (Py.range (fst (pitch_range a)) (snd (pitch_range a)))
                   ++ map (λ i, "Velocity_" +:+ pretty i) (velocities a))
                  ++ map (λ d, "Duration_" +:+ duration_value d) (durations a)
            ∨ tok = "TimeShift_0.0.1"
            ∨ tok ∈ map (λ d, "TimeShift_" +:+ duration_value d) (durations a)
            ∨ (use_programs cfg = true
               ∧ tok ∈ map (λ p, "Program_" +:+ pretty p) (programs a))).
  { destruct (use_programs cfg).
    - apply elem_of_app in H as [H|H]; [|now right; right; right].
      apply elem_of_app in H as [H|H]; [|now right; right; left].
      apply elem_of_app in H as [H|H]; [now left|].
      apply list_elem_of_singleton in H. now right; left.
    - apply elem_of_app in H as [H|H]; [|now right; right; left].
      apply elem_of_app in H as [H|H]; [now left|].
      apply list_elem_of_singleton in H. now right; left. }
  destruct Hbase as [Hb|[->|[Hb|[Hp Hb]]]].
  - apply elem_of_app in Hb as [Hb|Hb].
    + apply elem_of_app in Hb as [Hb|Hb].
      * apply list_elem_of_fmap in Hb as (i & -> & Hi). left. exists i.
        split; [reflexivity|]. unfold Py.range in Hi.
        apply list_elem_of_fmap in Hi as (k & -> & Hk).
        apply list_elem_of_In, in_seq in Hk. lia.
      * apply list_elem_of_fmap in Hb as (i & -> & Hi). right; left.
        now exists i.
    + apply list_elem_of_fmap in Hb as (d & -> & Hd). right; right; left.
      now exists d.
  - now right; right; right; left.
  - apply list_elem_of_fmap in Hb as (d & -> & Hd).
    right; right; right; right; left. now exists d.
  - apply list_elem_of_fmap in Hb as (q & -> & Hq).
    right; right; right; right; right. split; [exact Hp|]. now exists q.
Qed.

(** X22.  Every token of the vocabulary that [_create_base_vocabulary]
    builds has exactly one underscore, so that the unpacking
    [token.split("_")] of the decoder does not raise on it, and its type
    is a key of the graph that [_create_token_types_graph] builds. *)
Theorem vocabulary_tokens_split_into_graph_types tok :
  tok ∈ _create_base_vocabulary cfg a →
  ∃ ty val, split_token tok = Ok (ty, val)
            ∧ token_type tok = ty
            ∧ is_Some (_create_token_types_graph cfg !! ty).
Proof.
  intros H. apply vocabulary_cases in H.
  assert (Hkey : ∀ ty, ty ∈ ["Pitch"; "Velocity"; "Duration"; "TimeShift"] →
                       is_Some (_create_token_types_graph cfg !! ty)).
  { intros ty Hty. unfold _create_token_types_graph.
    destruct (use_programs cfg);
      repeat (apply elem_of_cons in Hty as [->|Hty]; [now eexists|]);
      inversion Hty. }
  destruct H as [(i & -> & _)|[(i & -> & _)|[(d & -> & _)|[->|[(d & -> & _)
                |(Hp & p & -> & _)]]]]].
  - exists "Pitch", (pretty i).
    destruct (split_typed_token "Pitch" (pretty i) eq_refl (pretty_no_sep i)).
    split_and!; [assumption..|]. apply Hkey. set_solver.
  - exists "Velocity", (pretty i).
    destruct (split_typed_token "Velocity" (pretty i) eq_refl
                (pretty_no_sep i)).
    split_and!; [assumption..|]. apply Hkey. set_solver.
  - exists "Duration", (duration_value d).
    destruct (split_typed_token "Duration" (duration_value d) eq_refl
                (duration_value_no_sep d)).
    split_and!; [assumption..|]. apply Hkey. set_solver.
  - exists "TimeShift", "0.0.1". split_and!; [reflexivity..|].
    apply Hkey. set_solver.
  - exists "TimeShift", (duration_value d).
    destruct (split_typed_token "TimeShift" (duration_value d) eq_refl
                (duration_value_no_sep d)).
    split_and!; [assumption..|]. apply Hkey. set_solver.
  - exists "Program", (pretty p).
    destruct (split_typed_token "Program" (pretty p) eq_refl
                (pretty_no_sep p)).
    split_and!; [assumption..|].
    unfold _create_token_types_graph. rewrite Hp. now eexists.
Qed.

Lemma vocabulary_intro tok :
  (∃ i, tok = "Pitch" +:+ String "_" (pretty i)
        ∧ fst (pitch_range a) <= i < snd (pitch_range a))
  ∨ (∃ i, tok = "Velocity" +:+ String "_" (pretty i) ∧ i ∈ velocities a)
  ∨ (∃ d, tok = "Duration" +:+ String "_" (duration_value d)
          ∧ d ∈ durations a)
  ∨ tok = "TimeShift" +:+ String "_" "0.0.1"
  ∨ (∃ d, tok = "TimeShift" +:+ String "_" (duration_value d)
          ∧ d ∈ durations a)
  ∨ (use_programs cfg = true
     ∧ ∃ p, tok = "Program" +:+ String "_" (pretty p) ∧ p ∈ programs a) →
  tok ∈ _create_base_vocabulary cfg a.
Proof.
  unfold _create_base_vocabulary. cbn [app]. intros H.
  assert (Hbase :
            (tok ∈ (((map (λ i, "Pitch_" +:+ pretty i)
                        (Py.range (fst (pitch_range a)) (snd (pitch_range a)))
                      ++ map (λ i, "Velocity_" +:+ pretty i) (velocities a))
                     ++ map (λ d, "Duration_" +:+ duration_value d)
                          (durations a))
                    ++ ["TimeShift_0.0.1"])
                   ++ map (λ d, "TimeShift_" +:+ duration_value d)
                        (durations a))
            ∨ (use_programs cfg = true
               ∧ tok ∈ map (λ p, "Program_" +:+ pretty p) (programs a))).
  { destruct H as [(i & -> & Hi)|[(i & -> & Hi)|[(d & -> & Hd)|[->|
                  [(d & -> & Hd)|(Hp & p & -> & Hq)]]]]].
    - left. rewrite !elem_of_app. do 4 left. apply list_elem_of_fmap.
      exists i. split; [reflexivity|now apply elem_of_range].
    - left. rewrite !elem_of_app. do 3 left. right.
      apply list_elem_of_fmap. now exists i.
    - left. rewrite !elem_of_app. do 2 left. right.
      apply list_elem_of_fmap. now exists d.
    - left. rewrite !elem_of_app. left. right. now left.
    - left. rewrite !elem_of_app. right. apply list_elem_of_fmap.
      now exists d.
    - right. split; [exact Hp|]. apply list_elem_of_fmap. now exists p. }
  destruct Hbase as [Hb|[Hp Hb]].
  - destruct (use_programs cfg); [apply elem_of_app; now left|exact Hb].
  - rewrite Hp. apply elem_of_app. now right.
Qed.

Hypothesis Htab : table_of_durations cfg a.

(** The token of a time shift of [gap] ticks. *)
Lemma shift_in_vocabulary tpb gap val t d :
  (if negb (gap =? 0) then ticks_to_token cfg tpb gap else Ok "0.0.1")
  = Ok val →
  token_of_event (mkEvent "TimeShift" (VStr val) t d)
  ∈ _create_base_vocabulary cfg a.
Proof.
  intros H. apply vocabulary_intro. destruct (negb (gap =? 0)).
  - apply Htab in H as (dv & Hd & ->). do 4 right. left. now exists dv.
  - injection H as <-. do 3 right. now left.
Qed.

Lemma note_events_in_vocabulary p prev n new :
  note_in_vocabulary a n →
  (use_programs cfg = true → p ∈ programs a) →
  note_events cfg p prev n = Ok new →
  Forall (λ e, token_of_event e ∈ _create_base_vocabulary cfg a) new.
Proof.
  intros [Hpitch Hvel] Hprog H. unfold note_events in H.
  apply bind_ok_inv in H as (sh & Hsh & H).
  apply bind_ok_inv in H as (dur & Hdur & [= <-]).
  apply Forall_app. split; [|apply Forall_app; split].
  - destruct (one_token_stream cfg).
    + injection Hsh as <-. constructor.
    + apply bind_ok_inv in Hsh as (val & Hval & [= <-]).
      constructor; [|constructor].
      exact (shift_in_vocabulary _ _ _ _ _ Hval).
  - destruct (use_programs cfg) eqn:Hup; [|constructor].
    constructor; [|constructor]. apply vocabulary_intro. do 5 right.
    split; [exact Hup|]. exists p. split; [reflexivity|now apply Hprog].
  - apply Htab in Hdur as (dv & Hd & ->).
    repeat constructor; apply vocabulary_intro.
    + left. now exists (note_pitch n).
    + right. left. now exists (note_velocity n).
    + do 2 right. left. now exists dv.
Qed.

Lemma create_loop_in_vocabulary p notes_ :
  Forall (note_in_vocabulary a) notes_ →
  (use_programs cfg = true → p ∈ programs a) →
  ∀ prev evs,
    create_loop cfg p notes_ prev [] = Ok evs →
    Forall (λ e, token_of_event e ∈ _create_base_vocabulary cfg a) evs.
Proof.
  intros Hnotes Hprog. induction Hnotes as [|n rest Hn Hrest IH];
    intros prev evs H.
  - injection H as <-. constructor.
  - rewrite create_loop_cons in H.
    apply bind_ok_inv in H as (new & Hnew & H).
    apply bind_ok_inv in H as (r & Hr & [= <-]).
    apply Forall_app. split; [|exact (IH _ _ Hr)].
    exact (note_events_in_vocabulary _ _ _ _ Hn Hprog Hnew).
Qed.

Lemma add_time_loop_in_vocabulary check td evs :
  Forall (λ e, token_of_event e ∈ _create_base_vocabulary cfg a) evs →
  ∀ prev acc out,
    Forall (λ e, token_of_event e ∈ _create_base_vocabulary cfg a) acc →
    add_time_loop cfg check td evs prev acc = Ok out →
    Forall (λ e, token_of_event e ∈ _create_base_vocabulary cfg a) out.
Proof.
  induction 1 as [|ev rest Hev Hrest IH]; intros prev acc out Hacc H.
  - now injection H as <-.
  - cbn [add_time_loop] in H. destruct (String.eqb (type_ ev) check).
    + apply bind_ok_inv in H as (val & Hval & H).
      apply (IH _ _ _) in H; [exact H|].
      apply Forall_app. split; [exact Hacc|].
      constructor; [exact (shift_in_vocabulary _ _ _ _ _ Hval)|].
      now constructor.
    + apply (IH _ _ _) in H; [exact H|].
      apply Forall_app. split; [exact Hacc|now constructor].
Qed.

(** X23.  The encoder stays inside the vocabulary.  When the values of
    the table of durations are the printed durations of the vocabulary,
    the pitches and velocities of the notes of the track are in the
    vocabulary and, with programs, so is the program of the track, every
    event that [_create_track_events] builds prints as a token of
    [_create_base_vocabulary], and so does every event after
    [_add_time_events]: a gap of zero gives the token [TimeShift_0.0.1],
    which the vocabulary lists on its own. *)
Theorem track_tokens_in_vocabulary track evs :
  Forall (note_in_vocabulary a) (notes track) →
  (use_programs cfg = true →
   (if negb (is_drum track) then program track else -1) ∈ programs a) →
  _create_track_events cfg track = Ok evs →
  Forall (λ e, token_of_event e ∈ _create_base_vocabulary cfg a) evs
  ∧ ∀ td out,
      _add_time_events cfg evs td = Ok out →
      Forall (λ e, token_of_event e ∈ _create_base_vocabulary cfg a) out.
Proof.
  intros Hnotes Hprog H. unfold _create_track_events in H.
  pose proof (create_loop_in_vocabulary _ _ Hnotes Hprog _ _ H) as Hevs.
  split; [exact Hevs|]. intros td out Hout. unfold _add_time_events in Hout.
  exact (add_time_loop_in_vocabulary _ _ _ Hevs _ _ _ (Forall_nil_2 _) Hout).
Qed.

End StructuredVocabulary.

(** Witness of X22: a token of a duration. *)
Lemma vocabulary_tokens_split_into_graph_types_witness :
  ∃ ty val,
    split_token "Duration_4.0.8" = Ok (ty, val)
    ∧ token_type "Duration_4.0.8" = ty
    ∧ is_Some
        (StructuredGraph._create_token_types_graph
           (Examples.structured_cfg false) !! ty).
Proof.
  apply (vocabulary_tokens_split_into_graph_types
           (Examples.structured_cfg false) Examples.structured_attributes
           "Duration_4.0.8").
  decide_closed.
Defined.

Lemma structured_table_of_durations b :
  StructuredVocab.table_of_durations (Examples.structured_cfg b)
    Examples.structured_attributes.
Proof.
  intros tpb ticks val H. unfold Structured.ticks_to_token in H.
  cbn [Structured._tpb_ticks_to_tokens Examples.structured_cfg] in H.
  apply bind_ok_inv in H as (tab & Htab & H).
  destruct (({[480 := _]} : gmap Z (gmap Z string)) !! tpb) as [tab'|] eqn:Hl;
    [|discriminate].
  injection Htab as ->. apply lookup_singleton_Some in Hl as [_ <-].
  destruct (list_to_map (M := gmap Z string)
              [(240, "0.4.8"); (480, "1.0.8"); (1920, "4.0.8")] !! ticks)
    as [v|] eqn:Hv; [|discriminate].
  injection H as ->. apply elem_of_list_to_map_2 in Hv.
  apply elem_of_cons in Hv as [[= -> ->]|Hv];
    [exists (0, 4, 8); split; [decide_closed|reflexivity]|].
  apply elem_of_cons in Hv as [[= -> ->]|Hv];
    [exists (1, 0, 8); split; [decide_closed|reflexivity]|].
  apply elem_of_cons in Hv as [[= -> ->]|Hv];
    [exists (4, 0, 8); split; [decide_closed|reflexivity]|].
  inversion Hv.
Qed.

(** Witness of X23: the two notes of [gap_track 480]. *)
Lemma track_tokens_in_vocabulary_witness :
  Forall (λ e, token_of_event e
               ∈ StructuredVocab._create_base_vocabulary
                   (Examples.structured_cfg false)
                   Examples.structured_attributes)
    Examples.separate_events.
Proof.
  apply (track_tokens_in_vocabulary (Examples.structured_cfg false)
           Examples.structured_attributes (structured_table_of_durations false)
           (Examples.gap_track 480) Examples.separate_events).
  - repeat constructor; decide_closed.
  - intros _. decide_closed.
  - reflexivity.
Defined.

(** ** The time events of the encoder, read by the decoder *)

Section MIDILikeTimeSpan.

Import MIDILike MIDILikeSpec.

Lemma split_app_char (sep : ascii) (x y : string) :
  Py.split sep x = [x] →
  Py.split sep (x +:+ String sep y) = x :: Py.split sep y.
Proof.
  revert y. induction x as [|c x IH]; intros y Hx.
  - change ("" +:+ String sep y) with (String sep y).
    cbn [Py.split]. now rewrite Ascii.eqb_refl.
  - change (String c x +:+ String sep y) with (String c (x +:+ String sep y)).
    cbn [Py.split] in Hx |- *.
    destruct (Ascii.eqb c sep); [discriminate|].
    destruct (Py.split sep x) as [|h t] eqn:Hs.
    + injection Hx as <-. discriminate.
    + injection Hx as -> ->. now rewrite IH.
Qed.

Lemma pretty_go_no_char (sep : ascii) (x : N) :
  (∀ d, Ascii.eqb (pretty_N_char d) sep = false) →
  ∀ s, Py.split sep s = [s] →
       Py.split sep (pretty_N_go x s) = [pretty_N_go x s].
Proof.
  intros Hsep. induction (N.lt_wf_0 x) as [x _ IH]. intros s Hs.
  destruct (N.eq_dec x 0%N) as [->|Hx]; [now rewrite pretty_N_go_0|].
  rewrite pretty_N_go_step by lia. apply IH; [apply N.div_lt; lia|].
  cbn [Py.split]. now rewrite Hsep, Hs.
Qed.

(** The printed form of an integer holds no dot. *)
Lemma pretty_no_dot (z : Z) : Py.split "." (pretty z) = [pretty z].
Proof.
  assert (Hd : ∀ d, Ascii.eqb (pretty_N_char d) "." = false).
  { intros d. unfold pretty_N_char. repeat case_match; reflexivity. }
  destruct z as [|p|p].
  - reflexivity.
  - now apply pretty_go_no_char.
  - change (pretty (Z.neg p)) with (String "-" (pretty_N_go (N.pos p) "")).
    cbn [Py.split]. change (Ascii.eqb "-" ".") with false. cbv iota.
    now rewrite (pretty_go_no_char "." (N.pos p) Hd "" eq_refl).
Qed.

(** The printed form of a duration holds no underscore. *)
Lemma duration_text_no_sep dv :
  Py.split "_" (duration_text dv) = [duration_text dv].
Proof.
  unfold duration_text. induction dv as [|x dv IH]; [reflexivity|].
  cbn [map String.concat]. destruct dv as [|y dv]; [apply pretty_no_sep|].
  apply split_no_sep_app; [apply pretty_no_sep|].
  apply split_no_sep_app; [reflexivity|exact IH].
Qed.

Variable cfg : Config.
Variable td : Z.

(** The decoder advances its cursor on the token of a time event by the
    ticks that the value of the token converts to. *)
Lemma decode_time_token md seq si ti ty dv dt st :
  ty = "TimeShift" ∨ ty = "Rest" →
  _token_duration_to_ticks cfg (DurVal (VStr (duration_text dv))) td = Ok dt →
  decode_token cfg md td seq si ti (ty +:+ String "_" (duration_text dv)) st
  = Ok (set_tick st (current_tick st + dt)).
Proof.
  intros Hty Hdt. unfold decode_token.
  assert (Hsp : split_token (ty +:+ String "_" (duration_text dv))
                = Ok (ty, duration_text dv)).
  { apply split_typed_token; [|apply duration_text_no_sep].
    now destruct Hty as [->| ->]. }
  rewrite (bind_ok _ _ _ Hsp).
  destruct Hty as [->| ->];
    change (in_types _ ["TimeShift"; "Rest"]) with true; cbv iota;
    now rewrite (bind_ok _ _ _ Hdt).
Qed.

Lemma decode_tokens_app md seq si l1 :
  ∀ l2 ti st,
    decode_tokens cfg md td seq si (l1 ++ l2) ti st
    = (st1 ← decode_tokens cfg md td seq si l1 ti st;
       decode_tokens cfg md td seq si l2 (ti + length l1) st1).
Proof.
  induction l1 as [|tok l1 IH]; intros l2 ti st.
  - cbn [app decode_tokens length]. rewrite (bind_ok _ _ _ eq_refl).
    now rewrite Nat.add_0_r.
  - cbn [app decode_tokens length].
    destruct (decode_token cfg md td seq si ti tok st) as [st1|e];
      [|reflexivity].
    rewrite !(bind_ok _ _ _ eq_refl), IH.
    now replace (S ti + length l1)%nat with (ti + S (length l1))%nat by lia.
Qed.

(** The events of one call of [_ticks_to_duration_tokens], and what the
    decoder does on their tokens. *)
Lemma emit_durations_decode ty f durs :
  ty = "TimeShift" ∨ ty = "Rest" →
  Forall (λ d : list Z * Z,
            _token_duration_to_ticks cfg
              (DurVal (VStr (duration_text (fst d)))) td = Ok (snd d)) durs →
  ∀ pt acc,
    ∃ E, emit_durations ty f durs pt acc
         = (acc ++ E, pt + foldr Z.add 0 (map snd durs))
         ∧ ∀ md seq si ti st,
             decode_tokens cfg md td seq si (map token_of_event E) ti st
             = Ok (set_tick st
                     (current_tick st + foldr Z.add 0 (map snd durs))).
Proof.
  intros Hty Hall. induction Hall as [|[dv dt] r Hd Hr IH]; intros pt acc.
  - exists []. cbn [emit_durations map foldr]. rewrite app_nil_r, Z.add_0_r.
    split; [reflexivity|]. intros md seq si ti st. cbn [map decode_tokens].
    rewrite Z.add_0_r. now destruct st.
  - cbn [emit_durations].
    destruct (IH (pt + dt)
                (acc ++ [mkEvent ty (VStr (String.concat "." (map pretty dv)))
                           pt (f pt)])) as (E & -> & Hdec).
    eexists (_ :: E). rewrite <- app_assoc. cbn [map foldr snd]. split.
    + cbn [app]. f_equal. lia.
    + intros md seq si ti st. cbn [map decode_tokens].
      change (token_of_event
                (mkEvent ty (VStr (String.concat "." (map pretty dv))) pt
                   (f pt)))
        with (ty +:+ String "_" (duration_text dv)).
      rewrite (decode_time_token md seq si ti ty dv dt st Hty Hd).
      rewrite (bind_ok _ _ _ eq_refl), Hdec.
      cbn [current_tick set_tick]. unfold set_tick. cbn. do 2 f_equal. lia.
Qed.

Hypothesis Hexact : durations_exact cfg td.

(** X24.  One event through the loop of [_add_time_events], when the
    two duration methods of the parent class agree.  The time events
    added in front of the event move the cursor of the decoder by the
    distance from [shift_origin] to the tick of the event: from the tick
    of the event before when no rest is due, so that the decoder is then
    at the tick of the event; but from the end of the last note when a
    rest is due, whatever the tick of the event before is. *)
Theorem time_events_span ev rest t pne acc :
  shift_origin cfg (time ev) t pne <= time ev →
  ∃ G pne',
    add_time_loop cfg (ev :: rest) t pne acc
    = add_time_loop cfg rest (time ev) pne' (acc ++ G ++ [ev])
    ∧ ∀ md seq si ti st,
        decode_tokens cfg md td seq si (map token_of_event G) ti st
        = Ok (set_tick st
                (current_tick st
                 + (time ev - shift_origin cfg (time ev) t pne))).
Proof.
  destruct Hexact as (Hconv & Hshift & Hrest).
  unfold shift_origin. intros Hle. cbn [add_time_loop].
  destruct (Z.eqb_spec (time ev) t) as [Heq|Hne]; cbn [negb andb] in Hle |- *.
  - exists []. eexists. rewrite Heq at 2. split; [reflexivity|].
    intros md seq si ti st. cbn [map decode_tokens].
    rewrite Heq, Z.sub_diag, Z.add_0_r. now destruct st.
  - destruct (use_rests cfg && (time ev - pne >=? _min_rest cfg)) eqn:Hr.
    + destruct (emit_durations_decode "Rest" (λ pt, time ev - pt)
                  (_ticks_to_duration_tokens cfg (time ev - pne) true)
                  (or_intror eq_refl) (Hconv _ _) pne acc) as (R & -> & HR).
      specialize (Hrest (time ev - pne) ltac:(lia)).
      set (sr := foldr Z.add 0
                   (map snd (_ticks_to_duration_tokens cfg (time ev - pne)
                               true))) in *.
      destruct (Z.eqb_spec (time ev) (pne + sr)) as [Heq|Hne']; cbn [negb].
      * exists R. eexists. rewrite <- app_assoc. split; [reflexivity|].
        intros md seq si ti st. rewrite HR. do 2 f_equal. lia.
      * destruct (emit_durations_decode "TimeShift"
                    (λ _, time ev - (pne + sr))
                    (_ticks_to_duration_tokens cfg (time ev - (pne + sr))
                       false)
                    (or_introl eq_refl) (Hconv _ _) (pne + sr) (acc ++ R))
          as (E & -> & HE).
        rewrite (Hshift (time ev - (pne + sr))) in HE by lia.
        cbn [fst]. exists (R ++ E). eexists. rewrite <- !app_assoc.
        split; [reflexivity|]. intros md seq si ti st.
        rewrite map_app, decode_tokens_app, HR, (bind_ok _ _ _ eq_refl), HE.
        cbn [current_tick set_tick]. unfold set_tick. cbn. do 2 f_equal. lia.
    + destruct (emit_durations_decode "TimeShift" (λ _, time ev - t)
                  (_ticks_to_duration_tokens cfg (time ev - t) false)
                  (or_introl eq_refl) (Hconv _ _) t acc) as (E & -> & HE).
      rewrite (Hshift (time ev - t)) in HE by lia.
      destruct (Z.eqb_spec (time ev) t) as [Heq|_]; [contradiction|].
      cbn [negb fst]. exists E. eexists. rewrite <- app_assoc.
      split; [reflexivity|exact HE].
Qed.

End MIDILikeTimeSpan.

(** The durations in 480th of a beat are exact at 480 ticks per beat. *)
Lemma rests_cfg_exact : MIDILikeSpec.durations_exact Examples.rests_cfg 480.
Proof.
  unfold MIDILikeSpec.durations_exact.
  cbn [MIDILike._ticks_to_duration_tokens MIDILike._token_duration_to_ticks
       Examples.rests_cfg].
  unfold Examples.fine_duration_tokens. split_and!.
  - intros gap _. destruct (Z.leb_spec gap 0); constructor; [|constructor].
    cbn [fst snd]. unfold Examples.duration_ticks, MIDILikeSpec.duration_text.
    cbn [map String.concat].
    change (pretty (gap / 480) +:+ "." +:+ pretty (gap mod 480) +:+ "."
            +:+ pretty 480)
      with (pretty (gap / 480)
            +:+ String "." (pretty (gap mod 480) +:+ String "." (pretty 480))).
    rewrite !split_app_char, pretty_no_dot by apply pretty_no_dot.
    rewrite !int_pretty. cbn [Py.bind mbind result_bind].
    change (480 =? 0) with false. cbv iota. f_equal.
    rewrite Z.div_mul by lia. pose proof (Z.div_mod gap 480). lia.
  - intros gap Hgap. destruct (Z.leb_spec gap 0); [lia|].
    cbn [map snd foldr]. lia.
  - intros gap Hgap. destruct (Z.leb_spec gap 0); cbn [map snd foldr]; lia.
Qed.

(** Witness of X24: with rests of at least one beat, an event at tick
    1920 that comes after an event at tick 960 while the last note ended
    at tick 0 gets time events of 1920 ticks. *)
Lemma time_events_span_witness :
  ∃ G pne',
    MIDILike.add_time_loop Examples.rests_cfg
      [mkEvent "NoteOn" (VInt 60) 1920 2400] 960 0 []
    = MIDILike.add_time_loop Examples.rests_cfg [] 1920 pne'
        ([] ++ G ++ [mkEvent "NoteOn" (VInt 60) 1920 2400])
    ∧ ∀ md seq si ti st,
        MIDILike.decode_tokens Examples.rests_cfg md 480 seq si
          (map token_of_event G) ti st
        = Ok (MIDILike.set_tick st (MIDILike.current_tick st + 1920)).
Proof.
  apply (time_events_span Examples.rests_cfg 480 rests_cfg_exact
           (mkEvent "NoteOn" (VInt 60) 1920 2400) [] 960 0 []).
  vm_compute. discriminate.
Defined.

(** ** Decoding any sequence of tokens of the vocabulary *)

Section StructuredTotal.

Import Structured StructuredVocab.

Variable cfg : Config.
Variable a : Attributes.

Hypothesis Hcover : table_covers cfg a.
Hypothesis Hcreate : tracks_creatable cfg a.

Lemma split_typed_value (ty val : string) :
  Py.split "_" ty = [ty] → Py.split "_" val = [val] →
  token_value (ty +:+ String "_" val) = Ok val.
Proof.
  intros Hty Hval. unfold token_value.
  now rewrite (split_app_sep _ _ Hty), Hval.
Qed.

(** The note of a [Pitch] token is appended, or the attempt raises
    [IndexError], which the decoder catches. *)
Lemma add_note_total st n :
  decoder_ready cfg a st →
  (∃ st', add_note cfg st n = Ok st' ∧ decoder_ready cfg a st')
  ∨ add_note cfg st n = Raise IndexError.
Proof.
  intros [Hp Hi]. unfold add_note.
  assert (Hcase : one_token_stream cfg = true ∨ one_token_stream cfg = false)
    by (destruct (one_token_stream cfg); auto).
  destruct Hcase as [Hone|Hone]; rewrite Hone.
  - unfold check_inst.
    destruct (ODict.mem (instruments st) (current_program st)) eqn:Hmem.
    + left. rewrite (bind_ok _ _ _ eq_refl).
      apply odict_mem_get in Hmem as [tr Htr]. rewrite Htr.
      cbn [Py.of_option]. rewrite (bind_ok _ _ _ eq_refl).
      eexists. split; [reflexivity|]. split; [exact Hp|congruence].
    + pose proof (Hcreate _ Hp) as Hc. rewrite Hone in Hc.
      destruct Hc as [[t ->]| ->]; [left|now right].
      rewrite !(bind_ok _ _ _ eq_refl), odict_get_set_eq.
      cbn [Py.of_option]. rewrite (bind_ok _ _ _ eq_refl).
      eexists. split; [reflexivity|]. split; [exact Hp|congruence].
  - destruct (Hi Hone) as [tr Htr]. rewrite Htr. cbn [Py.of_option].
    left. rewrite (bind_ok _ _ _ eq_refl). eexists. split; [reflexivity|].
    split; [exact Hp|]. intros _. now eexists.
Qed.

(** The type and the value of a token of the vocabulary. *)
Lemma vocabulary_token_parts tok :
  tok ∈ _create_base_vocabulary cfg a →
  ∃ ty val,
    tok = ty +:+ String "_" val
    ∧ Py.split "_" ty = [ty] ∧ Py.split "_" val = [val]
    ∧ ((ty = "Pitch" ∧ ∃ i : Z, val = pretty i)
       ∨ (ty = "Velocity" ∧ ∃ i : Z, val = pretty i)
       ∨ (ty = "Duration" ∧ ∃ d, d ∈ durations a ∧ val = duration_value d)
       ∨ (ty = "TimeShift"
          ∧ (val = "0.0.1"
             ∨ ∃ d, d ∈ durations a ∧ val = duration_value d))
       ∨ (ty = "Program" ∧ use_programs cfg = true
          ∧ ∃ p : Z, p ∈ programs a ∧ val = pretty p)).
Proof.
  intros H. apply vocabulary_cases in H.
  destruct H as [(i & -> & _)|[(i & -> & _)|[(d & -> & Hd)|[->|[(d & -> & Hd)
                |(Hp & p & -> & Hq)]]]]].
  - exists "Pitch", (pretty i).
    split_and!; [reflexivity..|apply pretty_no_sep|]. left. eauto.
  - exists "Velocity", (pretty i).
    split_and!; [reflexivity..|apply pretty_no_sep|]. right; left. eauto.
  - exists "Duration", (duration_value d).
    split_and!; [reflexivity..|apply duration_value_no_sep|].
    right; right; left. eauto.
  - exists "TimeShift", "0.0.1". split_and!; [reflexivity..|].
    right; right; right; left. eauto.
  - exists "TimeShift", (duration_value d).
    split_and!; [reflexivity..|apply duration_value_no_sep|].
    right; right; right; left. eauto.
  - exists "Program", (pretty p).
    split_and!; [reflexivity..|apply pretty_no_sep|].
    right; right; right; right. eauto.
Qed.

Lemma vocabulary_velocity tok :
  tok ∈ _create_base_vocabulary cfg a → token_type tok = "Velocity" →
  ∃ v : Z, token_value tok = Ok (pretty v).
Proof.
  intros H Hty.
  apply vocabulary_token_parts in H as (ty & val & -> & Hs & Hv & Hc).
  rewrite (proj2 (split_typed_token ty val Hs Hv)) in Hty. subst ty.
  rewrite (split_typed_value _ _ Hs Hv).
  destruct Hc as [[? _]|[[_ [v ->]]|[[? _]|[[? _]|[? _]]]]];
    try discriminate.
  now exists v.
Qed.

Lemma vocabulary_duration tok :
  tok ∈ _create_base_vocabulary cfg a → token_type tok = "Duration" →
  ∃ d, d ∈ durations a ∧ token_value tok = Ok (duration_value d).
Proof.
  intros H Hty.
  apply vocabulary_token_parts in H as (ty & val & -> & Hs & Hv & Hc).
  rewrite (proj2 (split_typed_token ty val Hs Hv)) in Hty. subst ty.
  rewrite (split_typed_value _ _ Hs Hv).
  destruct Hc as [[? _]|[[? _]|[[_ (d & Hd & ->)]|[[? _]|[? _]]]]];
    try discriminate.
  now exists d.
Qed.

(** The body of the [try] of a [Pitch] token either returns or raises
    [IndexError]. *)
Lemma pitch_body_total seq ti (i : Z) st :
  Forall (λ tok, tok ∈ _create_base_vocabulary cfg a) seq →
  seq !! ti = Some ("Pitch" +:+ String "_" (pretty i)) →
  decoder_ready cfg a st →
  (∃ st', pitch_body cfg seq ti st = Ok st' ∧ decoder_ready cfg a st')
  ∨ pitch_body cfg seq ti st = Raise IndexError.
Proof.
  intros Hseq Htok Hst. unfold pitch_body, Py.index.
  destruct (seq !! (ti + 1)%nat) as [tok1|] eqn:H1; [|now right].
  cbn [Py.of_option]. rewrite (bind_ok _ _ _ eq_refl).
  destruct (String.eqb_spec (token_type tok1) "Velocity") as [Hty1|_];
    [|left; now exists st].
  destruct (seq !! (ti + 2)%nat) as [tok2|] eqn:H2; [|now right].
  cbn [Py.of_option]. rewrite (bind_ok _ _ _ eq_refl).
  destruct (String.eqb_spec (token_type tok2) "Duration") as [Hty2|_];
    [|left; now exists st].
  rewrite Htok. cbn [Py.of_option]. rewrite (bind_ok _ _ _ eq_refl).
  rewrite (split_typed_value "Pitch" (pretty i) eq_refl (pretty_no_sep i)).
  rewrite (bind_ok _ _ _ eq_refl), int_pretty, (bind_ok _ _ _ eq_refl).
  destruct (vocabulary_velocity tok1 (Forall_lookup_1 _ _ _ _ Hseq H1) Hty1)
    as (v & ->).
  rewrite (bind_ok _ _ _ eq_refl), int_pretty, (bind_ok _ _ _ eq_refl).
  destruct (vocabulary_duration tok2 (Forall_lookup_1 _ _ _ _ Hseq H2) Hty2)
    as (d & Hd & ->).
  rewrite (bind_ok _ _ _ eq_refl).
  destruct (Hcover d Hd) as [ticks ->]. rewrite (bind_ok _ _ _ eq_refl).
  now apply add_note_total.
Qed.

(** One token of the vocabulary never makes the decoder raise. *)
Lemma decode_token_total seq ti tok st :
  Forall (λ tok, tok ∈ _create_base_vocabulary cfg a) seq →
  seq !! ti = Some tok →
  decoder_ready cfg a st →
  ∃ st', decode_token cfg seq ti tok st = Ok st' ∧ decoder_ready cfg a st'.
Proof.
  intros Hseq Htok Hst.
  destruct (vocabulary_token_parts tok (Forall_lookup_1 _ _ _ _ Hseq Htok))
    as (ty & val & -> & Hs & Hv & Hc).
  unfold decode_token.
  rewrite (proj1 (split_typed_token ty val Hs Hv)), (bind_ok _ _ _ eq_refl).
  destruct Hc as [[-> [i ->]]|[[-> _]|[[-> _]|[[-> Hval]|(-> & Hp & p & Hq
                                                            & ->)]]]].
  - change (String.eqb "Pitch" "TimeShift") with false.
    change (String.eqb "Pitch" "Pitch") with true. cbn [andb].
    destruct (pitch_body_total seq ti i st Hseq Htok Hst)
      as [(st' & -> & Hst')| ->].
    + now exists st'.
    + exists st. split; [apply try_except_pass_same|exact Hst].
  - exists st. now split.
  - exists st. now split.
  - change (String.eqb "TimeShift" "TimeShift") with true. cbn [andb].
    destruct (String.eqb val "0.0.1") eqn:Hzero; cbn [negb].
    + exists st. now split.
    + destruct Hval as [->|(d & Hd & ->)]; [discriminate|].
      destruct (Hcover d Hd) as [ticks ->]. rewrite (bind_ok _ _ _ eq_refl).
      eexists. split; [reflexivity|exact Hst].
  - change (String.eqb "Program" "TimeShift") with false.
    change (String.eqb "Program" "Pitch") with false.
    change (String.eqb "Program" "Program") with true. cbn [andb].
    rewrite int_pretty, (bind_ok _ _ _ eq_refl).
    eexists. split; [reflexivity|]. destruct Hst as [_ Hi].
    split; [right; now split|exact Hi].
Qed.

Lemma decode_tokens_total seq rest :
  Forall (λ tok, tok ∈ _create_base_vocabulary cfg a) seq →
  ∀ ti st,
    drop ti seq = rest → decoder_ready cfg a st →
    ∃ st', decode_tokens cfg seq rest ti st = Ok st' ∧ decoder_ready cfg a st'.
Proof.
  intros Hseq. induction rest as [|tok rest IH]; intros ti st Hdrop Hst.
  - now exists st.
  - assert (Htok : seq !! ti = Some tok).
    { rewrite <- (Nat.add_0_r ti), <- lookup_drop, Hdrop. reflexivity. }
    destruct (decode_token_total seq ti tok st Hseq Htok Hst)
      as (st1 & H1 & Hst1).
    destruct (IH (S ti) st1) as (st' & H & Hst'); [|exact Hst1|].
    { rewrite (drop_S _ _ _ Htok) in Hdrop. now injection Hdrop. }
    exists st'. cbn [decode_tokens]. now rewrite (bind_ok _ _ _ H1).
Qed.

Lemma decode_seq_total si seq st :
  Forall (λ tok, tok ∈ _create_base_vocabulary cfg a) seq →
  program_known cfg a (current_program st) →
  ∃ st', decode_seq cfg None si seq st = Ok st'
         ∧ program_known cfg a (current_program st').
Proof.
  intros Hseq Hp. unfold decode_seq.
  assert (Hcase : one_token_stream cfg = true ∨ one_token_stream cfg = false)
    by (destruct (one_token_stream cfg); auto).
  destruct Hcase as [Hone|Hone]; rewrite Hone; cbn [negb].
  - rewrite (bind_ok _ _ _ eq_refl).
    destruct (decode_tokens_total seq seq Hseq 0 st eq_refl)
      as (st2 & -> & [Hp2 _]).
    { split; [exact Hp|congruence]. }
    rewrite (bind_ok _ _ _ eq_refl). now exists st2.
  - rewrite (bind_ok _ _ _ eq_refl).
    pose proof (Hcreate _ Hp) as Hc. rewrite Hone in Hc.
    destruct Hc as [tr ->].
    rewrite !(bind_ok _ _ _ eq_refl).
    destruct (decode_tokens_total seq seq Hseq 0
                (mkState 0 (current_program st) (instruments st) (Some tr)
                   (midi_tracks st)) eq_refl)
      as (st2 & -> & [Hp2 Hi2]).
    { split; [exact Hp|]. intros _. now eexists. }
    rewrite (bind_ok _ _ _ eq_refl).
    destruct (Hi2 Hone) as [tr2 ->]. cbn [Py.of_option].
    rewrite (bind_ok _ _ _ eq_refl). eexists. split; [reflexivity|exact Hp2].
Qed.

Lemma decode_seqs_total tokens :
  Forall (Forall (λ tok, tok ∈ _create_base_vocabulary cfg a)) tokens →
  ∀ si st,
    program_known cfg a (current_program st) →
    ∃ st', decode_seqs cfg None tokens si st = Ok st'.
Proof.
  induction 1 as [|seq tokens Hseq _ IH]; intros si st Hp.
  - now exists st.
  - destruct (decode_seq_total si seq st Hseq Hp) as (st1 & H1 & Hp1).
    destruct (IH (S si) st1 Hp1) as [st' H]. exists st'.
    cbn [decode_seqs]. now rewrite (bind_ok _ _ _ H1).
Qed.


End StructuredTotal.

Lemma structured_table_covers cfg a :
  Structured._tpb_tokens_to_ticks cfg
  = Structured._tpb_tokens_to_ticks (Examples.structured_cfg true) →
  Structured.time_division cfg = 480 →
  StructuredVocab.durations a = [(0, 4, 8); (1, 0, 8); (4, 0, 8)] →
  StructuredVocab.table_covers cfg a.
Proof.
  intros Htab Htd Hdur d Hd. unfold Structured.token_to_ticks.
  rewrite Htab, Htd. rewrite Hdur in Hd.
  repeat (apply elem_of_cons in Hd as [->|Hd];
          [eexists; vm_compute; reflexivity|]).
  inversion Hd.
Qed.

Lemma structured_tracks_creatable cfg a :
  Structured.MIDI_INSTRUMENTS cfg = replicate 128 "Instrument" →
  Forall (λ p, Py.is_ok
                 (if Structured.one_token_stream cfg
                  then new_inst_track (replicate 128 "Instrument") p
                  else new_seq_track (replicate 128 "Instrument") p false)
               = true)
    (0 :: StructuredVocab.programs a) →
  StructuredVocab.tracks_creatable cfg a.
Proof.
  intros Hinst Hall p Hp. rewrite Hinst.
  assert (Hin : p ∈ 0 :: StructuredVocab.programs a).
  { destruct Hp as [->|[_ Hp]]; [now left|now right]. }
  rewrite Forall_forall in Hall. specialize (Hall p Hin).
  destruct (Structured.one_token_stream cfg).
  - left. destruct (new_inst_track _ p) as [t|]; [now exists t|discriminate].
  - destruct (new_seq_track _ p false) as [t|]; [now exists t|discriminate].
Qed.

